(** * Hierarchical timing-annotation engine of the karaoke editor

    A shallow embedding of the non-visual logic of
    [src/components/LyricsInputPage.jsx] (the timing page: export
    cleanup, bubble-up propagation, timestamp recording, unlock rule,
    time-to-token lookup) and of [src/components/LyricsPlaybackScreen.jsx]
    (linear fallback timing and per-token progress).

    Conventions of the embedding.
    - Timestamps stored in the document are JavaScript numbers that were
      produced by [Math.round]; they are modelled as [Z].
    - Clock values and the results of arithmetic are JavaScript numbers,
      that is IEEE 754 binary64 numbers.  A finite number is modelled as the
      rational [Q] it denotes, and every product, quotient, sum and
      difference the source computes is rounded to the nearest binary64
      number as the processor does it ([Double.mul], [Double.div],
      [Double.add], [Double.sub]).  An argument of type [Q] (a clock value,
      the audio length) may be any rational; the binary64 numbers are among
      them.  [NaN] and the infinities are not numbers of the model: where
      the source can produce one (a division by zero) the model says so at
      the place; a result whose magnitude reaches [2 ^ 1024], which the
      processor turns into an infinity, is outside the model.
    - [Math_round] is rounding half up, as in JavaScript.
    - A string is the sequence of its UTF-16 code units, for code units
      below 256; [String.length], [split('')] and [trim] work on them.
    - A [words] or [chars] field that may be missing is an [option].
    - A JavaScript exception is the [Throw] completion. *)

From Stdlib Require Import ZArith QArith Qround Qminmax Qabs Qpower Lqa Lia.
From Stdlib Require Import String Ascii.
From stdpp Require Import base list strings pretty.

Local Open Scope Z_scope.

(** ** JavaScript helpers *)

(** [Math.round]: the nearest integer, halves rounded up. *)
Definition Math_round (x : Q) : Z := Qfloor (x + (1 # 2))%Q.

(** [a || b] on numbers: [a] unless it is [0]. *)
Definition jsor (a b : Z) : Z := if a =? 0 then b else a.

Definition Qlt_bool (x y : Q) : bool := negb (Qle_bool y x).

(** ** JavaScript numbers *)

Module Double.
Local Open Scope Q_scope.

(** The exponent of the binade of a positive rational: the [l] with
    [2 ^ l <= x < 2 ^ (l + 1)]. *)
Definition ilog2 (x : Q) : Z :=
  let a := (Z.log2 (Qnum x) - Z.log2 (Zpos (Qden x)))%Z in
  if Qle_bool (2 ^ a) x then a else (a - 1)%Z.

(** The exponent of the last place of the binary64 numbers around [x]: 53
    bits of precision, and never below the subnormal exponent [-1074]. *)
Definition exponent (x : Q) : Z := Z.max (-1074) (ilog2 (Qabs x) - 52).

(** The nearest integer, the even one of the two at a tie. *)
Definition roundEven (q : Q) : Z :=
  let f := Qfloor q in
  match Qcompare (q - inject_Z f) (1 # 2) with
  | Lt => f
  | Gt => (f + 1)%Z
  | Eq => if Z.even f then f else (f + 1)%Z
  end.

(** The binary64 number nearest to [x], ties to even. *)
Definition fl (x : Q) : Q :=
  let e := exponent x in inject_Z (roundEven (x / 2 ^ e)) * 2 ^ e.

(** [x + y], [x - y], [x * y] and [x / y] on numbers.  [div] is used with
    a divisor that is not zero only. *)
Definition add (x y : Q) : Q := fl (x + y).
Definition sub (x y : Q) : Q := fl (x - y).
Definition mul (x y : Q) : Q := fl (x * y).
Definition div (x y : Q) : Q := fl (x / y).

(** The relative error of one rounding, and its absolute error among the
    subnormal numbers. *)
Definition u : Q := 1 # (2 ^ 53).
Definition eta : Q := 2 ^ (-1075).

End Double.

Inductive Completion (A : Type) : Type :=
| Normal (a : A)
| Throw (e : string).
Arguments Normal {A} a.
Arguments Throw {A} e.

Definition TypeError : string := "TypeError".

(** ** Data model *)

Record Token := mkToken {
  text : string;
  start : Z;
  end_ : Z;
  voice : Z;
  position : string
}.

Record Word := mkWord { word_tok : Token; chars : option (list Token) }.
Record Line := mkLine { line_tok : Token; words : option (list Word) }.
Record Block := mkBlock { block_tok : Token; lines : list Line }.

Record Voice := mkVoice {
  id : Z;
  name : string;
  default_position : string;
  color : string
}.

Record Document := mkDocument {
  version : string;
  audioFile : option string;
  voices : list Voice;
  blocks : list Block
}.

Definition set_text (t : Token) (s : string) : Token :=
  mkToken s (start t) (end_ t) (voice t) (position t).
Definition set_start (t : Token) (z : Z) : Token :=
  mkToken (text t) z (end_ t) (voice t) (position t).
Definition set_end (t : Token) (z : Z) : Token :=
  mkToken (text t) (start t) z (voice t) (position t).
Definition set_voice (t : Token) (v : Z) : Token :=
  mkToken (text t) (start t) (end_ t) v (position t).

Definition set_blocks (d : Document) (bs : list Block) : Document :=
  mkDocument (version d) (audioFile d) (voices d) bs.

(** The two stamps of a token. *)
Definition stamps (t : Token) : Z * Z := (start t, end_ t).

(** ** Export cleanup ([cleanupTimingData]) *)

Module Cleanup.

(** [typeof t.start === 'number' && typeof t.end === 'number' &&
    (t.start !== 0 || t.end !== 0)] *)
Definition isTimed (t : Token) : bool :=
  negb (start t =? 0) || negb (end_ t =? 0).

Section Level.
(** The three levels of the source repeat one piece of code; [tok] and
    [retok] read and replace the token fields of a child of that level. *)
Context {A : Type} (tok : A -> Token) (retok : A -> Token -> A).

Definition timed (children : list A) : list A :=
  List.filter (fun child => isTimed (tok child)) children.

(** The stamps of child [index] out of [tokenCount]:
    [Math.round(parent.start + index * tokenDuration)] and
    [Math.round(parent.start + (index + 1) * tokenDuration)] with
    [tokenDuration = (parent.end - parent.start) / tokenCount]. *)
Definition share (parent : Token) (tokenCount index : nat) : Z * Z :=
  let totalDuration :=
    Double.sub (inject_Z (end_ parent)) (inject_Z (start parent)) in
  let tokenDuration :=
    Double.div totalDuration (inject_Z (Z.of_nat tokenCount)) in
  let startTime :=
    Double.add (inject_Z (start parent))
               (Double.mul (inject_Z (Z.of_nat index)) tokenDuration) in
  let endTime :=
    Double.add (inject_Z (start parent))
               (Double.mul (inject_Z (Z.of_nat index + 1)) tokenDuration) in
  (Math_round startTime, Math_round endTime).

(** [children.map((child, index) => ({...child, start: ..., end: ...,
    voice: ...}))] *)
Definition interpolate (inherit : Token -> Z) (parent : Token)
    (children : list A) : list A :=
  imap (fun index child =>
    let se := share parent (length children) index in
    retok child
      (mkToken (text (tok child)) (fst se) (snd se)
               (inherit (tok child)) (position (tok child))))
    children.
End Level.

Definition retok_line (l : Line) (t : Token) : Line := mkLine t (words l).
Definition retok_word (w : Word) (t : Token) : Word := mkWord t (chars w).
Definition retok_char (_ : Token) (t : Token) : Token := t.

(** Lines of a block (source lines 625-652). *)
Definition cleanLines (block : Block) : list Line :=
  let timedLines := timed line_tok (lines block) in
  if (length timedLines =? 0)%nat then lines block
  else if (length timedLines <? length (lines block))%nat then
    interpolate line_tok retok_line
      (fun line => jsor (voice line) (voice (block_tok block)))
      (block_tok block) (lines block)
  else lines block.

(** Characters of one word (source lines 689-718); [line] is the token of
    the enclosing line. *)
Definition cleanChars (line : Token) (word : Word) : Word :=
  match chars word with
  | None => word
  | Some cs =>
    let timedChars := timed (fun c => c) cs in
    if (length timedChars =? 0)%nat then mkWord (word_tok word) None
    else if (length timedChars <? length cs)%nat then
      mkWord (word_tok word)
        (Some (interpolate (fun c => c) retok_char
                 (fun char => jsor (jsor (voice char) (voice (word_tok word)))
                                   (voice line))
                 (word_tok word) cs))
    else word
  end.

(** Words of one line, then the characters of each remaining word
    (source lines 656-721). *)
Definition cleanWords (line : Line) : Line :=
  match words line with
  | None => line
  | Some ws =>
    let timedWords := timed word_tok ws in
    if (length timedWords =? 0)%nat then mkLine (line_tok line) None
    else
      let ws' :=
        if (length timedWords <? length ws)%nat then
          interpolate word_tok retok_word
            (fun word => jsor (voice word) (voice (line_tok line)))
            (line_tok line) ws
        else ws in
      mkLine (line_tok line) (Some (map (cleanChars (line_tok line)) ws'))
  end.

(** The body of the first [cleanedData.blocks.forEach]. *)
Definition cleanBlock (block : Block) : Block :=
  mkBlock (block_tok block) (map cleanWords (cleanLines block)).

(** The second [forEach]: clear the text of tokens that have children. *)
Definition clearWord (word : Word) : Word :=
  match chars word with
  | Some (_ :: _) => mkWord (set_text (word_tok word) "") (chars word)
  | _ => word
  end.

Definition clearLine (line : Line) : Line :=
  let line' :=
    match words line with
    | Some (_ :: _) => mkLine (set_text (line_tok line) "") (words line)
    | _ => line
    end in
  mkLine (line_tok line') (option_map (map clearWord) (words line')).

Definition clearBlock (block : Block) : Block :=
  let block' :=
    match lines block with
    | _ :: _ => mkBlock (set_text (block_tok block) "") (lines block)
    | [] => block
    end in
  mkBlock (block_tok block') (map clearLine (lines block')).

Definition cleanupTimingData (data : Document) : Document :=
  set_blocks data (map clearBlock (map cleanBlock (blocks data))).

End Cleanup.

(** ** Bubble-up propagation *)

Module Propagation.

(** [typeof x.start === 'number' && typeof x.end === 'number' &&
    x.start > 0 && x.end > 0] *)
Definition hasValidTiming (t : Token) : bool :=
  (0 <? start t) && (0 <? end_ t).

(** [Math.min(...xs)] and [Math.max(...xs)] of a list with first element
    [x]; the source calls them on non-empty lists only. *)
Definition Math_min (x : Z) (xs : list Z) : Z := fold_left Z.min xs x.
Definition Math_max (x : Z) (xs : list Z) : Z := fold_left Z.max xs x.

(** The body shared by the three update functions: [parent] is the block,
    line or word, [children] the tokens of its lines, words or chars. *)
Definition widen (parent : Token) (children : list Token) : Token :=
  match List.filter hasValidTiming children with
  | [] => parent
  | c :: cs =>
    let childStart := Math_min (start c) (map start cs) in
    let childEnd := Math_max (end_ c) (map end_ cs) in
    let shouldUpdateStart :=
      (start parent =? 0) || (childStart <? start parent) in
    let shouldUpdateEnd :=
      (end_ parent =? 0) || (end_ parent <? childEnd) in
    let parent' :=
      if shouldUpdateStart then set_start parent childStart else parent in
    if shouldUpdateEnd then set_end parent' childEnd else parent'
  end.

Definition blockFromLines (block : Block) : Block :=
  match lines block with
  | [] => block
  | ls => mkBlock (widen (block_tok block) (map line_tok ls)) ls
  end.

Definition updateBlockTimingFromLines (updatedData : Document) : Document :=
  set_blocks updatedData (map blockFromLines (blocks updatedData)).

Definition lineFromWords (line : Line) : Line :=
  match words line with
  | None | Some [] => line
  | Some ws => mkLine (widen (line_tok line) (map word_tok ws)) (Some ws)
  end.

Definition linesFromWords (block : Block) : Block :=
  mkBlock (block_tok block) (map lineFromWords (lines block)).

Definition updateParentTimingFromWords (updatedData : Document) : Document :=
  updateBlockTimingFromLines
    (set_blocks updatedData (map linesFromWords (blocks updatedData))).

Definition wordFromChars (word : Word) : Word :=
  match chars word with
  | None | Some [] => word
  | Some cs => mkWord (widen (word_tok word) cs) (Some cs)
  end.

Definition wordsFromChars (line : Line) : Line :=
  match words line with
  | None | Some [] => line
  | Some ws => mkLine (line_tok line) (Some (map wordFromChars ws))
  end.

Definition blockWordsFromChars (block : Block) : Block :=
  mkBlock (block_tok block) (map wordsFromChars (lines block)).

Definition updateParentTimingFromChars (updatedData : Document) : Document :=
  updateParentTimingFromWords
    (set_blocks updatedData (map blockWordsFromChars (blocks updatedData))).

End Propagation.

(** ** Editor session: flattened token lists and recording *)

Module Editor.

Inductive Mode := Blocks | Lines | Words | Chars.

Definition Mode_eqb (a b : Mode) : bool :=
  match a, b with
  | Blocks, Blocks | Lines, Lines | Words, Words | Chars, Chars => true
  | _, _ => false
  end.

(** ['start'] or ['end'], the [type] argument of [recordTimestamp]. *)
Inductive Stamp := StampStart | StampEnd.

(** The React state the engine reads.  [audioRef] tells whether the audio
    element is mounted, [paused] is [audio.paused]. *)
Record Session := mkSession {
  karaokeData : option Document;
  audioRef : bool;
  paused : bool;
  wKeyPressed : bool;
  syncLocked : bool;
  currentTime : Q;
  recordingMode : Mode;
  activeTokenIndex : nat;
  currentVoice : Z;
  unlockedModes : list Mode
}.

Definition set_karaokeData (s : Session) (d : Document) : Session :=
  mkSession (Some d) (audioRef s) (paused s) (wKeyPressed s) (syncLocked s)
            (currentTime s) (recordingMode s) (activeTokenIndex s)
            (currentVoice s) (unlockedModes s).
Definition set_activeTokenIndex (s : Session) (i : nat) : Session :=
  mkSession (karaokeData s) (audioRef s) (paused s) (wKeyPressed s)
            (syncLocked s) (currentTime s) (recordingMode s) i
            (currentVoice s) (unlockedModes s).
Definition set_currentTime (s : Session) (t : Q) : Session :=
  mkSession (karaokeData s) (audioRef s) (paused s) (wKeyPressed s)
            (syncLocked s) t (recordingMode s) (activeTokenIndex s)
            (currentVoice s) (unlockedModes s).
Definition set_unlockedModes (s : Session) (ms : list Mode) : Session :=
  mkSession (karaokeData s) (audioRef s) (paused s) (wKeyPressed s)
            (syncLocked s) (currentTime s) (recordingMode s)
            (activeTokenIndex s) (currentVoice s) ms.

(** An entry of the list built by [getTokensByMode].  [tv_start] and
    [tv_end] are [None] where the source writes [undefined]. *)
Record TokenView := mkView {
  type : Mode;
  index : nat;
  tv_text : string;
  tv_voice : Z;
  blockIndex : option nat;
  lineIndex : option nat;
  wordIndex : option nat;
  charIndex : option nat;
  tv_start : option Z;
  tv_end : option Z
}.

Definition newline : string := String (ascii_of_nat 10) EmptyString.
Definition space : ascii := ascii_of_nat 32.

(** [s.split(/( )/g)]: the pieces between single spaces, with the spaces
    themselves kept as pieces. *)
Fixpoint splitSpaces (piece : string) (s : string) : list string :=
  match s with
  | EmptyString => [piece]
  | String c s' =>
    if Ascii.eqb c space
    then piece :: String space EmptyString :: splitSpaces EmptyString s'
    else splitSpaces (piece ++ String c EmptyString)%string s'
  end.

(** [s.split('')] *)
Fixpoint splitChars (s : string) : list string :=
  match s with
  | EmptyString => []
  | String c s' => String c EmptyString :: splitChars s'
  end.

(** The array being filled by [push]; [index] is its length so far. *)
Definition push (acc : list TokenView) (mk : nat -> TokenView) : list TokenView :=
  acc ++ [mk (length acc)].

Definition wordsOfLine (bi li : nat) (line : Line) (acc : list TokenView)
    : list TokenView :=
  match words line with
  | Some ws =>
    foldl (fun acc iw =>
      push acc (fun n =>
        mkView Words n (text (word_tok iw.2))
          (jsor (voice (word_tok iw.2)) (voice (line_tok line)))
          (Some bi) (Some li) (Some iw.1) None
          (Some (start (word_tok iw.2))) (Some (end_ (word_tok iw.2)))))
      acc (imap pair ws)
  | None =>
    foldl (fun acc it =>
      if (0 <? String.length it.2)%nat then
        push acc (fun n =>
          mkView Words n it.2 (voice (line_tok line))
            (Some bi) (Some li) (Some it.1) None None None)
      else acc)
      acc (imap pair (splitSpaces EmptyString (text (line_tok line))))
  end.

Definition charsOfWord (bi li wi : nat) (line : Line) (word : Word)
    (acc : list TokenView) : list TokenView :=
  match chars word with
  | Some cs =>
    foldl (fun acc ic =>
      push acc (fun n =>
        mkView Chars n (text ic.2)
          (jsor (jsor (voice ic.2) (voice (word_tok word)))
                (voice (line_tok line)))
          (Some bi) (Some li) (Some wi) (Some ic.1)
          (Some (start ic.2)) (Some (end_ ic.2))))
      acc (imap pair cs)
  | None =>
    foldl (fun acc ic =>
      push acc (fun n =>
        mkView Chars n ic.2
          (jsor (voice (word_tok word)) (voice (line_tok line)))
          (Some bi) (Some li) (Some wi) (Some ic.1) None None))
      acc (imap pair (splitChars (text (word_tok word))))
  end.

Definition charsOfLine (bi li : nat) (line : Line) (acc : list TokenView)
    : list TokenView :=
  match words line with
  | Some ws =>
    foldl (fun acc iw => charsOfWord bi li iw.1 line iw.2 acc) acc (imap pair ws)
  | None =>
    foldl (fun acc ic =>
      push acc (fun n =>
        mkView Chars n ic.2 (voice (line_tok line))
          (Some bi) (Some li) None (Some ic.1) None None))
      acc (imap pair (splitChars (text (line_tok line))))
  end.

(** The nested [forEach] over blocks and lines that fills one array. *)
Definition overLines (f : nat -> nat -> Line -> list TokenView -> list TokenView)
    (bs : list Block) : list TokenView :=
  foldl (fun acc ib =>
    foldl (fun acc il => f ib.1 il.1 il.2 acc) acc (imap pair (lines ib.2)))
    [] (imap pair bs).

Definition getTokensByModeOf (mode : Mode) (data : option Document)
    : list TokenView :=
  match data with
  | None => []
  | Some d =>
    match mode with
    | Blocks =>
      imap (fun index block =>
        mkView Blocks index
          (String.concat newline (map (fun line => text (line_tok line))
                                      (lines block)))
          (voice (block_tok block)) None None None None
          (Some (start (block_tok block))) (Some (end_ (block_tok block))))
        (blocks d)
    | Lines =>
      overLines (fun bi li line acc =>
        push acc (fun n =>
          mkView Lines n (text (line_tok line)) (voice (line_tok line))
            (Some bi) (Some li) None None
            (Some (start (line_tok line))) (Some (end_ (line_tok line)))))
        (blocks d)
    | Words => overLines wordsOfLine (blocks d)
    | Chars => overLines charsOfLine (blocks d)
    end
  end.

Definition getTokensByMode (s : Session) : list TokenView :=
  getTokensByModeOf (recordingMode s) (karaokeData s).

(** White space as [trim] and the regular expression class [\s] have it.
    Among the code units below 256 these are U+0009 to U+000D, the space
    U+0020 and the no-break space U+00A0. *)
Definition isWhite (c : ascii) : bool :=
  let n := nat_of_ascii c in
  ((9 <=? n) && (n <=? 13) || (n =? 32) || (n =? 160))%nat.

Fixpoint allWhite (s : string) : bool :=
  match s with
  | EmptyString => true
  | String c s' => isWhite c && allWhite s'
  end.

(** [token && token.text && token.text.trim() === ''] as a condition. *)
Definition isSpaceToken (token : option TokenView) : bool :=
  match token with
  | None => false
  | Some t =>
    match tv_text t with
    | EmptyString => false
    | txt => allWhite txt
    end
  end.

(** The arrays of [recordTimestamp]: [blocks.flatMap(block => block.lines)],
    [... line.words || []] and [... word.chars || []]. *)
Definition wordsOrEmpty (line : Line) : list Word := default [] (words line).
Definition charsOrEmpty (word : Word) : list Token := default [] (chars word).

Definition allLines (bs : list Block) : list Line :=
  concat (map lines bs).
Definition allWords (bs : list Block) : list Word :=
  concat (map (fun block => concat (map wordsOrEmpty (lines block))) bs).
(** [line.words ? line.words.flatMap(word => word.chars || []) : []] *)
Definition charsInLine (line : Line) : list Token :=
  match words line with
  | Some ws => concat (map charsOrEmpty ws)
  | None => []
  end.
Definition allChars (bs : list Block) : list Token :=
  concat (map (fun block => concat (map charsInLine (lines block))) bs).

(** [arr[i][type] = ...] where [arr] is a flattened array of references:
    the object at position [i] in document order is changed in place.
    [size p] is the number of entries parent [p] contributes, [inner]
    changes the entry at a position inside one parent. *)
Fixpoint writeFlat {P : Type} (size : P -> nat) (inner : nat -> P -> P)
    (i : nat) (ps : list P) : list P :=
  match ps with
  | [] => []
  | p :: ps' =>
    if (i <? size p)%nat then inner i p :: ps'
    else p :: writeFlat size inner (i - size p) ps'
  end.

Definition writeLine (f : Token -> Token) (i : nat) (bs : list Block)
    : list Block :=
  writeFlat (fun block => length (lines block))
    (fun j block =>
       mkBlock (block_tok block)
               (alter (fun line => mkLine (f (line_tok line)) (words line))
                      j (lines block)))
    i bs.

Definition writeWordInLines (f : Token -> Token) (i : nat) (ls : list Line)
    : list Line :=
  writeFlat (fun line => length (wordsOrEmpty line))
    (fun j line =>
       mkLine (line_tok line)
              (option_map
                 (alter (fun word => mkWord (f (word_tok word)) (chars word)) j)
                 (words line)))
    i ls.

Definition writeWord (f : Token -> Token) (i : nat) (bs : list Block)
    : list Block :=
  writeFlat (fun block => length (concat (map wordsOrEmpty (lines block))))
    (fun j block => mkBlock (block_tok block) (writeWordInLines f j (lines block)))
    i bs.

Definition writeCharInWords (f : Token -> Token) (i : nat) (ws : list Word)
    : list Word :=
  writeFlat (fun word => length (charsOrEmpty word))
    (fun j word => mkWord (word_tok word) (option_map (alter f j) (chars word)))
    i ws.

Definition writeCharInLines (f : Token -> Token) (i : nat) (ls : list Line)
    : list Line :=
  writeFlat (fun line => length (charsInLine line))
    (fun j line =>
       mkLine (line_tok line) (option_map (writeCharInWords f j) (words line)))
    i ls.

Definition writeChar (f : Token -> Token) (i : nat) (bs : list Block)
    : list Block :=
  writeFlat (fun block => length (concat (map charsInLine (lines block))))
    (fun j block => mkBlock (block_tok block) (writeCharInLines f j (lines block)))
    i bs.

(** [token[type] = currentTime], and the voice when a start is recorded. *)
Definition stamp (type : Stamp) (currentTime currentVoice : Z) (t : Token)
    : Token :=
  match type with
  | StampStart => set_voice (set_start t currentTime) currentVoice
  | StampEnd => set_end t currentTime
  end.

(** The [switch (recordingMode)] of [recordTimestamp]. *)
Definition recordInto (mode : Mode) (activeTokenIndex : nat) (type : Stamp)
    (currentTime currentVoice : Z) (updatedData : Document) : Document :=
  let bs := blocks updatedData in
  let f := stamp type currentTime currentVoice in
  match mode with
  | Blocks =>
    if (activeTokenIndex <? length bs)%nat then
      set_blocks updatedData
        (alter (fun block => mkBlock (f (block_tok block)) (lines block))
               activeTokenIndex bs)
    else updatedData
  | Lines =>
    if (activeTokenIndex <? length (allLines bs))%nat then
      Propagation.updateBlockTimingFromLines
        (set_blocks updatedData (writeLine f activeTokenIndex bs))
    else updatedData
  | Words =>
    if (activeTokenIndex <? length (allWords bs))%nat then
      Propagation.updateParentTimingFromWords
        (set_blocks updatedData (writeWord f activeTokenIndex bs))
    else updatedData
  | Chars =>
    if (activeTokenIndex <? length (allChars bs))%nat then
      Propagation.updateParentTimingFromChars
        (set_blocks updatedData (writeChar f activeTokenIndex bs))
    else updatedData
  end.

(** [recordTimestamp(timestamp, type)].  When [tokens[activeTokenIndex]] is
    [undefined], [isSpaceToken] is falsy and the template literal of the
    next [console.log] reads [currentToken.text], which throws. *)
Definition recordTimestamp (s : Session) (timestamp : Q) (type : Stamp)
    : Completion Session :=
  match karaokeData s with
  | None => Normal s
  | Some data =>
    if negb (audioRef s) then Normal s
    else
      let currentTimeMs := Math_round (Double.mul timestamp 1000) in
      let tokens := getTokensByMode s in
      let currentToken := tokens !! activeTokenIndex s in
      if isSpaceToken currentToken then Normal s
      else
        match currentToken with
        | None => Throw TypeError
        | Some _ =>
          Normal (set_karaokeData s
                    (recordInto (recordingMode s) (activeTokenIndex s) type
                                currentTimeMs (currentVoice s) data))
        end
  end.

(** *** Unlock rule *)

(** [xs.every(p)] where [p] may throw: stops at the first [false] or at
    the first exception. *)
Fixpoint every {A : Type} (p : A -> Completion bool) (xs : list A)
    : Completion bool :=
  match xs with
  | [] => Normal true
  | x :: xs' =>
    match p x with
    | Normal true => every p xs'
    | r => r
    end
  end.

(** [x.start > 0 && x.end > 0] *)
Definition bothPositive (t : Token) : bool := (0 <? start t) && (0 <? end_ t).

(** [isModeCompleted(mode)]; [line.words.every] and [word.chars.every]
    throw when the array is missing. *)
Definition isModeCompleted (s : Session) (mode : Mode) : Completion bool :=
  match karaokeData s with
  | None => Normal false
  | Some d =>
    match mode with
    | Blocks =>
      every (fun block => Normal (bothPositive (block_tok block))) (blocks d)
    | Lines =>
      every (fun block =>
        every (fun line => Normal (bothPositive (line_tok line))) (lines block))
        (blocks d)
    | Words =>
      every (fun block =>
        every (fun line =>
          match words line with
          | None => Throw TypeError
          | Some ws =>
            every (fun word => Normal (bothPositive (word_tok word))) ws
          end) (lines block))
        (blocks d)
    | Chars =>
      every (fun block =>
        every (fun line =>
          match words line with
          | None => Throw TypeError
          | Some ws =>
            every (fun word =>
              match chars word with
              | None => Throw TypeError
              | Some cs => every (fun char => Normal (bothPositive char)) cs
              end) ws
          end) (lines block))
        (blocks d)
    end
  end.

(** [isCurrentTokenRecorded()] *)
Definition isCurrentTokenRecorded (s : Session) : bool :=
  match karaokeData s with
  | None => false
  | Some _ =>
    let tokens := getTokensByMode s in
    if (length tokens <=? activeTokenIndex s)%nat then false
    else
      match tokens !! activeTokenIndex s with
      | Some currentToken =>
        match tv_start currentToken, tv_end currentToken with
        | Some a, Some b => (0 <? a) && (0 <? b)
        | _, _ => false
        end
      | None => false
      end
  end.

Definition modes : list Mode := [Blocks; Lines; Words; Chars].

Definition includes (ms : list Mode) (m : Mode) : bool :=
  existsb (Mode_eqb m) ms.

(** [if (!ms.includes(m)) ms.push(m)] *)
Definition pushNew (ms : list Mode) (m : Mode) : list Mode :=
  if includes ms m then ms else ms ++ [m].

(** [modes.indexOf(mode)] *)
Definition indexOf (mode : Mode) : nat :=
  match mode with Blocks => 0 | Lines => 1 | Words => 2 | Chars => 3 end.

(** The completion loop [for (i = 1; i < modes.length - 1; i++)], run over
    the remaining values of [i]. *)
Fixpoint completionLoop (s : Session) (steps : list nat)
    (newUnlockedModes : list Mode) : Completion (list Mode) :=
  match steps with
  | [] => Normal newUnlockedModes
  | i :: steps' =>
    match modes !! i, modes !! (i + 1)%nat with
    | Some mode, Some next =>
      match isModeCompleted s mode with
      | Throw e => Throw e
      | Normal true => completionLoop s steps' (pushNew newUnlockedModes next)
      | Normal false => Normal newUnlockedModes
      end
    | _, _ => Normal newUnlockedModes
    end
  end.

(** [updateUnlockedModes()] *)
Definition updateUnlockedModes (s : Session) : Completion Session :=
  match completionLoop s (seq 1 (length modes - 1 - 1)) [Blocks; Lines] with
  | Throw e => Throw e
  | Normal unlocked1 =>
    let currentModeIndex := indexOf (recordingMode s) in
    let unlocked2 :=
      if (currentModeIndex <? length modes - 1)%nat then
        match modes !! (currentModeIndex + 1)%nat with
        | Some nextMode =>
          if isCurrentTokenRecorded s && negb (includes unlocked1 nextMode)
          then unlocked1 ++ [nextMode]
          else unlocked1
        | None => unlocked1
        end
      else unlocked1 in
    Normal (set_unlockedModes s (pushNew unlocked2 (recordingMode s)))
  end.

(** *** Time-to-token lookup of [handleSeek] *)

(** The [for] loop, positioned at index [i] with [rest = tokens.slice(i)]. *)
Fixpoint scanTokens (newTimeMs : Q) (i : nat) (rest : list TokenView)
    : option nat :=
  match rest with
  | [] => None
  | token :: rest' =>
    match tv_start token, tv_end token with
    | Some tstart, Some tend =>
      if Qle_bool (inject_Z tstart) newTimeMs
         && Qle_bool newTimeMs (inject_Z tend)
      then Some i
      else
        match rest' with
        | next :: _ =>
          if Qlt_bool (inject_Z tend) newTimeMs
             && match tv_start next with
                | Some nstart => Qlt_bool newTimeMs (inject_Z nstart)
                | None => false
                end
          then Some (i + 1)%nat
          else scanTokens newTimeMs (i + 1) rest'
        | [] => scanTokens newTimeMs (i + 1) rest'
        end
    | _, _ => scanTokens newTimeMs (i + 1) rest'
    end
  end.

(** [targetTokenIndex] after the loop and the two fall-backs; [None] is
    the source's [-1]. *)
Definition targetTokenIndex (tokens : list TokenView) (newTimeMs : Q)
    : option nat :=
  let t1 := scanTokens newTimeMs 0 tokens in
  let t2 :=
    match t1, last tokens with
    | None, Some lastToken =>
      match tv_end lastToken with
      | Some tend =>
        if Qlt_bool (inject_Z tend) newTimeMs
        then Some (length tokens - 1)%nat else None
      | None => None
      end
    | _, _ => t1
    end in
  match t2, head tokens with
  | None, Some firstToken =>
    match tv_start firstToken with
    | Some tstart =>
      if Qlt_bool newTimeMs (inject_Z tstart) then Some 0%nat else None
    | None => None
    end
  | _, _ => t2
  end.

(** [handleSeek], with [newTime = (clickX / width) * duration] in seconds
    as its argument. *)
Definition handleSeek (s : Session) (newTime : Q) : Session :=
  if negb (wKeyPressed s) && audioRef s && paused s then
    let s1 := if Qle_bool 0 newTime then set_currentTime s newTime else s in
    if syncLocked s then
      let tokens := getTokensByMode s in
      let newTimeMs := Double.mul newTime 1000 in
      match tokens with
      | [] => s1
      | _ =>
        match targetTokenIndex tokens newTimeMs with
        | Some target =>
          if negb (target =? activeTokenIndex s)%nat
          then set_activeTokenIndex s1 target else s1
        | None => s1
        end
      end
    else s1
  else s.

End Editor.

(** ** Playback: linear fall-back timing and per-token progress *)

Module Playback.

(** [word.text.length] *)
Definition textLength (word : Word) : Z :=
  Z.of_nat (String.length (text (word_tok word))).

(** The [reduce] that sums the word lengths of the document;
    [line.words.reduce] throws on a line without [words]. *)
Definition lineChars (line : Line) : Completion Z :=
  match words line with
  | None => Throw TypeError
  | Some ws => Normal (foldl (fun wordSum word => wordSum + textLength word) 0 ws)
  end.

Definition sumOver {A : Type} (f : A -> Completion Z) (xs : list A)
    : Completion Z :=
  foldl (fun acc x =>
    match acc, f x with
    | Normal sum, Normal n => Normal (sum + n)
    | Throw e, _ => Throw e
    | _, Throw e => Throw e
    end) (Normal 0) xs.

Definition totalChars (json : Document) : Completion Z :=
  sumOver (fun block => sumOver lineChars (lines block)) (blocks json).

(** The body of [line.words.forEach]: the re-timed word and the advanced
    [currentTimeMs].  [perChar] is [wordDuration / word.text.length], which
    the source computes for every character; a word without characters
    computes none. *)
Definition timeWord (msPerChar : Q) (currentTimeMs : Q) (word : Word)
    : Word * Q :=
  let wordStartTime := currentTimeMs in
  let wordDuration := Double.mul (inject_Z (textLength word)) msPerChar in
  let perChar := Double.div wordDuration (inject_Z (textLength word)) in
  let w := word_tok word in
  let cs :=
    imap (fun index char =>
      let charStartTime :=
        Double.add wordStartTime
                   (Double.mul (inject_Z (Z.of_nat index)) perChar) in
      let charEndTime :=
        Double.add wordStartTime
                   (Double.mul (inject_Z (Z.of_nat index + 1)) perChar) in
      mkToken char (Math_round charStartTime) (Math_round charEndTime)
              (jsor (voice w) 0) (position w))
      (Editor.splitChars (text w)) in
  (mkWord (mkToken (text w) (Math_round wordStartTime)
                   (Math_round (Double.add wordStartTime wordDuration))
                   (voice w) (position w))
          (Some cs),
   Double.add currentTimeMs wordDuration).

(** A [forEach] that threads [currentTimeMs] through the elements. *)
Fixpoint threadTime {A : Type} (f : Q -> A -> A * Q) (currentTimeMs : Q)
    (xs : list A) : list A * Q :=
  match xs with
  | [] => ([], currentTimeMs)
  | x :: xs' =>
    let (x', t1) := f currentTimeMs x in
    let (xs'', t2) := threadTime f t1 xs' in
    (x' :: xs'', t2)
  end.

Definition timeLine (msPerChar : Q) (currentTimeMs : Q) (line : Line)
    : Line * Q :=
  let lineStartTime := currentTimeMs in
  match words line with
  | Some ws0 =>
    let (ws, t) := threadTime (timeWord msPerChar) currentTimeMs ws0 in
    (mkLine (set_end (set_start (line_tok line) (Math_round lineStartTime))
                     (Math_round t))
            (Some ws), t)
  | None => (line, currentTimeMs) (* not reached: [totalChars] has thrown *)
  end.

Definition timeBlock (msPerChar : Q) (currentTimeMs : Q) (block : Block)
    : Block * Q :=
  let blockStartTime := currentTimeMs in
  let (ls, t) := threadTime (timeLine msPerChar) currentTimeMs (lines block) in
  (mkBlock (set_end (set_start (block_tok block) (Math_round blockStartTime))
                    (Math_round t))
           ls, t).

(** [generateLinearTiming(json)]; [duration] is the audio length in
    seconds. *)
Definition generateLinearTiming (duration : Q) (json : Document)
    : Completion Document :=
  if Qeq_bool duration 0 then Normal json
  else
    let totalDurationMs := Double.mul duration 1000 in
    match totalChars json with
    | Throw e => Throw e
    | Normal total =>
      if total =? 0 then Normal json
      else
        let msPerChar := Double.div totalDurationMs (inject_Z total) in
        Normal (set_blocks json
                  (fst (threadTime (timeBlock msPerChar) 0%Q (blocks json))))
    end.

(** [x.start > 0 || x.end > 0] *)
Definition anyPositive (t : Token) : bool := (0 <? start t) || (0 <? end_ t).

(** [hasTimingData] of [processedLyricsJson]; a missing [words] or [chars]
    makes the optional call [undefined], which is falsy. *)
Definition hasTimingData (lyricsJson : Document) : bool :=
  existsb (fun block =>
    anyPositive (block_tok block) ||
    existsb (fun line =>
      anyPositive (line_tok line) ||
      match words line with
      | None => false
      | Some ws =>
        existsb (fun word =>
          anyPositive (word_tok word) ||
          match chars word with
          | None => false
          | Some cs => existsb anyPositive cs
          end) ws
      end) (lines block)) (blocks lyricsJson).

Definition processedLyricsJson (duration : Q) (lyricsJson : Document)
    : Completion Document :=
  if hasTimingData lyricsJson then Normal lyricsJson
  else generateLinearTiming duration lyricsJson.

(** The timing fields [getTokenProgress] reads; [None] is a value that is
    not a number. *)
Record Span := mkSpan { span_start : option Z; span_end : option Z }.

(** [Math.max(0, Math.min(100, progress))] *)
Definition clamp (progress : Q) : Q :=
  Qmax 0 (Qmin 100 progress).

(** [getTokenProgress(token)] at the clock value [currentTime] (seconds). *)
Definition getTokenProgress (currentTime : Q) (token : option Span) : Q :=
  match token with
  | None => 0%Q
  | Some tk =>
    let currentTimeMs := Double.mul currentTime 1000 in
    match span_start tk, span_end tk with
    | Some tstart, Some tend =>
      if tstart =? tend then
        if Qle_bool (inject_Z tstart) currentTimeMs then 100%Q else 0%Q
      else if Qlt_bool currentTimeMs (inject_Z tstart) then 0%Q
      else if Qle_bool (inject_Z tend) currentTimeMs then 100%Q
      else
        clamp (Double.mul
                 (Double.div (Double.sub currentTimeMs (inject_Z tstart))
                             (Double.sub (inject_Z tend) (inject_Z tstart)))
                 100)
    | _, _ => 0%Q
    end
  end.

(** The progress of a token stamped [tstart] and [tend]. *)
Definition progressOf (tstart tend : Z) (currentTime : Q) : Q :=
  getTokenProgress currentTime (Some (mkSpan (Some tstart) (Some tend))).

(** [((now - start) / (end - start)) * 100], the value [getTokenProgress]
    and [getProgress] compute between [start] and [end]. *)
Definition ratio (tstart tend : Z) (now : Q) : Q :=
  Double.mul
    (Double.div (Double.sub now (inject_Z tstart))
                (Double.sub (inject_Z tend) (inject_Z tstart)))
    100.

End Playback.

(** ** The skeleton of a document: which nodes exist *)

Module Tree.

Definition shapeWord (word : Word) : option nat :=
  option_map (fun cs => length cs) (chars word).
Definition shapeLine (line : Line) : option (list (option nat)) :=
  option_map (map shapeWord) (words line).
Definition shapeBlock (block : Block) : list (option (list (option nat))) :=
  map shapeLine (lines block).
Definition shape (data : Document) : list (list (option (list (option nat)))) :=
  map shapeBlock (blocks data).

(** Every line carries a [words] array. *)
Definition wordsPresent (d : Document) : bool :=
  forallb (fun line => bool_decide (is_Some (words line)))
          (Editor.allLines (blocks d)).

End Tree.

(** ** Sample inputs *)

Module Samples.

(** A token recorded from 1000 ms to 2000 ms, and one with equal stamps. *)
Definition span_1000_2000 : Playback.Span :=
  Playback.mkSpan (Some 1000) (Some 2000).
Definition span_5000_5000 : Playback.Span :=
  Playback.mkSpan (Some 5000) (Some 5000).

End Samples.

(** ** Predicates used in the statements about the lookup *)

Module Lookup.
Import Editor.

(** [token.start <= t && t <= token.end] *)
Definition covers (token : TokenView) (t : Q) : bool :=
  match tv_start token, tv_end token with
  | Some tstart, Some tend =>
    Qle_bool (inject_Z tstart) t && Qle_bool t (inject_Z tend)
  | _, _ => false
  end.

(** [a.end < t && t < b.start] *)
Definition between (a b : TokenView) (t : Q) : bool :=
  match tv_end a, tv_start b with
  | Some aend, Some bstart =>
    Qlt_bool (inject_Z aend) t && Qlt_bool t (inject_Z bstart)
  | _, _ => false
  end.

(** A token list in time order: every token has numeric stamps with
    [start <= end], and ends no later than the next token starts. *)
Fixpoint chronological (tokens : list TokenView) : bool :=
  match tokens with
  | [] => true
  | token :: rest =>
    match tv_start token, tv_end token with
    | Some tstart, Some tend =>
      (tstart <=? tend)
      && match rest with
         | next :: _ =>
           match tv_start next with
           | Some nstart => tend <=? nstart
           | None => false
           end
         | [] => true
         end
      && chronological rest
    | _, _ => false
    end
  end.

(** A seek that reaches the lookup: the record key is up, the audio is
    mounted and paused, and the cursor is locked to the playhead. *)
Definition seekable (s : Session) : Prop :=
  wKeyPressed s = false /\ audioRef s = true /\ paused s = true /\
  syncLocked s = true.

End Lookup.

(** ** Sample sessions for the lookup *)

Module SeekSamples.
Import Editor.

Definition tk (txt : string) (tstart tend : Z) : Token :=
  mkToken txt tstart tend 1 "".

(** A session in [mode] on one block with [ls] as its lines, paused and
    sync-locked, cursor on the first token. *)
Definition session (mode : Mode) (ls : list Line) : Session :=
  mkSession
    (Some (mkDocument "1" None [mkVoice 1 "" "C" "#87CEEB"]
                      [mkBlock (tk "" 0 0) ls]))
    true true false true 0%Q mode 0 1 [Blocks; Lines].

(** Three lines recorded in time order, with a gap before the third. *)
Definition ordered : Session :=
  session Lines [mkLine (tk "one" 1000 2000) None;
                 mkLine (tk "two" 2000 3000) None;
                 mkLine (tk "three" 3500 4000) None].

(** Two lines recorded, two lines not yet recorded. *)
Definition partly : Session :=
  session Lines [mkLine (tk "one" 1000 2000) None;
                 mkLine (tk "two" 2500 3000) None;
                 mkLine (tk "three" 0 0) None;
                 mkLine (tk "four" 0 0) None].

(** Three lines recorded, the third one earlier in the song than the
    second. *)
Definition unordered : Session :=
  session Lines [mkLine (tk "one" 1000 1500) None;
                 mkLine (tk "two" 5000 6000) None;
                 mkLine (tk "three" 2000 3000) None].

End SeekSamples.

(** ** Predicates used in the statements about the unlock rule *)

Module Unlock.
Import Editor.

(** Every line, respectively every word, of the document has both stamps
    positive. *)
Definition linesDone (d : Document) : bool :=
  forallb (fun line => bothPositive (line_tok line)) (allLines (blocks d)).
Definition wordsDone (d : Document) : bool :=
  forallb (fun word => bothPositive (word_tok word)) (allWords (blocks d)).

(** A session in [mode] at token [i] on one block with [ls] as its lines. *)
Definition session (mode : Mode) (i : nat) (ls : list Line) : Session :=
  mkSession
    (Some (mkDocument "1" None [mkVoice 1 "" "C" "#87CEEB"]
                      [mkBlock (mkToken "" 1000 2000 1 "C") ls]))
    true true false false 0%Q mode i 1 [Blocks; Lines].

Definition word (txt : string) (tstart tend : Z) : Word :=
  mkWord (mkToken txt tstart tend 0 "") None.

(** First line recorded, second line not, no word recorded. *)
Definition twoLines : list Line :=
  [mkLine (mkToken "la la" 1000 2000 1 "") (Some [word "la" 0 0; word "la" 0 0]);
   mkLine (mkToken "na na" 0 0 0 "") (Some [word "na" 0 0; word "na" 0 0])].

(** The operator recorded the first line and has moved on to word mode. *)
Definition inWords : Session := session Words 0 twoLines.

(** The operator is on the recorded first line, in line mode. *)
Definition onRecordedLine : Session := session Lines 0 twoLines.

End Unlock.

(** ** Sample sessions for recording *)

Module RecordSamples.
Import Editor.

(** A loaded document without blocks: every mode has an empty token list. *)
Definition emptyDocument : Document :=
  mkDocument "1" None [mkVoice 1 "" "C" "#87CEEB"] [].

Definition emptySession (mode : Mode) : Session :=
  mkSession (Some emptyDocument) true false true false 0%Q mode 0 1
            [Blocks; Lines].

End RecordSamples.

(** ** The cleanup taken apart into one pass per level *)

Module Passes.
Import Cleanup.

(** Line level: the lines of every block. *)
Definition linesPass (bs : list Block) : list Block :=
  map (fun block => mkBlock (block_tok block) (cleanLines block)) bs.

(** Word level: the words of one line, deleted, interpolated or kept. *)
Definition wordsStep (line : Line) : Line :=
  match words line with
  | None => line
  | Some ws =>
    let timedWords := timed word_tok ws in
    if (length timedWords =? 0)%nat then mkLine (line_tok line) None
    else if (length timedWords <? length ws)%nat then
      mkLine (line_tok line)
        (Some (interpolate word_tok retok_word
                 (fun word => jsor (voice word) (voice (line_tok line)))
                 (line_tok line) ws))
    else line
  end.

Definition wordsPass (bs : list Block) : list Block :=
  map (fun block => mkBlock (block_tok block) (map wordsStep (lines block))) bs.

(** Character level: the characters of every word of one line. *)
Definition charsStep (line : Line) : Line :=
  mkLine (line_tok line)
         (option_map (map (cleanChars (line_tok line))) (words line)).

Definition charsPass (bs : list Block) : list Block :=
  map (fun block => mkBlock (block_tok block) (map charsStep (lines block))) bs.

(** The order of the source: lines, then words, then characters, and the
    text clearing last. *)
Definition topDown (data : Document) : Document :=
  set_blocks data
    (map clearBlock (charsPass (wordsPass (linesPass (blocks data))))).

(** The order in the words of the specification: characters first, then
    words, then lines. *)
Definition bottomUp (data : Document) : Document :=
  set_blocks data
    (map clearBlock (linesPass (wordsPass (charsPass (blocks data))))).

End Passes.

(** ** Sample documents for the cleanup *)

Module CleanupSamples.

Definition tk (txt : string) (tstart tend voice : Z) : Token :=
  mkToken txt tstart tend voice "".

Definition document (bs : list Block) : Document :=
  mkDocument "1" None [mkVoice 1 "" "C" "#87CEEB"] bs.

(** A block recorded at 0-1000 with two lines.  The first line was recorded
    at 0-400 and has one of its two words recorded; the second line was
    never recorded. *)
Definition nested : Document :=
  document
    [mkBlock (tk "" 0 1000 1)
       [mkLine (tk "la la" 0 400 1)
               (Some [mkWord (tk "la" 0 100 1) None;
                      mkWord (tk "la" 0 0 0) None]);
        mkLine (tk "na" 0 0 0) None]].

(** Scenario B of the specification: a line recorded at 400-1600 whose
    first and third word are recorded at 500-800 and 1200-1500. *)
Definition scenarioB : Document :=
  document
    [mkBlock (tk "" 400 1600 1)
       [mkLine (tk "a b c" 400 1600 1)
               (Some [mkWord (tk "a" 500 800 1) None;
                      mkWord (tk "b" 0 0 0) None;
                      mkWord (tk "c" 1200 1500 1) None])]].

(** A recorded block with a line that was never recorded.  The start of
    its first word is recorded (at 1234 ms) and the end is not yet, so the
    word has not been propagated to the line; the second word is not
    recorded. *)
Definition unrecordedLine : Document :=
  document
    [mkBlock (tk "" 1000 9000 1)
       [mkLine (tk "la la" 0 0 0)
               (Some [mkWord (tk "la" 1234 0 1) None;
                      mkWord (tk "la" 0 0 0) None])]].

(** A recorded line whose words were never recorded. *)
Definition untimedWords : Document :=
  document
    [mkBlock (tk "" 1000 2000 1)
       [mkLine (tk "la la" 1000 2000 1)
               (Some [mkWord (tk "la" 0 0 0) None;
                      mkWord (tk "la" 0 0 0) None])]].

End CleanupSamples.

(** ** Predicates used in the statements about the cleanup *)

Module CleanupSpec.
Import Cleanup.

(** At least one child is timed and at least one is not. *)
Definition strictMix {A : Type} (tok : A -> Token) (children : list A) : bool :=
  negb (length (timed tok children) =? 0)%nat
  && (length (timed tok children) <? length children)%nat.

(** [after] holds the children [before] with the span of [parent] shared
    out evenly among them, and with the voice [inherit] gives them. *)
Definition sharedOut {A : Type} (tok : A -> Token) (inherit : Token -> Z)
    (parent : Token) (before after : list A) : Prop :=
  length after = length before /\
  forall i child child',
    before !! i = Some child -> after !! i = Some child' ->
    stamps (tok child') = share parent (length before) i /\
    voice (tok child') = inherit (tok child).

(** The claim in the words of the specification, for the words of a line:
    a strict mix of words is spread over the bounds recorded on the line. *)
Definition fromRecordedBounds (data : Document) : Prop :=
  forall bi li block block' line line' ws ws',
    blocks data !! bi = Some block ->
    blocks (cleanupTimingData data) !! bi = Some block' ->
    lines block !! li = Some line -> lines block' !! li = Some line' ->
    words line = Some ws -> words line' = Some ws' ->
    strictMix word_tok ws = true ->
    sharedOut word_tok (fun w => jsor (voice w) (voice (line_tok line)))
              (line_tok line) ws ws'.

End CleanupSpec.

(** ** Documents on which a second cleanup deletes nothing *)

Module Settled.
Import Cleanup.

(** Every [chars] array that is there has a timed character. *)
Definition settledWord (word : Word) : bool :=
  match chars word with
  | None => true
  | Some cs => negb (length (timed (fun c => c) cs) =? 0)%nat
  end.

(** Every [words] array that is there has a timed word, and its words are
    settled. *)
Definition settledLine (line : Line) : bool :=
  match words line with
  | None => true
  | Some ws =>
    negb (length (timed word_tok ws) =? 0)%nat && forallb settledWord ws
  end.

Definition settled (data : Document) : bool :=
  forallb (fun block => forallb settledLine (lines block)) (blocks data).

End Settled.

(** ** Predicates used in the statements about bubble-up propagation *)

Module Widening.
Import Editor.

(** [new] has the bounds of [old], only wider: a bound of [old] that is set
    (not [0]) is still set in [new]; the start has not increased and the
    end has not decreased. *)
Definition wider (old new : Token) : Prop :=
  (start old <> 0 -> start new <> 0 /\ start new <= start old) /\
  (end_ old <> 0 -> end_ new <> 0 /\ end_ old <= end_ new).

(** [m] is the least, respectively the greatest, element of [xs]. *)
Definition least (m : Z) (xs : list Z) : Prop :=
  In m xs /\ forall x, In x xs -> m <= x.
Definition greatest (m : Z) (xs : list Z) : Prop :=
  In m xs /\ forall x, In x xs -> x <= m.

(** The tokens of one level, block by block, compared pairwise. *)
Definition blocksRelated (R : Token -> Token -> Prop) (bs bs' : list Block)
    : Prop :=
  Forall2 (fun b b' => R (block_tok b) (block_tok b')) bs bs'.

Definition linesRelated (R : Token -> Token -> Prop) (bs bs' : list Block)
    : Prop :=
  Forall2 (fun b b' =>
    Forall2 (fun l l' => R (line_tok l) (line_tok l')) (lines b) (lines b'))
    bs bs'.

Definition wordsRelated (R : Token -> Token -> Prop) (bs bs' : list Block)
    : Prop :=
  Forall2 (fun b b' =>
    Forall2 (fun l l' =>
      option_Forall2
        (Forall2 (fun w w' => R (word_tok w) (word_tok w')))
        (words l) (words l'))
      (lines b) (lines b'))
    bs bs'.

(** A block and its rewritten version, level by level: [Pb] relates the
    block tokens, [Pl] the line tokens, [Pw] the word tokens. *)
Definition anyToken (_ _ : Token) : Prop := True.

Definition wordsAlike (Pw : Token -> Token -> Prop) (l l' : Line) : Prop :=
  option_Forall2 (Forall2 (fun w w' => Pw (word_tok w) (word_tok w')))
                 (words l) (words l').

Definition lineAlike (Pl Pw : Token -> Token -> Prop) (l l' : Line) : Prop :=
  Pl (line_tok l) (line_tok l') /\ wordsAlike Pw l l'.

Definition blockAlike (Pb Pl Pw : Token -> Token -> Prop) (b b' : Block)
    : Prop :=
  Pb (block_tok b) (block_tok b') /\
  Forall2 (lineAlike Pl Pw) (lines b) (lines b').

(** The relation a record operation in [mode] keeps between the blocks
    before and after: the levels above [mode] only get wider. *)
Definition keeps (mode : Mode) : Block -> Block -> Prop :=
  match mode with
  | Blocks => blockAlike anyToken anyToken anyToken
  | Lines => blockAlike wider anyToken anyToken
  | Words => blockAlike wider wider anyToken
  | Chars => blockAlike wider wider wider
  end.

(** The same seen from one ancestor [level]: its tokens only get wider,
    the other levels are free. *)
Definition levelAlike (level : Mode) : Block -> Block -> Prop :=
  match level with
  | Blocks => blockAlike wider anyToken anyToken
  | Lines => blockAlike anyToken wider anyToken
  | Words => blockAlike anyToken anyToken wider
  | Chars => blockAlike anyToken anyToken anyToken
  end.

(** The tokens of [level] in [d'] are pairwise wider than those in [d];
    there is no level above the characters to compare. *)
Definition widerAt (level : Mode) (d d' : Document) : Prop :=
  match level with
  | Blocks => blocksRelated wider (blocks d) (blocks d')
  | Lines => linesRelated wider (blocks d) (blocks d')
  | Words => wordsRelated wider (blocks d) (blocks d')
  | Chars => True
  end.

(** [new] is [old] recomputed from [children].  With no timed child it is
    [old]; otherwise, with [m] the least start and [M] the greatest end of
    the timed children, a start that is unset is [m] and a start that is
    set is the smaller of it and [m], an end that is unset is [M] and an
    end that is set is the greater of it and [M], and the text, the voice
    and the position are those of [old]. *)
Definition recomputed (old : Token) (children : list Token) (new : Token)
    : Prop :=
  match List.filter Propagation.hasValidTiming children with
  | [] => new = old
  | valid =>
    exists m M,
      least m (map start valid) /\ greatest M (map end_ valid) /\
      start new = (if start old =? 0 then m else Z.min (start old) m) /\
      end_ new = (if end_ old =? 0 then M else Z.max (end_ old) M) /\
      text new = text old /\ voice new = voice old /\
      position new = position old
  end.

(** The token of a block, line or word after an operation is the token
    before it, recomputed from the children the node has afterwards. *)
Definition blockRecomputed (b b' : Block) : Prop :=
  recomputed (block_tok b) (map line_tok (lines b')) (block_tok b').

Definition lineRecomputed (l l' : Line) : Prop :=
  recomputed (line_tok l) (map word_tok (wordsOrEmpty l')) (line_tok l').

Definition wordRecomputed (w w' : Word) : Prop :=
  recomputed (word_tok w) (charsOrEmpty w') (word_tok w').

(** Every level above [mode] is recomputed, the words from their
    characters, the lines from their words, the blocks from their lines. *)
Definition recomputedAbove (mode : Mode) (b b' : Block) : Prop :=
  match mode with
  | Blocks => True
  | Lines => blockRecomputed b b'
  | Words =>
    blockRecomputed b b' /\ Forall2 lineRecomputed (lines b) (lines b')
  | Chars =>
    blockRecomputed b b' /\
    Forall2 (fun l l' =>
               lineRecomputed l l' /\
               option_Forall2 (Forall2 wordRecomputed) (words l) (words l'))
            (lines b) (lines b')
  end.

(** The level of [mode] and what lies below it is as it was. *)
Definition keptBelow (mode : Mode) (b b' : Block) : Prop :=
  match mode with
  | Blocks => b' = b
  | Lines => lines b' = lines b
  | Words => Forall2 (fun l l' => words l' = words l) (lines b) (lines b')
  | Chars =>
    Forall2 (fun l l' =>
               option_Forall2 (Forall2 (fun w w' => chars w' = chars w))
                              (words l) (words l'))
            (lines b) (lines b')
  end.

(** The length of the array [recordTimestamp] flattens the document into. *)
Definition flatLength (mode : Mode) (bs : list Block) : nat :=
  match mode with
  | Blocks => length bs
  | Lines => length (allLines bs)
  | Words => length (allWords bs)
  | Chars => length (allChars bs)
  end.

(** One record operation: the operator has moved to token [op_index] of
    mode [op_mode], chosen voice [op_voice], and the record key goes down
    ([StampStart]) or up ([StampEnd]) at clock value [op_time]. *)
Record Op := mkOp {
  op_mode : Mode;
  op_index : nat;
  op_voice : Z;
  op_type : Stamp;
  op_time : Q
}.

Definition moveTo (s : Session) (op : Op) : Session :=
  mkSession (karaokeData s) (audioRef s) (paused s) (wKeyPressed s)
            (syncLocked s) (currentTime s) (op_mode op) (op_index op)
            (op_voice op) (unlockedModes s).

(** The session after the operation; an exception in the key handler
    leaves the state as it was. *)
Definition perform (s : Session) (op : Op) : Session :=
  match recordTimestamp (moveTo s op) (op_time op) (op_type op) with
  | Normal s' => s'
  | Throw _ => moveTo s op
  end.

Definition run (ops : list Op) (s : Session) : Session :=
  foldl perform s ops.

(** [level] is an ancestor level of the tokens of [mode]. *)
Definition above (level mode : Mode) : bool :=
  (indexOf level <? indexOf mode)%nat.

(** A short session on the two-line sample: the operator records the
    first word of the first line from 1.2 s to 1.5 s and the second word
    from 1.6 s to 2.5 s. *)
Definition sampleOps : list Op :=
  [mkOp Words 0 1 StampStart (6 # 5);
   mkOp Words 0 1 StampEnd (3 # 2);
   mkOp Words 1 1 StampStart (8 # 5);
   mkOp Words 1 1 StampEnd (5 # 2)].

End Widening.

(** ** Predicates used in the statements about linear timing *)

Module Linear.
Import Editor Playback.

(** The sum of the word text lengths of the document. *)
Definition wordSize (word : Word) : nat := String.length (text (word_tok word)).
Definition totalLength (json : Document) : nat :=
  sum_list (map wordSize (allWords (blocks json))).

(** The same count by line and by block. *)
Definition hasWords (line : Line) : Prop := is_Some (words line).
Definition lineSize (line : Line) : nat :=
  sum_list (map wordSize (wordsOrEmpty line)).
Definition blockSize (block : Block) : nat :=
  sum_list (map lineSize (lines block)).

(** [parent] spans its children, from the start of the first to the end
    of the last; without children it is an empty span. *)
Definition spansOver (parent : Token) (children : list Token) : Prop :=
  match head children, last children with
  | Some c, Some c' => start parent = start c /\ end_ parent = end_ c'
  | _, _ => start parent = end_ parent
  end.

(** Every token starts where the one before it ends. *)
Definition consecutive (ts : list Token) : Prop :=
  forall i a b, ts !! i = Some a -> ts !! S i = Some b -> end_ a = start b.

(** The tokens run from [a] to [b] without a gap. *)
Definition chain (a b : Z) (ts : list Token) : Prop :=
  match head ts, last ts with
  | Some c, Some c' => start c = a /\ end_ c' = b
  | _, _ => a = b
  end /\ consecutive ts.

(** A word starts with its first character, its characters follow one
    another, and none of them ends before it starts. *)
Definition tiledWord (word : Word) : Prop :=
  (forall c, head (charsOrEmpty word) = Some c ->
             start c = start (word_tok word)) /\
  consecutive (charsOrEmpty word) /\
  Forall (fun c => start c <= end_ c) (charsOrEmpty word).

(** A line runs from the start of its first word to the end of its last,
    and its words follow one another; the same for a block and its
    lines. *)
Definition tiledLine (line : Line) : Prop :=
  spansOver (line_tok line) (map word_tok (wordsOrEmpty line)) /\
  consecutive (map word_tok (wordsOrEmpty line)) /\
  Forall tiledWord (wordsOrEmpty line).

Definition tiledBlock (block : Block) : Prop :=
  spansOver (block_tok block) (map line_tok (lines block)) /\
  consecutive (map line_tok (lines block)) /\
  Forall tiledLine (lines block).

(** The stamp [z] is the rounding of a number that is within [tolerance]
    of [x]: it differs from [x] by half a millisecond and that little. *)
Definition tolerance : Q := 1 # 512.

Definition near (x : Q) (z : Z) : Prop :=
  (Qabs (inject_Z z - x) <= (1 # 2) + tolerance)%Q.

(** The documents of [n] characters and the audio lengths for which the
    rounding errors of [generateLinearTiming] stay below [tolerance]. *)
Definition inRange (n : nat) (totalDurationMs : Q) : Prop :=
  (inject_Z (Z.of_nat n + 3) * (totalDurationMs + 1) <= 2 ^ 42)%Q.

(** The clock of [generateLinearTiming] is a binary64 number that is not
    negative. *)
Definition clock (cur : Q) : Prop := (0 <= cur)%Q /\ (Double.fl cur == cur)%Q.

(** A bound on the error of one rounding while [generateLinearTiming]
    runs. *)
Definition slack (n : nat) (totalDurationMs : Q) : Q :=
  (Double.u * (totalDurationMs + 1)
   + inject_Z (Z.of_nat n + 1) * Double.eta)%Q.

(** The characters [cs] are the characters number [s], [s + 1], ... of the
    document, stamped for [msPerChar] milliseconds each. *)
Definition stampedFrom (msPerChar : Q) (s : nat) (cs : list Token) : Prop :=
  forall i c, cs !! i = Some c ->
    near (inject_Z (Z.of_nat (s + i)) * msPerChar)%Q (start c) /\
    near (inject_Z (Z.of_nat (s + i) + 1) * msPerChar)%Q (end_ c).

(** After [s] characters of [msPerChar] milliseconds the clock [cur] has
    drifted from [s * msPerChar] by two roundings a character at most. *)
Definition tracks (n : nat) (totalDurationMs msPerChar : Q) (s : nat)
    (cur : Q) : Prop :=
  clock cur /\
  (inject_Z (Z.of_nat s) * msPerChar
   - 2 * (inject_Z (Z.of_nat s) * slack n totalDurationMs) <= cur)%Q /\
  (cur <= inject_Z (Z.of_nat s) * msPerChar
          + 2 * (inject_Z (Z.of_nat s) * slack n totalDurationMs))%Q.

Definition untimed (txt : string) : Token := mkToken txt 0 0 1 "".

(** Scenario C: two words of three and five characters. *)
Definition scenarioC : Document :=
  mkDocument "1" None [mkVoice 1 "" "C" "#87CEEB"]
    [mkBlock (untimed "")
       [mkLine (untimed "abc defgh")
               (Some [mkWord (untimed "abc") None;
                      mkWord (untimed "defgh") None])]].

(** One word of two characters. *)
Definition twoChars : Document :=
  mkDocument "1" None [mkVoice 1 "" "C" "#87CEEB"]
    [mkBlock (untimed "")
       [mkLine (untimed "ab") (Some [mkWord (untimed "ab") None])]].

(** Two words of seven characters, and a word of five and one of one. *)
Definition sevens : Document :=
  mkDocument "1" None [mkVoice 1 "" "C" "#87CEEB"]
    [mkBlock (untimed "")
       [mkLine (untimed "abcdefg hijklmn")
               (Some [mkWord (untimed "abcdefg") None;
                      mkWord (untimed "hijklmn") None])]].

Definition fiveOne : Document :=
  mkDocument "1" None [mkVoice 1 "" "C" "#87CEEB"]
    [mkBlock (untimed "")
       [mkLine (untimed "abcde f")
               (Some [mkWord (untimed "abcde") None;
                      mkWord (untimed "f") None])]].

End Linear.

(** ** Predicates used in the statements about the shares of the cleanup *)

Module Shares.

(** The bound after [k] of [tokenCount] equal parts of the span of
    [parent], as a rational number:
    [parent.start + k * (parent.end - parent.start) / tokenCount]. *)
Definition exact (parent : Token) (tokenCount : nat) (k : Z) : Q :=
  (inject_Z (start parent)
   + inject_Z k * (inject_Z (end_ parent) - inject_Z (start parent))
     / inject_Z (Z.of_nat tokenCount))%Q.

(** The parents and numbers of children for which the rounding of the
    arithmetic to binary64 is bounded below: stamps that are in order and
    at most [2^40] ms, and at most [2^40] children. *)
Definition inRange (parent : Token) (tokenCount : nat) : Prop :=
  0 <= start parent /\ start parent <= end_ parent /\
  end_ parent <= 2 ^ 40 /\ Z.of_nat tokenCount <= 2 ^ 40.

(** A block recorded from 1000 to 15349. *)
Definition sample : Token := mkToken "" 1000 15349 0 "".

End Shares.

(** ** Predicates used in the statements about nested spans *)

Module Nesting.
Import Editor Propagation.

(** Every child with valid timing lies inside the span of [parent]. *)
Definition encloses (parent : Token) (children : list Token) : Prop :=
  forall child, In child children -> hasValidTiming child = true ->
    start parent <= start child /\ end_ child <= end_ parent.

Definition blockEncloses (block : Block) : Prop :=
  encloses (block_tok block) (map line_tok (lines block)).

Definition lineEncloses (line : Line) : Prop :=
  encloses (line_tok line) (map word_tok (wordsOrEmpty line)).

Definition wordEncloses (word : Word) : Prop :=
  encloses (word_tok word) (charsOrEmpty word).

(** What the word and the character propagation do to one block. *)
Definition fromWords (b : Block) : Block :=
  blockFromLines (linesFromWords b).

Definition fromChars (b : Block) : Block :=
  blockFromLines (linesFromWords (blockWordsFromChars b)).

(** The levels that a propagation started at [mode] has brought in line. *)
Definition nestedFrom (mode : Mode) (block : Block) : Prop :=
  match mode with
  | Blocks => True
  | Lines => blockEncloses block
  | Words => blockEncloses block /\ Forall lineEncloses (lines block)
  | Chars =>
    blockEncloses block /\ Forall lineEncloses (lines block) /\
    Forall (fun line => Forall wordEncloses (wordsOrEmpty line)) (lines block)
  end.

End Nesting.

(** ** Moving the cursor *)

Module Navigation.
Import Editor.

(** [findFirstNonSpaceTokenIndex(tokens)]: the [for] loop positioned at
    index [i], with [rest = tokens.slice(i)]; [None] when the loop runs to
    the end. *)
Fixpoint firstNonSpaceFrom (i : nat) (rest : list TokenView) : option nat :=
  match rest with
  | [] => None
  | token :: rest' =>
    if negb (isSpaceToken (Some token)) then Some i
    else firstNonSpaceFrom (i + 1) rest'
  end.

Definition findFirstNonSpaceTokenIndex (tokens : list TokenView) : nat :=
  match firstNonSpaceFrom 0 tokens with
  | Some i => i
  | None => 0
  end.

(** [while (newIndex < tokens.length && isSpaceToken(tokens[newIndex]))
    newIndex++]; every turn moves [newIndex] up, so [tokens.length] turns
    are enough. *)
Fixpoint skipForward (turns : nat) (tokens : list TokenView) (newIndex : nat)
    : nat :=
  match turns with
  | O => newIndex
  | S turns' =>
    if (newIndex <? length tokens)%nat && isSpaceToken (tokens !! newIndex)
    then skipForward turns' tokens (newIndex + 1)
    else newIndex
  end.

(** [goToNextToken()] *)
Definition goToNextToken (s : Session) : Session :=
  let tokens := getTokensByMode s in
  let newIndex := skipForward (length tokens) tokens (activeTokenIndex s + 1) in
  if (newIndex <? length tokens)%nat then set_activeTokenIndex s newIndex
  else s.

(** [while (newIndex >= 0 && isSpaceToken(tokens[newIndex])) newIndex--],
    entered with [newIndex = next - 1]; [None] is the exit at [-1]. *)
Fixpoint skipBackward (tokens : list TokenView) (next : nat) : option nat :=
  match next with
  | O => None
  | S newIndex =>
    if isSpaceToken (tokens !! newIndex) then skipBackward tokens newIndex
    else Some newIndex
  end.

(** The jump of the playhead to [token.start / 1000] in
    [goToPreviousToken]; a start that is not a number gives [NaN], which is
    not finite. *)
Definition jumpToStart (s : Session) (token : TokenView) : Session :=
  match tv_start token with
  | Some tstart =>
    let tokenStartTime := Double.div (inject_Z tstart) 1000 in
    if Qle_bool 0 tokenStartTime then set_currentTime s tokenStartTime else s
  | None => s
  end.

(** [goToPreviousToken()].  The template literal of its [console.log] reads
    [tokens[newIndex].text], which throws when the loop has stopped on an
    index past the end of the list. *)
Definition goToPreviousToken (s : Session) : Completion Session :=
  let tokens := getTokensByMode s in
  match skipBackward tokens (activeTokenIndex s) with
  | None => Normal s
  | Some newIndex =>
    match tokens !! newIndex with
    | None => Throw TypeError
    | Some token =>
      let s1 := set_activeTokenIndex s newIndex in
      if syncLocked s && audioRef s then Normal (jumpToStart s1 token)
      else Normal s1
    end
  end.

(** [token.start !== 0 || token.end !== 0]; [undefined !== 0] holds. *)
Definition hasTiming (token : TokenView) : bool :=
  match tv_start token, tv_end token with
  | Some tstart, Some tend => negb (tstart =? 0) || negb (tend =? 0)
  | _, _ => true
  end.

(** [navigateCurrentLevel(direction)] *)
Definition navigateCurrentLevel (s : Session) (direction : Z) : Session :=
  let tokens := getTokensByMode s in
  let newIndex := Z.of_nat (activeTokenIndex s) + direction in
  if (0 <=? newIndex) && (newIndex <? Z.of_nat (length tokens)) then
    let s1 := set_activeTokenIndex s (Z.to_nat newIndex) in
    match tokens !! Z.to_nat newIndex with
    | Some token =>
      if syncLocked s && audioRef s && hasTiming token
      then jumpToStart s1 token else s1
    | None => s1
    end
  else s.

(** The three arrays of [navigateParentLevel].  [{ blockIndex, lineIndex,
    globalIndex: currentLineIndex }] is kept as the block index and the
    global index; [line.words.map] and [line.words.flatMap] throw on a line
    without [words]; a word without [chars] puts one [undefined] into the
    array of [flatMap]. *)
Definition lineItems (currentLineIndex : nat) (bs : list Block)
    : list (nat * nat) :=
  concat (imap (fun blockIndex block =>
                  map (fun _ => (blockIndex, currentLineIndex)) (lines block))
               bs).

Definition wordCount (bs : list Block) : Completion nat :=
  foldl (fun acc line =>
    match acc, words line with
    | Normal n, Some ws => Normal (n + length ws)%nat
    | Normal _, None => Throw TypeError
    | Throw e, _ => Throw e
    end) (Normal 0%nat) (allLines bs).

Definition charSlots (word : Word) : nat :=
  match chars word with
  | Some cs => length cs
  | None => 1
  end.

Definition charCount (bs : list Block) : Completion nat :=
  foldl (fun acc line =>
    match acc, words line with
    | Normal n, Some ws => Normal (n + sum_list (map charSlots ws))%nat
    | Normal _, None => Throw TypeError
    | Throw e, _ => Throw e
    end) (Normal 0%nat) (allLines bs).

(** [Math.max(0, Math.min(count - 1, activeTokenIndex + direction * step))] *)
Definition jumpBy (count : nat) (active : nat) (direction step : Z) : nat :=
  Z.to_nat (Z.max 0 (Z.min (Z.of_nat count - 1)
                           (Z.of_nat active + direction * step))).

(** [navigateParentLevel(direction)] *)
Definition navigateParentLevel (s : Session) (direction : Z)
    : Completion Session :=
  match karaokeData s with
  | None => Normal s
  | Some data =>
    let bs := blocks data in
    match recordingMode s with
    | Lines =>
      let currentLineIndex := activeTokenIndex s in
      let allLines := lineItems currentLineIndex bs in
      let currentBlock :=
        match List.find (fun item => (item.2 =? currentLineIndex)%nat) allLines with
        | Some item => item.1
        | None => 0%nat
        end in
      let newBlock :=
        Z.max 0 (Z.min (Z.of_nat (length bs) - 1)
                       (Z.of_nat currentBlock + direction)) in
      if negb (newBlock =? Z.of_nat currentBlock) then
        let newLineIndex :=
          foldl (fun acc block => (acc + length (lines block))%nat) 0%nat
                (take (Z.to_nat newBlock) bs) in
        Normal (set_activeTokenIndex s newLineIndex)
      else Normal s
    | Words =>
      match wordCount bs with
      | Throw e => Throw e
      | Normal count =>
        Normal (set_activeTokenIndex s
                  (jumpBy count (activeTokenIndex s) direction 5))
      end
    | Chars =>
      match charCount bs with
      | Throw e => Throw e
      | Normal count =>
        Normal (set_activeTokenIndex s
                  (jumpBy count (activeTokenIndex s) direction 4))
      end
    | Blocks => Normal s
    end
  end.

(** [getNextRecordingMode(currentMode)]; [None] is [null]. *)
Definition getNextRecordingMode (currentMode : Mode) : option Mode :=
  let currentIndex := indexOf currentMode in
  if (currentIndex <? length modes - 1)%nat then modes !! (currentIndex + 1)%nat
  else None.

End Navigation.

(** ** Sequences of cursor moves *)

Module Moves.
Import Editor Navigation.

(** The buttons, keys and clicks on the progress bar that move the cursor
    inside the current mode. *)
Inductive Move :=
| Next
| Previous
| Arrow (direction : Z)
| Seek (newTime : Q).

Definition move (s : Session) (m : Move) : Completion Session :=
  match m with
  | Next => Normal (goToNextToken s)
  | Previous => goToPreviousToken s
  | Arrow direction => Normal (navigateCurrentLevel s direction)
  | Seek newTime => Normal (handleSeek s newTime)
  end.

(** The moves one after the other, stopping at the first exception. *)
Fixpoint moveAll (s : Session) (ms : list Move) : Completion Session :=
  match ms with
  | [] => Normal s
  | m :: ms' =>
    match move s m with
    | Normal s' => moveAll s' ms'
    | Throw e => Throw e
    end
  end.

(** The cursor is on a token of the list. *)
Definition onToken (s : Session) : Prop :=
  (activeTokenIndex s < length (getTokensByMode s))%nat.

(** One line without word data, shown in word mode as la, a space, la. *)
Definition spaced (i : nat) : Session :=
  mkSession
    (Some (mkDocument "1" None [mkVoice 1 "" "C" "#87CEEB"]
             [mkBlock (mkToken "" 0 0 1 "C")
                      [mkLine (mkToken "la la" 1000 2000 1 "") None]]))
    true true false true 0%Q Words i 1 [Blocks; Lines].

(** Two blocks of two lines and one line, in line mode. *)
Definition twoBlocks (i : nat) : Session :=
  mkSession
    (Some (mkDocument "1" None [mkVoice 1 "" "C" "#87CEEB"]
             [mkBlock (mkToken "" 0 0 1 "C")
                      [mkLine (mkToken "one" 0 0 1 "") None;
                       mkLine (mkToken "two" 0 0 1 "") None];
              mkBlock (mkToken "" 0 0 1 "C")
                      [mkLine (mkToken "three" 0 0 1 "") None]]))
    true true false false 0%Q Lines i 1 [Blocks; Lines].

End Moves.

(** ** The voice panel *)

Module Voices.

(** The [voices] and [currentVoice] state of the timing page. *)
Record Panel := mkPanel {
  panel_voices : list Voice;
  panel_currentVoice : Z
}.

(** [addVoice()]: the new id is [Math.max(...ids, 0) + 1]. *)
Definition addVoice (p : Panel) : Panel :=
  let newId := Propagation.Math_max 0 (map id (panel_voices p)) + 1 in
  mkPanel (panel_voices p ++ [mkVoice newId "" "C" "#FFFFFF"])
          (panel_currentVoice p).

(** [removeVoice(id)]; [voices.find(v => v.id !== id)?.id || 1]. *)
Definition removeVoice (p : Panel) (removed : Z) : Panel :=
  if (length (panel_voices p) <=? 1)%nat then p
  else
    let others v := negb (id v =? removed) in
    mkPanel (List.filter others (panel_voices p))
            (if panel_currentVoice p =? removed then
               match List.find others (panel_voices p) with
               | Some v => jsor (id v) 1
               | None => 1
               end
             else panel_currentVoice p).

(** The [field] and [value] arguments of [updateVoice], for the fields a
    voice has. *)
Inductive Change :=
| SetId (value : Z)
| SetName (value : string)
| SetDefaultPosition (value : string)
| SetColor (value : string).

(** [{...v, [field]: value}] *)
Definition assign (v : Voice) (c : Change) : Voice :=
  match c with
  | SetId value => mkVoice value (name v) (default_position v) (color v)
  | SetName value => mkVoice (id v) value (default_position v) (color v)
  | SetDefaultPosition value => mkVoice (id v) (name v) value (color v)
  | SetColor value => mkVoice (id v) (name v) (default_position v) value
  end.

(** [updateVoice(id, field, value)] *)
Definition updateVoice (p : Panel) (updated : Z) (c : Change) : Panel :=
  mkPanel (map (fun v => if id v =? updated then assign v c else v)
               (panel_voices p))
          (panel_currentVoice p).

(** What the operator does on the panel.  The page calls [updateVoice] for
    the name, the colour and the default position only. *)
Inductive Action :=
| Add
| Remove (removed : Z)
| Update (updated : Z) (c : Change).

Definition editsId (a : Action) : bool :=
  match a with
  | Update _ (SetId _) => true
  | _ => false
  end.

Definition act (p : Panel) (a : Action) : Panel :=
  match a with
  | Add => addVoice p
  | Remove removed => removeVoice p removed
  | Update updated c => updateVoice p updated c
  end.

Definition ids (p : Panel) : list Z := map id (panel_voices p).

(** The initial panel of a new document, and one with a second voice. *)
Definition initial : Panel := mkPanel [mkVoice 1 "" "C" "#87CEEB"] 1.
Definition duet : Panel :=
  mkPanel [mkVoice 1 "" "C" "#87CEEB"; mkVoice 2 "" "C" "#FFFFFF"] 1.

End Voices.

(** ** Playback: what is shown at the playhead *)

Module Stage.
Import Playback.

(** The three flags [getCurrentTokens] attaches to a token. *)
Record Flags := mkFlags { isActive : bool; isPast : bool; isFuture : bool }.

(** [currentTimeMs >= x.start && currentTimeMs <= x.end],
    [currentTimeMs > x.end] and [currentTimeMs < x.start]. *)
Definition flagsAt (currentTimeMs : Q) (t : Token) : Flags :=
  mkFlags (Qle_bool (inject_Z (start t)) currentTimeMs
           && Qle_bool currentTimeMs (inject_Z (end_ t)))
          (Qlt_bool (inject_Z (end_ t)) currentTimeMs)
          (Qlt_bool currentTimeMs (inject_Z (start t))).

(** An entry of one of the four arrays: the token with its indices and
    flags. *)
Record Marked := mkMarked {
  marked_tok : Token;
  marked_blockIndex : nat;
  marked_lineIndex : option nat;
  marked_wordIndex : option nat;
  marked_charIndex : option nat;
  marked_flags : Flags
}.

Record Current := mkCurrent {
  cur_blocks : list Marked;
  cur_lines : list Marked;
  cur_words : list Marked;
  cur_chars : list Marked
}.

Definition noTokens : Current := mkCurrent [] [] [] [].

Definition pushBlock (r : Current) (m : Marked) : Current :=
  mkCurrent (cur_blocks r ++ [m]) (cur_lines r) (cur_words r) (cur_chars r).
Definition pushLine (r : Current) (m : Marked) : Current :=
  mkCurrent (cur_blocks r) (cur_lines r ++ [m]) (cur_words r) (cur_chars r).
Definition pushWord (r : Current) (m : Marked) : Current :=
  mkCurrent (cur_blocks r) (cur_lines r) (cur_words r ++ [m]) (cur_chars r).
Definition pushChar (r : Current) (m : Marked) : Current :=
  mkCurrent (cur_blocks r) (cur_lines r) (cur_words r) (cur_chars r ++ [m]).

(** [xs.forEach((x, index) => ...)] with a body that may throw. *)
Definition forEach {A R : Type} (body : R -> nat -> A -> Completion R)
    (xs : list A) (r : R) : Completion R :=
  foldl (fun acc ix =>
    match acc with
    | Normal r' => body r' ix.1 ix.2
    | Throw e => Throw e
    end) (Normal r) (imap pair xs).

Definition markWord (now : Q) (bi li wi : nat) (word : Word) (r : Current)
    : Completion Current :=
  let r1 :=
    pushWord r (mkMarked (word_tok word) bi (Some li) (Some wi) None
                         (flagsAt now (word_tok word))) in
  match chars word with
  | Some cs =>
    forEach (fun r ci char =>
      Normal (pushChar r (mkMarked char bi (Some li) (Some wi) (Some ci)
                                   (flagsAt now char))))
      cs r1
  | None => Normal r1
  end.

(** [line.words.forEach] throws on a line without [words]. *)
Definition markLine (now : Q) (bi li : nat) (line : Line) (r : Current)
    : Completion Current :=
  let r1 :=
    pushLine r (mkMarked (line_tok line) bi (Some li) None None
                         (flagsAt now (line_tok line))) in
  match words line with
  | Some ws => forEach (fun r wi word => markWord now bi li wi word r) ws r1
  | None => Throw TypeError
  end.

Definition markBlock (now : Q) (bi : nat) (block : Block) (r : Current)
    : Completion Current :=
  let r1 :=
    pushBlock r (mkMarked (block_tok block) bi None None None
                          (flagsAt now (block_tok block))) in
  forEach (fun r li line => markLine now bi li line r) (lines block) r1.

(** [getCurrentTokens()] with [processedLyricsJson] and [currentTime]
    (seconds) as arguments. *)
Definition getCurrentTokens (processed : option Document) (currentTime : Q)
    : Completion Current :=
  match processed with
  | None => Normal noTokens
  | Some json =>
    let currentTimeMs := Double.mul currentTime 1000 in
    forEach (fun r bi block => markBlock currentTimeMs bi block r)
            (blocks json) noTokens
  end.

(** A quotient of two numbers as far as it is a number: dividing by zero
    gives [NaN] or an infinity, which is [None] here. *)
Definition quotient (a b : Q) : option Q :=
  if Qeq_bool b 0 then None else Some (Double.div a b).

(** [getProgress(start, end)]; [None] is a result that is not a finite
    number. *)
Definition getProgress (currentTime : Q) (tstart tend : Z) : option Q :=
  let now := Double.mul currentTime 1000 in
  if Qlt_bool now (inject_Z tstart) then Some 0%Q
  else if Qlt_bool (inject_Z tend) now then Some 100%Q
  else
    option_map (fun q => Double.mul q 100)
      (quotient (Double.sub now (inject_Z tstart))
                (Double.sub (inject_Z tend) (inject_Z tstart))).

(** [`line-${blockIdx}-${lineIdx}`] *)
Definition lineId (blockIdx lineIdx : nat) : string :=
  ("line-" +:+ pretty blockIdx +:+ "-" +:+ pretty lineIdx)%string.

(** [now >= line.start && now <= line.end] *)
Definition activeAt (now : Q) (line : Line) : bool :=
  Qle_bool (inject_Z (start (line_tok line))) now
  && Qle_bool now (inject_Z (end_ (line_tok line))).

(** The first loop of [getActiveLineId]: the ids of the active lines in
    document order. *)
Definition activeLines (now : Q) (bs : list Block) : list string :=
  foldl (fun acc ib =>
    foldl (fun acc il =>
      if activeAt now il.2 then acc ++ [lineId ib.1 il.1] else acc)
      acc (imap pair (lines ib.2)))
    [] (imap pair bs).

(** The second loop: the first line that starts after [now]; the loop is
    at block [blockIdx], [rest] are the blocks from there on. *)
Fixpoint nextLineIn (now : Q) (blockIdx lineIdx : nat) (rest : list Line)
    : option string :=
  match rest with
  | [] => None
  | line :: rest' =>
    if Qlt_bool now (inject_Z (start (line_tok line)))
    then Some (lineId blockIdx lineIdx)
    else nextLineIn now blockIdx (lineIdx + 1) rest'
  end.

Fixpoint nextLine (now : Q) (blockIdx : nat) (rest : list Block)
    : option string :=
  match rest with
  | [] => None
  | block :: rest' =>
    match nextLineIn now blockIdx 0 (lines block) with
    | Some found => Some found
    | None => nextLine now (blockIdx + 1) rest'
    end
  end.

(** [getActiveLineId()]; [None] is [null]. *)
Definition getActiveLineId (processed : option Document) (currentTime : Q)
    : option string :=
  match processed with
  | None => None
  | Some json =>
    let now := Double.mul currentTime 1000 in
    let activeLines := activeLines now (blocks json) in
    if (1 <? length activeLines)%nat then
      activeLines !! (length activeLines / 2)%nat
    else if (length activeLines =? 1)%nat then activeLines !! 0%nat
    else
      match nextLine now 0 (blocks json) with
      | Some found => Some found
      | None =>
        match last (blocks json) with
        | Some lastBlock =>
          if (0 <? length (lines lastBlock))%nat then
            Some (lineId (length (blocks json) - 1)
                         (length (lines lastBlock) - 1))
          else None
        | None => None
        end
      end
  end.

(** [voice?.color || '#87CEEB'] for the first voice with the id. *)
Definition getVoiceColor (processed : option Document) (voiceId : Z)
    : string :=
  match processed with
  | None => "#87CEEB"
  | Some json =>
    match List.find (fun v => id v =? voiceId) (voices json) with
    | Some v =>
      match color v with
      | EmptyString => "#87CEEB"
      | c => c
      end
    | None => "#87CEEB"
    end
  end.

(** [x.toString().padStart(2, '0')] *)
Definition padStart2 (s : string) : string :=
  match String.length s with
  | 0%nat => "00" +:+ s
  | 1%nat => "0" +:+ s
  | _ => s
  end.

(** [formatTime(time)] of the playback screen, for a [time] that is a
    finite number: [Math.floor(time / 60)] and [Math.floor(time % 60)],
    where [%] truncates the quotient towards zero.  The remainder of two
    numbers is a number, so [%] does not round; the quotient [time / 60]
    is taken before rounding, which leaves its floor as it is for a [time]
    below [2 ^ 53]. *)
Definition remainder60 (time : Q) : Q :=
  let q := (time / 60)%Q in
  let truncated := if Qle_bool 0 q then Qfloor q else Qceiling q in
  (time - inject_Z (60 * truncated))%Q.

Definition formatTime (time : Q) : string :=
  let minutes := Qfloor (time / 60)%Q in
  let seconds := Qfloor (remainder60 time) in
  (pretty minutes +:+ ":" +:+ padStart2 (pretty seconds))%string.

End Stage.

(** ** Predicates used in the statements about the clock display *)

Module Clock.

(** The decimal digit [d] as a character, and a number below 100 written
    with two digits. *)
Definition digit (d : Z) : ascii := ascii_of_nat (48 + Z.to_nat d).

Definition twoDigits (s : Z) : string :=
  String (digit (s / 10)) (String (digit (s mod 10)) EmptyString).

End Clock.

(** ** The arrays of [getCurrentTokens] written as maps over the document *)

Module Marks.
Import Editor Stage.

Definition ofBlock (now : Q) (bi : nat) (block : Block) : Marked :=
  mkMarked (block_tok block) bi None None None (flagsAt now (block_tok block)).

Definition ofLine (now : Q) (bi li : nat) (line : Line) : Marked :=
  mkMarked (line_tok line) bi (Some li) None None
           (flagsAt now (line_tok line)).

Definition ofWord (now : Q) (bi li wi : nat) (word : Word) : Marked :=
  mkMarked (word_tok word) bi (Some li) (Some wi) None
           (flagsAt now (word_tok word)).

Definition ofChar (now : Q) (bi li wi ci : nat) (char : Token) : Marked :=
  mkMarked char bi (Some li) (Some wi) (Some ci) (flagsAt now char).

Definition charsOf (now : Q) (bi li wi : nat) (word : Word) : list Marked :=
  imap (ofChar now bi li wi) (charsOrEmpty word).

Definition lineWords (now : Q) (bi li : nat) (line : Line) : list Marked :=
  imap (ofWord now bi li) (wordsOrEmpty line).

Definition lineChars (now : Q) (bi li : nat) (line : Line) : list Marked :=
  concat (imap (charsOf now bi li) (wordsOrEmpty line)).

(** The four arrays for the document [json] at [now] milliseconds. *)
Definition marked (now : Q) (json : Document) : Current :=
  mkCurrent
    (imap (ofBlock now) (blocks json))
    (concat (imap (fun bi block => imap (ofLine now bi) (lines block))
                  (blocks json)))
    (concat (imap (fun bi block =>
                     concat (imap (lineWords now bi) (lines block)))
                  (blocks json)))
    (concat (imap (fun bi block =>
                     concat (imap (lineChars now bi) (lines block)))
                  (blocks json))).

(** All entries of the four arrays. *)
Definition entries (r : Current) : list Marked :=
  cur_blocks r ++ cur_lines r ++ cur_words r ++ cur_chars r.

(** Exactly one of the three flags is set. *)
Definition exactlyOne (f : Flags) : bool :=
  match isActive f, isPast f, isFuture f with
  | true, false, false | false, true, false | false, false, true => true
  | _, _, _ => false
  end.

(** One line of two words, the second one with characters, for a playhead
    at 1.5 s. *)
Definition sample : Document :=
  mkDocument "1" None [mkVoice 1 "" "C" "#87CEEB"]
    [mkBlock (mkToken "" 1000 3000 1 "C")
       [mkLine (mkToken "" 1000 3000 1 "")
          (Some [mkWord (mkToken "la" 1000 2000 1 "") None;
                 mkWord (mkToken "" 2000 3000 1 "")
                        (Some [mkToken "n" 2000 2500 1 "";
                               mkToken "a" 2500 3000 1 ""])])]].

End Marks.

(** ** The lyrics page: from text to a document *)

Module Input.
Import Editor.

Definition LF : ascii := ascii_of_nat 10.
Definition CR : ascii := ascii_of_nat 13.

(** [s.replace(/\r\n/g, '\n')] *)
Fixpoint replaceCRLF (s : string) : string :=
  match s with
  | EmptyString => EmptyString
  | String c s' =>
    if Ascii.eqb c CR then
      match s' with
      | String d s'' =>
        if Ascii.eqb d LF then String LF (replaceCRLF s'')
        else String c (replaceCRLF s')
      | EmptyString => String c EmptyString
      end
    else String c (replaceCRLF s')
  end.

(** [s.replace(/\r/g, '\n')] *)
Fixpoint replaceCR (s : string) : string :=
  match s with
  | EmptyString => EmptyString
  | String c s' =>
    String (if Ascii.eqb c CR then LF else c) (replaceCR s')
  end.

(** The length of the match of [\s*\n] at the start of [s], if there is
    one: [\s*] is greedy, so the match ends with the last line feed of the
    leading white space. *)
Fixpoint blankLength (s : string) : option nat :=
  match s with
  | EmptyString => None
  | String c s' =>
    if isWhite c then
      match blankLength s' with
      | Some n => Some (S n)
      | None => if Ascii.eqb c LF then Some 1%nat else None
      end
    else None
  end.

(** [s.split(/\n\s*\n/)]: [piece] holds the characters since the last
    separator, [skip] the characters of the current separator still to be
    passed over. *)
Fixpoint splitBlank (skip : nat) (piece : string) (s : string) : list string :=
  match s with
  | EmptyString => [piece]
  | String c s' =>
    match skip with
    | S skip' => splitBlank skip' piece s'
    | O =>
      if Ascii.eqb c LF then
        match blankLength s' with
        | Some n => piece :: splitBlank n EmptyString s'
        | None => splitBlank 0 (piece ++ String c EmptyString) s'
        end
      else splitBlank 0 (piece ++ String c EmptyString) s'
    end
  end.

(** [s.split('\n')] *)
Fixpoint splitLF (piece : string) (s : string) : list string :=
  match s with
  | EmptyString => [piece]
  | String c s' =>
    if Ascii.eqb c LF then piece :: splitLF EmptyString s'
    else splitLF (piece ++ String c EmptyString) s'
  end.

(** [x => x.trim()] as a filter condition: the trimmed string is not
    empty. *)
Definition hasText (s : string) : bool := negb (allWhite s).

(** [createKaraokeJSON(lyricsText)]; [audioFile] is the name of the audio
    file, if one was chosen. *)
Definition createKaraokeJSON (audioFile : option string) (lyricsText : string)
    : Document :=
  let normalizedText := replaceCR (replaceCRLF lyricsText) in
  let blockTexts :=
    List.filter hasText (splitBlank 0 EmptyString normalizedText) in
  mkDocument "1" audioFile [mkVoice 1 "" "C" "#87CEEB"]
    (imap (fun blockIndex blockText =>
       let lines := List.filter hasText (splitLF EmptyString blockText) in
       let b := Z.of_nat blockIndex in
       mkBlock (mkToken "" (b * 5000) ((b + 1) * 5000) 1 "C")
         (imap (fun lineIndex lineText =>
            let l := Z.of_nat lineIndex in
            mkLine (mkToken lineText (b * 5000 + l * 1000)
                            (b * 5000 + (l + 1) * 1000) 1 "")
                   (Some []))
            lines))
       blockTexts).

(** Two verses of two lines, separated by a blank line with a space in it,
    with Windows line ends. *)
Definition verses : string :=
  ("one" ++ String CR (String LF "two")
   ++ String CR (String LF (String space (String CR (String LF "three"))))
   ++ String LF "four" ++ String LF "")%string.

End Input.

(** ** Predicates used in the statements about exported documents *)

Module Exported.
Import Cleanup Editor.

(** Every array of the document that is present has a member, and every
    line, word and character has a timestamp. *)
Definition charsRecorded (word : Word) : bool :=
  match chars word with
  | None => true
  | Some cs => negb (length cs =? 0)%nat && forallb isTimed cs
  end.

Definition wordsRecorded (line : Line) : bool :=
  match words line with
  | None => true
  | Some ws =>
    negb (length ws =? 0)%nat
    && forallb (fun word => isTimed (word_tok word) && charsRecorded word) ws
  end.

Definition fullyRecorded (d : Document) : bool :=
  forallb (fun block =>
    forallb (fun line => isTimed (line_tok line) && wordsRecorded line)
            (lines block))
    (blocks d).

(** No token with children repeats their text: a block with lines, a line
    with words and a word with characters have an empty text. *)
Definition bare (t : Token) : bool :=
  match text t with
  | EmptyString => true
  | _ => false
  end.

Definition wordTidy (word : Word) : bool :=
  match chars word with
  | Some (_ :: _) => bare (word_tok word)
  | _ => true
  end.

Definition lineTidy (line : Line) : bool :=
  match words line with
  | Some (w :: ws) => bare (line_tok line) && forallb wordTidy (w :: ws)
  | _ => true
  end.

Definition blockTidy (block : Block) : bool :=
  match lines block with
  | l :: ls => bare (block_tok block) && forallb lineTidy (l :: ls)
  | [] => true
  end.

(** A line without a timestamp on any of its words. *)
Definition unrecordedWords (line : Line) : bool :=
  (length (timed word_tok (wordsOrEmpty line)) =? 0)%nat.

End Exported.

(** ** Switching between modes *)

Module Switching.
Import Editor.

(** [{...x, type, index, blockIndex, ...}]: of the copied fields the text,
    the voice and the two stamps are kept. *)
Definition typed (mode : Mode) (n : nat) (t : Token)
    (bi li wi ci : option nat) : TokenView :=
  mkView mode n (text t) (voice t) bi li wi ci
         (Some (start t)) (Some (end_ t)).

Definition lineLoop (bi : nat) (block : Block) (acc : list TokenView)
    : Completion (list TokenView) :=
  Stage.forEach (fun acc li line =>
    Normal (push acc (fun n =>
      typed Lines n (line_tok line) (Some bi) (Some li) None None)))
    (lines block) acc.

(** [line.words.forEach] throws on a line without [words]. *)
Definition wordLoop (bi li : nat) (line : Line) (acc : list TokenView)
    : Completion (list TokenView) :=
  match words line with
  | None => Throw TypeError
  | Some ws =>
    Stage.forEach (fun acc wi word =>
      Normal (push acc (fun n =>
        typed Words n (word_tok word) (Some bi) (Some li) (Some wi) None)))
      ws acc
  end.

(** [word.chars.forEach] throws on a word without [chars]. *)
Definition charLoop (bi li : nat) (line : Line) (acc : list TokenView)
    : Completion (list TokenView) :=
  match words line with
  | None => Throw TypeError
  | Some ws =>
    Stage.forEach (fun acc wi word =>
      match chars word with
      | None => Throw TypeError
      | Some cs =>
        Stage.forEach (fun acc ci char =>
          Normal (push acc (fun n =>
            typed Chars n char (Some bi) (Some li) (Some wi) (Some ci))))
          cs acc
      end)
      ws acc
  end.

(** The [forEach] over the blocks and over the lines of each block. *)
Definition perLine
    (body : nat -> nat -> Line -> list TokenView -> Completion (list TokenView))
    (bs : list Block) : Completion (list TokenView) :=
  Stage.forEach (fun acc bi block =>
    Stage.forEach (fun acc li line => body bi li line acc) (lines block) acc)
    bs [].

(** [getTokensByModeType(mode)] *)
Definition getTokensByModeType (s : Session) (mode : Mode)
    : Completion (list TokenView) :=
  match karaokeData s with
  | None => Normal []
  | Some d =>
    match mode with
    | Blocks =>
      Normal (imap (fun blockIndex block =>
                      typed Blocks blockIndex (block_tok block)
                            (Some blockIndex) None None None)
                   (blocks d))
    | Lines =>
      Stage.forEach (fun acc bi block => lineLoop bi block acc) (blocks d) []
    | Words => perLine wordLoop (blocks d)
    | Chars => perLine charLoop (blocks d)
    end
  end.

(** [a === b] on indices that may be [undefined]. *)
Definition sameIndex (a b : option nat) : bool :=
  match a, b with
  | Some x, Some y => (x =? y)%nat
  | None, None => true
  | _, _ => false
  end.

(** The test of the two loops of [findRelatedToken], with [level] the
    coarser of the two modes: the same block, and the same line or the
    same line and word where [level] has them. *)
Definition within (level : Mode) (toToken currentToken : TokenView) : bool :=
  sameIndex (blockIndex toToken) (blockIndex currentToken)
  && match level with
     | Blocks => true
     | Lines => sameIndex (lineIndex toToken) (lineIndex currentToken)
     | Words =>
       sameIndex (lineIndex toToken) (lineIndex currentToken)
       && sameIndex (wordIndex toToken) (wordIndex currentToken)
     | Chars => false
     end.

(** [for (i = 0; ...) if (p(tokens[i])) return i]; the loop is at index
    [i], [rest] are the tokens from there on. *)
Fixpoint firstIndex (p : TokenView -> bool) (i : nat) (rest : list TokenView)
    : option nat :=
  match rest with
  | [] => None
  | token :: rest' =>
    if p token then Some i else firstIndex p (i + 1) rest'
  end.

(** [findRelatedToken(fromMode, toMode, currentIndex)] *)
Definition findRelatedToken (s : Session) (fromMode toMode : Mode)
    (currentIndex : nat) : Completion nat :=
  match karaokeData s with
  | None => Normal 0%nat
  | Some _ =>
    match getTokensByModeType s fromMode with
    | Throw e => Throw e
    | Normal fromTokens =>
      match getTokensByModeType s toMode with
      | Throw e => Throw e
      | Normal toTokens =>
        if (length fromTokens =? 0)%nat || (length toTokens =? 0)%nat
           || (length fromTokens <=? currentIndex)%nat
        then Normal 0%nat
        else
          match fromTokens !! currentIndex with
          | None => Normal 0%nat
          | Some currentToken =>
            let fromLevel := indexOf fromMode in
            let toLevel := indexOf toMode in
            if (toLevel <? fromLevel)%nat then
              match firstIndex (fun toToken => within toMode toToken currentToken)
                               0 toTokens with
              | Some i => Normal i
              | None => Normal 0%nat
              end
            else if (fromLevel <? toLevel)%nat then
              match firstIndex (fun toToken => within fromMode toToken currentToken)
                               0 toTokens with
              | Some i => Normal i
              | None => Normal 0%nat
              end
            else Normal 0%nat
          end
      end
    end
  end.

(** Token [i] of [fromMode] has a token of [toMode] inside it. *)
Definition hasInside (s : Session) (fromMode toMode : Mode) (i : nat) : Prop :=
  exists fromTokens toTokens currentToken inner,
    getTokensByModeType s fromMode = Normal fromTokens /\
    getTokensByModeType s toMode = Normal toTokens /\
    fromTokens !! i = Some currentToken /\
    In inner toTokens /\ within fromMode inner currentToken = true.

(** The block, line, word and character index of a token. *)
Definition coords (t : TokenView)
    : option nat * option nat * option nat * option nat :=
  (blockIndex t, lineIndex t, wordIndex t, charIndex t).

End Switching.

(** ** The coordinates of the tokens of a mode, written as maps *)

Module Grid.
Import Editor Switching.

Definition Coords : Type := option nat * option nat * option nat * option nat.

Definition blockCoords (bs : list Block) : list Coords :=
  imap (fun bi _ => (Some bi, None, None, None)) bs.

Definition lineCoords (bs : list Block) : list Coords :=
  concat (imap (fun bi block =>
                  imap (fun li _ => (Some bi, Some li, None, None))
                       (lines block))
               bs).

Definition wordCoords (bs : list Block) : list Coords :=
  concat (imap (fun bi block =>
    concat (imap (fun li line =>
                    imap (fun wi _ => (Some bi, Some li, Some wi, None))
                         (wordsOrEmpty line))
                 (lines block)))
    bs).

(** Two lines of two words and of one word, all with character data, in
    mode [mode] at token [i]. *)
Definition letters (txt : string) : option (list Token) :=
  Some (map (fun c => mkToken c 0 0 1 "") (splitChars txt)).

Definition sample (mode : Mode) (i : nat) : Session :=
  mkSession
    (Some (mkDocument "1" None [mkVoice 1 "" "C" "#87CEEB"]
       [mkBlock (mkToken "" 0 0 1 "C")
          [mkLine (mkToken "la la" 0 0 1 "")
                  (Some [mkWord (mkToken "la" 0 0 1 "") (letters "la");
                         mkWord (mkToken "la" 0 0 1 "") (letters "la")]);
           mkLine (mkToken "na" 0 0 1 "")
                  (Some [mkWord (mkToken "na" 0 0 1 "") (letters "na")])]]))
    true true false false 0%Q mode i 1 [Blocks; Lines].

End Grid.

(** ** The tokens shown around the cursor *)

Module Display.
Import Editor Switching.

(** An entry of the array of [getDisplayTokens]: the token with
    [isActive] and [displayIndex]. *)
Record Shown := mkShown {
  shown : TokenView;
  isActive : bool;
  displayIndex : nat
}.

(** [xs.slice(from, to)] for [0 <= from] and [to <= xs.length]. *)
Definition slice {A : Type} (from to : nat) (xs : list A) : list A :=
  take (to - from) (drop from xs).

(** [t.lineIndex === activeToken.lineIndex + delta]: a sum with
    [undefined] is [NaN], which equals nothing. *)
Definition lineIs (delta : Z) (t activeToken : TokenView) : bool :=
  match lineIndex t, lineIndex activeToken with
  | Some n, Some m => Z.of_nat n =? Z.of_nat m + delta
  | _, _ => false
  end.

(** [tokens.indexOf(token)] compares references, and every entry of
    [tokens] is an object of its own: a token is kept together with its
    place in [tokens]. *)
Definition withPlace (tokens : list TokenView) : list (nat * TokenView) :=
  imap pair tokens.

Definition visible (it : nat * TokenView) : bool :=
  negb (isSpaceToken (Some it.2)).

(** [{...token, isActive: tokens.indexOf(token) === activeIndex,
    displayIndex: tokens.indexOf(token)}] *)
Definition mark (activeIndex : nat) (it : nat * TokenView) : Shown :=
  mkShown it.2 (it.1 =? activeIndex)%nat it.1.

(** [getDisplayTokens()] *)
Definition getDisplayTokens (s : Session) : list Shown :=
  let tokens := getTokensByMode s in
  if (length tokens =? 0)%nat then []
  else
    let activeIndex := Nat.min (activeTokenIndex s) (length tokens - 1) in
    let placed := withPlace tokens in
    match recordingMode s with
    | Blocks =>
      let blockStart := Nat.max 0 (activeIndex - 1) in
      let blockEnd := Nat.min (length tokens) (activeIndex + 2) in
      map (mark activeIndex)
          (List.filter visible (slice blockStart blockEnd placed))
    | Lines =>
      let lineStart := Nat.max 0 (activeIndex - 2) in
      let lineEnd := Nat.min (length tokens) (activeIndex + 3) in
      map (mark activeIndex)
          (List.filter visible (slice lineStart lineEnd placed))
    | Words =>
      match tokens !! activeIndex with
      | None => []
      | Some activeToken =>
        let sameBlock it :=
          sameIndex (blockIndex it.2) (blockIndex activeToken) in
        let currentLineTokens :=
          List.filter (fun it =>
            sameBlock it
            && sameIndex (lineIndex it.2) (lineIndex activeToken)
            && visible it) placed in
        let lineAbove :=
          List.filter (fun it =>
            sameBlock it && lineIs (-1) it.2 activeToken && visible it)
            placed in
        let lineBelow :=
          List.filter (fun it =>
            sameBlock it && lineIs 1 it.2 activeToken && visible it)
            placed in
        map (mark activeIndex) (lineAbove ++ currentLineTokens ++ lineBelow)
      end
    | Chars =>
      match tokens !! activeIndex with
      | None => []
      | Some activeCharToken =>
        let currentLineChars :=
          List.filter (fun it =>
            sameIndex (blockIndex it.2) (blockIndex activeCharToken)
            && sameIndex (lineIndex it.2) (lineIndex activeCharToken)
            && visible it) placed in
        map (mark activeIndex) currentLineChars
      end
    end.

(** The place of the cursor in the display: [Math.min(activeTokenIndex,
    tokens.length - 1)]. *)
Definition activePlace (s : Session) : nat :=
  Nat.min (activeTokenIndex s) (length (getTokensByMode s) - 1).

End Display.

(** ** Predicates used in the statements about the text under linear timing *)

Module Letters.
Import Editor.

(** [word'] is [word] with the same text, and with the characters of that
    text, one by one, as its [chars]. *)
Definition wordKept (word word' : Word) : Prop :=
  text (word_tok word') = text (word_tok word) /\
  option_map (map text) (chars word')
    = Some (splitChars (text (word_tok word))).

Definition lineKept (line line' : Line) : Prop :=
  text (line_tok line') = text (line_tok line) /\
  Forall2 wordKept (wordsOrEmpty line) (wordsOrEmpty line') /\
  is_Some (words line').

Definition blockKept (block block' : Block) : Prop :=
  text (block_tok block') = text (block_tok block) /\
  Forall2 lineKept (lines block) (lines block').

End Letters.

(** * Verification *)

(** ** Rounding to binary64 *)

Section DoubleFacts.
Import Double.
Local Open Scope Q_scope.

Lemma pow2_pos e : 0 < 2 ^ e.
Proof. apply Qpower_0_lt. reflexivity. Qed.

Lemma pow2_plus a b : 2 ^ (a + b) == 2 ^ a * 2 ^ b.
Proof. apply Qpower_plus. discriminate. Qed.

Lemma pow2_minus a b : 2 ^ (a - b) == 2 ^ a / 2 ^ b.
Proof. apply Qpower_minus. discriminate. Qed.

Lemma pow2_le a b : (a <= b)%Z -> 2 ^ a <= 2 ^ b.
Proof. intros H. apply Qpower_le_compat_l; [exact H|discriminate]. Qed.

Lemma pow2_lt a b : (a < b)%Z -> 2 ^ a < 2 ^ b.
Proof. intros H. apply Qpower_lt_compat_l; [exact H|reflexivity]. Qed.

Lemma pow2_le_inv a b : 2 ^ a <= 2 ^ b -> (a <= b)%Z.
Proof. intros H. apply (Qpower_le_compat_l_inv 2); [exact H|reflexivity]. Qed.

Lemma pow2_lt_inv a b : 2 ^ a < 2 ^ b -> (a < b)%Z.
Proof. intros H. apply (Qpower_lt_compat_l_inv 2); [exact H|reflexivity]. Qed.

Lemma pow2_Z a : (0 <= a)%Z -> 2 ^ a == inject_Z (2 ^ a).
Proof. intros H. rewrite Zpower_Qpower by exact H. reflexivity. Qed.

Lemma pow2_succ a : 2 ^ (a + 1) == 2 * 2 ^ a.
Proof. rewrite pow2_plus. change (2 ^ 1) with 2. ring. Qed.

Lemma pow2_pred a : 2 * 2 ^ (a - 1) == 2 ^ a.
Proof. rewrite <- pow2_succ. replace (a - 1 + 1)%Z with a by lia. reflexivity. Qed.

(** [ilog2 x] is the exponent of the binade of a positive [x]. *)
Lemma ilog2_spec x : 0 < x -> 2 ^ ilog2 x <= x /\ x < 2 ^ (ilog2 x + 1).
Proof.
  intros Hx. unfold ilog2. destruct x as [n d]. cbn [Qnum Qden].
  assert (Hn : (0 < n)%Z).
  { unfold Qlt in Hx. simpl in Hx. lia. }
  set (ln := Z.log2 n). set (ld := Z.log2 (Z.pos d)).
  destruct (Z.log2_spec n Hn) as [Hn1 Hn2]. fold ln in Hn1, Hn2.
  destruct (Z.log2_spec (Z.pos d) eq_refl) as [Hd1 Hd2]. fold ld in Hd1, Hd2.
  assert (Hln : (0 <= ln)%Z) by apply Z.log2_nonneg.
  assert (Hld : (0 <= ld)%Z) by apply Z.log2_nonneg.
  rewrite Zle_Qle in Hn1, Hd1. rewrite Zlt_Qlt in Hn2, Hd2.
  rewrite <- pow2_Z in Hn1, Hn2, Hd1, Hd2 by lia.
  unfold Z.succ in Hn2, Hd2. rewrite pow2_succ in Hn2, Hd2.
  pose proof (pow2_pos ln) as HP. pose proof (pow2_pos ld) as HR.
  assert (Ex : (n # d) * inject_Z (Z.pos d) == inject_Z n).
  { rewrite (Qmake_Qdiv n d). field. discriminate. }
  assert (Ea : 2 ^ (ln - ld) * 2 ^ ld == 2 ^ ln).
  { rewrite pow2_minus. field. pose proof (pow2_pos ld). lra. }
  pose proof (pow2_succ (ln - ld)) as Es.
  pose proof (pow2_pred (ln - ld)) as Ep.
  pose proof (pow2_pos (ln - ld)) as Ha.
  assert (Hbool : Qle_bool (2 ^ (ln - ld)) (n # d) = true
                  <-> 2 ^ (ln - ld) <= n # d) by apply Qle_bool_iff.
  destruct (Qle_bool (2 ^ (ln - ld)) (n # d));
    [|replace (ln - ld - 1 + 1)%Z with (ln - ld)%Z by lia];
    revert Hbool Ex Ea Es Ep Ha HP HR Hn1 Hn2 Hd1 Hd2;
    generalize (2 ^ (ln - ld)) (2 ^ (ln - ld + 1)) (2 ^ (ln - ld - 1))
               (2 ^ ln) (2 ^ ld) (inject_Z n) (inject_Z (Z.pos d)) (n # d);
    intros A B C P R N Dn x Hbool Ex Ea Es Ep Ha HP HR Hn1 Hn2 Hd1 Hd2.
  - assert (E : A <= x) by (apply Hbool; reflexivity).
    split; [exact E|]. rewrite Es.
    destruct (Qlt_le_dec x (2 * A)) as [H|H]; [exact H|exfalso].
    assert (2 * A * Dn <= x * Dn) by (apply Qmult_le_compat_r; lra).
    assert (2 * A * R <= 2 * A * Dn) by (apply Qmult_le_l; lra).
    lra.
  - assert (E : x < A).
    { destruct (Qlt_le_dec x A) as [H|H]; [exact H|].
      apply Hbool in H. discriminate. }
    split; [|exact E]. rewrite <- Ep in *.
    destruct (Qlt_le_dec x C) as [H|H]; [exfalso|exact H].
    assert (x * Dn <= C * Dn) by (apply Qmult_le_compat_r; lra).
    assert (C * Dn < C * (2 * R)) by (apply Qmult_lt_l; lra).
    lra.
Qed.

Lemma ilog2_unique x l : 2 ^ l <= x -> x < 2 ^ (l + 1) -> ilog2 x = l.
Proof.
  intros H1 H2.
  assert (Hx : 0 < x) by (pose proof (pow2_pos l); lra).
  destruct (ilog2_spec x Hx) as [H3 H4].
  assert (ilog2 x < l + 1)%Z by (apply pow2_lt_inv; lra).
  assert (l < ilog2 x + 1)%Z by (apply pow2_lt_inv; lra).
  lia.
Qed.

Lemma ilog2_comp x y : 0 < x -> x == y -> ilog2 x = ilog2 y.
Proof.
  intros Hx E. destruct (ilog2_spec x Hx) as [H1 H2].
  symmetry. apply ilog2_unique; rewrite <- E; assumption.
Qed.

Lemma ilog2_mono x y : 0 < x -> x <= y -> (ilog2 x <= ilog2 y)%Z.
Proof.
  intros Hx Hxy. destruct (ilog2_spec x Hx) as [H1 _].
  destruct (ilog2_spec y) as [_ H2]; [lra|].
  assert (ilog2 x < ilog2 y + 1)%Z by (apply pow2_lt_inv; lra). lia.
Qed.


Lemma inject_Z_sub_le a b c : inject_Z a - inject_Z b <= inject_Z c -> (a - b <= c)%Z.
Proof.
  intros H. rewrite Zle_Qle. unfold Z.sub. rewrite inject_Z_plus, inject_Z_opp.
  lra.
Qed.

(** [roundEven q] is an integer nearest to [q], the even one at a tie. *)
Lemma roundEven_spec q :
  q - (1 # 2) <= inject_Z (roundEven q) /\
  inject_Z (roundEven q) <= q + (1 # 2) /\
  (inject_Z (roundEven q) == q + (1 # 2) \/
   inject_Z (roundEven q) == q - (1 # 2) -> Z.even (roundEven q) = true).
Proof.
  unfold roundEven.
  pose proof (Qfloor_le q) as H1. pose proof (Qlt_floor q) as H2.
  rewrite inject_Z_plus in H2. change (inject_Z 1) with 1 in H2.
  destruct (Qcompare (q - inject_Z (Qfloor q)) (1 # 2)) eqn:E.
  - apply Qeq_alt in E.
    destruct (Z.even (Qfloor q)) eqn:Ev.
    + split; [lra|split; [lra|intros _; exact Ev]].
    + rewrite inject_Z_plus. change (inject_Z 1) with 1.
      split; [lra|split; [lra|intros _]].
      rewrite Z.even_add, Ev. reflexivity.
  - apply Qlt_alt in E. split; [lra|split; [lra|intros [H|H]; lra]].
  - apply Qgt_alt in E. rewrite inject_Z_plus. change (inject_Z 1) with 1.
    split; [lra|split; [lra|intros [H|H]; lra]].
Qed.

Lemma roundEven_unique q z :
  q - (1 # 2) <= inject_Z z -> inject_Z z <= q + (1 # 2) ->
  (inject_Z z == q + (1 # 2) \/ inject_Z z == q - (1 # 2) -> Z.even z = true) ->
  roundEven q = z.
Proof.
  intros H1 H2 H3. destruct (roundEven_spec q) as (H4 & H5 & H6).
  set (z0 := roundEven q) in *.
  assert (Ha : (z - z0 <= 1)%Z) by (apply inject_Z_sub_le; change (inject_Z 1) with 1; lra).
  assert (Hb : (z0 - z <= 1)%Z) by (apply inject_Z_sub_le; change (inject_Z 1) with 1; lra).
  destruct (Z.eq_dec z0 z) as [E|E]; [exact E|exfalso].
  assert (Hc : z = (z0 + 1)%Z \/ z0 = (z + 1)%Z) by lia.
  destruct Hc as [-> | Hc].
  - rewrite inject_Z_plus in H1, H2, H3. change (inject_Z 1) with 1 in H1, H2, H3.
    assert (E1 : Z.even (z0 + 1) = true) by (apply H3; left; lra).
    assert (E2 : Z.even z0 = true) by (apply H6; right; lra).
    rewrite Z.even_add, E2 in E1. discriminate.
  - rewrite Hc in H4, H5, H6.
    rewrite inject_Z_plus in H4, H5, H6. change (inject_Z 1) with 1 in H4, H5, H6.
    assert (E1 : Z.even (z + 1) = true) by (apply H6; left; lra).
    assert (E2 : Z.even z = true) by (apply H3; right; lra).
    rewrite Z.even_add, E2 in E1. discriminate.
Qed.

Lemma roundEven_comp q q' : q == q' -> roundEven q = roundEven q'.
Proof.
  intros E. destruct (roundEven_spec q') as (H1 & H2 & H3).
  apply roundEven_unique; rewrite ?E; assumption.
Qed.

Lemma roundEven_Z z : roundEven (inject_Z z) = z.
Proof. apply roundEven_unique; [lra|lra|intros [H|H]; lra]. Qed.

Lemma roundEven_opp q : roundEven (- q) = (- roundEven q)%Z.
Proof.
  destruct (roundEven_spec q) as (H1 & H2 & H3).
  apply roundEven_unique; rewrite inject_Z_opp; [lra|lra|].
  intros H. rewrite Z.even_opp. apply H3. destruct H as [H|H]; [right|left]; lra.
Qed.

Lemma roundEven_mono q q' : q <= q' -> (roundEven q <= roundEven q')%Z.
Proof.
  intros Hq. destruct (roundEven_spec q) as (H1 & H2 & H3).
  destruct (roundEven_spec q') as (H4 & H5 & H6).
  set (z := roundEven q) in *. set (z' := roundEven q') in *.
  destruct (Z.le_gt_cases z z') as [H|H]; [exact H|exfalso].
  assert (Ha : (z - z' <= 1)%Z)
    by (apply inject_Z_sub_le; change (inject_Z 1) with 1; lra).
  assert (E : z = (z' + 1)%Z) by lia.
  rewrite E in H1, H2, H3.
  rewrite inject_Z_plus in H1, H2, H3. change (inject_Z 1) with 1 in H1, H2, H3.
  assert (E1 : Z.even (z' + 1) = true) by (apply H3; left; lra).
  assert (E2 : Z.even z' = true) by (apply H6; right; lra).
  rewrite Z.even_add, E2 in E1. discriminate.
Qed.


Lemma Qabs_positive x : ~ x == 0 -> 0 < Qabs x.
Proof.
  intros Hx. apply Qabs_case; intros H.
  - destruct (Qlt_le_dec 0 x) as [Hl|Hl]; [exact Hl|].
    exfalso. apply Hx. lra.
  - destruct (Qlt_le_dec x 0) as [Hl|Hl]; [lra|].
    exfalso. apply Hx. lra.
Qed.

Lemma exponent_min x : (-1074 <= exponent x)%Z.
Proof. unfold exponent. lia. Qed.

Lemma exponent_bounds x :
  ~ x == 0 ->
  Qabs x < 2 ^ (exponent x + 53) /\
  ((-1074 < exponent x)%Z -> 2 ^ (exponent x + 52) <= Qabs x).
Proof.
  intros Hx. destruct (ilog2_spec (Qabs x) (Qabs_positive x Hx)) as [H1 H2].
  unfold exponent. set (a := ilog2 (Qabs x)) in *. split.
  - eapply Qlt_le_trans; [exact H2|]. apply pow2_le. lia.
  - intros Hgt. replace (Z.max (-1074) (a - 52) + 52)%Z with a by lia. exact H1.
Qed.

Lemma exponent_comp x y : ~ x == 0 -> x == y -> exponent x = exponent y.
Proof.
  intros Hx E. unfold exponent. f_equal. f_equal.
  apply ilog2_comp; [apply Qabs_positive; exact Hx|]. rewrite E. reflexivity.
Qed.

Lemma exponent_mono x y : 0 < x -> x <= y -> (exponent x <= exponent y)%Z.
Proof.
  intros Hx Hxy. unfold exponent.
  assert (ilog2 (Qabs x) <= ilog2 (Qabs y))%Z.
  { apply ilog2_mono.
    - rewrite Qabs_pos by lra. exact Hx.
    - rewrite !Qabs_pos by lra. exact Hxy. }
  lia.
Qed.

Lemma fl_zero x : x == 0 -> fl x == 0.
Proof.
  intros E. unfold fl.
  rewrite (roundEven_comp (x / 2 ^ exponent x) (inject_Z 0)).
  - rewrite roundEven_Z. change (inject_Z 0) with 0. ring.
  - generalize (2 ^ exponent x). intros p.
    rewrite E. change (inject_Z 0) with 0. unfold Qdiv. ring.
Qed.

Lemma fl_comp x y : x == y -> fl x == fl y.
Proof.
  intros E. destruct (Qeq_dec x 0) as [Hz|Hz].
  - rewrite (fl_zero x Hz), (fl_zero y); [reflexivity|]. rewrite <- E. exact Hz.
  - unfold fl. rewrite <- (exponent_comp x y Hz E).
    rewrite (roundEven_comp (x / 2 ^ exponent x) (y / 2 ^ exponent x)).
    + reflexivity.
    + generalize (2 ^ exponent x). intros p. rewrite E. reflexivity.
Qed.

(** The scaled significand stays below [2 ^ 53] in magnitude. *)
Lemma scaled_bounds x :
  - inject_Z (2 ^ 53) <= x / 2 ^ exponent x /\
  x / 2 ^ exponent x <= inject_Z (2 ^ 53).
Proof.
  pose proof (pow2_pos (exponent x)) as Hp.
  destruct (Qeq_dec x 0) as [Hz|Hz].
  - clear Hp. generalize (2 ^ exponent x). intros p.
    rewrite Hz. unfold Qdiv. rewrite Qmult_0_l. split; discriminate.
  - destruct (exponent_bounds x Hz) as [H _].
    rewrite <- Zplus_comm, pow2_plus in H.
    apply Qabs_Qlt_condition in H. destruct H as [H1 H2].
    change (inject_Z (2 ^ 53)) with (2 ^ 53).
    split.
    + apply Qle_shift_div_l; [exact Hp|]. lra.
    + apply Qle_shift_div_r; [exact Hp|]. lra.
Qed.

Lemma significand_bounds x :
  (- 2 ^ 53 <= roundEven (x / 2 ^ exponent x) <= 2 ^ 53)%Z.
Proof.
  destruct (scaled_bounds x) as [H1 H2].
  rewrite <- inject_Z_opp in H1.
  apply roundEven_mono in H1, H2. rewrite roundEven_Z in H1, H2. lia.
Qed.

Lemma fl_nonneg x : 0 <= x -> 0 <= fl x.
Proof.
  intros Hx. unfold fl. pose proof (pow2_pos (exponent x)) as Hp.
  apply Qmult_le_0_compat; [|lra].
  change 0 with (inject_Z 0). rewrite <- Zle_Qle.
  rewrite <- (roundEven_Z 0). apply roundEven_mono.
  change (inject_Z 0) with 0. apply Qle_shift_div_l; [exact Hp|]. lra.
Qed.

Lemma fl_opp x : fl (- x) == - fl x.
Proof.
  destruct (Qeq_dec x 0) as [Hz|Hz].
  - rewrite (fl_zero x Hz), (fl_zero (- x)); [reflexivity|]. rewrite Hz. reflexivity.
  - unfold fl.
    assert (E : exponent (- x) = exponent x).
    { unfold exponent. f_equal. f_equal. apply ilog2_comp.
      - apply Qabs_positive. intros H. apply Hz. lra.
      - apply Qabs_opp. }
    rewrite E.
    rewrite (roundEven_comp (- x / 2 ^ exponent x) (- (x / 2 ^ exponent x)))
      by (unfold Qdiv; ring).
    rewrite roundEven_opp, inject_Z_opp. ring.
Qed.

Lemma fl_mono_pos x y : 0 < x -> x <= y -> fl x <= fl y.
Proof.
  intros Hx Hxy.
  pose proof (exponent_mono x y Hx Hxy) as He.
  pose proof (pow2_pos (exponent x)) as Hpx.
  pose proof (pow2_pos (exponent y)) as Hpy.
  destruct (Z.eq_dec (exponent x) (exponent y)) as [E|E].
  - unfold fl. rewrite <- E. apply Qmult_le_compat_r; [|lra].
    rewrite <- Zle_Qle. apply roundEven_mono.
    apply Qmult_le_compat_r; [exact Hxy|]. apply Qinv_le_0_compat. lra.
  - assert (Hlt : (exponent x < exponent y)%Z) by lia.
    apply Qle_trans with (2 ^ (exponent y + 52)).
    + apply Qle_trans with (2 ^ (exponent x + 53)); [|apply pow2_le; lia].
      unfold fl. rewrite Z.add_comm, pow2_plus.
      apply Qmult_le_compat_r; [|lra].
      change (2 ^ 53) with (inject_Z (2 ^ 53)). rewrite <- Zle_Qle.
      apply (significand_bounds x).
    + unfold fl. rewrite Z.add_comm, pow2_plus.
      apply Qmult_le_compat_r; [|lra].
      change (2 ^ 52) with (inject_Z (2 ^ 52)). rewrite <- Zle_Qle.
      rewrite <- (roundEven_Z (2 ^ 52)). apply roundEven_mono.
      change (inject_Z (2 ^ 52)) with (2 ^ 52).
      apply Qle_shift_div_l; [exact Hpy|].
      destruct (exponent_bounds y) as [_ H]; [lra|].
      pose proof (exponent_min x).
      specialize (H ltac:(lia)).
      rewrite Z.add_comm, pow2_plus in H.
      rewrite Qabs_pos in H by lra. exact H.
Qed.

(** Rounding is monotone. *)
Lemma fl_mono x y : x <= y -> fl x <= fl y.
Proof.
  intros Hxy. destruct (Qlt_le_dec 0 x) as [Hx|Hx].
  - apply fl_mono_pos; assumption.
  - destruct (Qlt_le_dec y 0) as [Hy|Hy].
    + assert (H : fl (- y) <= fl (- x)) by (apply fl_mono_pos; lra).
      rewrite !fl_opp in H. lra.
    + assert (H1 : 0 <= fl y) by (apply fl_nonneg; exact Hy).
      assert (H2 : 0 <= fl (- x)) by (apply fl_nonneg; lra).
      rewrite fl_opp in H2. lra.
Qed.

(** A significand below [2 ^ 53] with an exponent from [-1074] on is a
    number of the format: rounding leaves it as it is. *)
Lemma fl_exact m e :
  (Z.abs m < 2 ^ 53)%Z -> (-1074 <= e)%Z ->
  fl (inject_Z m * 2 ^ e) == inject_Z m * 2 ^ e.
Proof.
  intros Hm He. set (x := inject_Z m * 2 ^ e).
  destruct (Z.eq_dec m 0%Z) as [->|Hm0].
  { rewrite fl_zero; unfold x; change (inject_Z 0) with 0; ring. }
  pose proof (pow2_pos e) as Hpe.
  assert (Hx : ~ x == 0).
  { unfold x. intros H. apply Qmult_integral in H. destruct H as [H|H]; [|lra].
    apply Hm0. unfold Qeq in H. simpl in H. lia. }
  assert (Hle : (exponent x <= e)%Z).
  { destruct (exponent_bounds x Hx) as [_ H].
    destruct (Z.le_gt_cases (exponent x) e) as [Hc|Hc]; [exact Hc|exfalso].
    specialize (H ltac:(lia)).
    assert (Habs : Qabs x == inject_Z (Z.abs m) * 2 ^ e).
    { unfold x. rewrite Qabs_Qmult, (Qabs_pos (2 ^ e)) by lra. reflexivity. }
    rewrite Habs in H.
    assert (Hm' : inject_Z (Z.abs m) < 2 ^ 53).
    { change (2 ^ 53) with (inject_Z (2 ^ 53)). rewrite <- Zlt_Qlt. exact Hm. }
    assert (Hp : 2 ^ (e + 53) <= 2 ^ (exponent x + 52)) by (apply pow2_le; lia).
    rewrite pow2_plus in Hp.
    assert (inject_Z (Z.abs m) * 2 ^ e < 2 ^ 53 * 2 ^ e)
      by (apply Qmult_lt_compat_r; assumption).
    lra. }
  unfold fl. fold x.
  assert (Ey : x / 2 ^ exponent x == inject_Z (m * 2 ^ (e - exponent x))).
  { rewrite inject_Z_mult. rewrite <- (pow2_Z (e - exponent x)) by lia.
    rewrite pow2_minus. pose proof (pow2_pos (exponent x)) as Hpx.
    set (p := 2 ^ exponent x) in *. unfold x. set (q := 2 ^ e) in *.
    clearbody p q. field. lra. }
  rewrite (roundEven_comp _ _ Ey), roundEven_Z.
  rewrite inject_Z_mult. rewrite <- (pow2_Z (e - exponent x)) by lia.
  rewrite pow2_minus. pose proof (pow2_pos (exponent x)) as Hpx.
  set (p := 2 ^ exponent x) in *. unfold x. set (q := 2 ^ e) in *.
  clearbody p q. field. lra.
Qed.

Lemma fl_Z z : (Z.abs z <= 2 ^ 53)%Z -> fl (inject_Z z) == inject_Z z.
Proof.
  intros Hz. destruct (Z.eq_dec (Z.abs z) (2 ^ 53)%Z) as [E|E].
  - assert (Ez : inject_Z z == inject_Z (z / 2) * 2 ^ 1).
    { change (2 ^ 1) with (inject_Z 2). rewrite <- inject_Z_mult.
      apply inject_Z_injective. 
      assert (z = 2 ^ 53 \/ z = - 2 ^ 53)%Z by lia.
      destruct H as [-> | ->]; reflexivity. }
    rewrite (fl_comp _ _ Ez), fl_exact; [symmetry; exact Ez| |lia].
    assert (z = 2 ^ 53 \/ z = - 2 ^ 53)%Z by lia.
    destruct H as [-> | ->]; reflexivity.
  - assert (Ez : inject_Z z == inject_Z z * 2 ^ 0) by (change (2 ^ 0) with 1; ring).
    rewrite (fl_comp _ _ Ez), fl_exact; [symmetry; exact Ez|lia|lia].
Qed.

(** The result of a rounding is a number of the format. *)
Lemma fl_idem x : fl (fl x) == fl x.
Proof.
  unfold fl at 2 3. set (e := exponent x). set (M := roundEven (x / 2 ^ e)).
  pose proof (significand_bounds x) as HM. fold e M in HM.
  pose proof (exponent_min x) as He. fold e in He.
  clearbody M e.
  destruct (Z.eq_dec (Z.abs M) (2 ^ 53)%Z) as [E|E].
  - assert (HM2 : (M = 2 ^ 53 \/ M = - 2 ^ 53)%Z) by lia.
    assert (EM : inject_Z M * 2 ^ e == inject_Z (M / 2) * 2 ^ (e + 1)).
    { rewrite pow2_succ. generalize (2 ^ e). intros p.
      assert (E2 : inject_Z M == inject_Z (M / 2) * 2)
        by (destruct HM2 as [-> | ->]; reflexivity).
      rewrite E2. ring. }
    rewrite (fl_comp _ _ EM), fl_exact; [symmetry; exact EM| |lia].
    destruct HM2 as [-> | ->]; reflexivity.
  - apply fl_exact; lia.
Qed.

(** The rounding error: half a unit in the last place. *)
Lemma fl_error x : Qabs (fl x - x) <= u * Qabs x + eta.
Proof.
  destruct (Qeq_dec x 0) as [Hz|Hz].
  { rewrite (fl_zero x Hz), Hz. compute. discriminate. }
  pose proof (Qabs_positive x Hz) as Hax.
  unfold fl. set (e := exponent x). pose proof (pow2_pos e) as Hp.
  destruct (roundEven_spec (x / 2 ^ e)) as (H1 & H2 & _).
  set (M := inject_Z (roundEven (x / 2 ^ e))) in *.
  assert (Ex : x == x / 2 ^ e * 2 ^ e) by (field; lra).
  assert (Herr : Qabs (M * 2 ^ e - x) <= (1 # 2) * 2 ^ e).
  { apply Qabs_Qle_condition. set (y := x / 2 ^ e) in *.
    assert (Ha : (y - (1 # 2)) * 2 ^ e <= M * 2 ^ e)
      by (apply Qmult_le_compat_r; lra).
    assert (Hb : M * 2 ^ e <= (y + (1 # 2)) * 2 ^ e)
      by (apply Qmult_le_compat_r; lra).
    clearbody y M. generalize dependent (2 ^ e). intros p; intros. split; lra. }
  eapply Qle_trans; [exact Herr|].
  destruct (exponent_bounds x Hz) as [_ Hn]. fold e in Hn.
  pose proof (exponent_min x) as Hmin. fold e in Hmin.
  destruct (Z.eq_dec e (-1074)%Z) as [E|E].
  - rewrite E. assert (0 <= u * Qabs x).
    { apply Qmult_le_0_compat; [discriminate|lra]. }
    assert (E2 : (1 # 2) * 2 ^ (-1074) == eta) by reflexivity.
    rewrite E2. rewrite <- (Qplus_0_l eta) at 1. apply Qplus_le_l. exact H.
  - specialize (Hn ltac:(lia)). rewrite pow2_plus in Hn.
    assert (Hu : u * 2 ^ 52 == 1 # 2) by reflexivity.
    assert (0 <= eta) by discriminate.
    assert (u * (2 ^ e * 2 ^ 52) <= u * Qabs x)
      by (apply Qmult_le_l; [reflexivity|exact Hn]).
    clearbody e. generalize dependent (2 ^ e). intros p; intros.
    assert (Hq : (1 # 2) * p == u * (p * 2 ^ 52)) by (rewrite <- Hu; ring).
    rewrite Hq. set (a := u * (p * 2 ^ 52)) in *. set (b := u * Qabs x) in *.
    clearbody a b. lra.
Qed.

End DoubleFacts.

(** ** Rational comparisons *)

Lemma Qlt_bool_iff (x y : Q) : Qlt_bool x y = true <-> (x < y)%Q.
Proof.
  unfold Qlt_bool. rewrite negb_true_iff. split.
  - intros H. apply Qnot_le_lt. intros Hle.
    apply Qle_bool_iff in Hle. congruence.
  - intros H. destruct (Qle_bool y x) eqn:E; [|reflexivity].
    apply Qle_bool_iff in E. exfalso. apply (Qlt_not_le _ _ H E).
Qed.

Lemma Qlt_bool_false (x y : Q) : Qlt_bool x y = false <-> (y <= x)%Q.
Proof.
  unfold Qlt_bool. rewrite negb_false_iff. apply Qle_bool_iff.
Qed.

Lemma Qle_bool_false (x y : Q) : Qle_bool x y = false <-> (y < x)%Q.
Proof.
  rewrite <- Qlt_bool_iff. unfold Qlt_bool.
  destruct (Qle_bool x y); simpl; split; congruence.
Qed.

(** ** Progress of a token during playback *)

Section RoundedFacts.
Import Double.
Local Open Scope Q_scope.

Lemma fl_small z : (Z.abs z <=? 2 ^ 53)%Z = true -> fl (inject_Z z) == inject_Z z.
Proof. intros H. apply fl_Z. apply Z.leb_le. exact H. Qed.

Lemma fl_0 : fl 0 == 0.
Proof. exact (fl_small 0 eq_refl). Qed.

Lemma fl_1 : fl 1 == 1.
Proof. exact (fl_small 1 eq_refl). Qed.

Lemma fl_100 : fl 100 == 100.
Proof. exact (fl_small 100 eq_refl). Qed.

Lemma mul_mono_l x y c : 0 <= c -> x <= y -> mul x c <= mul y c.
Proof.
  intros Hc Hxy. unfold mul. apply fl_mono.
  apply Qmult_le_compat_r; assumption.
Qed.

Lemma div_mono_l x y d : 0 < d -> x <= y -> div x d <= div y d.
Proof.
  intros Hd Hxy. unfold div. apply fl_mono.
  apply Qmult_le_compat_r; [exact Hxy|]. apply Qinv_le_0_compat. lra.
Qed.

Lemma sub_mono_l x y c : x <= y -> sub x c <= sub y c.
Proof. intros Hxy. unfold sub. apply fl_mono. lra. Qed.

Lemma add_mono_r c x y : x <= y -> add c x <= add c y.
Proof. intros Hxy. unfold add. apply fl_mono. lra. Qed.

(** The difference of two different whole numbers does not round to 0. *)
Lemma sub_Z_positive a b : (a < b)%Z -> 1 <= sub (inject_Z b) (inject_Z a).
Proof.
  intros H. apply Qle_trans with (fl 1); [rewrite fl_1; apply Qle_refl|].
  unfold sub. apply fl_mono.
  assert (H1 : (a + 1 <= b)%Z) by lia.
  rewrite Zle_Qle, inject_Z_plus in H1. change (inject_Z 1) with 1 in H1. lra.
Qed.

Lemma sub_Z_zero a : sub (inject_Z a) (inject_Z a) == 0.
Proof. unfold sub. apply fl_zero. ring. Qed.

End RoundedFacts.

Section RoundFacts.
Local Open Scope Q_scope.

Lemma Math_round_comp x y : x == y -> Math_round x = Math_round y.
Proof. intros H. unfold Math_round. apply Qfloor_comp. rewrite H. reflexivity. Qed.

Lemma Math_round_le x y : x <= y -> (Math_round x <= Math_round y)%Z.
Proof. intros H. unfold Math_round. apply Qfloor_resp_le. lra. Qed.

Lemma Math_round_lt x y : x + 1 <= y -> (Math_round x < Math_round y)%Z.
Proof.
  intros H. unfold Math_round.
  pose proof (Qfloor_le (x + (1 # 2))) as Ha.
  pose proof (Qlt_floor (y + (1 # 2))) as Hb.
  rewrite Zlt_Qlt.
  assert (Hc : inject_Z (Qfloor (y + (1 # 2)) + 1)
               == inject_Z (Qfloor (y + (1 # 2))) + 1).
  { rewrite inject_Z_plus. reflexivity. }
  rewrite Hc in Hb. lra.
Qed.

(** A rounded stamp is within half a millisecond of the number. *)
Lemma Math_round_close x :
  x - (1 # 2) < inject_Z (Math_round x) /\ inject_Z (Math_round x) <= x + (1 # 2).
Proof.
  unfold Math_round.
  pose proof (Qfloor_le (x + (1 # 2))) as Ha.
  pose proof (Qlt_floor (x + (1 # 2))) as Hb.
  rewrite inject_Z_plus in Hb. change (inject_Z 1) with 1 in Hb.
  split; lra.
Qed.

End RoundFacts.

Section RoundingFacts.
Import Linear Double.
Local Open Scope Q_scope.

Lemma nat_Q_add a b :
  inject_Z (Z.of_nat (a + b)) == inject_Z (Z.of_nat a) + inject_Z (Z.of_nat b).
Proof. rewrite Nat2Z.inj_add, inject_Z_plus. reflexivity. Qed.

Lemma nat_Q_le a b : (a <= b)%nat -> inject_Z (Z.of_nat a) <= inject_Z (Z.of_nat b).
Proof. intros H. rewrite <- Zle_Qle. lia. Qed.

Lemma nat_Q_nonneg a : 0 <= inject_Z (Z.of_nat a).
Proof. change 0 with (inject_Z 0). rewrite <- Zle_Qle. lia. Qed.

Lemma u_pos : 0 < u.
Proof. reflexivity. Qed.

Lemma eta_pos : 0 < eta.
Proof. reflexivity. Qed.

(** One rounding of a number that is not negative. *)
Lemma round_rel x :
  0 <= x -> x - (u * x + eta) <= fl x /\ fl x <= x + (u * x + eta).
Proof.
  intros Hx. pose proof (fl_error x) as H. rewrite (Qabs_pos x Hx) in H.
  apply Qabs_Qle_condition in H. destruct H as [H1 H2]. split; lra.
Qed.

Lemma near_of_close x y tol :
  tol <= tolerance -> y - tol <= x -> x <= y + tol -> near y (Math_round x).
Proof.
  intros Ht H1 H2. destruct (Math_round_close x) as [H3 H4].
  unfold near. apply Qabs_Qle_condition. split; lra.
Qed.

End RoundingFacts.

Section Progress.
Import Playback.
Local Open Scope Q_scope.

Variables (tstart tend : Z).

Lemma progress_before currentTime :
  Double.mul currentTime 1000 < inject_Z tstart ->
  progressOf tstart tend currentTime = 0.
Proof.
  intros H. unfold progressOf, getTokenProgress; simpl.
  destruct (Z.eqb_spec tstart tend) as [->|Hne].
  - destruct (Qle_bool (inject_Z tend) (Double.mul currentTime 1000)) eqn:E;
      [|reflexivity].
    apply Qle_bool_iff in E. lra.
  - apply Qlt_bool_iff in H. rewrite H. reflexivity.
Qed.

Lemma progress_after currentTime :
  inject_Z tstart <= Double.mul currentTime 1000 ->
  inject_Z tend <= Double.mul currentTime 1000 ->
  progressOf tstart tend currentTime = 100.
Proof.
  intros Hs He. unfold progressOf, getTokenProgress; simpl.
  apply Qle_bool_iff in He. apply Qlt_bool_false in Hs.
  destruct (Z.eqb_spec tstart tend) as [->|Hne].
  - rewrite He. reflexivity.
  - rewrite Hs, He. reflexivity.
Qed.

Lemma ratio_bounds now :
  inject_Z tstart <= now -> now <= inject_Z tend -> (tstart < tend)%Z ->
  0 <= ratio tstart tend now /\ ratio tstart tend now <= 100.
Proof.
  intros Hs He Hlt. unfold ratio.
  pose proof (sub_Z_positive tstart tend Hlt) as Hd.
  set (d := Double.sub (inject_Z tend) (inject_Z tstart)) in *.
  assert (Ha0 : 0 <= Double.sub now (inject_Z tstart))
    by (apply fl_nonneg; lra).
  assert (Ha1 : Double.sub now (inject_Z tstart) <= d)
    by (apply sub_mono_l; exact He).
  set (a := Double.sub now (inject_Z tstart)) in *.
  assert (Hq0 : 0 <= Double.div a d).
  { apply fl_nonneg. apply Qle_shift_div_l; lra. }
  assert (Hq1 : Double.div a d <= 1).
  { apply Qle_trans with (Double.fl 1); [|rewrite fl_1; apply Qle_refl].
    apply fl_mono. apply Qle_shift_div_r; lra. }
  split.
  - apply fl_nonneg. apply Qmult_le_0_compat; [exact Hq0|discriminate].
  - apply Qle_trans with (Double.fl 100); [|rewrite fl_100; apply Qle_refl].
    apply fl_mono. lra.
Qed.

Lemma ratio_mono now now' :
  (tstart < tend)%Z -> now <= now' ->
  ratio tstart tend now <= ratio tstart tend now'.
Proof.
  intros Hlt Hn. unfold ratio.
  pose proof (sub_Z_positive tstart tend Hlt) as Hd.
  apply mul_mono_l; [discriminate|]. apply div_mono_l; [lra|].
  apply sub_mono_l. exact Hn.
Qed.

Lemma clamp_id x : 0 <= x -> x <= 100 -> clamp x == x.
Proof.
  intros H0 H1. unfold clamp.
  assert (Hmin : Qmin 100 x == x) by (apply Q.min_r; exact H1).
  rewrite Q.max_r; [exact Hmin|]. rewrite Hmin. exact H0.
Qed.

Lemma progress_during currentTime :
  inject_Z tstart <= Double.mul currentTime 1000 ->
  Double.mul currentTime 1000 < inject_Z tend ->
  progressOf tstart tend currentTime
    == ratio tstart tend (Double.mul currentTime 1000)
  /\ 0 <= progressOf tstart tend currentTime
  /\ progressOf tstart tend currentTime <= 100.
Proof.
  intros Hs He.
  assert (Hlt : (tstart < tend)%Z) by (rewrite Zlt_Qlt; lra).
  destruct (ratio_bounds (Double.mul currentTime 1000) Hs) as [H0 H1];
    [lra|exact Hlt|].
  assert (E : progressOf tstart tend currentTime
              == ratio tstart tend (Double.mul currentTime 1000)).
  { unfold progressOf, getTokenProgress; simpl.
    destruct (Z.eqb_spec tstart tend) as [->|Hne]; [lia|].
    apply Qlt_bool_false in Hs. rewrite Hs.
    apply Qle_bool_false in He. rewrite He.
    apply (clamp_id (ratio tstart tend (Double.mul currentTime 1000)));
      assumption. }
  split; [exact E|]. rewrite E. split; assumption.
Qed.

Lemma progress_range currentTime :
  0 <= progressOf tstart tend currentTime /\
  progressOf tstart tend currentTime <= 100.
Proof.
  destruct (Qlt_le_dec (Double.mul currentTime 1000) (inject_Z tstart))
    as [H|H].
  - rewrite (progress_before _ H). split; discriminate.
  - destruct (Qlt_le_dec (Double.mul currentTime 1000) (inject_Z tend))
      as [H'|H'].
    + exact (proj2 (progress_during _ H H')).
    + rewrite (progress_after _ H H'). split; discriminate.
Qed.

(** The progress never goes down as the clock goes up. *)
Lemma progress_mono t1 t2 :
  t1 <= t2 -> progressOf tstart tend t1 <= progressOf tstart tend t2.
Proof.
  intros H12.
  assert (Hm : Double.mul t1 1000 <= Double.mul t2 1000)
    by (apply mul_mono_l; [discriminate|exact H12]).
  destruct (progress_range t1) as [_ Hhi]. destruct (progress_range t2) as [Hlo _].
  destruct (Qlt_le_dec (Double.mul t1 1000) (inject_Z tstart)) as [H1|H1].
  { rewrite (progress_before _ H1). exact Hlo. }
  destruct (Qlt_le_dec (Double.mul t2 1000) (inject_Z tend)) as [H2|H2].
  - destruct (progress_during t1 H1) as [E1 _]; [lra|].
    destruct (progress_during t2) as [E2 _]; [lra|exact H2|].
    rewrite E1, E2. apply ratio_mono; [|exact Hm].
    rewrite Zlt_Qlt. lra.
  - rewrite (progress_after t2); [exact Hhi|lra|exact H2].
Qed.

End Progress.




(** The progress is a binary64 number and need not go up with the clock:
    two neighbouring clock values just after 1.5 s, both inside a token
    recorded from 1000 ms to 2000 ms, give the same progress. *)
Lemma getTokenProgress_not_strict :
  let c1 := (6755399441055765 # 4503599627370496)%Q in
  let c2 := (3377699720527883 # 2251799813685248)%Q in
  (c1 < c2)%Q /\
  (1000 < Double.mul c1 1000)%Q /\ (Double.mul c2 1000 < 2000)%Q /\
  (Playback.getTokenProgress c1 (Some Samples.span_1000_2000)
   == Playback.getTokenProgress c2 (Some Samples.span_1000_2000))%Q.
Proof. repeat split; vm_compute; reflexivity. Qed.

(** [recordTimestamp] rounds the binary64 product: at the clock value
    nearest to 5.0005 s the stamp is 5001, where the product of rational
    numbers would be rounded to 5000. *)
Lemma recordTimestamp_rounds :
  let timestamp := (5630062484166541 # 1125899906842624)%Q in
  Math_round (Double.mul timestamp 1000) = 5001 /\
  Math_round (timestamp * 1000) = 5000.
Proof. split; vm_compute; reflexivity. Qed.

(** ** Time-to-token lookup *)

Section LookupFacts.
Import Editor Lookup.

Variable t : Q.

Lemma chronological_inv token rest :
  chronological (token :: rest) = true ->
  exists tstart tend,
    tv_start token = Some tstart /\ tv_end token = Some tend /\
    tstart <= tend /\ chronological rest = true /\
    (forall next, head rest = Some next ->
       exists nstart, tv_start next = Some nstart /\ tend <= nstart).
Proof.
  simpl. destruct (tv_start token) as [tstart|]; [|discriminate].
  destruct (tv_end token) as [tend|]; [|discriminate].
  intros H. apply andb_prop in H as [H H3]. apply andb_prop in H as [H1 H2].
  exists tstart, tend. repeat split; try assumption; [lia|].
  intros next Hn. destruct rest as [|n rest']; [discriminate|].
  simpl in Hn. injection Hn as ->.
  destruct (tv_start next) as [nstart|]; [|discriminate].
  exists nstart. split; [reflexivity|lia].
Qed.

(** In a chronological list every token starts and ends no earlier than
    the first one starts. *)
Lemma chronological_lower tokens k first tk fstart :
  chronological tokens = true ->
  head tokens = Some first -> tv_start first = Some fstart ->
  tokens !! k = Some tk ->
  exists kstart kend,
    tv_start tk = Some kstart /\ tv_end tk = Some kend /\
    fstart <= kstart /\ kstart <= kend.
Proof.
  revert k first fstart. induction tokens as [|a rest IH]; [discriminate|].
  intros k first fstart Hc Hh Hs Hk. simpl in Hh. injection Hh as ->.
  destruct (chronological_inv _ _ Hc) as (s & e & Es & Ee & Hse & Hr & Hn).
  rewrite Hs in Es. injection Es as ->.
  destruct k as [|k].
  - simpl in Hk. injection Hk as <-. exists s, e. repeat split; auto; lia.
  - simpl in Hk. destruct rest as [|n rest']; [discriminate|].
    destruct (Hn n eq_refl) as (ns & En & Hle).
    destruct (IH k n ns Hr eq_refl En Hk) as (ks & ke & E1 & E2 & H1 & H2).
    exists ks, ke. repeat split; auto; lia.
Qed.

(** ... and ends no later than the last one ends. *)
Lemma chronological_upper tokens k final tk fend :
  chronological tokens = true ->
  last tokens = Some final -> tv_end final = Some fend ->
  tokens !! k = Some tk ->
  exists kstart kend,
    tv_start tk = Some kstart /\ tv_end tk = Some kend /\
    kstart <= kend /\ kend <= fend.
Proof.
  revert k tk. induction tokens as [|a rest IH]; [discriminate|].
  intros k tk Hc Hl He Hk.
  destruct (chronological_inv _ _ Hc) as (s & e & Es & Ee & Hse & Hr & Hn).
  destruct rest as [|n rest'].
  - simpl in Hl. injection Hl as <-. destruct k; [|discriminate].
    simpl in Hk. injection Hk as <-. rewrite He in Ee. injection Ee as ->.
    exists s, e. repeat split; auto; lia.
  - change (last (n :: rest') = Some final) in Hl.
    destruct k as [|k].
    + simpl in Hk. injection Hk as <-.
      destruct (Hn n eq_refl) as (ns & En & Hle).
      destruct (IH 0%nat n Hr Hl He eq_refl) as (ks & ke & E1 & E2 & H1 & H2).
      rewrite En in E1. injection E1 as <-.
      exists s, e. repeat split; auto; lia.
    + simpl in Hk. exact (IH k tk Hr Hl He Hk).
Qed.

End LookupFacts.

Section ScanFacts.
Import Editor Lookup.

Variable t : Q.

(** One turn of the loop on a token with numeric stamps. *)
Lemma scanTokens_step i token rest tstart tend :
  tv_start token = Some tstart -> tv_end token = Some tend ->
  scanTokens t i (token :: rest) =
    if covers token t then Some i
    else if match rest with
            | next :: _ => between token next t
            | [] => false
            end
         then Some (i + 1)%nat
         else scanTokens t (i + 1) rest.
Proof.
  intros Es Ee. unfold covers, between. simpl. rewrite Es, Ee.
  destruct (Qle_bool (inject_Z tstart) t && Qle_bool t (inject_Z tend));
    [reflexivity|].
  destruct rest as [|next rest']; [reflexivity|].
  destruct (tv_start next); [reflexivity|].
  rewrite andb_false_r. reflexivity.
Qed.

Lemma covers_iff token tstart tend :
  tv_start token = Some tstart -> tv_end token = Some tend ->
  covers token t = true <-> (inject_Z tstart <= t /\ t <= inject_Z tend)%Q.
Proof.
  intros Es Ee. unfold covers. rewrite Es, Ee, andb_true_iff.
  rewrite !Qle_bool_iff. reflexivity.
Qed.

Lemma between_iff a b aend bstart :
  tv_end a = Some aend -> tv_start b = Some bstart ->
  between a b t = true <-> (inject_Z aend < t /\ t < inject_Z bstart)%Q.
Proof.
  intros Ee Es. unfold between. rewrite Ee, Es, andb_true_iff.
  rewrite !Qlt_bool_iff. reflexivity.
Qed.

(** The loop finds the first token that covers [t]. *)
Lemma scanTokens_first_cover tokens : forall i k tk,
  chronological tokens = true ->
  tokens !! k = Some tk -> covers tk t = true ->
  (forall j tj, (j < k)%nat -> tokens !! j = Some tj -> covers tj t = false) ->
  scanTokens t i tokens = Some (i + k)%nat.
Proof.
  induction tokens as [|a rest IH]; intros i k tk Hc Hk Hcov Hfirst;
    [discriminate|].
  destruct (chronological_inv _ _ Hc) as (s & e & Es & Ee & Hse & Hr & Hn).
  rewrite (scanTokens_step i a rest s e Es Ee).
  destruct k as [|k].
  - simpl in Hk. injection Hk as <-. rewrite Hcov. f_equal. lia.
  - rewrite (Hfirst 0%nat a) by (simpl; auto with lia).
    simpl in Hk. destruct rest as [|n rest']; [discriminate|].
    destruct (Hn n eq_refl) as (ns & En & Hle).
    destruct (chronological_lower (n :: rest') k n tk ns Hr eq_refl En Hk)
      as (ks & ke & E1 & E2 & H1 & H2).
    apply (covers_iff tk ks ke E1 E2) in Hcov as [Hc1 Hc2].
    destruct (between a n t) eqn:Hb.
    + apply (between_iff a n e ns Ee En) in Hb as [_ Hb].
      rewrite Zle_Qle in H1. lra.
    + rewrite (IH (i + 1)%nat k tk Hr Hk).
      * f_equal. lia.
      * apply (covers_iff tk ks ke E1 E2). split; assumption.
      * intros j tj Hj Hlk. apply (Hfirst (S j) tj); [lia|exact Hlk].
Qed.

(** In a gap between two neighbours the loop picks the later one. *)
Lemma scanTokens_gap tokens : forall i j a b,
  chronological tokens = true ->
  tokens !! j = Some a -> tokens !! (j + 1)%nat = Some b ->
  between a b t = true ->
  scanTokens t i tokens = Some (i + j + 1)%nat.
Proof.
  induction tokens as [|h rest IH]; intros i j a b Hc Ha Hb Hgap;
    [discriminate|].
  destruct (chronological_inv _ _ Hc) as (s & e & Es & Ee & Hse & Hr & Hn).
  rewrite (scanTokens_step i h rest s e Es Ee).
  destruct rest as [|n rest']; [destruct j; discriminate|].
  destruct (Hn n eq_refl) as (ns & En & Hle).
  destruct j as [|j].
  - simpl in Ha, Hb. injection Ha as <-. injection Hb as <-.
    apply (between_iff h n e ns Ee En) in Hgap as Hg.
    replace (covers h t) with false; [|symmetry].
    2:{ destruct (covers h t) eqn:E; [|reflexivity].
        apply (covers_iff h s e Es Ee) in E. lra. }
    rewrite Hgap. f_equal. lia.
  - simpl in Ha, Hb.
    destruct (chronological_lower (n :: rest') j n a ns Hr eq_refl En Ha)
      as (as_ & ae & E1 & E2 & H1 & H2).
    assert (Hlt : (inject_Z ae < t)%Q).
    { unfold between in Hgap. rewrite E2 in Hgap.
      destruct (tv_start b); [|discriminate].
      apply andb_prop in Hgap as [Hg _]. apply Qlt_bool_iff in Hg. exact Hg. }
    rewrite Zle_Qle in Hle, H1, H2.
    replace (covers h t) with false; [|symmetry].
    2:{ destruct (covers h t) eqn:E; [|reflexivity].
        apply (covers_iff h s e Es Ee) in E. lra. }
    replace (between h n t) with false; [|symmetry].
    2:{ destruct (between h n t) eqn:E; [|reflexivity].
        apply (between_iff h n e ns Ee En) in E. lra. }
    rewrite (IH (i + 1)%nat j a b Hr Ha Hb Hgap). f_equal. lia.
Qed.

(** Before the first token the loop finds nothing. *)
Lemma scanTokens_before tokens : forall i first fstart,
  chronological tokens = true ->
  head tokens = Some first -> tv_start first = Some fstart ->
  (t < inject_Z fstart)%Q ->
  scanTokens t i tokens = None.
Proof.
  induction tokens as [|h rest IH]; intros i first fstart Hc Hh Hs Hlt;
    [reflexivity|].
  simpl in Hh. injection Hh as ->.
  destruct (chronological_inv _ _ Hc) as (s & e & Es & Ee & Hse & Hr & Hn).
  rewrite Hs in Es. injection Es as <-.
  rewrite (scanTokens_step i first rest fstart e Hs Ee).
  rewrite Zle_Qle in Hse.
  replace (covers first t) with false; [|symmetry].
  2:{ destruct (covers first t) eqn:E; [|reflexivity].
      apply (covers_iff first fstart e Hs Ee) in E. lra. }
  destruct rest as [|n rest']; [reflexivity|].
  destruct (Hn n eq_refl) as (ns & En & Hle). rewrite Zle_Qle in Hle.
  replace (between first n t) with false; [|symmetry].
  2:{ destruct (between first n t) eqn:E; [|reflexivity].
      apply (between_iff first n e ns Ee En) in E. lra. }
  apply (IH (i + 1)%nat n ns Hr eq_refl En). lra.
Qed.

(** After the last token the loop finds nothing. *)
Lemma scanTokens_after tokens : forall i final fend,
  chronological tokens = true ->
  last tokens = Some final -> tv_end final = Some fend ->
  (inject_Z fend < t)%Q ->
  scanTokens t i tokens = None.
Proof.
  induction tokens as [|h rest IH]; intros i final fend Hc Hl He Hlt;
    [reflexivity|].
  destruct (chronological_inv _ _ Hc) as (s & e & Es & Ee & Hse & Hr & Hn).
  rewrite (scanTokens_step i h rest s e Es Ee).
  destruct (chronological_upper (h :: rest) 0 final h fend Hc Hl He eq_refl)
    as (s' & e' & E1 & E2 & H1 & H2).
  rewrite Ee in E2. injection E2 as <-. rewrite Zle_Qle in H2.
  replace (covers h t) with false; [|symmetry].
  2:{ destruct (covers h t) eqn:E; [|reflexivity].
      apply (covers_iff h s e Es Ee) in E. lra. }
  destruct rest as [|n rest']; [reflexivity|].
  change (last (n :: rest') = Some final) in Hl.
  destruct (Hn n eq_refl) as (ns & En & Hle).
  destruct (chronological_upper (n :: rest') 0 final n fend Hr Hl He eq_refl)
    as (s2 & e2 & E3 & E4 & H3 & H4).
  rewrite En in E3. injection E3 as <-. rewrite Zle_Qle in H3, H4.
  replace (between h n t) with false; [|symmetry].
  2:{ destruct (between h n t) eqn:E; [|reflexivity].
      apply (between_iff h n e ns Ee En) in E. lra. }
  exact (IH (i + 1)%nat final fend Hr Hl He Hlt).
Qed.

End ScanFacts.

Section SeekFacts.
Import Editor Lookup.

Lemma handleSeek_selects s newTime k :
  Lookup.seekable s ->
  targetTokenIndex (getTokensByMode s) (Double.mul newTime 1000) = Some k ->
  activeTokenIndex (handleSeek s newTime) = k.
Proof.
  intros (Hw & Ha & Hp & Hl) Ht. unfold handleSeek.
  rewrite Hw, Ha, Hp, Hl. simpl.
  destruct (getTokensByMode s) as [|tk0 tokens] eqn:E; [discriminate|].
  rewrite Ht.
  destruct (Nat.eqb_spec k (activeTokenIndex s)) as [->|Hne]; simpl;
    destruct (Qle_bool 0 newTime); reflexivity.
Qed.

Lemma targetTokenIndex_cover tokens t k tk :
  chronological tokens = true ->
  tokens !! k = Some tk -> covers tk t = true ->
  (forall j tj, (j < k)%nat -> tokens !! j = Some tj -> covers tj t = false) ->
  targetTokenIndex tokens t = Some k.
Proof.
  intros Hc Hk Hcov Hfirst. unfold targetTokenIndex.
  rewrite (scanTokens_first_cover t tokens 0 k tk Hc Hk Hcov Hfirst).
  reflexivity.
Qed.

Lemma targetTokenIndex_gap tokens t j a b :
  chronological tokens = true ->
  tokens !! j = Some a -> tokens !! (j + 1)%nat = Some b ->
  between a b t = true ->
  targetTokenIndex tokens t = Some (j + 1)%nat.
Proof.
  intros Hc Ha Hb Hg. unfold targetTokenIndex.
  rewrite (scanTokens_gap t tokens 0 j a b Hc Ha Hb Hg). reflexivity.
Qed.

Lemma targetTokenIndex_after tokens t final fend :
  chronological tokens = true ->
  last tokens = Some final -> tv_end final = Some fend ->
  (inject_Z fend < t)%Q ->
  targetTokenIndex tokens t = Some (length tokens - 1)%nat.
Proof.
  intros Hc Hl He Hlt. unfold targetTokenIndex.
  rewrite (scanTokens_after t tokens 0 final fend Hc Hl He Hlt).
  rewrite Hl, He. apply Qlt_bool_iff in Hlt. rewrite Hlt. reflexivity.
Qed.

Lemma targetTokenIndex_before tokens t first fstart :
  chronological tokens = true ->
  head tokens = Some first -> tv_start first = Some fstart ->
  (t < inject_Z fstart)%Q ->
  targetTokenIndex tokens t = Some 0%nat.
Proof.
  intros Hc Hh Hs Hlt. unfold targetTokenIndex.
  rewrite (scanTokens_before t tokens 0 first fstart Hc Hh Hs Hlt).
  destruct (last tokens) as [final|] eqn:Hl.
  - assert (Hk : tokens !! pred (length tokens) = Some final)
      by (rewrite <- last_lookup; exact Hl).
    destruct (chronological_lower tokens _ first final fstart Hc Hh Hs Hk)
      as (ks & ke & E1 & E2 & H1 & H2).
    rewrite E2. rewrite Zle_Qle in H1, H2.
    replace (Qlt_bool (inject_Z ke) t) with false.
    2:{ symmetry. apply Qlt_bool_false. lra. }
    rewrite Hh, Hs. apply Qlt_bool_iff in Hlt. rewrite Hlt. reflexivity.
  - rewrite Hh, Hs. apply Qlt_bool_iff in Hlt. rewrite Hlt. reflexivity.
Qed.

End SeekFacts.

(** C5 (as the code has it).  Let the flattened token list of the current
    mode be in time order (every token has numeric stamps with
    [start <= end] and ends no later than the next one starts), and let a
    seek to [newTime] reach the lookup.  Then, with [t = newTime * 1000],
    a binary64 product:
    the cursor moves to the first token in array order with
    [start <= t <= end]; if [t] lies strictly between the end of a token and
    the start of the next, to that next token; if [t] is before the start
    of the first token, to the first token; if [t] is after the end of the
    last token, to the last token. *)
Theorem handleSeek_chronological (s : Editor.Session) (newTime : Q) :
  Lookup.seekable s ->
  Lookup.chronological (Editor.getTokensByMode s) = true ->
  let tokens := Editor.getTokensByMode s in
  let t := Double.mul newTime 1000 in
  let selected := Editor.activeTokenIndex (Editor.handleSeek s newTime) in
  (forall k tk,
     tokens !! k = Some tk -> Lookup.covers tk t = true ->
     (forall j tj, (j < k)%nat -> tokens !! j = Some tj ->
                   Lookup.covers tj t = false) ->
     selected = k) /\
  (forall j a b,
     tokens !! j = Some a -> tokens !! (j + 1)%nat = Some b ->
     Lookup.between a b t = true -> selected = (j + 1)%nat) /\
  (forall first fstart,
     head tokens = Some first -> Editor.tv_start first = Some fstart ->
     (t < inject_Z fstart)%Q -> selected = 0%nat) /\
  (forall final fend,
     last tokens = Some final -> Editor.tv_end final = Some fend ->
     (inject_Z fend < t)%Q -> selected = (length tokens - 1)%nat).
Proof.
  intros Hs Hc tokens t selected. subst tokens t selected.
  repeat split.
  - intros k tk Hk Hcov Hfirst. apply handleSeek_selects; [exact Hs|].
    exact (targetTokenIndex_cover _ _ k tk Hc Hk Hcov Hfirst).
  - intros j a b Ha Hb Hg. apply handleSeek_selects; [exact Hs|].
    exact (targetTokenIndex_gap _ _ j a b Hc Ha Hb Hg).
  - intros first fstart Hh Hst Hlt. apply handleSeek_selects; [exact Hs|].
    exact (targetTokenIndex_before _ _ first fstart Hc Hh Hst Hlt).
  - intros final fend Hl He Hlt. apply handleSeek_selects; [exact Hs|].
    exact (targetTokenIndex_after _ _ final fend Hc Hl He Hlt).
Qed.

(** The theorem on three lines recorded at 1000-2000, 2000-3000 and
    3500-4000: a seek to 2 s lands on both the first and the second line
    and selects the first; 3.2 s is in the gap and selects the third;
    0.5 s selects the first and 5 s the last. *)
Lemma handleSeek_chronological_witness :
  Editor.activeTokenIndex (Editor.handleSeek SeekSamples.ordered 2) = 0%nat /\
  Editor.activeTokenIndex (Editor.handleSeek SeekSamples.ordered (16 # 5)) = 2%nat /\
  Editor.activeTokenIndex (Editor.handleSeek SeekSamples.ordered (1 # 2)) = 0%nat /\
  Editor.activeTokenIndex (Editor.handleSeek SeekSamples.ordered 5) = 2%nat.
Proof.
  assert (Hs : Lookup.seekable SeekSamples.ordered) by (repeat split; reflexivity).
  assert (Hc : Lookup.chronological
                 (Editor.getTokensByMode SeekSamples.ordered) = true)
    by reflexivity.
  split; [|split; [|split]].
  - destruct (handleSeek_chronological SeekSamples.ordered 2 Hs Hc)
      as (H & _).
    eapply (H 0%nat); [reflexivity|reflexivity|intros j tj Hj; lia].
  - destruct (handleSeek_chronological SeekSamples.ordered (16 # 5) Hs Hc)
      as (_ & H & _).
    eapply (H 1%nat); reflexivity.
  - destruct (handleSeek_chronological SeekSamples.ordered (1 # 2) Hs Hc)
      as (_ & _ & H & _).
    eapply H; reflexivity.
  - destruct (handleSeek_chronological SeekSamples.ordered 5 Hs Hc)
      as (_ & _ & _ & H).
    eapply H; reflexivity.
Defined.

(** C5 as stated fails when recorded and unrecorded tokens are mixed, and
    when the recorded times are out of order.  With two lines recorded at
    1000-2000 and 2500-3000 and two lines still at (0, 0), a seek to 0.5 s
    is before the first recorded token and covered by none, yet the fourth
    line is selected: the unrecorded last token ends at 0, so the time is
    past it.  With lines recorded at 1000-1500, 5000-6000 and 2000-3000, a
    seek to 2.5 s is covered by the third line only, yet the second is
    selected: the gap after the first line is seen first. *)
Lemma handleSeek_not_first :
  (forall tk, tk ∈ Editor.getTokensByMode SeekSamples.partly ->
              Lookup.covers tk 500 = false) /\
  Editor.activeTokenIndex (Editor.handleSeek SeekSamples.partly (1 # 2)) = 3%nat /\
  (forall k tk, Editor.getTokensByMode SeekSamples.unordered !! k = Some tk ->
                Lookup.covers tk 2500 = true -> k = 2%nat) /\
  Editor.activeTokenIndex (Editor.handleSeek SeekSamples.unordered (5 # 2)) = 1%nat.
Proof.
  split; [|split; [reflexivity|split; [|reflexivity]]].
  - intros tk Hin. vm_compute in Hin.
    repeat (apply elem_of_cons in Hin as [->|Hin]; [reflexivity|]).
    apply elem_of_nil in Hin. destruct Hin.
  - intros k tk Hk Hcov.
    destruct k as [|[|[|k]]]; vm_compute in Hk; try discriminate;
      try reflexivity; injection Hk as <-; vm_compute in Hcov; discriminate.
Qed.

(** ** Unlock rule *)

Section UnlockFacts.
Import Editor Unlock.

Lemma every_Normal {A : Type} (f : A -> bool) (xs : list A) :
  every (fun x => Normal (f x)) xs = Normal (forallb f xs).
Proof.
  induction xs as [|x xs IH]; [reflexivity|].
  simpl. destruct (f x); [exact IH|reflexivity].
Qed.

Lemma every_nested {A B : Type} (kids : A -> list B) (f : B -> bool)
    (xs : list A) :
  every (fun x => every (fun y => Normal (f y)) (kids x)) xs
  = Normal (forallb f (concat (map kids xs))).
Proof.
  induction xs as [|x xs IH]; [reflexivity|].
  simpl. rewrite every_Normal, forallb_app.
  destruct (forallb f (kids x)); [exact IH|reflexivity].
Qed.

Lemma every_ext {A : Type} (p q : A -> Completion bool) (xs : list A) :
  (forall x, In x xs -> p x = q x) -> every p xs = every q xs.
Proof.
  induction xs as [|x xs IH]; intros H; [reflexivity|].
  simpl. rewrite (H x) by (left; reflexivity).
  destruct (q x) as [[|]|]; try reflexivity.
  apply IH. intros y Hy. apply H. right. exact Hy.
Qed.

Lemma isModeCompleted_Lines s d :
  karaokeData s = Some d -> isModeCompleted s Lines = Normal (linesDone d).
Proof.
  intros E. unfold isModeCompleted, linesDone, allLines. rewrite E.
  apply every_nested.
Qed.

Lemma isModeCompleted_Words s d :
  karaokeData s = Some d -> Tree.wordsPresent d = true ->
  isModeCompleted s Words = Normal (wordsDone d).
Proof.
  intros E Hp. unfold isModeCompleted, wordsDone, allWords. rewrite E.
  unfold Tree.wordsPresent, allLines in Hp.
  rewrite <- (every_nested (fun block => concat (map wordsOrEmpty (lines block)))).
  apply every_ext. intros block Hb.
  rewrite every_Normal, <- (every_nested wordsOrEmpty).
  apply every_ext. intros line Hl.
  rewrite forallb_forall in Hp.
  assert (Hin : In line (concat (map lines (blocks d)))).
  { apply in_concat. exists (lines block). split; [|exact Hl].
    apply in_map. exact Hb. }
  specialize (Hp line Hin). apply bool_decide_eq_true in Hp.
  destruct Hp as [ws Hws]. unfold wordsOrEmpty. rewrite Hws. reflexivity.
Qed.

End UnlockFacts.

(** C4 (as the code has it).  On a document whose lines all carry a
    [words] array the unlock update returns, changes nothing but the
    unlocked set, and afterwards: [blocks], [lines] and the active mode are
    unlocked; [words] is unlocked exactly when every line has both stamps
    positive, or the active mode is [lines] and its active token is
    recorded, or the active mode is [words]; [chars] is unlocked exactly
    when every line and every word has both stamps positive, or the active
    mode is [words] and its active token is recorded, or the active mode is
    [chars]. *)
Theorem updateUnlockedModes_rule (s : Editor.Session) (d : Document) :
  Editor.karaokeData s = Some d ->
  Tree.wordsPresent d = true ->
  exists unlocked,
    Editor.updateUnlockedModes s = Normal (Editor.set_unlockedModes s unlocked) /\
    Editor.includes unlocked Editor.Blocks = true /\
    Editor.includes unlocked Editor.Lines = true /\
    Editor.includes unlocked (Editor.recordingMode s) = true /\
    (Editor.includes unlocked Editor.Words = true <->
       Unlock.linesDone d = true \/
       (Editor.recordingMode s = Editor.Lines /\
        Editor.isCurrentTokenRecorded s = true) \/
       Editor.recordingMode s = Editor.Words) /\
    (Editor.includes unlocked Editor.Chars = true <->
       (Unlock.linesDone d = true /\ Unlock.wordsDone d = true) \/
       (Editor.recordingMode s = Editor.Words /\
        Editor.isCurrentTokenRecorded s = true) \/
       Editor.recordingMode s = Editor.Chars).
Proof.
  intros E Hp. unfold Editor.updateUnlockedModes. simpl.
  rewrite (isModeCompleted_Lines s d E), (isModeCompleted_Words s d E Hp).
  destruct (Unlock.linesDone d), (Unlock.wordsDone d),
    (Editor.recordingMode s), (Editor.isCurrentTokenRecorded s);
    simpl; eexists; (split; [reflexivity|]); simpl;
    intuition (try congruence; try discriminate).
Qed.

(** The theorem on a two-line document with the cursor on the recorded
    first line: [words] is unlocked by the active token, [chars] is not. *)
Lemma updateUnlockedModes_rule_witness :
  exists unlocked,
    Editor.updateUnlockedModes Unlock.onRecordedLine
      = Normal (Editor.set_unlockedModes Unlock.onRecordedLine unlocked) /\
    Editor.includes unlocked Editor.Words = true /\
    Editor.includes unlocked Editor.Chars = false.
Proof.
  destruct (updateUnlockedModes_rule Unlock.onRecordedLine _ eq_refl eq_refl)
    as (unlocked & Hrun & _ & _ & _ & Hw & Hc).
  exists unlocked. split; [exact Hrun|]. split.
  - apply Hw. right. left. split; reflexivity.
  - destruct (Editor.includes unlocked Editor.Chars) eqn:E; [|reflexivity].
    destruct Hc as [Hc _]. specialize (Hc eq_refl).
    destruct Hc as [[Hc _]|[[Hc _]|Hc]]; discriminate.
Defined.

(** C4 as stated fails in word mode: not every line is recorded and the
    active mode is not [lines], yet [words] is unlocked, because the active
    mode always is. *)
Lemma updateUnlockedModes_active_mode :
  exists s',
    Editor.updateUnlockedModes Unlock.inWords = Normal s' /\
    Editor.includes (Editor.unlockedModes s') Editor.Words = true /\
    Editor.isModeCompleted Unlock.inWords Editor.Lines = Normal false /\
    Editor.recordingMode Unlock.inWords <> Editor.Lines /\
    Editor.isCurrentTokenRecorded Unlock.inWords = false.
Proof.
  eexists. split; [reflexivity|].
  repeat split; try reflexivity. discriminate.
Qed.

(** ** Recording with the cursor out of range *)

(** With a document loaded and the audio mounted, a cursor at or past the
    end of the token list of the current mode makes [recordTimestamp]
    throw: [currentToken] is [undefined] and the log line reads its
    [text]. *)
Lemma recordTimestamp_out_of_range (s : Editor.Session) (d : Document)
    (timestamp : Q) (type : Editor.Stamp) :
  Editor.karaokeData s = Some d -> Editor.audioRef s = true ->
  (length (Editor.getTokensByMode s) <= Editor.activeTokenIndex s)%nat ->
  Editor.recordTimestamp s timestamp type = Throw TypeError.
Proof.
  intros Ed Ha Hlen. unfold Editor.recordTimestamp. rewrite Ed, Ha. simpl.
  rewrite (lookup_ge_None_2 _ _ Hlen). reflexivity.
Qed.

(** C8, the code at a failing input: on a document without blocks, where
    the token list of every mode is empty, recording a start or an end
    stamp throws a [TypeError] instead of returning. *)
Theorem recordTimestamp_empty_throws :
  forall mode type,
    Editor.getTokensByMode (RecordSamples.emptySession mode) = [] /\
    Editor.recordTimestamp (RecordSamples.emptySession mode) 1 type
      = Throw TypeError.
Proof.
  intros mode type. split; destruct mode; destruct type; reflexivity.
Qed.

(** ** Export cleanup: order of the levels *)

Section PassFacts.
Import Cleanup Passes.

Lemma line_eta (line : Line) : mkLine (line_tok line) (words line) = line.
Proof. destruct line; reflexivity. Qed.

Lemma word_eta (word : Word) : mkWord (word_tok word) (chars word) = word.
Proof. destruct word; reflexivity. Qed.

Lemma block_eta (block : Block) : mkBlock (block_tok block) (lines block) = block.
Proof. destruct block; reflexivity. Qed.

Lemma token_eta (t : Token) :
  mkToken (text t) (start t) (end_ t) (voice t) (position t) = t.
Proof. destruct t; reflexivity. Qed.

Lemma cleanWords_steps (line : Line) :
  cleanWords line = charsStep (wordsStep line).
Proof.
  unfold cleanWords, charsStep, wordsStep.
  destruct (words line) as [ws|] eqn:E.
  - destruct (length (timed word_tok ws) =? 0)%nat; [reflexivity|].
    destruct (length (timed word_tok ws) <? length ws)%nat; simpl;
      [reflexivity|].
    rewrite E. reflexivity.
  - rewrite E. simpl. rewrite <- E. symmetry. apply line_eta.
Qed.

Lemma cleanBlock_passes (bs : list Block) :
  map cleanBlock bs = charsPass (wordsPass (linesPass bs)).
Proof.
  unfold charsPass, wordsPass, linesPass. rewrite !map_map.
  apply map_ext. intros block. unfold cleanBlock. simpl.
  rewrite map_map. f_equal. apply map_ext. exact cleanWords_steps.
Qed.

End PassFacts.

(** C10 (as the code has it).  The cleanup works top-down: it is the line
    level pass, followed by the word level pass, followed by the character
    level pass, followed by the text clearing. *)
Theorem cleanupTimingData_topDown (data : Document) :
  Cleanup.cleanupTimingData data = Passes.topDown data.
Proof.
  unfold Cleanup.cleanupTimingData, Passes.topDown.
  rewrite cleanBlock_passes. reflexivity.
Qed.

(** C10 as stated fails: on a block whose lines are partly recorded and
    whose first line has partly recorded words, the bottom-up order spreads
    the words over the line as recorded (0-400), the code over the line as
    redistributed (0-500). *)
Lemma cleanupTimingData_not_bottomUp :
  Cleanup.cleanupTimingData CleanupSamples.nested
    <> Passes.bottomUp CleanupSamples.nested.
Proof.
  vm_compute. discriminate.
Qed.

(** ** Export cleanup: one level *)

Section LevelFacts.
Import Cleanup CleanupSpec.

Context {A : Type} (tok : A -> Token) (retok : A -> Token -> A).
Hypothesis tok_retok : forall child t, tok (retok child t) = t.
Hypothesis retok_tok : forall child, retok child (tok child) = child.

Lemma length_interpolate inherit parent (children : list A) :
  length (interpolate tok retok inherit parent children) = length children.
Proof. unfold interpolate. apply length_imap. Qed.

Lemma lookup_interpolate inherit parent (children : list A) i :
  interpolate tok retok inherit parent children !! i =
    (fun child =>
       retok child
         (mkToken (text (tok child))
                  (fst (share parent (length children) i))
                  (snd (share parent (length children) i))
                  (inherit (tok child)) (position (tok child))))
    <$> children !! i.
Proof. unfold interpolate. apply list_lookup_imap. Qed.

Lemma sharedOut_interpolate inherit parent (children : list A) :
  sharedOut tok inherit parent children
            (interpolate tok retok inherit parent children).
Proof.
  split; [apply length_interpolate|].
  intros i child child' Hc Hc'. rewrite lookup_interpolate, Hc in Hc'.
  cbn [fmap option_fmap option_map] in Hc'. injection Hc' as <-.
  rewrite tok_retok. unfold stamps. cbn [start end_ voice].
  split; [|reflexivity]. symmetry. apply surjective_pairing.
Qed.

(** A map that keeps the stamps and the voice keeps [sharedOut]. *)
Lemma sharedOut_map inherit parent (before after : list A) (h : A -> A) :
  (forall child, stamps (tok (h child)) = stamps (tok child)
                 /\ voice (tok (h child)) = voice (tok child)) ->
  sharedOut tok inherit parent before after ->
  sharedOut tok inherit parent before (map h after).
Proof.
  intros Hh [Hlen Hs]. split; [rewrite length_map; exact Hlen|].
  intros i child child' Hc Hc'. rewrite list_lookup_fmap in Hc'.
  destruct (after !! i) as [c1|] eqn:E; [|discriminate].
  simpl in Hc'. injection Hc' as <-.
  destruct (Hh c1) as [H1 H2]. rewrite H1, H2. exact (Hs i child c1 Hc E).
Qed.

(** The timed children are counted from the stamps alone. *)
Lemma timed_length_map (h : A -> A) (children : list A) :
  (forall child, stamps (tok (h child)) = stamps (tok child)) ->
  length (timed tok (map h children)) = length (timed tok children).
Proof.
  intros Hh. unfold timed. induction children as [|c cs IH]; [reflexivity|].
  simpl. assert (E : isTimed (tok (h c)) = isTimed (tok c)).
  { unfold isTimed. specialize (Hh c). unfold stamps in Hh.
    injection Hh as -> ->. reflexivity. }
  rewrite E. destruct (isTimed (tok c)); simpl; rewrite IH; reflexivity.
Qed.

Lemma timed_length_le (children : list A) :
  (length (timed tok children) <= length children)%nat.
Proof. unfold timed. apply List.filter_length_le. Qed.

End LevelFacts.

(** ** Export cleanup: the three levels of the source *)

Section CleanupFacts.
Import Cleanup CleanupSpec.

Lemma lookup_map {A B : Type} (f : A -> B) (xs : list A) i :
  map f xs !! i = f <$> xs !! i.
Proof.
  revert i. induction xs as [|x xs IH]; intros [|i]; try reflexivity.
  exact (IH i).
Qed.

Lemma share_ext parent parent' n i :
  stamps parent = stamps parent' -> share parent n i = share parent' n i.
Proof.
  unfold stamps, share. intros H. injection H as -> ->. reflexivity.
Qed.

Lemma strictMix_cases {A : Type} (tok : A -> Token) (children : list A) :
  (length (timed tok children) = 0%nat /\ strictMix tok children = false) \/
  (length (timed tok children) <> 0%nat /\ strictMix tok children = true) \/
  (length (timed tok children) <> 0%nat /\
   length (timed tok children) = length children /\
   strictMix tok children = false).
Proof.
  unfold strictMix. pose proof (timed_length_le tok children) as Hle.
  destruct (Nat.eqb_spec (length (timed tok children)) 0) as [E|E];
    [left; split; auto|right].
  destruct (Nat.ltb_spec (length (timed tok children)) (length children));
    [left; split; auto|right; repeat split; auto; lia].
Qed.

Lemma cleanLines_mix block :
  strictMix line_tok (lines block) = true ->
  cleanLines block =
    interpolate line_tok retok_line
      (fun line => jsor (voice line) (voice (block_tok block)))
      (block_tok block) (lines block).
Proof.
  unfold strictMix, cleanLines. intros H. apply andb_prop in H as [H1 H2].
  apply negb_true_iff in H1. rewrite H1, H2. reflexivity.
Qed.

Lemma cleanLines_keep block :
  strictMix line_tok (lines block) = false -> cleanLines block = lines block.
Proof.
  unfold strictMix, cleanLines. intros H.
  destruct (length (timed line_tok (lines block)) =? 0)%nat; [reflexivity|].
  simpl in H. rewrite H. reflexivity.
Qed.

Lemma cleanChars_tok line word : word_tok (cleanChars line word) = word_tok word.
Proof.
  unfold cleanChars. destruct (chars word) as [cs|]; [|reflexivity].
  destruct (length (timed (fun c => c) cs) =? 0)%nat; [reflexivity|].
  destruct (length (timed (fun c => c) cs) <? length cs)%nat; reflexivity.
Qed.

Lemma cleanChars_none line word cs :
  chars word = Some cs -> length (timed (fun c => c) cs) = 0%nat ->
  chars (cleanChars line word) = None.
Proof.
  intros E H. unfold cleanChars. rewrite E, H. reflexivity.
Qed.

Lemma cleanChars_mix line word cs :
  chars word = Some cs -> strictMix (fun c => c) cs = true ->
  chars (cleanChars line word) =
    Some (interpolate (fun c => c) retok_char
            (fun char => jsor (jsor (voice char) (voice (word_tok word)))
                              (voice line))
            (word_tok word) cs).
Proof.
  intros E H. unfold cleanChars, strictMix in *. rewrite E.
  apply andb_prop in H as [H1 H2]. apply negb_true_iff in H1.
  rewrite H1, H2. reflexivity.
Qed.

Lemma cleanChars_keep line word cs :
  chars word = Some cs -> length (timed (fun c => c) cs) <> 0%nat ->
  strictMix (fun c => c) cs = false ->
  chars (cleanChars line word) = Some cs.
Proof.
  intros E H0 H. unfold cleanChars, strictMix in *. rewrite E.
  apply Nat.eqb_neq in H0. rewrite H0 in *. simpl in H. rewrite H. exact E.
Qed.

Lemma cleanChars_absent line word :
  chars word = None -> cleanChars line word = word.
Proof. intros E. unfold cleanChars. rewrite E. reflexivity. Qed.

Lemma cleanWords_tok line : line_tok (cleanWords line) = line_tok line.
Proof.
  unfold cleanWords. destruct (words line) as [ws|]; [|reflexivity].
  destruct (length (timed word_tok ws) =? 0)%nat; reflexivity.
Qed.

Lemma cleanWords_none line ws :
  words line = Some ws -> length (timed word_tok ws) = 0%nat ->
  words (cleanWords line) = None.
Proof.
  intros E H. unfold cleanWords. rewrite E, H. reflexivity.
Qed.

Lemma cleanWords_mix line ws :
  words line = Some ws -> strictMix word_tok ws = true ->
  words (cleanWords line) =
    Some (map (cleanChars (line_tok line))
              (interpolate word_tok retok_word
                 (fun word => jsor (voice word) (voice (line_tok line)))
                 (line_tok line) ws)).
Proof.
  intros E H. unfold cleanWords, strictMix in *. rewrite E.
  apply andb_prop in H as [H1 H2]. apply negb_true_iff in H1.
  rewrite H1, H2. reflexivity.
Qed.

Lemma cleanWords_keep line ws :
  words line = Some ws -> length (timed word_tok ws) <> 0%nat ->
  strictMix word_tok ws = false ->
  words (cleanWords line) = Some (map (cleanChars (line_tok line)) ws).
Proof.
  intros E H0 H. unfold cleanWords, strictMix in *. rewrite E.
  apply Nat.eqb_neq in H0. rewrite H0 in *. simpl in H. rewrite H.
  reflexivity.
Qed.

Lemma cleanWords_absent line : words line = None -> cleanWords line = line.
Proof. intros E. unfold cleanWords. rewrite E. reflexivity. Qed.

Lemma clearWord_tok word :
  stamps (word_tok (clearWord word)) = stamps (word_tok word) /\
  voice (word_tok (clearWord word)) = voice (word_tok word).
Proof.
  unfold clearWord. destruct (chars word) as [[|c cs]|]; split; reflexivity.
Qed.

Lemma clearWord_chars word : chars (clearWord word) = chars word.
Proof.
  unfold clearWord. destruct (chars word) as [[|c cs]|] eqn:E;
    simpl; congruence.
Qed.

Lemma clearLine_tok line :
  stamps (line_tok (clearLine line)) = stamps (line_tok line) /\
  voice (line_tok (clearLine line)) = voice (line_tok line).
Proof.
  unfold clearLine. destruct (words line) as [[|w ws]|]; split; reflexivity.
Qed.

Lemma clearLine_words line :
  words (clearLine line) = option_map (map clearWord) (words line).
Proof.
  unfold clearLine. destruct (words line) as [[|w ws]|] eqn:E;
    simpl; rewrite ?E; reflexivity.
Qed.

Lemma clearBlock_tok block :
  stamps (block_tok (clearBlock block)) = stamps (block_tok block) /\
  voice (block_tok (clearBlock block)) = voice (block_tok block).
Proof.
  unfold clearBlock. destruct (lines block); split; reflexivity.
Qed.

Lemma clearBlock_lines block :
  lines (clearBlock block) = map clearLine (lines block).
Proof.
  unfold clearBlock. destruct (lines block) eqn:E; simpl; rewrite ?E;
    reflexivity.
Qed.

(** The blocks of the cleaned document, one by one. *)
Lemma cleanup_lookup data bi :
  blocks (cleanupTimingData data) !! bi
  = (fun block => clearBlock (cleanBlock block)) <$> blocks data !! bi.
Proof.
  unfold cleanupTimingData. simpl. rewrite !lookup_map.
  destruct (blocks data !! bi); reflexivity.
Qed.

(** The lines of a cleaned block, one by one. *)
Lemma cleaned_line_lookup block li :
  lines (clearBlock (cleanBlock block)) !! li
  = (fun line => clearLine (cleanWords line)) <$> cleanLines block !! li.
Proof.
  rewrite clearBlock_lines. unfold cleanBlock. simpl. rewrite !lookup_map.
  destruct (cleanLines block !! li); reflexivity.
Qed.

(** The line level keeps the [words] of every line. *)
Lemma cleanLines_lookup block li line :
  lines block !! li = Some line ->
  exists line1,
    cleanLines block !! li = Some line1 /\ words line1 = words line /\
    (strictMix line_tok (lines block) = false -> line1 = line).
Proof.
  intros Hl. destruct (strictMix line_tok (lines block)) eqn:Hm.
  - rewrite (cleanLines_mix block Hm), lookup_interpolate, Hl. simpl.
    eexists. split; [reflexivity|]. split; [reflexivity|discriminate].
  - rewrite (cleanLines_keep block Hm). exists line. auto.
Qed.

End CleanupFacts.

Section ShareRounding.
Import Cleanup Linear Double.
Local Open Scope Q_scope.

Lemma u_shares : u * 2 ^ 40 == 1 # 8192.
Proof. reflexivity. Qed.

Lemma eta_shares : 2 ^ 40 * eta <= 1 # 8192.
Proof. discriminate. Qed.

(** The number rounded into a stamp of a share is within the tolerance of
    the exact bound. *)
Lemma share_close (a b : Z) (N : nat) (k : Z) :
  (0 <= a)%Z -> (a <= b)%Z -> (b <= 2 ^ 40)%Z ->
  (Z.of_nat N <= 2 ^ 40)%Z -> (0 <= k)%Z -> (k <= Z.of_nat N)%Z ->
  (0 < N)%nat ->
  let x :=
    Double.add (inject_Z a)
      (Double.mul (inject_Z k)
         (Double.div (Double.sub (inject_Z b) (inject_Z a))
                     (inject_Z (Z.of_nat N)))) in
  let y := inject_Z a + inject_Z k * (inject_Z b - inject_Z a)
                        / inject_Z (Z.of_nat N) in
  y - tolerance <= x /\ x <= y + tolerance.
Proof.
  intros Ha Hab Hb HN Hk HkN HN0 x y.
  assert (HA0 : 0 <= inject_Z a)
    by (change 0 with (inject_Z 0); rewrite <- Zle_Qle; exact Ha).
  assert (HAB : inject_Z a <= inject_Z b) by (rewrite <- Zle_Qle; exact Hab).
  assert (HBC : inject_Z b <= 2 ^ 40).
  { change (2 ^ 40) with (inject_Z (2 ^ 40)). rewrite <- Zle_Qle. exact Hb. }
  assert (HNC : inject_Z (Z.of_nat N) <= 2 ^ 40).
  { change (2 ^ 40) with (inject_Z (2 ^ 40)). rewrite <- Zle_Qle. exact HN. }
  assert (HN1 : 1 <= inject_Z (Z.of_nat N)).
  { change 1 with (inject_Z 1). rewrite <- Zle_Qle. lia. }
  assert (HK0 : 0 <= inject_Z k)
    by (change 0 with (inject_Z 0); rewrite <- Zle_Qle; exact Hk).
  assert (HKN : inject_Z k <= inject_Z (Z.of_nat N))
    by (rewrite <- Zle_Qle; exact HkN).
  assert (Hd : Double.sub (inject_Z b) (inject_Z a) == inject_Z b - inject_Z a).
  { unfold Double.sub.
    assert (E : inject_Z b - inject_Z a == inject_Z (b - a)).
    { unfold Qminus, Z.sub. rewrite inject_Z_plus, inject_Z_opp. reflexivity. }
    rewrite (fl_comp _ _ E), E. apply fl_Z. lia. }
  subst x y.
  set (A := inject_Z a) in *. set (B := inject_Z b) in *.
  set (Nq := inject_Z (Z.of_nat N)) in *. set (K := inject_Z k) in *.
  set (d := Double.sub B A) in *.
  assert (Ey : A + K * (B - A) / Nq == A + K * (d / Nq)).
  { rewrite Hd. field. lra. }
  rewrite Ey. clear Ey.
  assert (Hd0 : 0 <= d) by lra. assert (HdC : d <= 2 ^ 40) by lra.
  clearbody d. clear Hd.
  pose proof u_pos as Hu. pose proof eta_pos as He.
  pose proof u_shares as HuC. pose proof eta_shares as HeC.
  set (C := 2 ^ 40) in *.
  assert (HC : 1 <= C) by (unfold C; discriminate).
  clearbody C.
  assert (HCe : eta <= C * eta).
  { rewrite <- (Qmult_1_l eta) at 1. apply Qmult_le_compat_r; lra. }
  (* one part *)
  assert (Hq0 : 0 <= d / Nq) by (apply Qle_shift_div_l; lra).
  assert (ENq : Nq * (d / Nq) == d) by (field; lra).
  destruct (round_rel (d / Nq) Hq0) as [Ht1 Ht2].
  fold (Double.div d Nq) in Ht1, Ht2.
  assert (Ht0 : 0 <= Double.div d Nq) by (apply fl_nonneg; exact Hq0).
  set (td := Double.div d Nq) in *. set (q := d / Nq) in *.
  clearbody td q.
  set (r := u * q + eta) in *.
  assert (Hr0 : 0 <= r).
  { unfold r. assert (0 <= u * q) by (apply Qmult_le_0_compat; lra). lra. }
  assert (ENr : Nq * r == u * d + Nq * eta).
  { transitivity (u * (Nq * q) + Nq * eta); [unfold r; ring|].
    rewrite ENq. reflexivity. }
  assert (Hud : u * d <= u * C) by (apply Qmult_le_l; lra).
  assert (HNe : Nq * eta <= C * eta) by (apply Qmult_le_compat_r; lra).
  assert (HKr : K * r <= Nq * r) by (apply Qmult_le_compat_r; lra).
  assert (HKq : K * q <= Nq * q) by (apply Qmult_le_compat_r; lra).
  assert (HKq0 : 0 <= K * q) by (apply Qmult_le_0_compat; lra).
  clearbody r.
  (* [k] parts *)
  assert (Hk1 : K * (q - r) <= K * td)
    by (rewrite !(Qmult_comm K); apply Qmult_le_compat_r; lra).
  assert (Hk2 : K * td <= K * (q + r))
    by (rewrite !(Qmult_comm K); apply Qmult_le_compat_r; lra).
  assert (Ek1 : K * (q - r) == K * q - K * r) by ring.
  assert (Ek2 : K * (q + r) == K * q + K * r) by ring.
  assert (Hy0 : 0 <= K * td) by (apply Qmult_le_0_compat; lra).
  destruct (round_rel (K * td) Hy0) as [Hp1 Hp2].
  fold (Double.mul K td) in Hp1, Hp2.
  assert (Hp0 : 0 <= Double.mul K td) by (apply fl_nonneg; exact Hy0).
  assert (Huy : u * (K * td) <= u * (2 * C)) by (apply Qmult_le_l; lra).
  set (p := Double.mul K td) in *. set (w := K * td) in *. clearbody p w.
  (* the stamp *)
  assert (Hx0 : 0 <= A + p) by lra.
  destruct (round_rel (A + p) Hx0) as [Hx1 Hx2].
  fold (Double.add A p) in Hx1, Hx2.
  assert (Hux : u * (A + p) <= u * (4 * C)) by (apply Qmult_le_l; lra).
  set (z := Double.add A p) in *. clearbody z.
  assert (E2 : u * (2 * C) == 2 * (u * C)) by ring.
  assert (E4 : u * (4 * C) == 4 * (u * C)) by ring.
  unfold tolerance.
  set (kq := K * q) in *. set (kr := K * r) in *. set (nr := Nq * r) in *.
  set (nq := Nq * q) in *. set (ua := u * (A + p)) in *.
  set (uw := u * w) in *. set (uC := u * C) in *. set (Ce := C * eta) in *.
  set (ud := u * d) in *. set (ne := Nq * eta) in *.
  clearbody kq kr nr nq ua uw uC Ce ud ne.
  split; lra.
Qed.

Lemma share_near parent N i :
  Shares.inRange parent N -> (i < N)%nat ->
  near (Shares.exact parent N (Z.of_nat i)) (share parent N i).1 /\
  near (Shares.exact parent N (Z.of_nat i + 1)) (share parent N i).2.
Proof.
  intros (H1 & H2 & H3 & H4) Hi. unfold share, Shares.exact. simpl. split.
  - pose proof (share_close (start parent) (end_ parent) N (Z.of_nat i)
                  H1 H2 H3 H4 ltac:(lia) ltac:(lia) ltac:(lia)) as H.
    cbv zeta in H. destruct H as [Ha Hb].
    exact (near_of_close _ _ _ (Qle_refl _) Ha Hb).
  - pose proof (share_close (start parent) (end_ parent) N (Z.of_nat i + 1)
                  H1 H2 H3 H4 ltac:(lia) ltac:(lia) ltac:(lia)) as H.
    cbv zeta in H. destruct H as [Ha Hb].
    exact (near_of_close _ _ _ (Qle_refl _) Ha Hb).
Qed.

(** The shares are computed on binary64 numbers: line 7 of the 14 lines
    of a block recorded from 1000 to 15349 starts at 8174, where the
    rational number 8174.5 would be rounded to 8175. *)
Lemma share_sample :
  (share Shares.sample 14 7).1 = 8174%Z /\
  Math_round (Shares.exact Shares.sample 14 7) = 8175%Z.
Proof. split; vm_compute; reflexivity. Qed.

End ShareRounding.

Section ShareFacts.
Import Cleanup CleanupSpec.

Lemma sharedOut_parent {A : Type} (tok : A -> Token) inherit inherit'
    parent parent' (before after : list A) :
  stamps parent = stamps parent' ->
  (forall t, inherit t = inherit' t) ->
  sharedOut tok inherit parent before after ->
  sharedOut tok inherit' parent' before after.
Proof.
  intros Hp Hi [Hlen Hs]. split; [exact Hlen|].
  intros i child child' Hc Hc'. destruct (Hs i child child' Hc Hc') as [H1 H2].
  rewrite <- (share_ext parent parent' _ _ Hp), <- Hi. split; assumption.
Qed.

Lemma cleaned_line_tok line :
  stamps (line_tok (clearLine (cleanWords line))) = stamps (line_tok line) /\
  voice (line_tok (clearLine (cleanWords line))) = voice (line_tok line).
Proof.
  destruct (clearLine_tok (cleanWords line)) as [H1 H2].
  rewrite H1, H2, cleanWords_tok. split; reflexivity.
Qed.

Lemma cleaned_word_tok line word :
  stamps (word_tok (clearWord (cleanChars line word))) = stamps (word_tok word) /\
  voice (word_tok (clearWord (cleanChars line word))) = voice (word_tok word).
Proof.
  destruct (clearWord_tok (cleanChars line word)) as [H1 H2].
  rewrite H1, H2, cleanChars_tok. split; reflexivity.
Qed.

(** The words of a cleaned line, when the line keeps them: each is a word
    [word1] after the word level, cleaned at the character level. *)
Lemma cleaned_words line1 ws ws' :
  words line1 = Some ws ->
  words (clearLine (cleanWords line1)) = Some ws' ->
  exists ws1,
    ws' = map (fun word => clearWord (cleanChars (line_tok line1) word)) ws1 /\
    (strictMix word_tok ws = true ->
       ws1 = interpolate word_tok retok_word
               (fun word => jsor (voice word) (voice (line_tok line1)))
               (line_tok line1) ws) /\
    (strictMix word_tok ws = false -> ws1 = ws).
Proof.
  intros E E'. rewrite clearLine_words in E'.
  destruct (strictMix_cases word_tok ws) as [[H0 Hm]|[[H0 Hm]|[H0 [_ Hm]]]].
  - rewrite (cleanWords_none line1 ws E H0) in E'. discriminate.
  - rewrite (cleanWords_mix line1 ws E Hm) in E'. simpl in E'.
    injection E' as <-. eexists. split; [apply map_map|].
    split; [reflexivity|congruence].
  - rewrite (cleanWords_keep line1 ws E H0 Hm) in E'. simpl in E'.
    injection E' as <-. exists ws. split; [apply map_map|].
    split; [congruence|reflexivity].
Qed.

End ShareFacts.




(** ** Which operations remove nodes *)

Section ShapeFacts.
Import Editor Propagation Tree.

Lemma map_alter_same {A B : Type} (h : A -> B) (g : A -> A) i (xs : list A) :
  (forall x, h (g x) = h x) -> map h (alter g i xs) = map h xs.
Proof.
  intros Hg. revert i. induction xs as [|x xs IH]; intros [|i]; simpl;
    try reflexivity.
  - rewrite Hg. reflexivity.
  - f_equal. apply IH.
Qed.

Lemma map_writeFlat_same {P B : Type} (h : P -> B) size inner i (ps : list P) :
  (forall j p, h (inner j p) = h p) ->
  map h (writeFlat size inner i ps) = map h ps.
Proof.
  intros Hi. revert i. induction ps as [|p ps IH]; intros i; [reflexivity|].
  simpl. destruct (i <? size p)%nat; simpl.
  - rewrite Hi. reflexivity.
  - f_equal. apply IH.
Qed.

Lemma shapeBlock_blockFromLines block :
  shapeBlock (blockFromLines block) = shapeBlock block.
Proof.
  unfold blockFromLines, shapeBlock.
  destruct (lines block) eqn:E; simpl; rewrite ?E; reflexivity.
Qed.

Lemma shapeLine_lineFromWords line :
  shapeLine (lineFromWords line) = shapeLine line.
Proof.
  unfold lineFromWords, shapeLine.
  destruct (words line) as [[|w ws]|] eqn:E; simpl; rewrite ?E; reflexivity.
Qed.

Lemma shapeWord_wordFromChars word :
  shapeWord (wordFromChars word) = shapeWord word.
Proof.
  unfold wordFromChars, shapeWord.
  destruct (chars word) as [[|c cs]|] eqn:E; simpl; rewrite ?E; reflexivity.
Qed.

Lemma shapeLine_wordsFromChars line :
  shapeLine (wordsFromChars line) = shapeLine line.
Proof.
  unfold wordsFromChars, shapeLine.
  destruct (words line) as [[|w ws]|] eqn:E; simpl; rewrite ?E; try reflexivity.
  simpl. rewrite shapeWord_wordFromChars. do 2 f_equal.
  rewrite map_map. apply map_ext. exact shapeWord_wordFromChars.
Qed.

Lemma shape_updateBlockTimingFromLines d :
  shape (updateBlockTimingFromLines d) = shape d.
Proof.
  unfold shape, updateBlockTimingFromLines. simpl. rewrite map_map.
  apply map_ext. exact shapeBlock_blockFromLines.
Qed.

Lemma shape_updateParentTimingFromWords d :
  shape (updateParentTimingFromWords d) = shape d.
Proof.
  unfold updateParentTimingFromWords.
  rewrite shape_updateBlockTimingFromLines. unfold shape. simpl.
  rewrite map_map. apply map_ext. intros block.
  unfold shapeBlock, linesFromWords. simpl. rewrite map_map.
  apply map_ext. exact shapeLine_lineFromWords.
Qed.

Lemma shape_updateParentTimingFromChars d :
  shape (updateParentTimingFromChars d) = shape d.
Proof.
  unfold updateParentTimingFromChars.
  rewrite shape_updateParentTimingFromWords. unfold shape. simpl.
  rewrite map_map. apply map_ext. intros block.
  unfold shapeBlock, blockWordsFromChars. simpl. rewrite map_map.
  apply map_ext. exact shapeLine_wordsFromChars.
Qed.

Lemma shape_writeLine f i bs :
  map shapeBlock (writeLine f i bs) = map shapeBlock bs.
Proof.
  apply map_writeFlat_same. intros j block. unfold shapeBlock. simpl.
  apply map_alter_same. reflexivity.
Qed.

Lemma shape_writeWord f i bs :
  map shapeBlock (writeWord f i bs) = map shapeBlock bs.
Proof.
  apply map_writeFlat_same. intros j block. unfold shapeBlock. simpl.
  apply map_writeFlat_same. intros k line. unfold shapeLine. simpl.
  destruct (words line) as [ws|]; [|reflexivity]. simpl. f_equal.
  apply map_alter_same. reflexivity.
Qed.

Lemma shape_writeChar f i bs :
  map shapeBlock (writeChar f i bs) = map shapeBlock bs.
Proof.
  apply map_writeFlat_same. intros j block. unfold shapeBlock. simpl.
  apply map_writeFlat_same. intros k line. unfold shapeLine. simpl.
  destruct (words line) as [ws|]; [|reflexivity]. simpl. f_equal.
  apply map_writeFlat_same. intros m word. unfold shapeWord. simpl.
  destruct (chars word) as [cs|]; [|reflexivity]. simpl. f_equal.
  apply length_alter.
Qed.

(** Recording, with its propagation, keeps the skeleton. *)
Lemma shape_recordInto mode i type currentTime currentVoice d :
  shape (recordInto mode i type currentTime currentVoice d) = shape d.
Proof.
  unfold recordInto. destruct mode.
  - destruct (i <? length (blocks d))%nat; [|reflexivity].
    unfold shape. simpl. apply map_alter_same. reflexivity.
  - destruct (i <? length (allLines (blocks d)))%nat; [|reflexivity].
    rewrite shape_updateBlockTimingFromLines. apply shape_writeLine.
  - destruct (i <? length (allWords (blocks d)))%nat; [|reflexivity].
    rewrite shape_updateParentTimingFromWords. apply shape_writeWord.
  - destruct (i <? length (allChars (blocks d)))%nat; [|reflexivity].
    rewrite shape_updateParentTimingFromChars. apply shape_writeChar.
Qed.

End ShapeFacts.

Section DeleteFacts.
Import Cleanup CleanupSpec.

Lemma timed_none_iff {A : Type} (tok : A -> Token) (children : list A) :
  length (timed tok children) = 0%nat <->
  (forall child, In child children -> isTimed (tok child) = false).
Proof.
  unfold timed. induction children as [|c cs IH]; simpl.
  - split; [intros _ child []|reflexivity].
  - destruct (isTimed (tok c)) eqn:E; simpl.
    + split; [discriminate|]. intros H. specialize (H c (or_introl eq_refl)).
      congruence.
    + rewrite IH. split.
      * intros H child [<-|Hin]; auto.
      * intros H child Hin. apply H. right. exact Hin.
Qed.

Lemma cleanLines_length block : length (cleanLines block) = length (lines block).
Proof.
  destruct (strictMix line_tok (lines block)) eqn:Hm.
  - rewrite (cleanLines_mix block Hm). apply length_interpolate.
  - rewrite (cleanLines_keep block Hm). reflexivity.
Qed.

(** What the cleanup does to the [chars] of a word. *)
Lemma cleaned_chars line word1 :
  match chars word1 with
  | None => chars (clearWord (cleanChars line word1)) = None
  | Some cs =>
    ((forall c, In c cs -> isTimed c = false) ->
       chars (clearWord (cleanChars line word1)) = None) /\
    ((exists c, In c cs /\ isTimed c = true) ->
       exists cs', chars (clearWord (cleanChars line word1)) = Some cs' /\
                   length cs' = length cs)
  end.
Proof.
  rewrite clearWord_chars. destruct (chars word1) as [cs|] eqn:E.
  - split.
    + intros H. apply (timed_none_iff (fun c => c)) in H.
      exact (cleanChars_none line word1 cs E H).
    + intros (c & Hin & Hc).
      destruct (strictMix_cases (fun c => c) cs) as [[H0 _]|[[H0 Hm]|[H0 [_ Hm]]]].
      * rewrite (timed_none_iff (fun c => c)) in H0. rewrite (H0 c Hin) in Hc.
        discriminate.
      * rewrite (cleanChars_mix line word1 cs E Hm). eexists.
        split; [reflexivity|]. apply length_interpolate.
      * rewrite (cleanChars_keep line word1 cs E H0 Hm). eauto.
  - rewrite (cleanChars_absent line word1 E). exact E.
Qed.

End DeleteFacts.

(** C9.  The cleanup keeps every block and every line.  It deletes the
    [words] array of a line exactly when the array is there and none of the
    words has non-sentinel timing, and otherwise keeps all the words; in a
    line that keeps its words it deletes the [chars] array of a word exactly
    when none of the characters has non-sentinel timing, and otherwise
    keeps all the characters.  Recording a timestamp, with the propagation
    it triggers, in any mode, leaves the skeleton of the document as it
    was. *)
Theorem nodes_removed_only_by_cleanup :
  (forall data, length (blocks (Cleanup.cleanupTimingData data))
                = length (blocks data)) /\
  (forall data bi block block',
     blocks data !! bi = Some block ->
     blocks (Cleanup.cleanupTimingData data) !! bi = Some block' ->
     length (lines block') = length (lines block) /\
     forall li line line',
       lines block !! li = Some line -> lines block' !! li = Some line' ->
       (words line = None -> words line' = None) /\
       forall ws, words line = Some ws ->
         ((forall word, In word ws -> Cleanup.isTimed (word_tok word) = false) ->
            words line' = None) /\
         ((exists word, In word ws /\ Cleanup.isTimed (word_tok word) = true) ->
            exists ws',
              words line' = Some ws' /\ length ws' = length ws /\
              forall wi word word',
                ws !! wi = Some word -> ws' !! wi = Some word' ->
                (chars word = None -> chars word' = None) /\
                forall cs, chars word = Some cs ->
                  ((forall c, In c cs -> Cleanup.isTimed c = false) ->
                     chars word' = None) /\
                  ((exists c, In c cs /\ Cleanup.isTimed c = true) ->
                     exists cs', chars word' = Some cs' /\
                                 length cs' = length cs))) /\
  (forall s timestamp type s',
     Editor.recordTimestamp s timestamp type = Normal s' ->
     option_map Tree.shape (Editor.karaokeData s')
     = option_map Tree.shape (Editor.karaokeData s)).
Proof.
  split; [|split].
  - intros data. unfold Cleanup.cleanupTimingData. simpl.
    rewrite !length_map. reflexivity.
  - intros data bi block block' Hb Hb'.
    rewrite cleanup_lookup, Hb in Hb'. simpl in Hb'. injection Hb' as <-.
    split.
    { rewrite clearBlock_lines. unfold Cleanup.cleanBlock. simpl.
      rewrite !length_map. apply cleanLines_length. }
    intros li line line' Hl Hl'. rewrite cleaned_line_lookup in Hl'.
    destruct (cleanLines_lookup block li line Hl) as (line1 & E1 & Ew & _).
    rewrite E1 in Hl'. simpl in Hl'. injection Hl' as <-.
    split.
    { intros Hn. rewrite <- Ew in Hn.
      rewrite (cleanWords_absent line1 Hn), clearLine_words, Hn. reflexivity. }
    intros ws Hws. rewrite <- Ew in Hws. split.
    + intros Hnone. apply (timed_none_iff word_tok) in Hnone.
      rewrite clearLine_words, (cleanWords_none line1 ws Hws Hnone).
      reflexivity.
    + intros (w & Hin & Hw).
      assert (H0 : length (Cleanup.timed word_tok ws) <> 0%nat).
      { intros H0. rewrite (timed_none_iff word_tok) in H0.
        rewrite (H0 w Hin) in Hw. discriminate. }
      assert (Hsome : exists ws',
                 words (Cleanup.clearLine (Cleanup.cleanWords line1)) = Some ws').
      { rewrite clearLine_words.
        destruct (CleanupSpec.strictMix word_tok ws) eqn:Hm.
        - rewrite (cleanWords_mix line1 ws Hws Hm). simpl. eauto.
        - rewrite (cleanWords_keep line1 ws Hws H0 Hm). simpl. eauto. }
      destruct Hsome as (ws' & Hws'). exists ws'. split; [exact Hws'|].
      destruct (cleaned_words line1 ws ws' Hws Hws') as (ws1 & -> & Hmix & Hkeep).
      assert (Hlen : length ws1 = length ws).
      { destruct (CleanupSpec.strictMix word_tok ws) eqn:Hm.
        - rewrite (Hmix eq_refl). apply length_interpolate.
        - rewrite (Hkeep eq_refl). reflexivity. }
      split; [rewrite length_map; exact Hlen|].
      intros wi word word' Hwi Hwi'. rewrite lookup_map in Hwi'.
      destruct (ws1 !! wi) as [word1|] eqn:Hw1; [|discriminate].
      simpl in Hwi'. injection Hwi' as <-.
      assert (Hchars : chars word1 = chars word).
      { destruct (CleanupSpec.strictMix word_tok ws) eqn:Hm.
        - rewrite (Hmix eq_refl), lookup_interpolate, Hwi in Hw1.
          simpl in Hw1. injection Hw1 as <-. reflexivity.
        - rewrite (Hkeep eq_refl), Hwi in Hw1. injection Hw1 as <-.
          reflexivity. }
      pose proof (cleaned_chars (line_tok line1) word1) as Hc.
      rewrite Hchars in Hc. split.
      * intros Hn. rewrite Hn in Hc. exact Hc.
      * intros cs Hcs. rewrite Hcs in Hc. exact Hc.
  - intros s timestamp type s' Hrec. unfold Editor.recordTimestamp in Hrec.
    destruct (Editor.karaokeData s) as [d|] eqn:Ed;
      [|injection Hrec as <-; rewrite Ed; reflexivity].
    destruct (negb (Editor.audioRef s));
      [injection Hrec as <-; rewrite Ed; reflexivity|].
    destruct (Editor.isSpaceToken _);
      [injection Hrec as <-; rewrite Ed; reflexivity|].
    destruct (_ !! _); [|discriminate].
    injection Hrec as <-. simpl. f_equal. apply shape_recordInto.
Qed.

(** The theorem on a recorded line whose words were never recorded (the
    cleanup deletes the [words] array) and on recording the start of a line
    (the skeleton stays). *)
Lemma nodes_removed_only_by_cleanup_witness :
  (exists block' line',
     blocks (Cleanup.cleanupTimingData CleanupSamples.untimedWords) !! 0%nat
       = Some block' /\
     lines block' !! 0%nat = Some line' /\ words line' = None) /\
  (exists s',
     Editor.recordTimestamp Unlock.onRecordedLine 3 Editor.StampStart
       = Normal s' /\
     option_map Tree.shape (Editor.karaokeData s')
     = option_map Tree.shape (Editor.karaokeData Unlock.onRecordedLine)).
Proof.
  destruct nodes_removed_only_by_cleanup as (_ & H2 & H3). split.
  - destruct (H2 CleanupSamples.untimedWords 0%nat _ _ eq_refl eq_refl)
      as (_ & Hl).
    destruct (Hl 0%nat _ _ eq_refl eq_refl) as (_ & Hw).
    destruct (Hw _ eq_refl) as (Hdel & _).
    do 2 eexists. split; [reflexivity|]. split; [reflexivity|].
    apply Hdel. intros word [<-|[<-|[]]]; reflexivity.
  - eexists. split; [reflexivity|].
    apply (H3 Unlock.onRecordedLine 3%Q Editor.StampStart). reflexivity.
Defined.

(** ** Export cleanup: running it again *)

Section FixLevel.
Import Cleanup CleanupSpec.

Context {A : Type} (tok : A -> Token) (retok : A -> Token -> A).
Hypothesis retok_tok : forall child, retok child (tok child) = child.

(** Children that already hold the even shares of their parent, and whose
    voice is an inherited one, are left as they are. *)
Lemma interpolate_fix inherit parent (before after : list A) :
  sharedOut tok inherit parent before after ->
  (forall t0 t, voice t = inherit t0 -> inherit t = voice t) ->
  interpolate tok retok inherit parent after = after.
Proof.
  intros [Hlen Hs] Hidem. apply list_eq. intros i.
  rewrite lookup_interpolate. destruct (after !! i) as [c'|] eqn:E;
    [|reflexivity].
  cbn [fmap option_fmap option_map]. f_equal.
  destruct (before !! i) as [c|] eqn:Eb.
  2:{ apply lookup_ge_None in Eb. apply lookup_lt_Some in E. lia. }
  destruct (Hs i c c' Eb E) as [Hst Hv].
  rewrite Hlen, <- Hst, (Hidem (tok c) (tok c') Hv). unfold stamps.
  cbn [fst snd]. rewrite token_eta. apply retok_tok.
Qed.

Lemma strictMix_map (h : A -> A) (children : list A) :
  (forall child, stamps (tok (h child)) = stamps (tok child)) ->
  strictMix tok (map h children) = strictMix tok children.
Proof.
  intros Hh. unfold strictMix.
  rewrite (timed_length_map tok h children Hh), length_map. reflexivity.
Qed.

End FixLevel.

Section FixFacts.
Import Cleanup CleanupSpec Settled.

Lemma jsor_zero b : jsor 0 b = b.
Proof. reflexivity. Qed.

Lemma jsor_nonzero a b : a <> 0 -> jsor a b = a.
Proof. intros H. unfold jsor. apply Z.eqb_neq in H. rewrite H. reflexivity. Qed.

Lemma jsor_same a : jsor a a = a.
Proof. unfold jsor. destruct (a =? 0); reflexivity. Qed.

Lemma jsor_is_zero a b : jsor a b = 0 -> a = 0 /\ b = 0.
Proof.
  unfold jsor. destruct (Z.eqb_spec a 0) as [->|H]; [auto|].
  intros ->. contradiction.
Qed.

Lemma jsor_again v p t : t = jsor v p -> jsor t p = t.
Proof.
  intros ->. destruct (Z.eq_dec v 0) as [->|Hv].
  - rewrite jsor_zero. apply jsor_same.
  - rewrite !(jsor_nonzero v p Hv). reflexivity.
Qed.

Lemma jsor_again2 v w l t : t = jsor (jsor v w) l -> jsor (jsor t w) l = t.
Proof.
  intros ->. destruct (Z.eq_dec (jsor v w) 0) as [E|Hx].
  - destruct (jsor_is_zero v w E) as [-> ->]. rewrite !jsor_zero.
    destruct (Z.eq_dec l 0) as [->|Hl]; [reflexivity|].
    rewrite (jsor_nonzero l 0 Hl). apply jsor_same.
  - rewrite !(jsor_nonzero (jsor v w) l Hx).
    rewrite (jsor_nonzero (jsor v w) w Hx). apply (jsor_nonzero _ l Hx).
Qed.

Lemma clearWord_again word : clearWord (clearWord word) = clearWord word.
Proof. destruct word as [t [[|c cs]|]]; reflexivity. Qed.

Lemma clearLine_again line : clearLine (clearLine line) = clearLine line.
Proof.
  destruct line as [t [[|w ws]|]]; try reflexivity.
  unfold clearLine. simpl. rewrite clearWord_again, map_map.
  rewrite (map_ext _ _ clearWord_again). reflexivity.
Qed.

Lemma clearBlock_again block : clearBlock (clearBlock block) = clearBlock block.
Proof.
  destruct block as [t [|l ls]]; try reflexivity.
  unfold clearBlock. simpl. rewrite clearLine_again, map_map.
  rewrite (map_ext _ _ clearLine_again). reflexivity.
Qed.

End FixFacts.

Section AgainFacts.
Import Cleanup CleanupSpec Settled.

Lemma cleanChars_fixed_if line word cs :
  chars word = Some cs ->
  length (timed (fun c => c) cs) <> 0%nat ->
  (strictMix (fun c => c) cs = true ->
     interpolate (fun c => c) retok_char
       (fun char => jsor (jsor (voice char) (voice (word_tok word))) (voice line))
       (word_tok word) cs = cs) ->
  cleanChars line word = word.
Proof.
  intros E H0 Hfix. unfold cleanChars. rewrite E.
  unfold strictMix in Hfix. apply Nat.eqb_neq in H0. rewrite H0 in *.
  destruct (length (timed (fun c => c) cs) <? length cs)%nat; [|reflexivity].
  rewrite (Hfix eq_refl), <- E. apply word_eta.
Qed.

Lemma cleanWords_fixed_if line ws :
  words line = Some ws ->
  length (timed word_tok ws) <> 0%nat ->
  (strictMix word_tok ws = true ->
     interpolate word_tok retok_word
       (fun word => jsor (voice word) (voice (line_tok line)))
       (line_tok line) ws = ws) ->
  map (cleanChars (line_tok line)) ws = ws ->
  cleanWords line = line.
Proof.
  intros E H0 Hfix Hmap. unfold cleanWords. rewrite E.
  unfold strictMix in Hfix. apply Nat.eqb_neq in H0. rewrite H0 in *.
  destruct (length (timed word_tok ws) <? length ws)%nat.
  - rewrite (Hfix eq_refl), Hmap, <- E. apply line_eta.
  - rewrite Hmap, <- E. apply line_eta.
Qed.

(** A cleaned word is left alone by a second cleanup, unless its
    characters have all come out untimed. *)
Lemma cleaned_word_fixed line line' word1 :
  voice line' = voice line ->
  settledWord (clearWord (cleanChars line word1)) = true ->
  cleanChars line' (clearWord (cleanChars line word1))
  = clearWord (cleanChars line word1).
Proof.
  intros Hv Hset.
  destruct (cleaned_word_tok line word1) as [Ws Wv].
  set (word' := clearWord (cleanChars line word1)) in *.
  destruct (chars word') as [cs'|] eqn:E'; [|exact (cleanChars_absent _ _ E')].
  assert (H0 : length (timed (fun c => c) cs') <> 0%nat).
  { unfold settledWord in Hset. rewrite E' in Hset.
    apply negb_true_iff, Nat.eqb_neq in Hset. exact Hset. }
  apply (cleanChars_fixed_if line' word' cs' E' H0). intros Hm'.
  unfold word' in E'. rewrite clearWord_chars in E'.
  destruct (chars word1) as [cs0|] eqn:E0.
  2:{ rewrite (cleanChars_absent _ _ E0), E0 in E'. discriminate. }
  destruct (strictMix_cases (fun c => c) cs0) as [[Hz _]|[[_ Hm]|[Hz [_ Hm]]]].
  - rewrite (cleanChars_none line word1 cs0 E0 Hz) in E'. discriminate.
  - rewrite (cleanChars_mix line word1 cs0 E0 Hm) in E'. injection E' as <-.
    apply (interpolate_fix (fun c => c) retok_char (fun c => eq_refl) _ _ cs0).
    + apply (sharedOut_parent (fun c => c)
               (fun c => jsor (jsor (voice c) (voice (word_tok word1)))
                              (voice line)) _ (word_tok word1)).
      * symmetry. exact Ws.
      * intros t. symmetry.
        exact (f_equal2 (fun w l => jsor (jsor (voice t) w) l) Wv Hv).
      * apply sharedOut_interpolate. reflexivity.
    + intros t0 t. apply jsor_again2.
  - rewrite (cleanChars_keep line word1 cs0 E0 Hz Hm) in E'. injection E' as <-.
    congruence.
Qed.

(** A cleaned line is left alone by a second cleanup, unless words or
    characters in it have all come out untimed. *)
Lemma cleaned_line_fixed line1 :
  settledLine (clearLine (cleanWords line1)) = true ->
  cleanWords (clearLine (cleanWords line1)) = clearLine (cleanWords line1).
Proof.
  intros Hset.
  destruct (cleaned_line_tok line1) as [Ls Lv].
  set (line' := clearLine (cleanWords line1)) in *.
  destruct (words line') as [ws'|] eqn:E'; [|exact (cleanWords_absent _ E')].
  unfold settledLine in Hset. rewrite E' in Hset.
  apply andb_prop in Hset as [H0 Hwords].
  apply negb_true_iff, Nat.eqb_neq in H0.
  destruct (words line1) as [ws0|] eqn:E0.
  2:{ unfold line' in E'. rewrite (cleanWords_absent _ E0) in E'.
      rewrite clearLine_words, E0 in E'. discriminate. }
  destruct (cleaned_words line1 ws0 ws' E0 E') as (ws1 & Hws' & Hmix & Hkeep).
  apply (cleanWords_fixed_if line' ws' E' H0).
  - intros Hm'.
    assert (Hm : strictMix word_tok ws0 = true).
    { destruct (strictMix word_tok ws0) eqn:Hm; [reflexivity|].
      rewrite (Hkeep eq_refl) in Hws'. rewrite Hws' in Hm'.
      rewrite strictMix_map in Hm'; [congruence|].
      intros w. apply cleaned_word_tok. }
    apply (interpolate_fix word_tok retok_word word_eta _ _ ws0).
    + rewrite Hws', (Hmix Hm).
      apply sharedOut_map; [intros w; apply cleaned_word_tok|].
      apply (sharedOut_parent word_tok
               (fun w => jsor (voice w) (voice (line_tok line1))) _
               (line_tok line1)).
      * symmetry. exact Ls.
      * intros t. symmetry. exact (f_equal (jsor (voice t)) Lv).
      * apply sharedOut_interpolate. reflexivity.
    + intros t0 t. apply jsor_again.
  - rewrite Hws' in Hwords |- *. rewrite map_map. apply map_ext_in.
    intros w Hin. apply cleaned_word_fixed; [exact Lv|].
    rewrite forallb_forall in Hwords. apply Hwords.
    apply in_map_iff. exists w. split; [reflexivity|exact Hin].
Qed.

(** The lines of a cleaned block are left alone by a second cleanup. *)
Lemma cleaned_lines_fixed block :
  cleanLines (clearBlock (cleanBlock block))
  = lines (clearBlock (cleanBlock block)).
Proof.
  destruct (clearBlock_tok (cleanBlock block)) as [Bs Bv].
  change (block_tok (cleanBlock block)) with (block_tok block) in Bs, Bv.
  set (block' := clearBlock (cleanBlock block)) in *.
  assert (El : lines block'
               = map (fun l => clearLine (cleanWords l)) (cleanLines block)).
  { unfold block'. rewrite clearBlock_lines. unfold cleanBlock. simpl.
    apply map_map. }
  destruct (strictMix line_tok (lines block')) eqn:Hm';
    [|exact (cleanLines_keep _ Hm')].
  assert (Hm : strictMix line_tok (lines block) = true).
  { destruct (strictMix line_tok (lines block)) eqn:Hm; [reflexivity|].
    rewrite El, (cleanLines_keep _ Hm) in Hm'.
    rewrite strictMix_map in Hm'; [congruence|].
    intros l. apply cleaned_line_tok. }
  rewrite (cleanLines_mix _ Hm').
  apply (interpolate_fix line_tok retok_line line_eta _ _ (lines block)).
  - rewrite El, (cleanLines_mix _ Hm).
    apply sharedOut_map; [intros l; apply cleaned_line_tok|].
    apply (sharedOut_parent line_tok
             (fun l => jsor (voice l) (voice (block_tok block))) _
             (block_tok block)).
    + symmetry. exact Bs.
    + intros t. symmetry. exact (f_equal (jsor (voice t)) Bv).
    + apply sharedOut_interpolate. reflexivity.
  - intros t0 t. apply jsor_again.
Qed.

Lemma cleaned_block_fixed block :
  forallb settledLine (lines (clearBlock (cleanBlock block))) = true ->
  clearBlock (cleanBlock (clearBlock (cleanBlock block)))
  = clearBlock (cleanBlock block).
Proof.
  intros Hset.
  assert (Hfix : cleanBlock (clearBlock (cleanBlock block))
                 = clearBlock (cleanBlock block)).
  { unfold cleanBlock at 1. rewrite cleaned_lines_fixed.
    rewrite <- (block_eta (clearBlock (cleanBlock block))) at 3. f_equal.
    rewrite <- (map_id (lines (clearBlock (cleanBlock block)))) at 2.
    apply map_ext_in. intros l Hin.
    rewrite forallb_forall in Hset. specialize (Hset l Hin).
    rewrite clearBlock_lines in Hin. unfold cleanBlock in Hin. simpl in Hin.
    rewrite map_map in Hin. apply in_map_iff in Hin as (l1 & <- & _).
    apply cleaned_line_fixed. exact Hset. }
  rewrite Hfix. apply clearBlock_again.
Qed.

End AgainFacts.

Section SettledFacts.
Import Cleanup CleanupSpec Settled.

(** A word the cleanup leaves as it is has a timed character, if it has
    characters at all. *)
Lemma fixed_word_settled line word1 word :
  clearWord (cleanChars line word1) = word -> chars word1 = chars word ->
  settledWord word = true.
Proof.
  intros Hfix Hchars. unfold settledWord.
  destruct (chars word) as [cs|] eqn:E; [|reflexivity].
  apply negb_true_iff, Nat.eqb_neq. intros H0.
  pose proof (f_equal chars Hfix) as Hc.
  rewrite clearWord_chars, (cleanChars_none line word1 cs Hchars H0), E in Hc.
  discriminate.
Qed.

(** A line the cleanup leaves as it is is settled. *)
Lemma fixed_line_settled line1 line :
  clearLine (cleanWords line1) = line -> words line1 = words line ->
  settledLine line = true.
Proof.
  intros Hfix Hwords. unfold settledLine.
  destruct (words line) as [ws|] eqn:E; [|reflexivity].
  pose proof (f_equal words Hfix) as Hw. rewrite E in Hw.
  apply andb_true_intro. split.
  - apply negb_true_iff, Nat.eqb_neq. intros H0.
    rewrite clearLine_words, (cleanWords_none line1 ws Hwords H0) in Hw.
    discriminate.
  - destruct (cleaned_words line1 ws ws Hwords Hw) as (ws1 & Hws & Hmix & Hkeep).
    apply forallb_forall. intros word Hin.
    apply In_nth_error in Hin as [wi Hwi].
    assert (Hlk : ws !! wi = Some word).
    { clear -Hwi. revert wi Hwi. induction ws as [|w ws IH]; intros [|wi] H;
        try discriminate; simpl in *; auto. }
    pose proof Hlk as Hlk'. rewrite Hws, lookup_map in Hlk'.
    destruct (ws1 !! wi) as [word1|] eqn:Hw1; [|discriminate].
    simpl in Hlk'. injection Hlk' as Hword.
    apply (fixed_word_settled (line_tok line1) word1 word Hword).
    destruct (strictMix word_tok ws) eqn:Hm.
    + rewrite (Hmix eq_refl), lookup_interpolate, Hlk in Hw1.
      simpl in Hw1. injection Hw1 as <-. reflexivity.
    + rewrite (Hkeep eq_refl), Hlk in Hw1. injection Hw1 as <-. reflexivity.
Qed.

(** A document the cleanup leaves as it is is settled. *)
Lemma fixed_settled data :
  cleanupTimingData data = data -> settled data = true.
Proof.
  intros Hfix. unfold settled. apply forallb_forall. intros block Hb.
  apply forallb_forall. intros line Hl.
  apply In_nth_error in Hb as [bi Hbi]. apply In_nth_error in Hl as [li Hli].
  assert (Hblk : blocks data !! bi = Some block).
  { clear -Hbi. revert bi Hbi. induction (blocks data) as [|b bs IH];
      intros [|bi] H; try discriminate; simpl in *; auto. }
  assert (Hlin : lines block !! li = Some line).
  { clear -Hli. revert li Hli. induction (lines block) as [|l ls IH];
      intros [|li] H; try discriminate; simpl in *; auto. }
  pose proof (cleanup_lookup data bi) as Hc. rewrite Hfix, Hblk in Hc.
  simpl in Hc. injection Hc as Hc.
  pose proof (cleaned_line_lookup block li) as Hcl.
  rewrite <- Hc, Hlin in Hcl.
  destruct (cleanLines_lookup block li line Hlin) as (line1 & E1 & Ew & _).
  rewrite E1 in Hcl. simpl in Hcl. injection Hcl as Hcl.
  exact (fixed_line_settled line1 line (eq_sym Hcl) Ew).
Qed.

End SettledFacts.

(** C3 (as the code has it).  Cleaning the cleaned document again changes
    nothing if, and only if, in the cleaned document every [words] array
    has a word with non-sentinel timing and every [chars] array a character
    with non-sentinel timing. *)
Theorem cleanupTimingData_again (data : Document) :
  Cleanup.cleanupTimingData (Cleanup.cleanupTimingData data)
  = Cleanup.cleanupTimingData data
  <-> Settled.settled (Cleanup.cleanupTimingData data) = true.
Proof.
  split; [apply fixed_settled|].
  intros Hset. unfold Cleanup.cleanupTimingData in *. unfold set_blocks in *.
  simpl in *. f_equal. unfold Settled.settled in Hset. simpl in Hset.
  rewrite !map_map in *. apply map_ext_in. intros block Hin.
  apply cleaned_block_fixed. rewrite forallb_forall in Hset.
  apply (Hset (Cleanup.clearBlock (Cleanup.cleanBlock block))).
  apply in_map_iff. exists block. split; [reflexivity|exact Hin].
Qed.

(** The theorem on scenario B. *)
Lemma cleanupTimingData_again_witness :
  Cleanup.cleanupTimingData (Cleanup.cleanupTimingData CleanupSamples.scenarioB)
  = Cleanup.cleanupTimingData CleanupSamples.scenarioB.
Proof.
  apply (proj2 (cleanupTimingData_again CleanupSamples.scenarioB)).
  reflexivity.
Defined.

(** C3 as stated fails on a line that is still at (0, 0) and has partly
    recorded words: the first cleanup spreads the empty span of the line
    over the words, which all come out at (0, 0); the second cleanup finds no
    timed word and deletes the [words] array. *)
Lemma cleanupTimingData_twice_differs :
  Cleanup.cleanupTimingData
    (Cleanup.cleanupTimingData CleanupSamples.unrecordedLine)
  <> Cleanup.cleanupTimingData CleanupSamples.unrecordedLine.
Proof.
  vm_compute. discriminate.
Qed.

(** ** Bubble-up propagation *)

Section WidenFacts.
Import Propagation Widening.

Lemma Math_min_least x xs : least (Math_min x xs) (x :: xs).
Proof.
  unfold Math_min. revert x. induction xs as [|y ys IH]; intros x; simpl.
  - split; [left; reflexivity|]. intros z [<-|[]]. lia.
  - destruct (IH (Z.min x y)) as [Hin Hle]. split.
    + destruct Hin as [E|Hin]; [|right; right; exact Hin].
      rewrite <- E. destruct (Z.min_spec x y) as [[_ ->]|[_ ->]];
        [left|right; left]; reflexivity.
    + intros z [<-|[<-|Hz]].
      * specialize (Hle (Z.min x y) (or_introl eq_refl)). lia.
      * specialize (Hle (Z.min x y) (or_introl eq_refl)). lia.
      * apply Hle. right. exact Hz.
Qed.

Lemma Math_max_greatest x xs : greatest (Math_max x xs) (x :: xs).
Proof.
  unfold Math_max. revert x. induction xs as [|y ys IH]; intros x; simpl.
  - split; [left; reflexivity|]. intros z [<-|[]]. lia.
  - destruct (IH (Z.max x y)) as [Hin Hle]. split.
    + destruct Hin as [E|Hin]; [|right; right; exact Hin].
      rewrite <- E. destruct (Z.max_spec x y) as [[_ ->]|[_ ->]];
        [right; left|left]; reflexivity.
    + intros z [<-|[<-|Hz]].
      * specialize (Hle (Z.max x y) (or_introl eq_refl)). lia.
      * specialize (Hle (Z.max x y) (or_introl eq_refl)). lia.
      * apply Hle. right. exact Hz.
Qed.

(** What [widen] computes. *)
Lemma widen_spec parent children :
  match List.filter hasValidTiming children with
  | [] => widen parent children = parent
  | valid =>
    exists m M,
      least m (map start valid) /\ greatest M (map end_ valid) /\
      0 < m /\ 0 < M /\
      start (widen parent children)
        = (if start parent =? 0 then m else Z.min (start parent) m) /\
      end_ (widen parent children)
        = (if end_ parent =? 0 then M else Z.max (end_ parent) M) /\
      text (widen parent children) = text parent /\
      voice (widen parent children) = voice parent /\
      position (widen parent children) = position parent
  end.
Proof.
  unfold widen.
  destruct (List.filter hasValidTiming children) as [|c cs] eqn:E;
    [reflexivity|].
  exists (Math_min (start c) (map start cs)), (Math_max (end_ c) (map end_ cs)).
  pose proof (Math_min_least (start c) (map start cs)) as Hmin.
  pose proof (Math_max_greatest (end_ c) (map end_ cs)) as Hmax.
  assert (Hpos : forall x, In x (c :: cs) -> 0 < start x /\ 0 < end_ x).
  { intros x Hx. rewrite <- E in Hx. apply filter_In in Hx as [_ Hx].
    unfold hasValidTiming in Hx. apply andb_prop in Hx as [H1 H2].
    apply Z.ltb_lt in H1, H2. auto. }
  split; [exact Hmin|]. split; [exact Hmax|].
  split.
  { destruct Hmin as [Hin _]. change (In (Math_min (start c) (map start cs))
      (map start (c :: cs))) in Hin.
    apply in_map_iff in Hin as (x & <- & Hx). apply (Hpos x Hx). }
  split.
  { destruct Hmax as [Hin _]. change (In (Math_max (end_ c) (map end_ cs))
      (map end_ (c :: cs))) in Hin.
    apply in_map_iff in Hin as (x & <- & Hx). apply (Hpos x Hx). }
  set (m := Math_min (start c) (map start cs)).
  set (M := Math_max (end_ c) (map end_ cs)).
  destruct (Z.eqb_spec (start parent) 0) as [Es|Es];
    destruct (Z.eqb_spec (end_ parent) 0) as [Ee|Ee]; simpl;
    repeat match goal with
           | |- context [?a <? ?b] => destruct (Z.ltb_spec a b)
           end; simpl; rewrite ?Es, ?Ee; simpl;
    repeat split; try reflexivity; try lia.
Qed.

Lemma wider_refl t : wider t t.
Proof. split; intros H; split; auto; lia. Qed.

Lemma wider_trans a b c : wider a b -> wider b c -> wider a c.
Proof.
  intros [H1 H2] [H3 H4]. split; intros H.
  - destruct (H1 H) as [Hb Hle]. destruct (H3 Hb) as [Hc Hle']. split; auto; lia.
  - destruct (H2 H) as [Hb Hle]. destruct (H4 Hb) as [Hc Hle']. split; auto; lia.
Qed.

Lemma wider_widen parent children : wider parent (widen parent children).
Proof.
  pose proof (widen_spec parent children) as H.
  destruct (List.filter hasValidTiming children) as [|c cs].
  - rewrite H. apply wider_refl.
  - destruct H as (m & M & _ & _ & Hm & HM & Hs & He & _).
    unfold wider. rewrite Hs, He.
    split; intros Hne; apply Z.eqb_neq in Hne as Hb; rewrite Hb; lia.
Qed.

End WidenFacts.

Section AlikeFacts.
Import Editor Propagation Widening.

Lemma Forall2_same {A : Type} (R : A -> A -> Prop) (xs : list A) :
  (forall x, R x x) -> Forall2 R xs xs.
Proof. intros H. induction xs; constructor; auto. Qed.

Lemma Forall2_map_self {A : Type} (R : A -> A -> Prop) (g : A -> A)
    (xs : list A) :
  (forall x, R x (g x)) -> Forall2 R xs (map g xs).
Proof. intros H. induction xs; simpl; constructor; auto. Qed.

Lemma Forall2_alter_self {A : Type} (R : A -> A -> Prop) (g : A -> A) i
    (xs : list A) :
  (forall x, R x x) -> (forall x, R x (g x)) -> Forall2 R xs (alter g i xs).
Proof.
  intros Hr Hg. revert i. induction xs as [|x xs IH]; intros [|i];
    try constructor.
  - apply Hg.
  - apply Forall2_same. exact Hr.
  - apply Hr.
  - apply IH.
Qed.

Lemma Forall2_writeFlat_self {P : Type} (R : P -> P -> Prop) size inner i
    (ps : list P) :
  (forall p, R p p) -> (forall j p, R p (inner j p)) ->
  Forall2 R ps (writeFlat size inner i ps).
Proof.
  intros Hr Hi. revert i. induction ps as [|p ps IH]; intros i; simpl;
    [constructor|].
  destruct (i <? size p)%nat; constructor.
  - apply Hi.
  - apply Forall2_same. exact Hr.
  - apply Hr.
  - apply IH.
Qed.

Lemma Forall2_chain {A : Type} (R : A -> A -> Prop) (xs ys zs : list A) :
  (forall x y z, R x y -> R y z -> R x z) ->
  Forall2 R xs ys -> Forall2 R ys zs -> Forall2 R xs zs.
Proof.
  intros Ht H. revert zs. induction H as [|x y xs ys Hxy _ IH]; intros zs Hz;
    inversion Hz; subst; constructor; eauto.
Qed.

Lemma Forall2_weaken {A : Type} (R R' : A -> A -> Prop) (xs ys : list A) :
  (forall x y, R x y -> R' x y) -> Forall2 R xs ys -> Forall2 R' xs ys.
Proof. intros Hi H. induction H; constructor; auto. Qed.

Context (Pb Pl Pw : Token -> Token -> Prop).
Hypothesis Pb_refl : forall t, Pb t t.
Hypothesis Pl_refl : forall t, Pl t t.
Hypothesis Pw_refl : forall t, Pw t t.
Hypothesis Pb_trans : forall a b c, Pb a b -> Pb b c -> Pb a c.
Hypothesis Pl_trans : forall a b c, Pl a b -> Pl b c -> Pl a c.
Hypothesis Pw_trans : forall a b c, Pw a b -> Pw b c -> Pw a c.

Lemma wordsAlike_refl l : wordsAlike Pw l l.
Proof.
  unfold wordsAlike. destruct (words l); constructor.
  apply Forall2_same. intros w. apply Pw_refl.
Qed.

Lemma wordsAlike_trans a b c :
  wordsAlike Pw a b -> wordsAlike Pw b c -> wordsAlike Pw a c.
Proof.
  unfold wordsAlike. intros H1 H2.
  destruct H1 as [x y Hxy|]; inversion H2; subst; constructor.
  eapply Forall2_chain; [|exact Hxy|eassumption].
  intros u v w. apply Pw_trans.
Qed.

Lemma lineAlike_refl l : lineAlike Pl Pw l l.
Proof. split; [apply Pl_refl|apply wordsAlike_refl]. Qed.

Lemma lineAlike_trans a b c :
  lineAlike Pl Pw a b -> lineAlike Pl Pw b c -> lineAlike Pl Pw a c.
Proof.
  intros [H1 H2] [H3 H4]. split; [eapply Pl_trans|eapply wordsAlike_trans];
    eassumption.
Qed.

Lemma blockAlike_refl b : blockAlike Pb Pl Pw b b.
Proof.
  split; [apply Pb_refl|]. apply Forall2_same. exact lineAlike_refl.
Qed.

Lemma blockAlike_trans a b c :
  blockAlike Pb Pl Pw a b -> blockAlike Pb Pl Pw b c -> blockAlike Pb Pl Pw a c.
Proof.
  intros [H1 H2] [H3 H4]. split; [eapply Pb_trans; eassumption|].
  eapply Forall2_chain; [exact lineAlike_trans|eassumption|eassumption].
Qed.

End AlikeFacts.

Section StepFacts.
Import Editor Propagation Widening.

Lemma anyToken_refl t : anyToken t t.
Proof. exact I. Qed.

Lemma anyToken_trans a b c : anyToken a b -> anyToken b c -> anyToken a c.
Proof. intros _ _. exact I. Qed.

Lemma blockAlike_weaken (Pb Pl Pw Pb' Pl' Pw' : Token -> Token -> Prop) b b' :
  (forall x y, Pb x y -> Pb' x y) -> (forall x y, Pl x y -> Pl' x y) ->
  (forall x y, Pw x y -> Pw' x y) ->
  blockAlike Pb Pl Pw b b' -> blockAlike Pb' Pl' Pw' b b'.
Proof.
  intros Hb Hl Hw [H1 H2]. split; [auto|].
  eapply Forall2_weaken; [|exact H2]. intros l l' [H3 H4]. split; [auto|].
  unfold wordsAlike in *. destruct H4 as [ws ws' H4|]; constructor.
  eapply Forall2_weaken; [|exact H4]. intros w w'. apply Hw.
Qed.

Lemma to_any (P : Token -> Token -> Prop) x y : P x y -> anyToken x y.
Proof. intros _. exact I. Qed.

Lemma wordsAlike_same (Pw : Token -> Token -> Prop) l l' :
  (forall t, Pw t t) -> words l' = words l -> wordsAlike Pw l l'.
Proof.
  intros Hr E. unfold wordsAlike. rewrite E.
  destruct (words l); constructor. apply Forall2_same. intros w. apply Hr.
Qed.

Lemma keeps_refl mode b : keeps mode b b.
Proof.
  destruct mode; apply blockAlike_refl;
    auto using wider_refl, anyToken_refl.
Qed.

Lemma keeps_trans mode a b c : keeps mode a b -> keeps mode b c -> keeps mode a c.
Proof.
  destruct mode; apply blockAlike_trans;
    eauto using wider_trans, anyToken_trans.
Qed.

Lemma keeps_writeLine f i bs : Forall2 (keeps Lines) bs (writeLine f i bs).
Proof.
  apply Forall2_writeFlat_self; [exact (keeps_refl Lines)|].
  intros j block. split; [apply wider_refl|]. simpl.
  apply Forall2_alter_self.
  - apply lineAlike_refl; exact anyToken_refl.
  - intros l. split; [exact I|].
    apply wordsAlike_same; [exact anyToken_refl|reflexivity].
Qed.

Lemma keeps_writeWord f i bs : Forall2 (keeps Words) bs (writeWord f i bs).
Proof.
  apply Forall2_writeFlat_self; [exact (keeps_refl Words)|].
  intros j block. split; [apply wider_refl|]. simpl.
  apply Forall2_writeFlat_self.
  - apply lineAlike_refl; [exact wider_refl|exact anyToken_refl].
  - intros k l. split; [apply wider_refl|]. unfold wordsAlike. simpl.
    destruct (words l) as [ws|]; constructor.
    apply Forall2_alter_self; intros w; exact I.
Qed.

Lemma keeps_writeChar f i bs : Forall2 (keeps Chars) bs (writeChar f i bs).
Proof.
  apply Forall2_writeFlat_self; [exact (keeps_refl Chars)|].
  intros j block. split; [apply wider_refl|]. simpl.
  apply Forall2_writeFlat_self.
  - apply lineAlike_refl; exact wider_refl.
  - intros k l. split; [apply wider_refl|]. unfold wordsAlike. simpl.
    destruct (words l) as [ws|]; constructor.
    apply Forall2_writeFlat_self; intros; apply wider_refl.
Qed.

Lemma keeps_blockFromLines bs : Forall2 (keeps Chars) bs (map blockFromLines bs).
Proof.
  apply Forall2_map_self. intros b. unfold blockFromLines.
  destruct (lines b) as [|l ls] eqn:E; [apply (keeps_refl Chars)|].
  split; [apply wider_widen|]. simpl. rewrite E.
  apply Forall2_same. apply lineAlike_refl; exact wider_refl.
Qed.

Lemma lineAlike_lineFromWords l : lineAlike wider wider l (lineFromWords l).
Proof.
  unfold lineFromWords.
  destruct (words l) as [[|w ws]|] eqn:E;
    try (apply lineAlike_refl; exact wider_refl).
  split; [apply wider_widen|]. unfold wordsAlike. simpl. rewrite E.
  constructor. apply Forall2_same. intros x. apply wider_refl.
Qed.

Lemma keeps_linesFromWords bs : Forall2 (keeps Chars) bs (map linesFromWords bs).
Proof.
  apply Forall2_map_self. intros b. split; [apply wider_refl|]. simpl.
  apply Forall2_map_self. exact lineAlike_lineFromWords.
Qed.

Lemma wider_wordFromChars w : wider (word_tok w) (word_tok (wordFromChars w)).
Proof.
  unfold wordFromChars. destruct (chars w) as [[|c cs]|]; simpl;
    try apply wider_refl. apply wider_widen.
Qed.

Lemma lineAlike_wordsFromChars l : lineAlike wider wider l (wordsFromChars l).
Proof.
  unfold wordsFromChars.
  destruct (words l) as [[|w ws]|] eqn:E;
    try (apply lineAlike_refl; exact wider_refl).
  split; [apply wider_refl|]. unfold wordsAlike. simpl. rewrite E.
  constructor. constructor; [apply wider_wordFromChars|].
  apply Forall2_map_self. exact wider_wordFromChars.
Qed.

Lemma keeps_blockWordsFromChars bs :
  Forall2 (keeps Chars) bs (map blockWordsFromChars bs).
Proof.
  apply Forall2_map_self. intros b. split; [apply wider_refl|]. simpl.
  apply Forall2_map_self. exact lineAlike_wordsFromChars.
Qed.

Lemma keeps_coarser mode b b' : keeps Chars b b' -> keeps mode b b'.
Proof.
  destruct mode; simpl; apply blockAlike_weaken;
    try (intros x y; apply to_any); auto.
Qed.

Lemma Forall2_keeps_chain mode bs1 bs2 bs3 :
  Forall2 (keeps mode) bs1 bs2 -> Forall2 (keeps mode) bs2 bs3 ->
  Forall2 (keeps mode) bs1 bs3.
Proof. apply Forall2_chain. exact (keeps_trans mode). Qed.

Lemma Forall2_keeps_coarser mode bs bs' :
  Forall2 (keeps Chars) bs bs' -> Forall2 (keeps mode) bs bs'.
Proof. apply Forall2_weaken. exact (keeps_coarser mode). Qed.

(** A record operation in [mode], with its propagation, only widens the
    levels above [mode]. *)
Lemma keeps_recordInto mode i type currentTime currentVoice d :
  Forall2 (keeps mode) (blocks d)
          (blocks (recordInto mode i type currentTime currentVoice d)).
Proof.
  unfold recordInto. destruct mode.
  - destruct (i <? length (blocks d))%nat;
      [|apply Forall2_same; exact (keeps_refl Blocks)].
    simpl. apply Forall2_alter_self; [exact (keeps_refl Blocks)|].
    intros b. split; [exact I|]. simpl. apply Forall2_same.
    apply lineAlike_refl; exact anyToken_refl.
  - destruct (i <? length (allLines (blocks d)))%nat;
      [|apply Forall2_same; exact (keeps_refl Lines)].
    apply (Forall2_keeps_chain Lines _ _ _ (keeps_writeLine (stamp type currentTime currentVoice) i (blocks d))).
    apply (Forall2_keeps_coarser Lines), keeps_blockFromLines.
  - destruct (i <? length (allWords (blocks d)))%nat;
      [|apply Forall2_same; exact (keeps_refl Words)].
    apply (Forall2_keeps_chain Words _ _ _ (keeps_writeWord (stamp type currentTime currentVoice) i (blocks d))).
    apply (Forall2_keeps_coarser Words).
    apply (Forall2_keeps_chain Chars _ _ _ (keeps_linesFromWords _)).
    apply keeps_blockFromLines.
  - destruct (i <? length (allChars (blocks d)))%nat;
      [|apply Forall2_same; exact (keeps_refl Chars)].
    apply (Forall2_keeps_chain Chars _ _ _ (keeps_writeChar (stamp type currentTime currentVoice) i (blocks d))).
    apply (Forall2_keeps_chain Chars _ _ _ (keeps_blockWordsFromChars _)).
    apply (Forall2_keeps_chain Chars _ _ _ (keeps_linesFromWords _)).
    apply keeps_blockFromLines.
Qed.

End StepFacts.

Section RunFacts.
Import Editor Propagation Widening.

Lemma levelAlike_refl level b : levelAlike level b b.
Proof.
  destruct level; apply blockAlike_refl;
    auto using wider_refl, anyToken_refl.
Qed.

Lemma levelAlike_trans level a b c :
  levelAlike level a b -> levelAlike level b c -> levelAlike level a c.
Proof.
  destruct level; apply blockAlike_trans;
    eauto using wider_trans, anyToken_trans.
Qed.

Lemma keeps_level level mode b b' :
  above level mode = true -> keeps mode b b' -> levelAlike level b b'.
Proof.
  destruct level, mode; try discriminate; intros _; simpl;
    apply blockAlike_weaken; try (intros x y; apply to_any); auto.
Qed.

(** One operation on a loaded document. *)
Lemma perform_keeps s op d :
  karaokeData s = Some d ->
  exists d',
    karaokeData (perform s op) = Some d' /\
    Forall2 (keeps (op_mode op)) (blocks d) (blocks d').
Proof.
  intros Ed. unfold perform, recordTimestamp.
  change (karaokeData (moveTo s op)) with (karaokeData s). rewrite Ed.
  assert (Hsame : exists d',
             karaokeData (moveTo s op) = Some d' /\
             Forall2 (keeps (op_mode op)) (blocks d) (blocks d')).
  { exists d. split; [exact Ed|]. apply Forall2_same. apply keeps_refl. }
  destruct (negb (audioRef (moveTo s op))); [exact Hsame|].
  destruct (isSpaceToken _); [exact Hsame|].
  destruct (_ !! _); [|exact Hsame].
  eexists. split; [reflexivity|]. apply keeps_recordInto.
Qed.

(** A sequence of operations below [level]. *)
Lemma run_level level ops : forall s d,
  karaokeData s = Some d ->
  forallb (fun op => above level (op_mode op)) ops = true ->
  exists d',
    karaokeData (run ops s) = Some d' /\
    Forall2 (levelAlike level) (blocks d) (blocks d').
Proof.
  induction ops as [|op ops IH]; intros s d Ed Hops.
  - exists d. split; [exact Ed|]. apply Forall2_same. apply levelAlike_refl.
  - simpl in Hops. apply andb_prop in Hops as [Hop Hops].
    destruct (perform_keeps s op d Ed) as (d1 & E1 & H1).
    destruct (IH (perform s op) d1 E1 Hops) as (d' & E' & H').
    exists d'. split; [exact E'|].
    eapply Forall2_chain; [exact (levelAlike_trans level)| |exact H'].
    eapply Forall2_weaken; [|exact H1]. intros b b'.
    apply keeps_level. exact Hop.
Qed.

Lemma levelAlike_widerAt level d d' :
  Forall2 (levelAlike level) (blocks d) (blocks d') -> widerAt level d d'.
Proof.
  destruct level; simpl; [| | |trivial];
    unfold blocksRelated, linesRelated, wordsRelated;
    apply Forall2_weaken; intros b b' [Hb Hl]; [exact Hb| |];
    (eapply Forall2_weaken; [|exact Hl]); intros l l' [H1 H2];
    [exact H1|exact H2].
Qed.

Lemma blockFromLines_widen block :
  blockFromLines block
  = mkBlock (widen (block_tok block) (map line_tok (lines block)))
            (lines block).
Proof.
  unfold blockFromLines. destruct (lines block) eqn:E; [|reflexivity].
  simpl. rewrite <- E. symmetry. apply block_eta.
Qed.

Lemma lineFromWords_widen line :
  lineFromWords line
  = mkLine (widen (line_tok line) (map word_tok (wordsOrEmpty line)))
           (words line).
Proof.
  unfold lineFromWords, wordsOrEmpty.
  destruct (words line) as [[|w ws]|] eqn:E; simpl; try reflexivity;
    rewrite <- E; symmetry; apply line_eta.
Qed.

Lemma wordFromChars_widen word :
  wordFromChars word
  = mkWord (widen (word_tok word) (charsOrEmpty word)) (chars word).
Proof.
  unfold wordFromChars, charsOrEmpty.
  destruct (chars word) as [[|c cs]|] eqn:E; simpl; try reflexivity;
    rewrite <- E; symmetry; apply word_eta.
Qed.

Lemma wordsFromChars_map line :
  wordsFromChars line
  = mkLine (line_tok line) (option_map (map wordFromChars) (words line)).
Proof.
  unfold wordsFromChars.
  destruct (words line) as [[|w ws]|] eqn:E; simpl; try reflexivity;
    rewrite <- E; symmetry; apply line_eta.
Qed.

End RunFacts.

Section RecomputeFacts.
Import Editor Propagation Widening.

Lemma widen_recomputed parent children :
  recomputed parent children (widen parent children).
Proof.
  unfold recomputed. pose proof (widen_spec parent children) as H.
  destruct (List.filter hasValidTiming children) as [|c cs]; [exact H|].
  destruct H as (m & M & H1 & H2 & _ & _ & H3 & H4 & H5 & H6 & H7).
  exists m, M. auto 10.
Qed.

Lemma blockFromLines_recomputed b w :
  block_tok w = block_tok b -> blockRecomputed b (blockFromLines w).
Proof.
  intros E. unfold blockRecomputed. rewrite blockFromLines_widen. simpl.
  rewrite E. apply widen_recomputed.
Qed.

Lemma lineFromWords_recomputed l w :
  line_tok w = line_tok l -> lineRecomputed l (lineFromWords w).
Proof.
  intros E. unfold lineRecomputed. rewrite lineFromWords_widen.
  unfold wordsOrEmpty at 1. simpl. fold (wordsOrEmpty w).
  rewrite E. apply widen_recomputed.
Qed.

Lemma wordFromChars_recomputed x w :
  word_tok w = word_tok x -> wordRecomputed x (wordFromChars w).
Proof.
  intros E. unfold wordRecomputed. rewrite wordFromChars_widen.
  unfold charsOrEmpty at 1. simpl. fold (charsOrEmpty w).
  rewrite E. apply widen_recomputed.
Qed.

Lemma Forall2_map_right {A B : Type} (R S : A -> B -> Prop) (g : B -> B)
    (xs : list A) (ys : list B) :
  (forall x y, R x y -> S x (g y)) ->
  Forall2 R xs ys -> Forall2 S xs (map g ys).
Proof. intros Hg H. induction H; simpl; constructor; auto. Qed.

(** Writing a stamp into a token leaves the tokens of the levels above it
    as they are. *)
Lemma writeLine_above f i bs :
  Forall2 (fun b w => block_tok w = block_tok b) bs (writeLine f i bs).
Proof. apply Forall2_writeFlat_self; reflexivity. Qed.

Lemma writeWord_above f i bs :
  Forall2 (fun b w =>
             block_tok w = block_tok b /\
             Forall2 (fun l lw => line_tok lw = line_tok l)
                     (lines b) (lines w))
          bs (writeWord f i bs).
Proof.
  apply Forall2_writeFlat_self.
  - intros b. split; [reflexivity|]. apply Forall2_same. reflexivity.
  - intros j b. split; [reflexivity|]. simpl.
    apply Forall2_writeFlat_self; reflexivity.
Qed.

Lemma writeChar_above f i bs :
  Forall2 (fun b w =>
             block_tok w = block_tok b /\
             Forall2 (fun l lw =>
                        line_tok lw = line_tok l /\
                        option_Forall2
                          (Forall2 (fun x xw => word_tok xw = word_tok x))
                          (words l) (words lw))
                     (lines b) (lines w))
          bs (writeChar f i bs).
Proof.
  assert (Hl : forall l : Line,
             line_tok l = line_tok l /\
             option_Forall2 (Forall2 (fun x xw => word_tok xw = word_tok x))
                            (words l) (words l)).
  { intros l. split; [reflexivity|].
    destruct (words l); constructor. apply Forall2_same. reflexivity. }
  apply Forall2_writeFlat_self.
  - intros b. split; [reflexivity|]. apply Forall2_same. exact Hl.
  - intros j b. split; [reflexivity|]. simpl.
    apply Forall2_writeFlat_self; [exact Hl|].
    intros k l. split; [reflexivity|]. simpl.
    destruct (words l) as [ws|]; constructor.
    apply Forall2_writeFlat_self; reflexivity.
Qed.

(** The passes recompute the levels above the one they start from. *)
Lemma fromLines_above bs ws :
  Forall2 (fun b w => block_tok w = block_tok b) bs ws ->
  Forall2 (recomputedAbove Lines) bs (map blockFromLines ws).
Proof.
  apply Forall2_map_right. intros b w E.
  apply blockFromLines_recomputed. exact E.
Qed.

Lemma fromWords_above bs ws :
  Forall2 (fun b w =>
             block_tok w = block_tok b /\
             Forall2 (fun l lw => line_tok lw = line_tok l)
                     (lines b) (lines w)) bs ws ->
  Forall2 (recomputedAbove Words) bs
          (map blockFromLines (map linesFromWords ws)).
Proof.
  rewrite map_map. apply Forall2_map_right. intros b w [E H]. split.
  - apply blockFromLines_recomputed. exact E.
  - rewrite blockFromLines_widen. simpl.
    revert H. apply Forall2_map_right. intros l lw El.
    apply lineFromWords_recomputed. exact El.
Qed.

Lemma fromChars_above bs ws :
  Forall2 (fun b w =>
             block_tok w = block_tok b /\
             Forall2 (fun l lw =>
                        line_tok lw = line_tok l /\
                        option_Forall2
                          (Forall2 (fun x xw => word_tok xw = word_tok x))
                          (words l) (words lw))
                     (lines b) (lines w)) bs ws ->
  Forall2 (recomputedAbove Chars) bs
          (map blockFromLines
               (map linesFromWords (map blockWordsFromChars ws))).
Proof.
  rewrite !map_map. apply Forall2_map_right. intros b w [E H]. split.
  - apply blockFromLines_recomputed. exact E.
  - rewrite blockFromLines_widen. simpl. rewrite map_map.
    revert H. apply Forall2_map_right. intros l lw [El Hw]. split.
    + apply lineFromWords_recomputed. rewrite wordsFromChars_map. exact El.
    + rewrite lineFromWords_widen, wordsFromChars_map. simpl.
      destruct Hw as [ws0 ws1 Hw|]; constructor.
      revert Hw. apply Forall2_map_right. intros x xw Ex.
      apply wordFromChars_recomputed. exact Ex.
Qed.

(** The passes leave the level they start from, and what lies below it,
    as it is. *)
Lemma fromLines_below bs :
  Forall2 (keptBelow Lines) bs (map blockFromLines bs).
Proof.
  apply Forall2_map_self. intros b. simpl.
  rewrite blockFromLines_widen. reflexivity.
Qed.

Lemma fromWords_below bs :
  Forall2 (keptBelow Words) bs (map blockFromLines (map linesFromWords bs)).
Proof.
  rewrite map_map. apply Forall2_map_self. intros b. simpl.
  rewrite blockFromLines_widen. simpl.
  apply Forall2_map_self. intros l. rewrite lineFromWords_widen. reflexivity.
Qed.

Lemma fromChars_below bs :
  Forall2 (keptBelow Chars) bs
          (map blockFromLines
               (map linesFromWords (map blockWordsFromChars bs))).
Proof.
  rewrite !map_map. apply Forall2_map_self. intros b. simpl.
  rewrite blockFromLines_widen. simpl. rewrite map_map.
  apply Forall2_map_self. intros l.
  rewrite lineFromWords_widen, wordsFromChars_map. simpl.
  destruct (words l) as [ws|]; constructor.
  apply Forall2_map_self. intros w. rewrite wordFromChars_widen. reflexivity.
Qed.

(** A record operation that writes recomputes every level above its
    mode. *)
Lemma recordInto_recomputes mode i type currentTime currentVoice d :
  (i < flatLength mode (blocks d))%nat ->
  Forall2 (recomputedAbove mode) (blocks d)
          (blocks (recordInto mode i type currentTime currentVoice d)).
Proof.
  intros H. apply Nat.ltb_lt in H. unfold recordInto.
  destruct mode; simpl in H; rewrite H.
  - simpl. apply Forall2_alter_self; intros; exact I.
  - apply fromLines_above, writeLine_above.
  - apply fromWords_above, writeWord_above.
  - apply fromChars_above, writeChar_above.
Qed.

Lemma recordInto_past mode i type currentTime currentVoice d :
  (flatLength mode (blocks d) <= i)%nat ->
  recordInto mode i type currentTime currentVoice d = d.
Proof.
  intros H. apply Nat.ltb_ge in H. unfold recordInto.
  destruct mode; simpl in H; rewrite H; reflexivity.
Qed.

End RecomputeFacts.

(** C1.  Bubble-up propagation recomputes the levels above the one that is
    recorded.  Each of the three passes leaves the level it starts from as
    it is and recomputes every level above it, the words from their
    characters, then the lines from their words, then the blocks from their
    lines: a parent without a timed child (a child with [start > 0] and
    [end > 0]) stays as it is; otherwise, with [m] the least start and [M]
    the greatest end of its timed children, a start that is unset ([0])
    becomes [m] and a start that is set becomes [min(start, m)], an end that
    is unset becomes [M] and an end that is set becomes [max(end, M)], and
    nothing else of the parent changes.  [recordTimestamp], with the audio
    mounted and the cursor on a token that is not a space, returns; when the
    cursor is inside the flattened array of the mode, every level above the
    mode is recomputed in this way from the document as it was before, and
    when the cursor is past that array the document is unchanged.  Hence,
    along every sequence of record operations, on every level above the
    modes recorded in, a bound that is set stays set, no start increases and
    no end decreases. *)
Theorem propagation_widens :
  (forall d,
     let d' := Propagation.updateBlockTimingFromLines d in
     Forall2 (Widening.recomputedAbove Editor.Lines) (blocks d) (blocks d') /\
     Forall2 (Widening.keptBelow Editor.Lines) (blocks d) (blocks d')) /\
  (forall d,
     let d' := Propagation.updateParentTimingFromWords d in
     Forall2 (Widening.recomputedAbove Editor.Words) (blocks d) (blocks d') /\
     Forall2 (Widening.keptBelow Editor.Words) (blocks d) (blocks d')) /\
  (forall d,
     let d' := Propagation.updateParentTimingFromChars d in
     Forall2 (Widening.recomputedAbove Editor.Chars) (blocks d) (blocks d') /\
     Forall2 (Widening.keptBelow Editor.Chars) (blocks d) (blocks d')) /\
  (forall s d timestamp type token,
     Editor.karaokeData s = Some d ->
     Editor.audioRef s = true ->
     Editor.getTokensByMode s !! Editor.activeTokenIndex s = Some token ->
     Editor.isSpaceToken (Some token) = false ->
     exists d',
       Editor.recordTimestamp s timestamp type
         = Normal (Editor.set_karaokeData s d') /\
       ((Editor.activeTokenIndex s
         < Widening.flatLength (Editor.recordingMode s) (blocks d))%nat ->
        Forall2 (Widening.recomputedAbove (Editor.recordingMode s))
                (blocks d) (blocks d')) /\
       ((Widening.flatLength (Editor.recordingMode s) (blocks d)
         <= Editor.activeTokenIndex s)%nat ->
        d' = d)) /\
  (forall level ops s d,
     Editor.karaokeData s = Some d ->
     forallb (fun op => Widening.above level (Widening.op_mode op)) ops = true ->
     exists d',
       Editor.karaokeData (Widening.run ops s) = Some d' /\
       Widening.widerAt level d d').
Proof.
  split.
  { intros d. split; [|apply fromLines_below].
    apply fromLines_above, Forall2_same. reflexivity. }
  split.
  { intros d. split; [|apply fromWords_below].
    apply fromWords_above, Forall2_same. intros b.
    split; [reflexivity|]. apply Forall2_same. reflexivity. }
  split.
  { intros d. split; [|apply fromChars_below].
    apply fromChars_above, Forall2_same. intros b.
    split; [reflexivity|]. apply Forall2_same. intros l.
    split; [reflexivity|]. destruct (words l); constructor.
    apply Forall2_same. reflexivity. }
  split.
  { intros s d timestamp type token Ed Ha Htok Hsp. eexists. split.
    - unfold Editor.recordTimestamp. rewrite Ed, Ha. simpl.
      rewrite Htok, Hsp. reflexivity.
    - split; [apply recordInto_recomputes|apply recordInto_past]. }
  intros level ops s d Ed Hops.
  destruct (run_level level ops s d Ed Hops) as (d' & E' & H').
  exists d'. split; [exact E'|]. apply levelAlike_widerAt. exact H'.
Qed.

(** The theorem on a session in which the two words of a line recorded at
    1000-2000 are recorded at 1200-1500 and 1600-2500: the first stamp
    recomputes the line and its block from the words, and the line and its
    block end up at 1000-2500. *)
Lemma propagation_widens_witness :
  (exists d1,
     Editor.recordTimestamp Unlock.inWords (6 # 5) Editor.StampStart
       = Normal (Editor.set_karaokeData Unlock.inWords d1) /\
     forall d, Editor.karaokeData Unlock.inWords = Some d ->
               Forall2 (Widening.recomputedAbove Editor.Words)
                       (blocks d) (blocks d1)) /\
  exists d',
    Editor.karaokeData (Widening.run Widening.sampleOps Unlock.inWords)
      = Some d' /\
    (forall d, Editor.karaokeData Unlock.inWords = Some d ->
               Widening.widerAt Editor.Lines d d' /\
               Widening.widerAt Editor.Blocks d d') /\
    (forall block line, blocks d' !! 0%nat = Some block ->
                        lines block !! 0%nat = Some line ->
                        stamps (line_tok line) = (1000, 2500)).
Proof.
  destruct propagation_widens as (_ & _ & _ & Hrec & H). split.
  - destruct (Hrec Unlock.inWords _ (6 # 5)%Q Editor.StampStart _
                eq_refl eq_refl eq_refl eq_refl) as (d1 & E1 & H1 & _).
    exists d1. split; [exact E1|]. intros d Ed. injection Ed as <-.
    apply H1. vm_compute. lia.
  - destruct (H Editor.Lines Widening.sampleOps Unlock.inWords _
                eq_refl eq_refl) as (d' & E & Hl).
    destruct (H Editor.Blocks Widening.sampleOps Unlock.inWords _
                eq_refl eq_refl) as (d'' & E2 & Hb).
    rewrite E in E2. injection E2 as <-.
    exists d'. split; [exact E|]. split.
    + intros d Ed. injection Ed as <-. split; assumption.
    + vm_compute in E. injection E as <-.
      intros block line Hb' Hl'. injection Hb' as <-. injection Hl' as <-.
      reflexivity.
Defined.

(** ** Linear fall-back timing *)

Section ChainFacts.
Import Linear.

Lemma consecutive_nil : consecutive [].
Proof. intros i a b H. discriminate. Qed.

Lemma consecutive_one t : consecutive [t].
Proof. intros i a b _ H. destruct i; discriminate. Qed.

Lemma chain_nil a : chain a a [].
Proof. split; [reflexivity|apply consecutive_nil]. Qed.

Lemma chain_one t : chain (start t) (end_ t) [t].
Proof. split; [split; reflexivity|apply consecutive_one]. Qed.

Lemma chain_empty a b : chain a b [] -> a = b.
Proof. intros [H _]. exact H. Qed.

Lemma chain_head a b t ts : chain a b (t :: ts) -> start t = a.
Proof.
  intros [H _]. simpl in H.
  destruct (last (t :: ts)) eqn:E; [exact (proj1 H)|].
  apply last_None in E. discriminate.
Qed.

Lemma chain_last a b ts t : chain a b ts -> last ts = Some t -> end_ t = b.
Proof.
  intros [H _] El. rewrite El in H.
  destruct (head ts) eqn:E; [exact (proj2 H)|].
  destruct ts; [discriminate El|discriminate E].
Qed.

Lemma chain_app a b c xs ys :
  chain a b xs -> chain b c ys -> chain a c (xs ++ ys).
Proof.
  intros Hx Hy.
  destruct xs as [|x xs]; [apply chain_empty in Hx; subst; exact Hy|].
  destruct ys as [|y ys].
  { apply chain_empty in Hy. subst. rewrite app_nil_r. exact Hx. }
  split.
  - change (head ((x :: xs) ++ y :: ys)) with (Some x).
    rewrite last_app.
    destruct (last (y :: ys)) as [l|] eqn:El.
    + split; [exact (chain_head _ _ _ _ Hx)|exact (chain_last _ _ _ _ Hy El)].
    + apply last_None in El. discriminate.
  - intros i t t' Ht Ht'.
    destruct (Nat.lt_ge_cases (S i) (length (x :: xs))) as [H|H].
    + rewrite lookup_app_l in Ht, Ht' by lia.
      exact (proj2 Hx i t t' Ht Ht').
    + destruct (Nat.lt_ge_cases i (length (x :: xs))) as [H'|H'].
      * rewrite lookup_app_l in Ht by lia.
        rewrite lookup_app_r in Ht' by lia.
        replace (S i - length (x :: xs))%nat with 0%nat in Ht' by lia.
        simpl in Ht'. injection Ht' as <-.
        assert (El : last (x :: xs) = Some t).
        { rewrite last_lookup. rewrite <- Ht. f_equal. simpl in *. lia. }
        rewrite (chain_last _ _ _ _ Hx El).
        symmetry. exact (chain_head _ _ _ _ Hy).
      * rewrite lookup_app_r in Ht, Ht' by lia.
        replace (S i - length (x :: xs))%nat
          with (S (i - length (x :: xs)))%nat in Ht' by lia.
        exact (proj2 Hy _ t t' Ht Ht').
Qed.

Lemma chain_spansOver parent a b ts :
  start parent = a -> end_ parent = b -> chain a b ts ->
  spansOver parent ts /\ consecutive ts.
Proof.
  intros Hs He [H Hc]. split; [|exact Hc]. unfold spansOver.
  destruct (head ts); [destruct (last ts)|]; try (destruct H; split); congruence.
Qed.

Lemma concat_map_singleton {A B : Type} (g : A -> B) (xs : list A) :
  concat (map (fun x => [g x]) xs) = map g xs.
Proof. induction xs as [|x xs IH]; simpl; [reflexivity|rewrite IH; reflexivity]. Qed.

End ChainFacts.

Section ThreadFacts.
Import Editor Playback Linear.

Context {A : Type} (f : Q -> A -> A * Q) (ok : A -> Prop) (I : Q -> Prop).

Hypothesis f_keeps : forall cur x, ok x -> I cur -> I (f cur x).2.

(** Threading keeps what every step keeps. *)
Lemma threadTime_keeps xs : forall cur,
  Forall ok xs -> I cur -> I (threadTime f cur xs).2.
Proof.
  induction xs as [|x xs IH]; intros cur Hok Hcur; [exact Hcur|].
  inversion Hok as [|? ? Hx Hxs]; subst.
  specialize (IH (f cur x).2 Hxs (f_keeps cur x Hx Hcur)).
  simpl. destruct (f cur x) as [x' t1]. simpl in IH.
  destruct (threadTime f t1 xs) as [xs' t2]. exact IH.
Qed.

Lemma threadTime_Forall (P : A -> Prop) xs : forall cur,
  (forall c x, ok x -> I c -> P (f c x).1) ->
  Forall ok xs -> I cur -> Forall P (threadTime f cur xs).1.
Proof.
  induction xs as [|x xs IH]; intros cur HP Hok Hcur; [constructor|].
  inversion Hok as [|? ? Hx Hxs]; subst.
  specialize (HP cur x Hx Hcur) as Hp.
  specialize (IH (f cur x).2 HP Hxs (f_keeps cur x Hx Hcur)).
  simpl. destruct (f cur x) as [x' t1]. simpl in *.
  destruct (threadTime f t1 xs) as [xs' t2]. simpl in *.
  constructor; assumption.
Qed.

Context (flat : A -> list Token).

Hypothesis f_chain : forall cur x,
  ok x -> I cur ->
  chain (Math_round cur) (Math_round (f cur x).2) (flat (f cur x).1).

(** Elements that each run from the clock before to the clock after run,
    one after the other, from the first clock to the last. *)
Lemma threadTime_chain xs : forall cur,
  Forall ok xs -> I cur ->
  chain (Math_round cur) (Math_round (threadTime f cur xs).2)
        (concat (map flat (threadTime f cur xs).1)).
Proof.
  induction xs as [|x xs IH]; intros cur Hok Hcur; [apply chain_nil|].
  inversion Hok as [|? ? Hx Hxs]; subst.
  pose proof (f_chain cur x Hx Hcur) as Hc.
  specialize (IH (f cur x).2 Hxs (f_keeps cur x Hx Hcur)).
  simpl. destruct (f cur x) as [x' t1]. simpl in *.
  destruct (threadTime f t1 xs) as [xs' t2]. simpl in *.
  eapply chain_app; eassumption.
Qed.

End ThreadFacts.

Lemma length_splitChars s :
  length (Editor.splitChars s) = String.length s.
Proof. induction s as [|c s IH]; simpl; [reflexivity|rewrite IH; reflexivity]. Qed.

Section TiledFacts.
Import Editor Playback Linear.
Local Open Scope Q_scope.

Variable ms : Q.
Hypothesis ms_nonneg : 0 <= ms.

Lemma clock_0 : clock 0.
Proof. split; [apply Qle_refl|apply fl_0]. Qed.

Lemma timeWord_clock cur word : clock cur -> clock (timeWord ms cur word).2.
Proof.
  intros [H0 _]. unfold timeWord. cbn [snd]. unfold Double.add.
  split; [|apply fl_idem].
  apply fl_nonneg.
  assert (0 <= Double.mul (inject_Z (textLength word)) ms).
  { apply fl_nonneg. apply Qmult_le_0_compat; [|exact ms_nonneg].
    unfold textLength. change 0 with (inject_Z 0). rewrite <- Zle_Qle. lia. }
  lra.
Qed.

Lemma perChar_nonneg word :
  0 <= Double.div (Double.mul (inject_Z (textLength word)) ms)
                  (inject_Z (textLength word)).
Proof.
  assert (HL : 0 <= inject_Z (textLength word)).
  { unfold textLength. change 0 with (inject_Z 0). rewrite <- Zle_Qle. lia. }
  apply fl_nonneg. apply Qmult_le_0_compat.
  - apply fl_nonneg. apply Qmult_le_0_compat; [exact HL|exact ms_nonneg].
  - apply Qinv_le_0_compat. exact HL.
Qed.

Lemma timeWord_chars cur word i c :
  charsOrEmpty (timeWord ms cur word).1 !! i = Some c ->
  let perChar :=
    Double.div (Double.mul (inject_Z (textLength word)) ms)
               (inject_Z (textLength word)) in
  (i < wordSize word)%nat /\
  start c = Math_round (Double.add cur
              (Double.mul (inject_Z (Z.of_nat i)) perChar)) /\
  end_ c = Math_round (Double.add cur
              (Double.mul (inject_Z (Z.of_nat i + 1)) perChar)).
Proof.
  unfold timeWord, charsOrEmpty. cbn [fst chars from_option].
  unfold Datatypes.id. rewrite list_lookup_imap.
  destruct (splitChars (text (word_tok word)) !! i) as [ch|] eqn:E;
    [|discriminate].
  intros H. simpl in H. injection H as <-.
  apply lookup_lt_Some in E. rewrite length_splitChars in E.
  split; [exact E|]. split; reflexivity.
Qed.

Lemma length_timeWord cur word :
  length (charsOrEmpty (timeWord ms cur word).1) = wordSize word.
Proof.
  unfold timeWord, charsOrEmpty. cbn [fst chars from_option].
  unfold Datatypes.id. rewrite length_imap. apply length_splitChars.
Qed.

(** The first character of a word starts with the word, the characters
    follow one another, and none ends before it starts. *)
Lemma timeWord_tiled cur word : clock cur -> tiledWord (timeWord ms cur word).1.
Proof.
  intros [H0 Hfl]. pose proof (perChar_nonneg word) as Hcd.
  split; [|split].
  - intros c Hc. rewrite head_lookup in Hc.
    destruct (timeWord_chars cur word 0 c Hc) as (_ & Hs & _).
    rewrite Hs. unfold timeWord. cbn [fst word_tok start].
    apply Math_round_comp. unfold Double.add.
    rewrite <- Hfl at 2. apply fl_comp.
    unfold Double.mul at 1. rewrite fl_zero; [ring|].
    change (inject_Z (Z.of_nat 0)) with 0. ring.
  - intros i a b Ha Hb.
    destruct (timeWord_chars cur word i a Ha) as (_ & _ & He).
    destruct (timeWord_chars cur word (S i) b Hb) as (_ & Hs & _).
    rewrite He, Hs. rewrite Nat2Z.inj_succ. reflexivity.
  - apply Forall_lookup. intros i c Hc.
    destruct (timeWord_chars cur word i c Hc) as (_ & Hs & He).
    rewrite Hs, He. apply Math_round_le. apply add_mono_r.
    apply mul_mono_l; [exact Hcd|].
    rewrite <- Zle_Qle. lia.
Qed.

Lemma timeWord_chain cur word :
  chain (Math_round cur) (Math_round (timeWord ms cur word).2)
        [word_tok (timeWord ms cur word).1].
Proof. apply (chain_one (word_tok (timeWord ms cur word).1)). Qed.

Lemma timeLine_words cur line ws :
  words line = Some ws ->
  timeLine ms cur line
  = (mkLine (set_end (set_start (line_tok line) (Math_round cur))
                     (Math_round (threadTime (timeWord ms) cur ws).2))
            (Some (threadTime (timeWord ms) cur ws).1),
     (threadTime (timeWord ms) cur ws).2).
Proof.
  intros E. unfold timeLine. rewrite E.
  destruct (threadTime (timeWord ms) cur ws). reflexivity.
Qed.

Lemma timeLine_clock cur line : hasWords line -> clock cur -> clock (timeLine ms cur line).2.
Proof.
  intros [ws E] Hc. rewrite (timeLine_words cur line ws E). cbn [snd].
  apply (threadTime_keeps (timeWord ms) (fun _ => True) clock).
  - intros c w _. apply timeWord_clock.
  - apply Forall_forall. auto.
  - exact Hc.
Qed.

(** The words of a line, one after the other from the clock before the
    line to the clock after it. *)
Lemma timeLine_chain cur line :
  hasWords line -> clock cur ->
  chain (Math_round cur) (Math_round (timeLine ms cur line).2)
        (map word_tok (wordsOrEmpty (timeLine ms cur line).1)).
Proof.
  intros [ws E] Hc. rewrite (timeLine_words cur line ws E).
  unfold wordsOrEmpty. cbn [fst snd words from_option]. unfold Datatypes.id.
  rewrite <- (concat_map_singleton word_tok).
  apply (threadTime_chain (timeWord ms) (fun _ => True) clock).
  - intros c w _. apply timeWord_clock.
  - intros c w _ _. apply timeWord_chain.
  - apply Forall_forall. auto.
  - exact Hc.
Qed.

Lemma timeLine_stamp cur line :
  hasWords line ->
  start (line_tok (timeLine ms cur line).1) = Math_round cur /\
  end_ (line_tok (timeLine ms cur line).1)
    = Math_round (timeLine ms cur line).2.
Proof.
  intros [ws E]. rewrite (timeLine_words cur line ws E). split; reflexivity.
Qed.

Lemma timeLine_tiled cur line :
  hasWords line -> clock cur -> tiledLine (timeLine ms cur line).1.
Proof.
  intros Hw Hc. destruct (timeLine_stamp cur line Hw) as [Hs He].
  destruct (chain_spansOver _ _ _ _ Hs He (timeLine_chain cur line Hw Hc))
    as [H1 H2].
  split; [exact H1|]. split; [exact H2|].
  destruct Hw as [ws E]. rewrite (timeLine_words cur line ws E).
  unfold wordsOrEmpty. cbn [fst words from_option]. unfold Datatypes.id.
  apply (threadTime_Forall (timeWord ms) (fun _ => True) clock).
  - intros c w _. apply timeWord_clock.
  - intros c w _. apply timeWord_tiled.
  - apply Forall_forall. auto.
  - exact Hc.
Qed.

Lemma timeBlock_lines cur block :
  timeBlock ms cur block
  = (mkBlock (set_end (set_start (block_tok block) (Math_round cur))
                      (Math_round
                         (threadTime (timeLine ms) cur (lines block)).2))
             (threadTime (timeLine ms) cur (lines block)).1,
     (threadTime (timeLine ms) cur (lines block)).2).
Proof.
  unfold timeBlock. destruct (threadTime (timeLine ms) cur (lines block)).
  reflexivity.
Qed.

Lemma timeBlock_clock cur block :
  Forall hasWords (lines block) -> clock cur ->
  clock (timeBlock ms cur block).2.
Proof.
  intros Hok Hc. rewrite timeBlock_lines. cbn [snd].
  apply (threadTime_keeps (timeLine ms) hasWords clock);
    [exact timeLine_clock|exact Hok|exact Hc].
Qed.

Lemma timeBlock_stamp cur block :
  start (block_tok (timeBlock ms cur block).1) = Math_round cur /\
  end_ (block_tok (timeBlock ms cur block).1)
    = Math_round (timeBlock ms cur block).2.
Proof. rewrite timeBlock_lines. split; reflexivity. Qed.

Lemma timeBlock_tiled cur block :
  Forall hasWords (lines block) -> clock cur ->
  tiledBlock (timeBlock ms cur block).1.
Proof.
  intros Hok Hc. destruct (timeBlock_stamp cur block) as [Hs He].
  assert (Hchain : chain (Math_round cur) (Math_round (timeBlock ms cur block).2)
                         (map line_tok (lines (timeBlock ms cur block).1))).
  { rewrite timeBlock_lines. cbn [fst snd lines].
    rewrite <- (concat_map_singleton line_tok).
    apply (threadTime_chain (timeLine ms) hasWords clock);
      [exact timeLine_clock| |exact Hok|exact Hc].
    intros c l Hl _. destruct (timeLine_stamp c l Hl) as [H1 H2].
    rewrite <- H1, <- H2. apply chain_one. }
  destruct (chain_spansOver _ _ _ _ Hs He Hchain) as [H1 H2].
  split; [exact H1|]. split; [exact H2|].
  rewrite timeBlock_lines. cbn [fst lines].
  apply (threadTime_Forall (timeLine ms) hasWords clock);
    [exact timeLine_clock| |exact Hok|exact Hc].
  intros c l Hl Hcl. apply timeLine_tiled; assumption.
Qed.

(** The words of a block, and the words of a document, one after the
    other. *)
Lemma timeBlock_chain cur block :
  Forall hasWords (lines block) -> clock cur ->
  chain (Math_round cur) (Math_round (timeBlock ms cur block).2)
        (map word_tok
             (concat (map wordsOrEmpty (lines (timeBlock ms cur block).1)))).
Proof.
  intros Hok Hc. rewrite timeBlock_lines. cbn [fst snd lines].
  rewrite concat_map, map_map.
  apply (threadTime_chain (timeLine ms) hasWords clock
           timeLine_clock (fun l => map word_tok (wordsOrEmpty l)));
    [|exact Hok|exact Hc].
  intros c l Hl Hcl. apply timeLine_chain; assumption.
Qed.

Lemma threadTime_blocks_chain bs :
  Forall (fun block => Forall hasWords (lines block)) bs ->
  chain 0 (Math_round (threadTime (timeBlock ms) 0 bs).2)
        (map word_tok (allWords (threadTime (timeBlock ms) 0 bs).1)).
Proof.
  intros Hok. unfold allWords. rewrite concat_map, map_map.
  change 0%Z with (Math_round 0).
  apply (threadTime_chain (timeBlock ms)
           (fun block => Forall hasWords (lines block)) clock
           timeBlock_clock
           (fun b => map word_tok (concat (map wordsOrEmpty (lines b)))));
    [|exact Hok|exact clock_0].
  intros c b Hb Hcb. apply timeBlock_chain; assumption.
Qed.

Lemma threadTime_blocks_tiled bs :
  Forall (fun block => Forall hasWords (lines block)) bs ->
  Forall tiledBlock (threadTime (timeBlock ms) 0 bs).1.
Proof.
  intros Hok.
  apply (threadTime_Forall (timeBlock ms)
           (fun block => Forall hasWords (lines block)) clock
           timeBlock_clock); [|exact Hok|exact clock_0].
  intros c b Hb Hcb. apply timeBlock_tiled; assumption.
Qed.

End TiledFacts.
Section TotalFacts.
Import Editor Playback Linear.

Lemma foldl_textLength ws : forall acc,
  foldl (fun wordSum word => wordSum + textLength word) acc ws
  = acc + Z.of_nat (sum_list (map wordSize ws)).
Proof.
  induction ws as [|w ws IH]; intros acc; simpl; [lia|].
  rewrite IH. unfold textLength, wordSize. lia.
Qed.

Lemma lineChars_ok line :
  hasWords line ->
  lineChars line
  = Normal (Z.of_nat (sum_list (map wordSize (wordsOrEmpty line)))).
Proof.
  intros [ws Hws]. unfold lineChars, wordsOrEmpty. rewrite Hws. simpl.
  rewrite foldl_textLength. reflexivity.
Qed.

Lemma sumOver_ok {A : Type} (f : A -> Completion Z) (g : A -> nat) xs :
  Forall (fun x => f x = Normal (Z.of_nat (g x))) xs ->
  sumOver f xs = Normal (Z.of_nat (sum_list (map g xs))).
Proof.
  unfold sumOver. intros H.
  assert (Hgen : forall a,
            foldl (fun acc x =>
                     match acc, f x with
                     | Normal sum, Normal n => Normal (sum + n)
                     | Throw e, _ => Throw e
                     | _, Throw e => Throw e
                     end) (Normal a) xs
            = Normal (a + Z.of_nat (sum_list (map g xs)))).
  { induction H as [|x xs Hx _ IH]; intros a; simpl.
    - f_equal. lia.
    - rewrite Hx, IH. f_equal. lia. }
  rewrite Hgen. reflexivity.
Qed.

Lemma totalChars_ok json :
  Forall (fun block => Forall hasWords (lines block)) (blocks json) ->
  totalChars json = Normal (Z.of_nat (sum_list (map blockSize (blocks json)))).
Proof.
  intros Hok. unfold totalChars. apply sumOver_ok.
  eapply Forall_impl; [exact Hok|]. intros block Hb. simpl.
  apply sumOver_ok. eapply Forall_impl; [exact Hb|].
  intros line Hl. apply lineChars_ok. exact Hl.
Qed.

Lemma sum_list_concat_map {A B : Type} (g : B -> nat) (h : A -> list B) xs :
  sum_list (map g (concat (map h xs)))
  = sum_list (map (fun x => sum_list (map g (h x))) xs).
Proof.
  induction xs as [|x xs IH]; [reflexivity|].
  simpl. rewrite map_app, sum_list_with_app, IH. reflexivity.
Qed.

Lemma totalLength_blocks json :
  totalLength json = sum_list (map blockSize (blocks json)).
Proof.
  unfold totalLength, allWords. rewrite sum_list_concat_map.
  f_equal. apply map_ext. intros block. apply sum_list_concat_map.
Qed.

Lemma wordsPresent_Forall json :
  Tree.wordsPresent json = true ->
  Forall (fun block => Forall hasWords (lines block)) (blocks json).
Proof.
  unfold Tree.wordsPresent, allLines. intros H.
  rewrite forallb_forall in H. apply Forall_forall. intros block Hb.
  apply Forall_forall. intros line Hl.
  apply list_elem_of_In in Hb, Hl.
  assert (Hin : In line (concat (map lines (blocks json)))).
  { apply in_concat. exists (lines block). split; [|exact Hl].
    apply in_map. exact Hb. }
  specialize (H line Hin). apply bool_decide_eq_true in H. exact H.
Qed.

End TotalFacts.

Section ErrorFacts.
Import Editor Playback Linear Double.
Local Open Scope Q_scope.

Lemma u_range : u * 2 ^ 42 == 1 # 2048.
Proof. reflexivity. Qed.

Lemma eta_range : 2 ^ 85 * eta <= 1 # 1024.
Proof. discriminate. Qed.

Variables (n : nat) (D : Q).
Hypothesis n_pos : (0 < n)%nat.
Hypothesis D_pos : 0 < D.
Hypothesis range : inRange n D.

Lemma slack_pos : 0 < slack n D.
Proof.
  unfold slack. pose proof u_pos. pose proof eta_pos.
  assert (0 < u * (D + 1)) by (apply Qmult_lt_0_compat; lra).
  assert (0 <= inject_Z (Z.of_nat n + 1) * eta).
  { apply Qmult_le_0_compat; [|lra].
    change 0 with (inject_Z 0). rewrite <- Zle_Qle. lia. }
  lra.
Qed.

(** In the range of the theorem all the roundings of a run together stay
    below the tolerance. *)
Lemma slack_small : inject_Z (2 * Z.of_nat n + 6) * slack n D <= tolerance.
Proof.
  unfold slack, inRange in *.
  assert (EA : inject_Z (2 * Z.of_nat n + 6) == 2 * inject_Z (Z.of_nat n + 3)).
  { rewrite <- (inject_Z_mult 2). apply inject_Z_injective. lia. }
  assert (EB : inject_Z (Z.of_nat n + 1) == inject_Z (Z.of_nat n + 3) - 2).
  { rewrite !inject_Z_plus. change (inject_Z 3) with 3.
    change (inject_Z 1) with 1. ring. }
  rewrite EA, EB.
  assert (HA : 3 <= inject_Z (Z.of_nat n + 3)).
  { change 3 with (inject_Z 3). rewrite <- Zle_Qle. lia. }
  set (A := inject_Z (Z.of_nat n + 3)) in *. clearbody A.
  set (X := D + 1) in *. assert (HX : 1 <= X) by (unfold X; lra). clearbody X.
  pose proof u_range as Hu. pose proof eta_range as He.
  pose proof u_pos as Hu0. pose proof eta_pos as He0.
  assert (HA42 : A <= 2 ^ 42).
  { apply Qle_trans with (A * X); [|exact range].
    rewrite <- (Qmult_1_r A) at 1. apply Qmult_le_l; lra. }
  assert (H1 : u * (A * X) <= u * 2 ^ 42) by (apply Qmult_le_l; assumption).
  assert (H2 : A * A <= 2 ^ 42 * 2 ^ 42).
  { apply Qmult_le_compat_nonneg; split; lra. }
  assert (H3 : A * A * eta <= 2 ^ 42 * 2 ^ 42 * eta).
  { apply Qmult_le_compat_r; lra. }
  assert (H4 : 2 ^ 42 * 2 ^ 42 * eta == (1 # 2) * (2 ^ 85 * eta)) by reflexivity.
  assert (H5 : 0 <= A * eta) by (apply Qmult_le_0_compat; lra).
  unfold tolerance.
  set (c42 := 2 ^ 42) in *. set (c85 := 2 ^ 85) in *. clearbody c42 c85.
  lra.
Qed.

(** One rounding of a number of the run. *)
Lemma round_abs x :
  0 <= x -> x <= D + 1 ->
  x - slack n D <= fl x /\ fl x <= x + slack n D.
Proof.
  intros Hx Hb. destruct (round_rel x Hx) as [H1 H2].
  pose proof u_pos as Hu. pose proof eta_pos as He.
  assert (H3 : u * x <= u * (D + 1)) by (apply Qmult_le_l; assumption).
  assert (H4 : eta <= inject_Z (Z.of_nat n + 1) * eta).
  { rewrite <- (Qmult_1_l eta) at 1. apply Qmult_le_compat_r; [|lra].
    change 1 with (inject_Z 1). rewrite <- Zle_Qle. lia. }
  unfold slack. split; lra.
Qed.

(** What the proofs below need of the range: [N] is the number of
    characters and [e] the slack. *)
Lemma range_facts :
  1 <= inject_Z (Z.of_nat n) /\
  slack n D <= inject_Z (Z.of_nat n) * slack n D /\
  2 * (inject_Z (Z.of_nat n) * slack n D) + 6 * slack n D <= tolerance.
Proof.
  pose proof slack_pos as He. pose proof slack_small as Hs.
  assert (HN : 1 <= inject_Z (Z.of_nat n)).
  { change 1 with (inject_Z 1). rewrite <- Zle_Qle. lia. }
  split; [exact HN|]. split.
  - rewrite <- (Qmult_1_l (slack n D)) at 1.
    apply Qmult_le_compat_r; lra.
  - assert (E : inject_Z (2 * Z.of_nat n + 6) == 2 * inject_Z (Z.of_nat n) + 6).
    { rewrite inject_Z_plus, inject_Z_mult. reflexivity. }
    rewrite E in Hs. lra.
Qed.

Lemma total_close :
  0 <= fl D /\ D - slack n D <= fl D /\ fl D <= D + slack n D.
Proof.
  split; [apply fl_nonneg; lra|]. apply round_abs; lra.
Qed.

(** The rounded duration of a character, times the number of characters,
    is the audio length up to two roundings. *)
Lemma perChar_close :
  let mt := Double.div (fl D) (inject_Z (Z.of_nat n)) in
  0 <= mt /\
  D - 2 * slack n D <= inject_Z (Z.of_nat n) * mt /\
  inject_Z (Z.of_nat n) * mt <= D + 2 * slack n D.
Proof.
  intros mt. destruct range_facts as (HN & HNe & Hsmall).
  destruct total_close as (Ht0 & Ht1 & Ht2).
  pose proof slack_pos as He. unfold tolerance in Hsmall.
  set (N := inject_Z (Z.of_nat n)) in *.
  assert (Hq0 : 0 <= fl D / N) by (apply Qle_shift_div_l; lra).
  assert (Hm0 : 0 <= mt) by (apply fl_nonneg; exact Hq0).
  split; [exact Hm0|].
  destruct (round_rel (fl D / N) Hq0) as [H1 H2]. fold (Double.div (fl D) N) in H1, H2.
  fold mt in H1, H2.
  assert (EN : N * (fl D / N) == fl D) by (field; lra).
  assert (H3 : N * (fl D / N - (u * (fl D / N) + eta)) <= N * mt)
    by (apply Qmult_le_l; lra).
  assert (H4 : N * mt <= N * (fl D / N + (u * (fl D / N) + eta)))
    by (apply Qmult_le_l; lra).
  assert (E3 : N * (fl D / N - (u * (fl D / N) + eta))
               == fl D - (u * fl D + N * eta)).
  { transitivity (N * (fl D / N) - (u * (N * (fl D / N)) + N * eta)); [ring|].
    rewrite EN. reflexivity. }
  assert (E4 : N * (fl D / N + (u * (fl D / N) + eta))
               == fl D + (u * fl D + N * eta)).
  { transitivity (N * (fl D / N) + (u * (N * (fl D / N)) + N * eta)); [ring|].
    rewrite EN. reflexivity. }
  rewrite E3 in H3. rewrite E4 in H4.
  pose proof u_pos as Hu. pose proof eta_pos as Heta.
  assert (H5 : u * fl D <= u * (D + 1)) by (apply Qmult_le_l; lra).
  assert (H6 : u * fl D + N * eta <= slack n D).
  { unfold slack. rewrite inject_Z_plus. fold N. change (inject_Z 1) with 1. lra. }
  split; lra.
Qed.


(** The number rounded into the stamp after [k] characters of a word of
    [L] characters that starts after [s] characters. *)
Lemma position_close s cur L k :
  let N := inject_Z (Z.of_nat n) in
  let e := slack n D in
  let mt := Double.div (fl D) N in
  let wd := Double.mul (inject_Z (Z.of_nat L)) mt in
  let cd := Double.div wd (inject_Z (Z.of_nat L)) in
  let x := Double.add cur (Double.mul (inject_Z (Z.of_nat k)) cd) in
  tracks n D mt s cur ->
  (1 <= L)%nat -> (s + L <= n)%nat -> (k <= L)%nat ->
  inject_Z (Z.of_nat (s + k)) * (D / N) - (2 * (N * e) + 6 * e) <= x /\
  x <= inject_Z (Z.of_nat (s + k)) * (D / N) + (2 * (N * e) + 6 * e).
Proof.
  intros N e mt wd cd x [[Hc0 _] [Hlo Hhi]] HL Hsn Hk.
  destruct range_facts as (HN & HNe & Hsmall). fold N e in HN, HNe, Hsmall.
  destruct perChar_close as (Hm0 & HM1 & HM2). fold N mt e in Hm0, HM1, HM2.
  pose proof slack_pos as He. fold e in He. fold e in Hlo, Hhi.
  unfold tolerance in Hsmall.
  pose proof u_pos as Hu. pose proof eta_pos as Heta.
  rewrite nat_Q_add.
  pose proof (nat_Q_nonneg s) as HS0. pose proof (nat_Q_nonneg k) as HK0.
  pose proof (nat_Q_le k L Hk) as HKL.
  pose proof (nat_Q_le 1 L HL) as HL1. change (inject_Z (Z.of_nat 1)) with 1 in HL1.
  pose proof (nat_Q_le (s + L) n Hsn) as HSL. rewrite nat_Q_add in HSL. fold N in HSL.
  set (S := inject_Z (Z.of_nat s)) in *.
  set (K := inject_Z (Z.of_nat k)) in *.
  set (Lq := inject_Z (Z.of_nat L)) in *.
  (* the word *)
  assert (Hp0 : 0 <= Lq * mt) by (apply Qmult_le_0_compat; lra).
  assert (HpN : Lq * mt <= N * mt) by (apply Qmult_le_compat_r; lra).
  assert (HSm : (S + K) * mt <= N * mt) by (apply Qmult_le_compat_r; lra).
  assert (HSe : S * e <= N * e) by (apply Qmult_le_compat_r; lra).
  destruct (round_abs (Lq * mt) Hp0) as [Hw1 Hw2]; [lra|].
  fold (Double.mul Lq mt) in Hw1, Hw2. fold wd e in Hw1, Hw2.
  assert (Hw0 : 0 <= wd) by (apply fl_nonneg; exact Hp0).
  (* one character *)
  assert (Hq0 : 0 <= wd / Lq) by (apply Qle_shift_div_l; lra).
  assert (ELq : Lq * (wd / Lq) == wd) by (field; lra).
  destruct (round_rel (wd / Lq) Hq0) as [Hc1 Hc2].
  fold (Double.div wd Lq) in Hc1, Hc2. fold cd in Hc1, Hc2.
  assert (Hcd0 : 0 <= cd) by (apply fl_nonneg; exact Hq0).
  set (q := wd / Lq) in *. set (r := u * q + eta) in *.
  assert (Hr0 : 0 <= r).
  { unfold r. assert (0 <= u * q) by (apply Qmult_le_0_compat; lra). lra. }
  assert (HKr : K * r <= Lq * r) by (apply Qmult_le_compat_r; lra).
  assert (ELr : Lq * r == u * wd + Lq * eta).
  { transitivity (u * (Lq * q) + Lq * eta); [unfold r; ring|].
    rewrite ELq. reflexivity. }
  assert (Huw : u * wd <= u * (D + 1)) by (apply Qmult_le_l; lra).
  assert (HLeta : Lq * eta <= N * eta) by (apply Qmult_le_compat_r; lra).
  assert (Hre : Lq * r <= e).
  { rewrite ELr. unfold e, slack. rewrite inject_Z_plus. fold N.
    change (inject_Z 1) with 1. lra. }
  assert (Hk1 : K * (q - r) <= K * cd) by (rewrite !(Qmult_comm K); apply Qmult_le_compat_r; lra).
  assert (Hk2 : K * cd <= K * (q + r)) by (rewrite !(Qmult_comm K); apply Qmult_le_compat_r; lra).
  (* [K * q] against [K * mt] *)
  assert (HKw1 : K * (Lq * mt - e) <= K * wd)
    by (rewrite !(Qmult_comm K); apply Qmult_le_compat_r; lra).
  assert (HKw2 : K * wd <= K * (Lq * mt + e))
    by (rewrite !(Qmult_comm K); apply Qmult_le_compat_r; lra).
  assert (HKe : K * e <= Lq * e) by (apply Qmult_le_compat_r; lra).
  assert (EKq : Lq * (K * q) == K * wd).
  { transitivity (K * (Lq * q)); [ring|]. rewrite ELq. reflexivity. }
  assert (Hd1 : K * mt - e <= K * q).
  { apply (Qmult_le_l _ _ Lq); [lra|]. rewrite EKq.
    assert (E : Lq * (K * mt - e) == K * (Lq * mt - e) + K * e - Lq * e) by ring.
    rewrite E. lra. }
  assert (Hd2 : K * q <= K * mt + e).
  { apply (Qmult_le_l _ _ Lq); [lra|]. rewrite EKq.
    assert (E : Lq * (K * mt + e) == K * (Lq * mt + e) - K * e + Lq * e) by ring.
    rewrite E. lra. }
  assert (Ek1 : K * (q - r) == K * q - K * r) by ring.
  assert (Ek2 : K * (q + r) == K * q + K * r) by ring.
  assert (HKm : K * mt <= N * mt) by (apply Qmult_le_compat_r; lra).
  assert (Hy0 : 0 <= K * cd) by (apply Qmult_le_0_compat; lra).
  destruct (round_abs (K * cd) Hy0) as [Ht1 Ht2]; [lra|].
  fold (Double.mul K cd) in Ht1, Ht2. fold e in Ht1, Ht2.
  assert (Ht0 : 0 <= Double.mul K cd) by (apply fl_nonneg; exact Hy0).
  set (t := Double.mul K cd) in *.
  assert (ESK : (S + K) * mt == S * mt + K * mt) by ring.
  destruct (round_abs (cur + t)) as [Hx1 Hx2]; [lra|lra|].
  fold (Double.add cur t) in Hx1, Hx2. fold x e in Hx1, Hx2.
  (* the exact duration of a character *)
  assert (ENm : N * (D / N) == D) by (field; lra).
  set (m := D / N) in *.
  assert (Hmm : (S + K) * mt - 2 * e <= (S + K) * m /\
                (S + K) * m <= (S + K) * mt + 2 * e).
  { destruct (Qlt_le_dec mt m) as [Hlt|Hge].
    - assert (H1 : (S + K) * (m - mt) <= N * (m - mt))
        by (apply Qmult_le_compat_r; lra).
      assert (H2 : 0 <= (S + K) * (m - mt))
        by (apply Qmult_le_0_compat; lra).
      assert (E1 : (S + K) * (m - mt) == (S + K) * m - (S + K) * mt) by ring.
      assert (E2 : N * (m - mt) == N * m - N * mt) by ring.
      rewrite E1 in H1, H2. rewrite E2 in H1. split; lra.
    - assert (H1 : (S + K) * (mt - m) <= N * (mt - m))
        by (apply Qmult_le_compat_r; lra).
      assert (H2 : 0 <= (S + K) * (mt - m))
        by (apply Qmult_le_0_compat; lra).
      assert (E1 : (S + K) * (mt - m) == (S + K) * mt - (S + K) * m) by ring.
      assert (E2 : N * (mt - m) == N * mt - N * m) by ring.
      rewrite E1 in H1, H2. rewrite E2 in H1. split; lra. }
  destruct Hmm as [Hmm1 Hmm2].
  split; lra.
Qed.


Lemma tracks_0 ms : tracks n D ms 0 0.
Proof.
  split; [apply clock_0|]. change (inject_Z (Z.of_nat 0)) with 0. split; lra.
Qed.

(** One word: the clock keeps tracking, and the characters are stamped as
    the characters number [s], [s + 1], ... *)
Lemma timeWord_track s cur word :
  let mt := Double.div (fl D) (inject_Z (Z.of_nat n)) in
  tracks n D mt s cur -> (s + wordSize word <= n)%nat ->
  tracks n D mt (s + wordSize word) (timeWord mt cur word).2 /\
  length (charsOrEmpty (timeWord mt cur word).1) = wordSize word /\
  stampedFrom (D / inject_Z (Z.of_nat n)) s
              (charsOrEmpty (timeWord mt cur word).1).
Proof.
  intros mt Ht Hsn.
  destruct perChar_close as (Hm0 & HM1 & HM2). fold mt in Hm0, HM1, HM2.
  destruct range_facts as (HN & HNe & Hsmall).
  pose proof slack_pos as He.
  split; [|split; [apply length_timeWord|]].
  - assert (Hclock : clock (timeWord mt cur word).2)
      by (apply timeWord_clock; [exact Hm0|exact (proj1 Ht)]).
    split; [exact Hclock|].
    destruct (Nat.eq_dec (wordSize word) 0%nat) as [E0|E0].
    + assert (Ecur : (timeWord mt cur word).2 == cur).
      { unfold timeWord. cbn [snd]. unfold textLength.
        change (String.length (text (word_tok word))) with (wordSize word).
        rewrite E0. change (inject_Z (Z.of_nat 0)) with 0.
        unfold Double.add, Double.mul.
        destruct Ht as [[_ Hfl] _]. rewrite <- Hfl at 2. apply fl_comp.
        rewrite fl_zero; ring. }
      rewrite E0, Nat.add_0_r, Ecur. exact (proj2 Ht).
    + destruct Ht as [[Hc0 _] [Hlo Hhi]].
      unfold timeWord. cbn [snd]. unfold textLength.
      change (String.length (text (word_tok word))) with (wordSize word).
      set (L := wordSize word) in *.
      unfold tolerance in Hsmall.
      rewrite nat_Q_add.
      pose proof (nat_Q_nonneg s) as HS0.
      assert (HL1 : 1 <= inject_Z (Z.of_nat L)).
      { change 1 with (inject_Z (Z.of_nat 1)). apply nat_Q_le. lia. }
      pose proof (nat_Q_le (s + L) n Hsn) as HSL. rewrite nat_Q_add in HSL.
      set (N := inject_Z (Z.of_nat n)) in *.
      set (e := slack n D) in *.
      set (S := inject_Z (Z.of_nat s)) in *.
      set (Lq := inject_Z (Z.of_nat L)) in *.
      assert (Hp0 : 0 <= Lq * mt) by (apply Qmult_le_0_compat; lra).
      assert (HpN : (S + Lq) * mt <= N * mt) by (apply Qmult_le_compat_r; lra).
      assert (HpL : Lq * mt <= N * mt) by (apply Qmult_le_compat_r; lra).
      assert (HSe : S * e <= N * e) by (apply Qmult_le_compat_r; lra).
      assert (HLe : e <= Lq * e).
      { rewrite <- (Qmult_1_l e) at 1. apply Qmult_le_compat_r; lra. }
      destruct (round_abs (Lq * mt) Hp0) as [Hw1 Hw2]; [lra|].
      fold (Double.mul Lq mt) in Hw1, Hw2. fold e in Hw1, Hw2.
      assert (Hw0 : 0 <= Double.mul Lq mt) by (apply fl_nonneg; exact Hp0).
      set (wd := Double.mul Lq mt) in *.
      assert (ES : (S + Lq) * mt == S * mt + Lq * mt) by ring.
      assert (ESe : (S + Lq) * e == S * e + Lq * e) by ring.
      destruct (round_abs (cur + wd)) as [Hx1 Hx2]; [lra|lra|].
      fold (Double.add cur wd) in Hx1, Hx2. fold e in Hx1, Hx2.
      split; lra.
  - intros i c Hc.
    destruct (timeWord_chars mt cur word i c Hc) as (Hi & Hs & Hend).
    unfold textLength in Hs, Hend.
    change (String.length (text (word_tok word))) with (wordSize word)
      in Hs, Hend.
    assert (Htol : 2 * (inject_Z (Z.of_nat n) * slack n D) + 6 * slack n D
                   <= tolerance) by exact Hsmall.
    split.
    + rewrite Hs.
      destruct (position_close s cur (wordSize word) i Ht) as [H1 H2];
        [lia|exact Hsn|lia|].
      exact (near_of_close _ _ _ Htol H1 H2).
    + rewrite Hend.
      replace (Z.of_nat i + 1)%Z with (Z.of_nat (S i)) by lia.
      replace (Z.of_nat (s + i) + 1)%Z with (Z.of_nat (s + S i)) by lia.
      destruct (position_close s cur (wordSize word) (S i) Ht) as [H1 H2];
        [lia|exact Hsn|lia|].
      exact (near_of_close _ _ _ Htol H1 H2).
Qed.

(** The clock after the last character is the audio length, up to the
    tolerance. *)
Lemma tracks_end cur :
  tracks n D (Double.div (fl D) (inject_Z (Z.of_nat n))) n cur ->
  near D (Math_round cur).
Proof.
  intros [_ [Hlo Hhi]].
  destruct perChar_close as (Hm0 & HM1 & HM2).
  destruct range_facts as (HN & HNe & Hsmall).
  pose proof slack_pos as He.
  apply (near_of_close _ _
           (2 * (inject_Z (Z.of_nat n) * slack n D) + 6 * slack n D));
    [exact Hsmall| |]; lra.
Qed.

End ErrorFacts.

Section TrackFacts.
Import Editor Playback Linear.

Context {A : Type} (f : Q -> A -> A * Q) (size : A -> nat)
        (flat : A -> list Token) (ok : A -> Prop).
Variables (n : nat) (D ms m : Q).

Hypothesis f_track : forall cur s x,
  ok x -> tracks n D ms s cur -> (s + size x <= n)%nat ->
  tracks n D ms (s + size x) (f cur x).2 /\
  length (flat (f cur x).1) = size x /\
  stampedFrom m s (flat (f cur x).1).

Lemma stampedFrom_app s xs ys :
  stampedFrom m s xs -> stampedFrom m (s + length xs) ys ->
  stampedFrom m s (xs ++ ys).
Proof.
  intros Hx Hy i c Hc.
  destruct (Nat.lt_ge_cases i (length xs)) as [H|H].
  - rewrite lookup_app_l in Hc by exact H. exact (Hx i c Hc).
  - rewrite lookup_app_r in Hc by exact H.
    specialize (Hy _ c Hc).
    replace (s + length xs + (i - length xs))%nat with (s + i)%nat in Hy by lia.
    exact Hy.
Qed.

(** Threading elements that each track the clock tracks it over all of
    them. *)
Lemma threadTime_track xs : forall cur s,
  Forall ok xs -> tracks n D ms s cur ->
  (s + sum_list (map size xs) <= n)%nat ->
  tracks n D ms (s + sum_list (map size xs)) (threadTime f cur xs).2 /\
  length (concat (map flat (threadTime f cur xs).1)) = sum_list (map size xs) /\
  stampedFrom m s (concat (map flat (threadTime f cur xs).1)).
Proof.
  induction xs as [|x xs IH]; intros cur s Hok Ht Hsn.
  - simpl. rewrite Nat.add_0_r. split; [exact Ht|]. split; [reflexivity|].
    intros i c Hc. discriminate.
  - inversion Hok as [|? ? Hx Hxs]; subst. simpl in Hsn.
    destruct (f_track cur s x Hx Ht) as (Ht1 & Hlen & Hst); [lia|].
    destruct (IH (f cur x).2 (s + size x)%nat Hxs Ht1) as (Ht2 & Hlen2 & Hst2);
      [lia|].
    simpl. destruct (f cur x) as [x' t1]. simpl in *.
    destruct (threadTime f t1 xs) as [xs' t2]. simpl in *.
    rewrite Nat.add_assoc. split; [exact Ht2|]. split.
    + rewrite length_app, Hlen, Hlen2. reflexivity.
    + apply stampedFrom_app; [exact Hst|]. rewrite Hlen. exact Hst2.
Qed.

End TrackFacts.

Section TrackDocument.
Import Editor Playback Linear.
Local Open Scope Q_scope.

Variables (n : nat) (D : Q).
Hypothesis n_pos : (0 < n)%nat.
Hypothesis D_pos : 0 < D.
Hypothesis range : inRange n D.

Lemma timeLine_track s cur line :
  let mt := Double.div (Double.fl D) (inject_Z (Z.of_nat n)) in
  hasWords line ->
  tracks n D mt s cur -> (s + lineSize line <= n)%nat ->
  tracks n D mt (s + lineSize line) (timeLine mt cur line).2 /\
  length (charsInLine (timeLine mt cur line).1) = lineSize line /\
  stampedFrom (D / inject_Z (Z.of_nat n)) s
              (charsInLine (timeLine mt cur line).1).
Proof.
  intros mt [ws E] Ht Hsn. rewrite (timeLine_words mt cur line ws E).
  unfold lineSize, wordsOrEmpty in *. rewrite E in *.
  unfold charsInLine. cbn [fst snd words from_option] in *.
  unfold Datatypes.id in *.
  apply (threadTime_track (timeWord mt) wordSize charsOrEmpty (fun _ => True)
           n D mt (D / inject_Z (Z.of_nat n))).
  - intros c s' w _. apply (timeWord_track n D n_pos D_pos range).
  - apply Forall_forall. auto.
  - exact Ht.
  - exact Hsn.
Qed.

Lemma timeBlock_track s cur block :
  let mt := Double.div (Double.fl D) (inject_Z (Z.of_nat n)) in
  Forall hasWords (lines block) ->
  tracks n D mt s cur -> (s + blockSize block <= n)%nat ->
  tracks n D mt (s + blockSize block) (timeBlock mt cur block).2 /\
  length (concat (map charsInLine (lines (timeBlock mt cur block).1)))
    = blockSize block /\
  stampedFrom (D / inject_Z (Z.of_nat n)) s
              (concat (map charsInLine (lines (timeBlock mt cur block).1))).
Proof.
  intros mt Hok Ht Hsn. rewrite timeBlock_lines. cbn [fst snd lines].
  apply (threadTime_track (timeLine mt) lineSize charsInLine hasWords
           n D mt (D / inject_Z (Z.of_nat n))).
  - intros c s' l Hl. apply timeLine_track. exact Hl.
  - exact Hok.
  - exact Ht.
  - exact Hsn.
Qed.

Lemma threadTime_blocks_track bs :
  let mt := Double.div (Double.fl D) (inject_Z (Z.of_nat n)) in
  Forall (fun block => Forall hasWords (lines block)) bs ->
  sum_list (map blockSize bs) = n ->
  tracks n D mt n (threadTime (timeBlock mt) 0 bs).2 /\
  length (allChars (threadTime (timeBlock mt) 0 bs).1) = n /\
  stampedFrom (D / inject_Z (Z.of_nat n)) 0
              (allChars (threadTime (timeBlock mt) 0 bs).1).
Proof.
  intros mt Hok Hn. unfold allChars.
  destruct (threadTime_track (timeBlock mt) blockSize
              (fun b => concat (map charsInLine (lines b)))
              (fun block => Forall hasWords (lines block))
              n D mt (D / inject_Z (Z.of_nat n))
              (fun c s' b Hb => timeBlock_track s' c b Hb)
              bs 0 0%nat Hok (tracks_0 n D mt))
    as (H1 & H2 & H3); [simpl; lia|].
  simpl in H1. rewrite Hn in H1, H2. auto.
Qed.

End TrackDocument.

Section LengthFacts.
Import Editor Playback Linear.

Context {A : Type} (f : Q -> A -> A * Q) (size : A -> nat)
        (flat : A -> list Token) (ok : A -> Prop).

Hypothesis f_length : forall cur x,
  ok x -> length (flat (f cur x).1) = size x.

Lemma threadTime_length xs : forall cur,
  Forall ok xs ->
  length (concat (map flat (threadTime f cur xs).1)) = sum_list (map size xs).
Proof.
  induction xs as [|x xs IH]; intros cur Hok; [reflexivity|].
  inversion Hok as [|? ? Hx Hxs]; subst.
  pose proof (f_length cur x Hx) as Hl. specialize (IH (f cur x).2 Hxs).
  simpl. destruct (f cur x) as [x' t1]. simpl in *.
  destruct (threadTime f t1 xs) as [xs' t2]. simpl in *.
  rewrite length_app, Hl, IH. reflexivity.
Qed.

End LengthFacts.

Section GenerateDocument.
Import Editor Playback Linear.

Lemma positive_duration_nonzero duration :
  (0 < duration)%Q -> Qeq_bool duration 0 = false.
Proof.
  intros H. destruct (Qeq_bool duration 0) eqn:E; [|reflexivity].
  apply Qeq_bool_eq in E. rewrite E in H. exfalso. exact (Qlt_irrefl 0 H).
Qed.

(** The document [generateLinearTiming] returns when there are characters
    to stamp. *)
Lemma generateLinearTiming_runs duration json :
  (0 < duration)%Q -> Tree.wordsPresent json = true ->
  totalLength json <> 0%nat ->
  generateLinearTiming duration json
  = Normal (set_blocks json
      (threadTime
         (timeBlock (Double.div (Double.mul duration 1000)
                                (inject_Z (Z.of_nat (totalLength json)))))
         0%Q (blocks json)).1).
Proof.
  intros Hd Hp Hn. unfold generateLinearTiming.
  rewrite (positive_duration_nonzero duration Hd).
  rewrite (totalChars_ok json (wordsPresent_Forall json Hp)).
  rewrite <- totalLength_blocks.
  destruct (Z.eqb_spec (Z.of_nat (totalLength json)) 0) as [E|E]; [lia|].
  reflexivity.
Qed.

Lemma generateLinearTiming_none duration json :
  (0 < duration)%Q -> Tree.wordsPresent json = true ->
  totalLength json = 0%nat ->
  generateLinearTiming duration json = Normal json.
Proof.
  intros Hd Hp Hn. unfold generateLinearTiming.
  rewrite (positive_duration_nonzero duration Hd).
  rewrite (totalChars_ok json (wordsPresent_Forall json Hp)).
  rewrite <- totalLength_blocks, Hn. reflexivity.
Qed.

(** The rounded duration of a character is not negative. *)
Lemma msPerChar_nonneg duration k :
  (0 < duration)%Q ->
  (0 <= Double.div (Double.mul duration 1000) (inject_Z (Z.of_nat k)))%Q.
Proof.
  intros Hd. apply fl_nonneg. apply Qmult_le_0_compat.
  - apply fl_nonneg. lra.
  - apply Qinv_le_0_compat. apply nat_Q_nonneg.
Qed.

Lemma generateLinearTiming_length ms json :
  Tree.wordsPresent json = true ->
  length (allChars (threadTime (timeBlock ms) 0%Q (blocks json)).1)
  = totalLength json.
Proof.
  intros Hp. rewrite totalLength_blocks. unfold allChars.
  apply (threadTime_length (timeBlock ms) blockSize
           (fun b => concat (map charsInLine (lines b)))
           (fun block => Forall hasWords (lines block)));
    [|exact (wordsPresent_Forall json Hp)].
  intros cur block Hok. rewrite timeBlock_lines. cbn [fst lines].
  apply (threadTime_length (timeLine ms) lineSize charsInLine hasWords);
    [|exact Hok].
  intros c line [ws E]. rewrite (timeLine_words ms c line ws E).
  unfold charsInLine, lineSize, wordsOrEmpty. rewrite E.
  cbn [fst words from_option]. unfold Datatypes.id.
  apply (threadTime_length (timeWord ms) wordSize charsOrEmpty (fun _ => True));
    [|apply Forall_forall; auto].
  intros c' w _. apply length_timeWord.
Qed.

(** Characters that last two milliseconds or more end after they start. *)
Lemma stampedFrom_strict m s cs :
  (129 # 128 <= m)%Q -> stampedFrom m s cs ->
  Forall (fun c => start c < end_ c) cs.
Proof.
  intros Hm Hst. apply Forall_lookup. intros i c Hc.
  destruct (Hst i c Hc) as [H1 H2]. unfold near, tolerance in H1, H2.
  apply Qabs_Qle_condition in H1, H2.
  rewrite inject_Z_plus in H2. change (inject_Z 1) with 1%Q in H2.
  rewrite Zlt_Qlt.
  set (k := inject_Z (Z.of_nat (s + i))) in *.
  assert (E : ((k + 1) * m == k * m + m)%Q) by ring.
  rewrite E in H2. destruct H1, H2. lra.
Qed.

End GenerateDocument.




(** ** Bubble-up propagation: fixed point and nesting *)

Section WidenAgain.
Import Editor Propagation Widening Nesting.

Lemma valid_positive (cs : list Token) c :
  In c (List.filter hasValidTiming cs) -> 0 < start c /\ 0 < end_ c.
Proof.
  intros H. apply filter_In in H as [_ H]. unfold hasValidTiming in H.
  apply andb_prop in H as [H1 H2]. apply Z.ltb_lt in H1, H2. auto.
Qed.

(** A second [widen] over the same children changes nothing. *)
Lemma widen_again parent children :
  widen (widen parent children) children = widen parent children.
Proof.
  unfold widen.
  destruct (List.filter hasValidTiming children) as [|c cs] eqn:E;
    [reflexivity|].
  pose proof (Math_min_least (start c) (map start cs)) as [Hin _].
  pose proof (Math_max_greatest (end_ c) (map end_ cs)) as [Hin' _].
  change (In (Math_min (start c) (map start cs)) (map start (c :: cs))) in Hin.
  change (In (Math_max (end_ c) (map end_ cs)) (map end_ (c :: cs))) in Hin'.
  apply in_map_iff in Hin as (x & Hx & Hxin).
  apply in_map_iff in Hin' as (y & Hy & Hyin).
  rewrite <- E in Hxin, Hyin.
  apply valid_positive in Hxin as [Hm _]. apply valid_positive in Hyin as [_ HM].
  rewrite Hx in Hm. rewrite Hy in HM.
  set (m := Math_min (start c) (map start cs)) in *.
  set (M := Math_max (end_ c) (map end_ cs)) in *.
  destruct parent as [tx s e v p]. unfold set_start, set_end. simpl.
  destruct (Z.eqb_spec s 0) as [Es|Es]; destruct (Z.eqb_spec e 0) as [Ee|Ee];
    simpl;
    repeat match goal with
           | |- context [?a <? ?b] => destruct (Z.ltb_spec a b); simpl
           | |- context [?a =? 0] => destruct (Z.eqb_spec a 0); simpl
           end; try reflexivity; try lia.
Qed.

Lemma encloses_widen parent children :
  encloses (widen parent children) children.
Proof.
  intros child Hin Hv.
  pose proof (widen_spec parent children) as H.
  assert (Hc : In child (List.filter hasValidTiming children))
    by (apply filter_In; auto).
  destruct (List.filter hasValidTiming children) as [|c cs]; [destruct Hc|].
  destruct H as (m & M & [_ Hm] & [_ HM] & _ & _ & Hs & He & _).
  specialize (Hm (start child) (in_map start _ _ Hc)).
  specialize (HM (end_ child) (in_map end_ _ _ Hc)).
  rewrite Hs, He.
  destruct (start parent =? 0); destruct (end_ parent =? 0); lia.
Qed.

Lemma blockFromLines_again b :
  blockFromLines (blockFromLines b) = blockFromLines b.
Proof.
  unfold blockFromLines. destruct (lines b) as [|l ls] eqn:E; [rewrite E; reflexivity|].
  simpl. rewrite widen_again. reflexivity.
Qed.

Lemma lineFromWords_again l :
  lineFromWords (lineFromWords l) = lineFromWords l.
Proof.
  unfold lineFromWords.
  destruct (words l) as [[|w ws]|] eqn:E; try (rewrite E; reflexivity).
  simpl. rewrite widen_again. reflexivity.
Qed.

Lemma wordFromChars_again w :
  wordFromChars (wordFromChars w) = wordFromChars w.
Proof.
  unfold wordFromChars.
  destruct (chars w) as [[|c cs]|] eqn:E; try (rewrite E; reflexivity).
  simpl. rewrite widen_again. reflexivity.
Qed.

Lemma map_again {A : Type} (g : A -> A) (xs : list A) :
  (forall x, g (g x) = g x) -> map g (map g xs) = map g xs.
Proof. intros H. rewrite map_map. apply map_ext. exact H. Qed.

Lemma words_lineFromWords l : words (lineFromWords l) = words l.
Proof.
  unfold lineFromWords. destruct (words l) as [[|w ws]|] eqn:E; simpl; auto.
Qed.

Lemma chars_wordFromChars w : chars (wordFromChars w) = chars w.
Proof.
  unfold wordFromChars. destruct (chars w) as [[|c cs]|] eqn:E; simpl; auto.
Qed.

Lemma lines_blockFromLines b : lines (blockFromLines b) = lines b.
Proof. unfold blockFromLines. destruct (lines b) eqn:E; simpl; auto. Qed.

Lemma line_tok_wordsFromChars l : line_tok (wordsFromChars l) = line_tok l.
Proof.
  unfold wordsFromChars. destruct (words l) as [[|w ws]|]; reflexivity.
Qed.

Lemma wordsOrEmpty_wordsFromChars l :
  wordsOrEmpty (wordsFromChars l) = map wordFromChars (wordsOrEmpty l).
Proof.
  unfold wordsFromChars, wordsOrEmpty.
  destruct (words l) as [[|w ws]|] eqn:E; simpl; rewrite ?E; reflexivity.
Qed.

Lemma wordsFromChars_again l :
  wordsFromChars (wordsFromChars l) = wordsFromChars l.
Proof.
  unfold wordsFromChars.
  destruct (words l) as [[|w ws]|] eqn:E; try (rewrite E; reflexivity).
  simpl. rewrite !wordFromChars_again, (map_again _ _ wordFromChars_again).
  reflexivity.
Qed.

(** The word pass reads the characters only, the line pass the words only
    and the block pass the lines only, so an earlier pass can be repeated
    after a later one without effect. *)
Lemma wordsFromChars_lineFromWords l :
  wordsFromChars l = l -> wordsFromChars (lineFromWords l) = lineFromWords l.
Proof.
  intros H. unfold lineFromWords.
  destruct (words l) as [[|w ws]|] eqn:E; try exact H.
  unfold wordsFromChars in *. rewrite E in H. simpl.
  destruct l as [t wsl]. simpl in *. subst wsl.
  injection H as Hw Hws. rewrite Hw, Hws. reflexivity.
Qed.

Lemma linesFromWords_blockFromLines b :
  map lineFromWords (lines b) = lines b ->
  linesFromWords (blockFromLines b) = blockFromLines b.
Proof.
  intros H. unfold linesFromWords. rewrite lines_blockFromLines, H.
  rewrite <- (lines_blockFromLines b) at 1. apply block_eta.
Qed.

Lemma blockWordsFromChars_blockFromLines b :
  map wordsFromChars (lines b) = lines b ->
  blockWordsFromChars (blockFromLines b) = blockFromLines b.
Proof.
  intros H. unfold blockWordsFromChars. rewrite lines_blockFromLines, H.
  rewrite <- (lines_blockFromLines b) at 1. apply block_eta.
Qed.

Lemma fromWords_again b : fromWords (fromWords b) = fromWords b.
Proof.
  unfold fromWords. rewrite linesFromWords_blockFromLines.
  - apply blockFromLines_again.
  - simpl. apply map_again, lineFromWords_again.
Qed.

Lemma fromChars_again b : fromChars (fromChars b) = fromChars b.
Proof.
  unfold fromChars. rewrite blockWordsFromChars_blockFromLines.
  - apply fromWords_again.
  - simpl. rewrite !map_map. apply map_ext. intros l.
    apply wordsFromChars_lineFromWords, wordsFromChars_again.
Qed.

Lemma updateParentTimingFromWords_blocks d :
  blocks (updateParentTimingFromWords d) = map fromWords (blocks d).
Proof.
  unfold updateParentTimingFromWords, updateBlockTimingFromLines. simpl.
  rewrite map_map. reflexivity.
Qed.

Lemma updateParentTimingFromChars_blocks d :
  blocks (updateParentTimingFromChars d) = map fromChars (blocks d).
Proof.
  unfold updateParentTimingFromChars. rewrite updateParentTimingFromWords_blocks.
  simpl. rewrite map_map. reflexivity.
Qed.

Lemma document_ext d d' :
  version d = version d' -> audioFile d = audioFile d' ->
  voices d = voices d' -> blocks d = blocks d' -> d = d'.
Proof. destruct d, d'. simpl. intros -> -> -> ->. reflexivity. Qed.

End WidenAgain.

(** X1. Bubble-up propagation reaches its fixed point in one pass: each of
    [updateBlockTimingFromLines], [updateParentTimingFromWords] and
    [updateParentTimingFromChars] run a second time changes nothing. *)
Theorem propagation_idempotent (d : Document) :
  Propagation.updateBlockTimingFromLines
    (Propagation.updateBlockTimingFromLines d)
    = Propagation.updateBlockTimingFromLines d /\
  Propagation.updateParentTimingFromWords
    (Propagation.updateParentTimingFromWords d)
    = Propagation.updateParentTimingFromWords d /\
  Propagation.updateParentTimingFromChars
    (Propagation.updateParentTimingFromChars d)
    = Propagation.updateParentTimingFromChars d.
Proof.
  split; [|split]; apply document_ext; try reflexivity.
  - simpl. apply map_again, blockFromLines_again.
  - rewrite !updateParentTimingFromWords_blocks.
    apply map_again, fromWords_again.
  - rewrite !updateParentTimingFromChars_blocks.
    apply map_again, fromChars_again.
Qed.

Section NestingFacts.
Import Editor Propagation Nesting.

Lemma blockEncloses_blockFromLines b : blockEncloses (blockFromLines b).
Proof.
  unfold blockEncloses, blockFromLines.
  destruct (lines b) as [|l ls] eqn:E; [rewrite E; intros c []|].
  simpl. apply encloses_widen.
Qed.

Lemma lineEncloses_lineFromWords l : lineEncloses (lineFromWords l).
Proof.
  unfold lineEncloses, lineFromWords, wordsOrEmpty.
  destruct (words l) as [[|w ws]|] eqn:E; try (rewrite E; intros c []).
  simpl. apply encloses_widen.
Qed.

Lemma wordEncloses_wordFromChars w : wordEncloses (wordFromChars w).
Proof.
  unfold wordEncloses, wordFromChars, charsOrEmpty.
  destruct (chars w) as [[|c cs]|] eqn:E; try (rewrite E; intros x []).
  simpl. apply encloses_widen.
Qed.

Lemma wordsOrEmpty_lineFromWords l :
  wordsOrEmpty (lineFromWords l) = wordsOrEmpty l.
Proof. unfold wordsOrEmpty. rewrite words_lineFromWords. reflexivity. Qed.

Lemma nested_fromWords b : nestedFrom Words (fromWords b).
Proof.
  unfold fromWords. split; [apply blockEncloses_blockFromLines|].
  rewrite lines_blockFromLines. simpl. apply Forall_map, Forall_forall.
  intros l _. apply lineEncloses_lineFromWords.
Qed.

Lemma nested_fromChars b : nestedFrom Chars (fromChars b).
Proof.
  unfold fromChars.
  destruct (nested_fromWords (blockWordsFromChars b)) as [H1 H2].
  split; [exact H1|]. split; [exact H2|].
  unfold fromWords. rewrite lines_blockFromLines. simpl.
  rewrite !Forall_map. apply Forall_forall. intros l _. simpl.
  rewrite wordsOrEmpty_lineFromWords, wordsOrEmpty_wordsFromChars.
  apply Forall_map, Forall_forall. intros w _.
  apply wordEncloses_wordFromChars.
Qed.

End NestingFacts.

(** X2. After a propagation every span updated by it contains its children
    that have valid timing: after [updateBlockTimingFromLines] each block
    contains its validly timed lines; after [updateParentTimingFromWords]
    also each line its validly timed words; after
    [updateParentTimingFromChars] also each word its validly timed
    characters. *)
Theorem propagation_encloses (d : Document) :
  Forall (Nesting.nestedFrom Editor.Lines)
         (blocks (Propagation.updateBlockTimingFromLines d)) /\
  Forall (Nesting.nestedFrom Editor.Words)
         (blocks (Propagation.updateParentTimingFromWords d)) /\
  Forall (Nesting.nestedFrom Editor.Chars)
         (blocks (Propagation.updateParentTimingFromChars d)).
Proof.
  split; [|split].
  - simpl. apply Forall_map, Forall_forall. intros b _.
    apply blockEncloses_blockFromLines.
  - rewrite updateParentTimingFromWords_blocks.
    apply Forall_map, Forall_forall. intros b _. apply nested_fromWords.
  - rewrite updateParentTimingFromChars_blocks.
    apply Forall_map, Forall_forall. intros b _. apply nested_fromChars.
Qed.

(** ** Recording: which entry of the flattened array is written *)

Section FlatFacts.
Import Editor Propagation.

Lemma concat_writeFlat {P A : Type} (proj : P -> list A) (g : A -> A)
    (size : P -> nat) (inner : nat -> P -> P) (i : nat) (ps : list P) :
  (forall p, size p = length (proj p)) ->
  (forall j p, proj (inner j p) = alter g j (proj p)) ->
  concat (map proj (writeFlat size inner i ps))
    = alter g i (concat (map proj ps)).
Proof.
  intros Hsize Hinner. revert i.
  induction ps as [|p ps IH]; intros i; simpl; [reflexivity|].
  rewrite Hsize. destruct (Nat.ltb_spec i (length (proj p))) as [Hlt|Hge]; simpl.
  - rewrite Hinner. symmetry. apply alter_app_l. exact Hlt.
  - rewrite IH. symmetry. apply alter_app_r_alt. exact Hge.
Qed.

Lemma alter_past {A : Type} (g : A -> A) (i : nat) (xs : list A) :
  (length xs <= i)%nat -> alter g i xs = xs.
Proof.
  revert i. induction xs as [|x xs IH]; intros i H; [reflexivity|].
  destruct i as [|i]; simpl in H; [lia|].
  simpl. f_equal. apply IH. lia.
Qed.

Lemma wordsOrEmpty_alter g j line :
  wordsOrEmpty (mkLine (line_tok line) (option_map (alter g j) (words line)))
    = alter g j (wordsOrEmpty line).
Proof. unfold wordsOrEmpty. simpl. destruct (words line); reflexivity. Qed.

Lemma charsOrEmpty_alter g j word :
  charsOrEmpty (mkWord (word_tok word) (option_map (alter g j) (chars word)))
    = alter g j (charsOrEmpty word).
Proof. unfold charsOrEmpty. simpl. destruct (chars word); reflexivity. Qed.

Lemma allLines_writeLine f i bs :
  allLines (writeLine f i bs)
    = alter (fun line => mkLine (f (line_tok line)) (words line)) i
            (allLines bs).
Proof.
  unfold allLines, writeLine. apply concat_writeFlat; reflexivity.
Qed.

Lemma allWords_writeWord f i bs :
  allWords (writeWord f i bs)
    = alter (fun word => mkWord (f (word_tok word)) (chars word)) i
            (allWords bs).
Proof.
  unfold allWords, writeWord.
  apply (concat_writeFlat
           (fun block => concat (map wordsOrEmpty (lines block)))).
  - reflexivity.
  - intros j block. simpl. unfold writeWordInLines.
    apply concat_writeFlat; [reflexivity|].
    intros k line. apply wordsOrEmpty_alter.
Qed.

Lemma charsInLine_writeCharInWords f j line :
  charsInLine (mkLine (line_tok line)
                      (option_map (writeCharInWords f j) (words line)))
    = alter f j (charsInLine line).
Proof.
  unfold charsInLine. simpl. destruct (words line) as [ws|]; [|reflexivity].
  simpl. unfold writeCharInWords. apply concat_writeFlat; [reflexivity|].
  intros k word. apply charsOrEmpty_alter.
Qed.

Lemma allChars_writeChar f i bs :
  allChars (writeChar f i bs) = alter f i (allChars bs).
Proof.
  unfold allChars, writeChar.
  apply (concat_writeFlat
           (fun block => concat (map charsInLine (lines block)))).
  - reflexivity.
  - intros j block. simpl. unfold writeCharInLines.
    apply concat_writeFlat; [reflexivity|].
    intros k line. apply charsInLine_writeCharInWords.
Qed.

(** The propagation passes leave the flattened arrays of the level that was
    written as they are. *)
Lemma allLines_blockFromLines bs : allLines (map blockFromLines bs) = allLines bs.
Proof.
  unfold allLines. rewrite map_map. f_equal. apply map_ext.
  exact lines_blockFromLines.
Qed.

Lemma allWords_blockFromLines bs : allWords (map blockFromLines bs) = allWords bs.
Proof.
  unfold allWords. rewrite map_map. f_equal. apply map_ext. intros b.
  rewrite lines_blockFromLines. reflexivity.
Qed.

Lemma allWords_linesFromWords bs : allWords (map linesFromWords bs) = allWords bs.
Proof.
  unfold allWords. rewrite map_map. f_equal. apply map_ext. intros b. simpl.
  rewrite map_map. f_equal. apply map_ext. exact wordsOrEmpty_lineFromWords.
Qed.

Lemma charsInLine_lineFromWords l : charsInLine (lineFromWords l) = charsInLine l.
Proof. unfold charsInLine. rewrite words_lineFromWords. reflexivity. Qed.

Lemma charsOrEmpty_wordFromChars w :
  charsOrEmpty (wordFromChars w) = charsOrEmpty w.
Proof. unfold charsOrEmpty. rewrite chars_wordFromChars. reflexivity. Qed.

Lemma charsInLine_wordsFromChars l : charsInLine (wordsFromChars l) = charsInLine l.
Proof.
  unfold charsInLine, wordsFromChars.
  destruct (words l) as [[|w ws]|] eqn:E; simpl; rewrite ?E; try reflexivity.
  rewrite charsOrEmpty_wordFromChars. f_equal. f_equal.
  rewrite map_map. apply map_ext. exact charsOrEmpty_wordFromChars.
Qed.

Lemma allChars_fromChars bs : allChars (map Nesting.fromChars bs) = allChars bs.
Proof.
  unfold allChars. rewrite map_map. f_equal. apply map_ext. intros b.
  unfold Nesting.fromChars. rewrite lines_blockFromLines. simpl.
  rewrite !map_map. f_equal. apply map_ext. intros l.
  rewrite charsInLine_lineFromWords. apply charsInLine_wordsFromChars.
Qed.

End FlatFacts.

(** X3. A record operation writes exactly one entry of the flattened array
    of its mode, the one at the cursor in document order: the blocks, or
    the lines, words or characters of the whole document read in order,
    are afterwards as before except that entry [activeTokenIndex] carries
    the new stamp (and the voice, for a start).  With the cursor past the
    end of the array nothing is written. *)
Theorem recordInto_writes_one (i : nat) (type : Editor.Stamp)
    (currentTime currentVoice : Z) (d : Document) :
  let f := Editor.stamp type currentTime currentVoice in
  let after mode :=
    blocks (Editor.recordInto mode i type currentTime currentVoice d) in
  after Editor.Blocks
    = alter (fun block => mkBlock (f (block_tok block)) (lines block)) i
            (blocks d) /\
  Editor.allLines (after Editor.Lines)
    = alter (fun line => mkLine (f (line_tok line)) (words line)) i
            (Editor.allLines (blocks d)) /\
  Editor.allWords (after Editor.Words)
    = alter (fun word => mkWord (f (word_tok word)) (chars word)) i
            (Editor.allWords (blocks d)) /\
  Editor.allChars (after Editor.Chars)
    = alter f i (Editor.allChars (blocks d)).
Proof.
  intros f after. subst after. unfold Editor.recordInto. fold f.
  repeat split.
  - destruct (Nat.ltb_spec i (length (blocks d))) as [H|H]; [reflexivity|].
    symmetry. apply alter_past. exact H.
  - destruct (Nat.ltb_spec i (length (Editor.allLines (blocks d)))) as [H|H].
    + simpl. rewrite allLines_blockFromLines. apply allLines_writeLine.
    + symmetry. apply alter_past. exact H.
  - destruct (Nat.ltb_spec i (length (Editor.allWords (blocks d)))) as [H|H].
    + rewrite updateParentTimingFromWords_blocks. simpl.
      unfold Nesting.fromWords. rewrite <- map_map.
      rewrite allWords_blockFromLines, allWords_linesFromWords.
      apply allWords_writeWord.
    + symmetry. apply alter_past. exact H.
  - destruct (Nat.ltb_spec i (length (Editor.allChars (blocks d)))) as [H|H].
    + rewrite updateParentTimingFromChars_blocks. simpl.
      rewrite allChars_fromChars. apply allChars_writeChar.
    + symmetry. apply alter_past. exact H.
Qed.

(** ** Moving the cursor *)

Section SkipFacts.
Import Editor Navigation.

Lemma firstNonSpaceFrom_Some i rest k :
  firstNonSpaceFrom i rest = Some k ->
  (i <= k)%nat /\ (k - i < length rest)%nat /\
  isSpaceToken (rest !! (k - i)%nat) = false /\
  forall j, (j < k - i)%nat -> isSpaceToken (rest !! j) = true.
Proof.
  revert i. induction rest as [|token rest IH]; intros i H; [discriminate|].
  cbn [firstNonSpaceFrom] in H.
  destruct (isSpaceToken (Some token)) eqn:E; cbn [negb] in H.
  - apply IH in H as (H1 & H2 & H3 & H4).
    replace (k - i)%nat with (S (k - (i + 1)))%nat by lia.
    split; [lia|]. split; [simpl; lia|]. split; [exact H3|].
    intros [|j] Hj; [exact E|]. apply H4. lia.
  - injection H as <-. rewrite Nat.sub_diag.
    split; [lia|]. split; [simpl; lia|]. split; [exact E|].
    intros j Hj. lia.
Qed.

Lemma firstNonSpaceFrom_None i rest :
  firstNonSpaceFrom i rest = None ->
  forall j, (j < length rest)%nat -> isSpaceToken (rest !! j) = true.
Proof.
  revert i. induction rest as [|token rest IH]; intros i H j Hj;
    [simpl in Hj; lia|].
  cbn [firstNonSpaceFrom] in H.
  destruct (isSpaceToken (Some token)) eqn:E; cbn [negb] in H;
    [|discriminate].
  destruct j as [|j]; [exact E|]. apply (IH _ H). simpl in Hj. lia.
Qed.

(** The forward loop stops on the first index from [k] on that is past the
    end or not a space. *)
Lemma skipForward_spec turns tokens k :
  let r := skipForward turns tokens k in
  (k <= r <= k + turns)%nat /\
  (forall j, (k <= j < r)%nat ->
     (j < length tokens)%nat /\ isSpaceToken (tokens !! j) = true) /\
  ((r < k + turns)%nat ->
     (length tokens <= r)%nat \/ isSpaceToken (tokens !! r) = false).
Proof.
  revert k. induction turns as [|turns IH]; intros k; simpl.
  - split; [lia|]. split; intros; lia.
  - destruct (Nat.ltb_spec k (length tokens)) as [Hlt|Hge]; simpl.
    + destruct (isSpaceToken (tokens !! k)) eqn:E.
      * destruct (IH (k + 1)%nat) as (H1 & H2 & H3).
        split; [lia|]. split.
        -- intros j Hj. destruct (Nat.eq_dec j k) as [->|Hne]; [auto|].
           apply H2. lia.
        -- intros Hr. apply H3. lia.
      * split; [lia|]. split; [intros; lia|]. intros _. right. exact E.
    + split; [lia|]. split; [intros; lia|]. intros _. left. exact Hge.
Qed.

Lemma skipBackward_Some tokens next k :
  skipBackward tokens next = Some k ->
  (k < next)%nat /\ isSpaceToken (tokens !! k) = false /\
  forall j, (k < j < next)%nat -> isSpaceToken (tokens !! j) = true.
Proof.
  induction next as [|n IH]; intros H; [discriminate|].
  simpl in H. destruct (isSpaceToken (tokens !! n)) eqn:E.
  - apply IH in H as (H1 & H2 & H3). split; [lia|]. split; [exact H2|].
    intros j Hj. destruct (Nat.eq_dec j n) as [->|Hne]; [exact E|].
    apply H3. lia.
  - injection H as <-. split; [lia|]. split; [exact E|]. intros; lia.
Qed.

Lemma skipBackward_None tokens next :
  skipBackward tokens next = None ->
  forall j, (j < next)%nat -> isSpaceToken (tokens !! j) = true.
Proof.
  induction next as [|n IH]; intros H j Hj; [lia|].
  simpl in H. destruct (isSpaceToken (tokens !! n)) eqn:E; [|discriminate].
  destruct (Nat.eq_dec j n) as [->|Hne]; [exact E|]. apply (IH H). lia.
Qed.

Lemma isSpaceToken_in_range (tokens : list TokenView) j :
  isSpaceToken (tokens !! j) = true -> (j < length tokens)%nat.
Proof.
  intros H. apply lookup_lt_is_Some.
  destruct (tokens !! j); [eauto|discriminate].
Qed.

End SkipFacts.

(** X4. [findFirstNonSpaceTokenIndex] returns the least index of a token
    that is not a space token; every token before it is a space token;
    when all tokens are space tokens, or there is none, it returns 0. *)
Theorem findFirstNonSpaceTokenIndex_least (tokens : list Editor.TokenView) :
  let i := Navigation.findFirstNonSpaceTokenIndex tokens in
  (forall j, (j < i)%nat -> Editor.isSpaceToken (tokens !! j) = true) /\
  ((exists j, (j < length tokens)%nat /\
              Editor.isSpaceToken (tokens !! j) = false) ->
   (i < length tokens)%nat /\ Editor.isSpaceToken (tokens !! i) = false) /\
  ((forall j, (j < length tokens)%nat ->
              Editor.isSpaceToken (tokens !! j) = true) -> i = 0%nat).
Proof.
  unfold Navigation.findFirstNonSpaceTokenIndex.
  destruct (Navigation.firstNonSpaceFrom 0 tokens) as [k|] eqn:E; simpl.
  - apply firstNonSpaceFrom_Some in E as (_ & H2 & H3 & H4).
    rewrite Nat.sub_0_r in *. split; [exact H4|]. split; [auto|].
    intros Hall. rewrite (Hall k H2) in H3. discriminate.
  - pose proof (firstNonSpaceFrom_None _ _ E) as Hall.
    split; [intros; lia|]. split; [|reflexivity].
    intros (j & Hj & Hns). rewrite (Hall j Hj) in Hns. discriminate.
Qed.

(** X5. [goToNextToken] moves the cursor to the nearest following token
    that is not a space token, passing over space tokens only; when no such
    token follows, the session is left as it is. *)
Theorem goToNextToken_nearest (s : Editor.Session) :
  let tokens := Editor.getTokensByMode s in
  let n := Editor.activeTokenIndex s in
  let n' := Editor.activeTokenIndex (Navigation.goToNextToken s) in
  (Navigation.goToNextToken s = s /\
   forall j, (n < j < length tokens)%nat ->
             Editor.isSpaceToken (tokens !! j) = true) \/
  (Navigation.goToNextToken s = Editor.set_activeTokenIndex s n' /\
   (n < n' < length tokens)%nat /\
   Editor.isSpaceToken (tokens !! n') = false /\
   forall j, (n < j < n')%nat -> Editor.isSpaceToken (tokens !! j) = true).
Proof.
  intros tokens n n'. subst n'. unfold Navigation.goToNextToken.
  fold tokens. fold n.
  destruct (skipForward_spec (length tokens) tokens (n + 1)) as (H1 & H2 & H3).
  set (r := Navigation.skipForward (length tokens) tokens (n + 1)) in *.
  destruct (Nat.ltb_spec r (length tokens)) as [Hlt|Hge].
  - right. simpl. split; [reflexivity|]. split; [lia|]. split.
    + destruct H3 as [H3|H3]; [lia|lia|exact H3].
    + intros j Hj. apply H2. lia.
  - left. split; [reflexivity|]. intros j Hj. apply H2. lia.
Qed.

(** X6. [goToPreviousToken] moves the cursor to the nearest preceding token
    that is not a space token, passing over space tokens only, and leaves
    the session as it is when there is none; the document and the mode are
    never changed.  With the cursor more than one position past the end of
    the token list it throws a [TypeError]. *)
Theorem goToPreviousToken_nearest (s : Editor.Session) :
  let tokens := Editor.getTokensByMode s in
  let n := Editor.activeTokenIndex s in
  match Navigation.goToPreviousToken s with
  | Throw e => e = TypeError /\ (length tokens < n)%nat
  | Normal s' =>
    let n' := Editor.activeTokenIndex s' in
    (n <= length tokens)%nat /\
    Editor.karaokeData s' = Editor.karaokeData s /\
    Editor.recordingMode s' = Editor.recordingMode s /\
    ((s' = s /\
      forall j, (j < n)%nat -> Editor.isSpaceToken (tokens !! j) = true) \/
     ((n' < n)%nat /\ Editor.isSpaceToken (tokens !! n') = false /\
      forall j, (n' < j < n)%nat ->
                Editor.isSpaceToken (tokens !! j) = true))
  end.
Proof.
  intros tokens n. unfold Navigation.goToPreviousToken. fold tokens. fold n.
  destruct (Navigation.skipBackward tokens n) as [k|] eqn:E.
  - apply skipBackward_Some in E as (H1 & H2 & H3).
    destruct (tokens !! k) as [token|] eqn:Ek.
    + assert (Hk : (k < length tokens)%nat)
        by (apply lookup_lt_is_Some; eauto).
      assert (Hn : (n <= length tokens)%nat).
      { destruct (Nat.le_gt_cases n (length tokens)) as [Hle|Hgt]; [exact Hle|].
        assert (Hs : Editor.isSpaceToken (tokens !! length tokens) = true)
          by (apply H3; lia).
        apply isSpaceToken_in_range in Hs. lia. }
      assert (Hcase : forall s', Editor.activeTokenIndex s' = k ->
                (s' = s /\ forall j, (j < n)%nat ->
                   Editor.isSpaceToken (tokens !! j) = true) \/
                ((Editor.activeTokenIndex s' < n)%nat /\
                 Editor.isSpaceToken (tokens !! Editor.activeTokenIndex s') = false /\
                 forall j, (Editor.activeTokenIndex s' < j < n)%nat ->
                   Editor.isSpaceToken (tokens !! j) = true)).
      { intros s' ->. right. rewrite Ek. auto. }
      unfold Navigation.jumpToStart.
      destruct (Editor.syncLocked s && Editor.audioRef s);
        [destruct (Editor.tv_start token) as [tstart|];
         [destruct (Qle_bool 0 (Double.div (inject_Z tstart) 1000))|]|];
        simpl; (split; [exact Hn|]); (split; [reflexivity|]);
        (split; [reflexivity|]); apply Hcase; reflexivity.
    + split; [reflexivity|].
      apply lookup_ge_None in Ek. lia.
  - pose proof (skipBackward_None _ _ E) as Hall.
    split.
    { destruct (Nat.le_gt_cases n (length tokens)) as [Hle|Hgt]; [exact Hle|].
      assert (Hs : Editor.isSpaceToken (tokens !! length tokens) = true)
        by (apply Hall; lia).
      apply isSpaceToken_in_range in Hs. lia. }
    split; [reflexivity|]. split; [reflexivity|]. left. auto.
Qed.

Section MoveFacts.
Import Editor Navigation Moves.

Lemma getTokensByMode_same s s' :
  karaokeData s' = karaokeData s -> recordingMode s' = recordingMode s ->
  getTokensByMode s' = getTokensByMode s.
Proof. unfold getTokensByMode. intros -> ->. reflexivity. Qed.

Lemma jumpToStart_same s token :
  karaokeData (jumpToStart s token) = karaokeData s /\
  recordingMode (jumpToStart s token) = recordingMode s /\
  activeTokenIndex (jumpToStart s token) = activeTokenIndex s.
Proof.
  unfold jumpToStart. destruct (tv_start token) as [tstart|]; [|auto].
  destruct (Qle_bool 0 (Double.div (inject_Z tstart) 1000)); auto.
Qed.

Lemma navigateCurrentLevel_same s direction :
  let s' := navigateCurrentLevel s direction in
  karaokeData s' = karaokeData s /\ recordingMode s' = recordingMode s /\
  (onToken s -> onToken s').
Proof.
  unfold navigateCurrentLevel, onToken.
  set (tokens := getTokensByMode s).
  set (newIndex := Z.of_nat (activeTokenIndex s) + direction).
  destruct (Z.leb_spec 0 newIndex) as [H0|H0]; simpl; [|auto].
  destruct (Z.ltb_spec newIndex (Z.of_nat (length tokens))) as [H1|H1];
    [|auto].
  assert (Hlt : (Z.to_nat newIndex < length tokens)%nat) by lia.
  assert (Hset : forall s1,
            karaokeData s1 = karaokeData s ->
            recordingMode s1 = recordingMode s ->
            activeTokenIndex s1 = Z.to_nat newIndex ->
            karaokeData s1 = karaokeData s /\
            recordingMode s1 = recordingMode s /\
            ((activeTokenIndex s < length tokens)%nat ->
             (activeTokenIndex s1 < length (getTokensByMode s1))%nat)).
  { intros s1 Hd Hm Hi. split; [exact Hd|]. split; [exact Hm|]. intros _.
    rewrite (getTokensByMode_same _ _ Hd Hm), Hi. exact Hlt. }
  destruct (tokens !! Z.to_nat newIndex) as [token|];
    [|apply Hset; reflexivity].
  destruct (syncLocked s && audioRef s && hasTiming token);
    [|apply Hset; reflexivity].
  destruct (jumpToStart_same (set_activeTokenIndex s (Z.to_nat newIndex)) token)
    as (Hd & Hm & Hi).
  apply Hset; [exact Hd|exact Hm|exact Hi].
Qed.

Lemma goToNextToken_on_token s :
  onToken s ->
  onToken (goToNextToken s) /\
  karaokeData (goToNextToken s) = karaokeData s /\
  recordingMode (goToNextToken s) = recordingMode s.
Proof.
  unfold goToNextToken, onToken. intros Hon.
  set (tokens := getTokensByMode s) in *.
  set (r := skipForward (length tokens) tokens (activeTokenIndex s + 1)).
  destruct (Nat.ltb_spec r (length tokens)) as [Hlt|Hge]; [|auto].
  split; [|split; reflexivity].
  rewrite (getTokensByMode_same s (set_activeTokenIndex s r) eq_refl eq_refl).
  exact Hlt.
Qed.

Lemma goToPreviousToken_on_token s :
  onToken s ->
  exists s', goToPreviousToken s = Normal s' /\ onToken s' /\
             karaokeData s' = karaokeData s /\
             recordingMode s' = recordingMode s.
Proof.
  unfold goToPreviousToken, onToken. intros Hon.
  set (tokens := getTokensByMode s) in *.
  destruct (skipBackward tokens (activeTokenIndex s)) as [k|] eqn:E;
    [|exists s; auto].
  apply skipBackward_Some in E as (Hk & _ & _).
  destruct (lookup_lt_is_Some_2 tokens k) as [token Ek]; [lia|].
  rewrite Ek.
  assert (Hset : forall s1,
            karaokeData s1 = karaokeData s ->
            recordingMode s1 = recordingMode s ->
            activeTokenIndex s1 = k ->
            (activeTokenIndex s1 < length (getTokensByMode s1))%nat /\
            karaokeData s1 = karaokeData s /\
            recordingMode s1 = recordingMode s).
  { intros s1 Hd Hm Hi. rewrite (getTokensByMode_same _ _ Hd Hm), Hi.
    fold tokens. split; [lia|]. auto. }
  destruct (syncLocked s && audioRef s); eexists; (split; [reflexivity|]).
  - destruct (jumpToStart_same (set_activeTokenIndex s k) token)
      as (Hd & Hm & Hi).
    apply Hset; [exact Hd|exact Hm|exact Hi].
  - apply Hset; reflexivity.
Qed.

Lemma scanTokens_range newTimeMs i rest k :
  scanTokens newTimeMs i rest = Some k -> (i <= k < i + length rest)%nat.
Proof.
  revert i. induction rest as [|token rest IH]; intros i H; [discriminate|].
  cbn [scanTokens] in H. cbn [length].
  assert (Hrec : scanTokens newTimeMs (i + 1) rest = Some k ->
                 (i <= k < i + S (length rest))%nat).
  { intros H'. apply IH in H'. lia. }
  destruct (tv_start token) as [tstart|]; [|exact (Hrec H)].
  destruct (tv_end token) as [tend|]; [|exact (Hrec H)].
  destruct (Qle_bool (inject_Z tstart) newTimeMs
            && Qle_bool newTimeMs (inject_Z tend)).
  - injection H as <-. lia.
  - destruct rest as [|next rest']; [exact (Hrec H)|].
    destruct (Qlt_bool (inject_Z tend) newTimeMs
              && match tv_start next with
                 | Some nstart => Qlt_bool newTimeMs (inject_Z nstart)
                 | None => false
                 end).
    + injection H as <-. simpl. lia.
    + exact (Hrec H).
Qed.

Lemma targetTokenIndex_range tokens newTimeMs k :
  targetTokenIndex tokens newTimeMs = Some k -> (k < length tokens)%nat.
Proof.
  unfold targetTokenIndex.
  destruct (scanTokens newTimeMs 0 tokens) as [k1|] eqn:E1.
  - intros [= <-]. apply scanTokens_range in E1. lia.
  - destruct (last tokens) as [lastToken|] eqn:El.
    + assert (Hne : (0 < length tokens)%nat)
        by (destruct tokens; [discriminate|simpl; lia]).
      destruct (tv_end lastToken) as [tend|].
      * destruct (Qlt_bool (inject_Z tend) newTimeMs).
        -- intros [= <-]. lia.
        -- destruct (head tokens) as [firstToken|]; [|discriminate].
           destruct (tv_start firstToken) as [tstart|]; [|discriminate].
           destruct (Qlt_bool newTimeMs (inject_Z tstart)); [|discriminate].
           intros [= <-]. exact Hne.
      * destruct (head tokens) as [firstToken|]; [|discriminate].
        destruct (tv_start firstToken) as [tstart|]; [|discriminate].
        destruct (Qlt_bool newTimeMs (inject_Z tstart)); [|discriminate].
        intros [= <-]. exact Hne.
    + destruct tokens as [|token tokens]; [discriminate|].
      rewrite last_lookup in El. apply lookup_ge_None in El.
      simpl in El. lia.
Qed.

Lemma handleSeek_on_token s newTime :
  onToken s ->
  onToken (handleSeek s newTime) /\
  karaokeData (handleSeek s newTime) = karaokeData s /\
  recordingMode (handleSeek s newTime) = recordingMode s.
Proof.
  unfold handleSeek, onToken. intros Hon.
  destruct (negb (wKeyPressed s) && audioRef s && paused s); [|auto].
  set (s1 := if Qle_bool 0 newTime then set_currentTime s newTime else s).
  assert (H1 : karaokeData s1 = karaokeData s /\
               recordingMode s1 = recordingMode s /\
               activeTokenIndex s1 = activeTokenIndex s)
    by (subst s1; destruct (Qle_bool 0 newTime); auto).
  destruct H1 as (Hd & Hm & Hi).
  assert (Hkeep : (activeTokenIndex s1 < length (getTokensByMode s1))%nat /\
                  karaokeData s1 = karaokeData s /\
                  recordingMode s1 = recordingMode s).
  { rewrite (getTokensByMode_same s s1 Hd Hm), Hi. auto. }
  destruct (syncLocked s); [|exact Hkeep].
  destruct (getTokensByMode s) as [|token tokens] eqn:Et; [exact Hkeep|].
  destruct (targetTokenIndex (token :: tokens) (Double.mul newTime 1000))
    as [k|] eqn:Ek;
    [|exact Hkeep].
  destruct (negb (k =? activeTokenIndex s)%nat); [|exact Hkeep].
  apply targetTokenIndex_range in Ek.
  split; [|split; [exact Hd|exact Hm]].
  rewrite (getTokensByMode_same s (set_activeTokenIndex s1 k) Hd Hm), Et.
  exact Ek.
Qed.

Lemma move_on_token s m :
  onToken s ->
  exists s', move s m = Normal s' /\ onToken s' /\
             karaokeData s' = karaokeData s /\
             recordingMode s' = recordingMode s.
Proof.
  intros Hon. destruct m as [| |direction|newTime]; simpl.
  - exists (goToNextToken s). split; [reflexivity|].
    apply goToNextToken_on_token. exact Hon.
  - apply goToPreviousToken_on_token. exact Hon.
  - exists (navigateCurrentLevel s direction). split; [reflexivity|].
    destruct (navigateCurrentLevel_same s direction) as (Hd & Hm & Ht).
    auto.
  - exists (handleSeek s newTime). split; [reflexivity|].
    apply handleSeek_on_token. exact Hon.
Qed.

End MoveFacts.

(** X7. The cursor never leaves the token list: from a session whose cursor
    is on a token, any sequence of [goToNextToken], [goToPreviousToken],
    [navigateCurrentLevel] and [handleSeek] runs without an exception and
    ends with the cursor on a token of the same list, the document and the
    mode being unchanged. *)
Theorem cursor_stays_on_token (s : Editor.Session) (ms : list Moves.Move) :
  Moves.onToken s ->
  exists s', Moves.moveAll s ms = Normal s' /\ Moves.onToken s' /\
             Editor.karaokeData s' = Editor.karaokeData s /\
             Editor.recordingMode s' = Editor.recordingMode s.
Proof.
  revert s. induction ms as [|m ms IH]; intros s Hon; simpl.
  - exists s. auto.
  - destruct (move_on_token s m Hon) as (s1 & E1 & Hon1 & Hd1 & Hm1).
    rewrite E1. destruct (IH s1 Hon1) as (s' & E & Hon' & Hd & Hm).
    exists s'. split; [exact E|]. split; [exact Hon'|].
    split; congruence.
Qed.

Lemma cursor_stays_on_token_witness :
  Moves.onToken (Moves.spaced 0) /\
  exists s',
    Moves.moveAll (Moves.spaced 0)
      [Moves.Next; Moves.Arrow (-1); Moves.Previous; Moves.Arrow 1;
       Moves.Seek (3 # 2); Moves.Arrow 1; Moves.Next]
      = Normal s' /\
    Moves.onToken s' /\
    Editor.karaokeData s' = Editor.karaokeData (Moves.spaced 0) /\
    Editor.recordingMode s' = Editor.recordingMode (Moves.spaced 0).
Proof.
  assert (H : Moves.onToken (Moves.spaced 0))
    by (unfold Moves.onToken; vm_compute; lia).
  split; [exact H|]. exact (cursor_stays_on_token _ _ H).
Defined.

(** X8. In line mode [navigateParentLevel] does not look at the cursor: on
    a document whose first block has a line, direction [-1] never moves the
    cursor, and direction [1] always puts it on the first line of the
    second block (it stays where it is when there is one block only). *)
Theorem navigateParentLevel_lines (s : Editor.Session) (data : Document)
    (block : Block) (rest : list Block) (line : Line) (ls : list Line) :
  Editor.karaokeData s = Some data ->
  Editor.recordingMode s = Editor.Lines ->
  blocks data = block :: rest ->
  lines block = line :: ls ->
  Navigation.navigateParentLevel s (-1) = Normal s /\
  Navigation.navigateParentLevel s 1
    = Normal (match rest with
              | [] => s
              | _ :: _ => Editor.set_activeTokenIndex s (length (lines block))
              end).
Proof.
  intros Hd Hm Hb Hl. unfold Navigation.navigateParentLevel.
  rewrite Hd, Hm, Hb. unfold Navigation.lineItems.
  cbn [imap concat]. rewrite Hl. cbn [map app List.find snd fst].
  rewrite Nat.eqb_refl. cbn [fst].
  split.
  - replace (Z.max 0 (Z.min (Z.of_nat (length (block :: rest)) - 1)
                            (Z.of_nat 0 + -1))) with 0
      by (simpl length; lia).
    reflexivity.
  - destruct rest as [|b2 rest].
    + reflexivity.
    + replace (Z.max 0 (Z.min (Z.of_nat (length (block :: b2 :: rest)) - 1)
                              (Z.of_nat 0 + 1))) with 1
        by (simpl length; lia).
      simpl. rewrite Hl. reflexivity.
Qed.

Lemma navigateParentLevel_lines_witness :
  Navigation.navigateParentLevel (Moves.twoBlocks 2) (-1)
    = Normal (Moves.twoBlocks 2) /\
  Navigation.navigateParentLevel (Moves.twoBlocks 0) 1
    = Normal (Moves.twoBlocks 2) /\
  Navigation.navigateParentLevel (Moves.twoBlocks 2) 1
    = Normal (Moves.twoBlocks 2).
Proof.
  split; [|split].
  - exact (proj1 (navigateParentLevel_lines (Moves.twoBlocks 2) _ _ _ _ _
                    eq_refl eq_refl eq_refl eq_refl)).
  - exact (proj2 (navigateParentLevel_lines (Moves.twoBlocks 0) _ _ _ _ _
                    eq_refl eq_refl eq_refl eq_refl)).
  - exact (proj2 (navigateParentLevel_lines (Moves.twoBlocks 2) _ _ _ _ _
                    eq_refl eq_refl eq_refl eq_refl)).
Defined.

(** ** The voice panel *)

Section VoiceFacts.
Import Voices.

Lemma ids_filter (keep : Z -> bool) (vs : list Voice) :
  map id (List.filter (fun v => keep (id v)) vs)
    = List.filter keep (map id vs).
Proof.
  induction vs as [|v vs IH]; simpl; [reflexivity|].
  destruct (keep (id v)); simpl; rewrite IH; reflexivity.
Qed.

Lemma NoDup_filter_list {A : Type} (keep : A -> bool) (xs : list A) :
  NoDup xs -> NoDup (List.filter keep xs).
Proof.
  induction 1 as [|x xs Hx Hnd IH]; simpl; [constructor|].
  destruct (keep x); [|exact IH]. constructor; [|exact IH].
  intros Hin. apply Hx. apply list_elem_of_In in Hin.
  apply filter_In in Hin as [Hin _]. apply list_elem_of_In. exact Hin.
Qed.

Lemma addVoice_above p v :
  In v (panel_voices p) ->
  id v < Propagation.Math_max 0 (map id (panel_voices p)) + 1.
Proof.
  intros Hin.
  destruct (Math_max_greatest 0 (map id (panel_voices p))) as [_ Hle].
  specialize (Hle (id v) (or_intror (in_map id _ _ Hin))). lia.
Qed.

Lemma addVoice_positive p :
  1 <= Propagation.Math_max 0 (map id (panel_voices p)) + 1.
Proof.
  destruct (Math_max_greatest 0 (map id (panel_voices p))) as [_ Hle].
  specialize (Hle 0 (or_introl eq_refl)). lia.
Qed.

Lemma ids_addVoice p :
  NoDup (ids p) -> NoDup (ids (addVoice p)).
Proof.
  unfold ids, addVoice. simpl. intros Hnd. rewrite map_app. simpl.
  apply NoDup_app. split; [exact Hnd|]. split; [|apply NoDup_singleton].
  intros x Hx Hx'. apply list_elem_of_In in Hx.
  apply in_map_iff in Hx as (v & <- & Hv).
  apply list_elem_of_singleton in Hx'.
  pose proof (addVoice_above p v Hv). lia.
Qed.

Lemma ids_updateVoice p updated c :
  editsId (Update updated c) = false ->
  ids (updateVoice p updated c) = ids p.
Proof.
  unfold ids, updateVoice. simpl. intros Hc. rewrite map_map.
  apply map_ext. intros v. destruct (id v =? updated); [|reflexivity].
  destruct c; [discriminate|reflexivity..].
Qed.

Lemma removeVoice_ids p removed :
  ids (removeVoice p removed)
    = if (length (panel_voices p) <=? 1)%nat then ids p
      else List.filter (fun i => negb (i =? removed)) (ids p).
Proof.
  unfold ids, removeVoice.
  destruct (length (panel_voices p) <=? 1)%nat; [reflexivity|]. simpl.
  apply (ids_filter (fun i => negb (i =? removed))).
Qed.

(** With distinct ids and more than one voice, some voice is left after a
    removal. *)
Lemma others_left (xs : list Z) removed :
  NoDup xs -> (1 < length xs)%nat ->
  List.filter (fun i => negb (i =? removed)) xs <> [].
Proof.
  intros Hnd Hlen.
  destruct xs as [|a [|b xs]]; simpl in Hlen; try lia.
  apply NoDup_cons in Hnd as [Ha _].
  simpl. destruct (Z.eqb_spec a removed) as [->|Ha']; simpl; [|discriminate].
  destruct (Z.eqb_spec b removed) as [->|Hb']; simpl; [|discriminate].
  exfalso. apply Ha. left.
Qed.

Lemma act_keeps p a :
  editsId a = false ->
  NoDup (ids p) -> panel_voices p <> [] ->
  NoDup (ids (act p a)) /\ panel_voices (act p a) <> [].
Proof.
  intros Ha Hnd Hne. destruct a as [|removed|updated c]; simpl.
  - split; [apply ids_addVoice; exact Hnd|].
    unfold addVoice. simpl. intros E. apply app_eq_nil in E as [_ E].
    discriminate.
  - unfold removeVoice.
    destruct (Nat.leb_spec (length (panel_voices p)) 1) as [Hle|Hgt];
      [auto|].
    unfold ids in *. simpl.
    rewrite (ids_filter (fun i => negb (i =? removed))).
    split; [apply NoDup_filter_list; exact Hnd|].
    intros E.
    apply (others_left (map id (panel_voices p)) removed Hnd);
      [rewrite length_map; exact Hgt|].
    rewrite <- (ids_filter (fun i => negb (i =? removed))), E. reflexivity.
  - rewrite (ids_updateVoice p updated c Ha). split; [exact Hnd|].
    unfold updateVoice. simpl. destruct (panel_voices p); [congruence|discriminate].
Qed.

End VoiceFacts.

(** X9. [addVoice] appends one voice whose id is at least 1 and larger than
    the id of every voice already in the list; the current voice is not
    changed. *)
Theorem addVoice_fresh (p : Voices.Panel) :
  exists v,
    Voices.panel_voices (Voices.addVoice p) = Voices.panel_voices p ++ [v] /\
    1 <= id v /\
    Forall (fun u => id u < id v) (Voices.panel_voices p) /\
    Voices.panel_currentVoice (Voices.addVoice p)
      = Voices.panel_currentVoice p.
Proof.
  eexists. split; [reflexivity|]. simpl.
  split; [apply addVoice_positive|]. split; [|reflexivity].
  apply Forall_forall. intros u Hu. apply addVoice_above.
  apply list_elem_of_In. exact Hu.
Qed.

(** X10. The voice list keeps distinct ids and at least one voice: from a
    panel with distinct ids and a voice, any sequence of [addVoice],
    [removeVoice] and [updateVoice] on a name, colour or default position
    ends in a panel with distinct ids and a voice. *)
Theorem voices_stay_distinct (p : Voices.Panel)
    (actions : list Voices.Action) :
  forallb (fun a => negb (Voices.editsId a)) actions = true ->
  NoDup (Voices.ids p) ->
  Voices.panel_voices p <> [] ->
  NoDup (Voices.ids (foldl Voices.act p actions)) /\
  Voices.panel_voices (foldl Voices.act p actions) <> [].
Proof.
  revert p. induction actions as [|a actions IH]; intros p Ha Hnd Hne;
    simpl; [auto|].
  simpl in Ha. apply andb_prop in Ha as [Ha1 Ha2].
  apply negb_true_iff in Ha1.
  destruct (act_keeps p a Ha1 Hnd Hne) as [Hnd' Hne'].
  apply IH; assumption.
Qed.

Lemma voices_stay_distinct_witness :
  let actions :=
    [Voices.Add; Voices.Add; Voices.Remove 1;
     Voices.Update 2 (Voices.SetName "second"); Voices.Remove 3;
     Voices.Remove 2] in
  Voices.ids (foldl Voices.act Voices.initial actions) = [2] /\
  NoDup (Voices.ids (foldl Voices.act Voices.initial actions)) /\
  Voices.panel_voices (foldl Voices.act Voices.initial actions) <> [].
Proof.
  intros actions. split; [reflexivity|].
  apply (voices_stay_distinct Voices.initial actions).
  - reflexivity.
  - apply NoDup_singleton.
  - discriminate.
Defined.

(** X11. Removing a voice never leaves the panel on a voice that is gone:
    when the ids are distinct and not 0 and the current voice is in the
    list, the current voice after [removeVoice] is in the remaining
    list. *)
Theorem removeVoice_current_exists (p : Voices.Panel) (removed : Z) :
  NoDup (Voices.ids p) ->
  Forall (fun i => i <> 0) (Voices.ids p) ->
  In (Voices.panel_currentVoice p) (Voices.ids p) ->
  In (Voices.panel_currentVoice (Voices.removeVoice p removed))
     (Voices.ids (Voices.removeVoice p removed)).
Proof.
  intros Hnd Hnz Hin. unfold Voices.removeVoice.
  destruct (Nat.leb_spec (length (Voices.panel_voices p)) 1) as [Hle|Hgt];
    [exact Hin|].
  unfold Voices.ids in *. simpl.
  rewrite (ids_filter (fun i => negb (i =? removed))).
  destruct (Z.eqb_spec (Voices.panel_currentVoice p) removed) as [Ec|Ec].
  - destruct (List.find (fun v => negb (id v =? removed))
                        (Voices.panel_voices p)) as [v|] eqn:Ef.
    + apply find_some in Ef as [Hv Hne].
      assert (Hid : In (id v) (map id (Voices.panel_voices p)))
        by (apply in_map; exact Hv).
      rewrite Forall_forall in Hnz.
      assert (Hz : id v <> 0)
        by (apply Hnz, list_elem_of_In; exact Hid).
      unfold jsor. apply Z.eqb_neq in Hz. rewrite Hz.
      apply filter_In. split; [exact Hid|exact Hne].
    + exfalso.
      apply (others_left (map id (Voices.panel_voices p)) removed Hnd);
        [rewrite length_map; exact Hgt|].
      rewrite <- (ids_filter (fun i => negb (i =? removed))).
      destruct (List.filter (fun v => negb (id v =? removed))
                            (Voices.panel_voices p)) as [|v vs] eqn:E;
        [reflexivity|].
      exfalso.
      assert (Hv : In v (List.filter (fun v => negb (id v =? removed))
                                     (Voices.panel_voices p)))
        by (rewrite E; left; reflexivity).
      apply filter_In in Hv as [Hv Hne].
      apply (find_none _ _ Ef) in Hv. simpl in Hv. congruence.
  - apply filter_In. split; [exact Hin|].
    apply negb_true_iff, Z.eqb_neq. exact Ec.
Qed.

Lemma removeVoice_current_exists_witness :
  Voices.removeVoice Voices.duet 1
    = Voices.mkPanel [mkVoice 2 "" "C" "#FFFFFF"] 2 /\
  In (Voices.panel_currentVoice (Voices.removeVoice Voices.duet 1))
     (Voices.ids (Voices.removeVoice Voices.duet 1)).
Proof.
  split; [reflexivity|].
  apply (removeVoice_current_exists Voices.duet 1).
  - apply NoDup_cons. split; [|apply NoDup_singleton].
    intros H. apply list_elem_of_In in H. destruct H as [H|[]]. discriminate.
  - repeat constructor; discriminate.
  - left. reflexivity.
Defined.

(** ** Playback: the progress bar of the rendered lines *)

Section BarFacts.
Import Playback Stage.
Local Open Scope Q_scope.

Lemma inject_Z_eq (a b : Z) : inject_Z a == inject_Z b <-> a = b.
Proof.
  split; [|intros ->; reflexivity]. intros H.
  unfold Qeq in H. simpl in H. lia.
Qed.

Lemma quotient_None a b : quotient a b = None <-> b == 0.
Proof.
  unfold quotient. destruct (Qeq_bool b 0) eqn:E.
  - apply Qeq_bool_iff in E. split; auto.
  - split; [discriminate|]. intros H. apply Qeq_bool_iff in H. congruence.
Qed.

End BarFacts.

(** X12. [getProgress], which sizes the bars of the rendered lines, words
    and characters, is not a finite number exactly when [start], [end] and
    the playhead coincide (it divides 0 by 0); in every other case it
    returns the value of [getTokenProgress]. *)
Theorem getProgress_agrees (currentTime : Q) (tstart tend : Z) :
  (Stage.getProgress currentTime tstart tend = None <->
     tstart = tend /\ (Double.mul currentTime 1000 == inject_Z tstart)%Q) /\
  (forall q, Stage.getProgress currentTime tstart tend = Some q ->
     (q == Playback.progressOf tstart tend currentTime)%Q).
Proof.
  unfold Stage.getProgress.
  set (now := Double.mul currentTime 1000).
  destruct (Qlt_bool now (inject_Z tstart)) eqn:Hb.
  { apply Qlt_bool_iff in Hb. split.
    - split; [discriminate|]. intros [_ E]. rewrite E in Hb.
      exfalso. apply (Qlt_irrefl _ Hb).
    - intros q [= <-]. rewrite progress_before; [reflexivity|exact Hb]. }
  apply Qlt_bool_false in Hb.
  destruct (Qlt_bool (inject_Z tend) now) eqn:Ha.
  { apply Qlt_bool_iff in Ha. split.
    - split; [discriminate|]. intros [-> E]. rewrite E in Ha.
      exfalso. apply (Qlt_irrefl _ Ha).
    - intros q [= <-]. rewrite progress_after; [reflexivity|exact Hb|].
      apply Qlt_le_weak. exact Ha. }
  apply Qlt_bool_false in Ha.
  assert (Hle : tstart <= tend) by (rewrite Zle_Qle; lra).
  assert (Hzero : (Double.sub (inject_Z tend) (inject_Z tstart) == 0)%Q
                  <-> tstart = tend).
  { split.
    - intros H. destruct (Z.eq_dec tstart tend) as [E|E]; [exact E|exfalso].
      pose proof (sub_Z_positive tstart tend ltac:(lia)) as H1. lra.
    - intros ->. apply sub_Z_zero. }
  split.
  - split.
    + intros H.
      destruct (Stage.quotient (Double.sub now (inject_Z tstart))
                  (Double.sub (inject_Z tend) (inject_Z tstart))) eqn:Eq;
        [discriminate|].
      apply quotient_None in Eq. apply Hzero in Eq. subst tend.
      split; [reflexivity|]. lra.
    + intros [E _]. apply Hzero in E.
      rewrite (proj2 (quotient_None _ _) E). reflexivity.
  - intros q Hq. unfold Stage.quotient in Hq.
    destruct (Qeq_bool (Double.sub (inject_Z tend) (inject_Z tstart)) 0) eqn:Ez;
      [discriminate|].
    injection Hq as <-.
    assert (Hlt : tstart < tend).
    { destruct (Z.eq_dec tstart tend) as [E|E]; [|lia].
      apply Hzero in E. apply Qeq_bool_iff in E. congruence. }
    pose proof (sub_Z_positive tstart tend Hlt) as Hd.
    destruct (Qlt_le_dec now (inject_Z tend)) as [Hin|Hend].
    + destruct (progress_during tstart tend currentTime Hb Hin) as [E _].
      rewrite E. reflexivity.
    + assert (Et : (now == inject_Z tend)%Q) by lra.
      rewrite progress_after; [|exact Hb|exact Hend].
      assert (E1 : (Double.sub now (inject_Z tstart)
                    == Double.sub (inject_Z tend) (inject_Z tstart))%Q).
      { unfold Double.sub. apply fl_comp. rewrite Et. reflexivity. }
      assert (E2 : (Double.div (Double.sub now (inject_Z tstart))
                               (Double.sub (inject_Z tend) (inject_Z tstart))
                    == 1)%Q).
      { unfold Double.div at 1. transitivity (Double.fl 1); [|exact fl_1].
        apply fl_comp. rewrite E1. field. lra. }
      unfold Double.mul. transitivity (Double.fl 100); [|exact fl_100].
      apply fl_comp. rewrite E2. reflexivity.
Qed.

(** ** Playback: the line scrolled into view *)

Section ActiveLineFacts.
Import Editor Stage.

Lemma foldl_collect {A B : Type} (f : list B -> A -> list B)
    (g : A -> list B) (xs : list A) (acc : list B) :
  (forall acc x, f acc x = acc ++ g x) ->
  foldl f acc xs = acc ++ concat (map g xs).
Proof.
  intros H. revert acc. induction xs as [|x xs IH]; intros acc; simpl.
  - rewrite app_nil_r. reflexivity.
  - rewrite IH, H, app_assoc. reflexivity.
Qed.

Lemma In_imap_pair {A : Type} (xs : list A) i x :
  In (i, x) (imap pair xs) <-> xs !! i = Some x.
Proof.
  rewrite <- list_elem_of_In, elem_of_lookup_imap. split.
  - intros (j & y & [= -> ->] & H). exact H.
  - intros H. exists i, x. auto.
Qed.

Lemma In_allLines line bs :
  In line (allLines bs) <->
  exists b l block, bs !! b = Some block /\ lines block !! l = Some line.
Proof.
  unfold allLines. rewrite in_concat. split.
  - intros (ls & Hls & Hin). apply in_map_iff in Hls as (block & <- & Hb).
    apply list_elem_of_In, list_elem_of_lookup in Hb as [b Hb].
    apply list_elem_of_In, list_elem_of_lookup in Hin as [l Hl]. eauto.
  - intros (b & l & block & Hb & Hl). exists (lines block). split.
    + apply in_map. apply list_elem_of_In. eapply list_elem_of_lookup_2; eauto.
    + apply list_elem_of_In. eapply list_elem_of_lookup_2; eauto.
Qed.

Lemma In_activeLines now bs found :
  In found (activeLines now bs) <->
  exists b l block line,
    bs !! b = Some block /\ lines block !! l = Some line /\
    activeAt now line = true /\ found = lineId b l.
Proof.
  unfold activeLines.
  rewrite (foldl_collect _
    (fun ib => concat (map (fun il =>
       if activeAt now il.2 then [lineId ib.1 il.1] else [])
       (imap pair (lines ib.2))))).
  2:{ intros acc ib.
      apply (foldl_collect _
        (fun il => if activeAt now il.2 then [lineId ib.1 il.1] else [])).
      intros acc' il. destruct (activeAt now il.2);
        [reflexivity|rewrite app_nil_r; reflexivity]. }
  simpl. rewrite in_concat. split.
  - intros (xs & Hxs & Hin).
    apply in_map_iff in Hxs as ([b block] & <- & Hb).
    apply In_imap_pair in Hb. simpl in Hin.
    apply in_concat in Hin as (ys & Hys & Hin).
    apply in_map_iff in Hys as ([l line] & <- & Hl).
    apply In_imap_pair in Hl. simpl in Hin.
    destruct (activeAt now line) eqn:E; [|destruct Hin].
    destruct Hin as [<-|[]]. exists b, l, block, line. auto.
  - intros (b & l & block & line & Hb & Hl & Ha & ->).
    eexists. split.
    + apply in_map_iff. exists (b, block). split; [reflexivity|].
      apply In_imap_pair. exact Hb.
    + simpl. apply in_concat. eexists. split.
      * apply in_map_iff. exists (l, line). split; [reflexivity|].
        apply In_imap_pair. exact Hl.
      * simpl. rewrite Ha. left. reflexivity.
Qed.

Lemma nextLineIn_Some now b k rest found :
  nextLineIn now b k rest = Some found ->
  exists l line, rest !! l = Some line /\ found = lineId b (k + l) /\
    Qlt_bool now (inject_Z (start (line_tok line))) = true.
Proof.
  revert k. induction rest as [|line rest IH]; intros k H; [discriminate|].
  simpl in H.
  destruct (Qlt_bool now (inject_Z (start (line_tok line)))) eqn:E.
  - injection H as <-. exists 0%nat, line. rewrite Nat.add_0_r. auto.
  - apply IH in H as (l & line' & Hl & -> & Hup).
    exists (S l), line'. split; [exact Hl|]. split; [|exact Hup].
    f_equal. lia.
Qed.

Lemma nextLineIn_None now b k rest :
  nextLineIn now b k rest = None ->
  forall line, In line rest ->
    Qlt_bool now (inject_Z (start (line_tok line))) = false.
Proof.
  revert k. induction rest as [|line rest IH]; intros k H x Hx; [destruct Hx|].
  simpl in H.
  destruct (Qlt_bool now (inject_Z (start (line_tok line)))) eqn:E;
    [discriminate|].
  destruct Hx as [<-|Hx]; [exact E|]. exact (IH _ H x Hx).
Qed.

Lemma nextLine_Some now k rest found :
  nextLine now k rest = Some found ->
  exists b l block line,
    rest !! b = Some block /\ lines block !! l = Some line /\
    found = lineId (k + b) l /\
    Qlt_bool now (inject_Z (start (line_tok line))) = true.
Proof.
  revert k. induction rest as [|block rest IH]; intros k H; [discriminate|].
  simpl in H. destruct (nextLineIn now k 0 (lines block)) as [x|] eqn:E.
  - injection H as <-. apply nextLineIn_Some in E as (l & line & Hl & -> & Hup).
    exists 0%nat, l, block, line. rewrite Nat.add_0_r. auto.
  - apply IH in H as (b & l & block' & line & Hb & Hl & -> & Hup).
    exists (S b), l, block', line. split; [exact Hb|]. split; [exact Hl|].
    split; [|exact Hup]. f_equal. lia.
Qed.

Lemma nextLine_None now k rest :
  nextLine now k rest = None ->
  forall line, In line (allLines rest) ->
    Qlt_bool now (inject_Z (start (line_tok line))) = false.
Proof.
  revert k. induction rest as [|block rest IH]; intros k H x Hx;
    [destruct Hx|].
  simpl in H. destruct (nextLineIn now k 0 (lines block)) as [y|] eqn:E;
    [discriminate|].
  unfold allLines in Hx. simpl in Hx. apply in_app_or in Hx as [Hx|Hx].
  - exact (nextLineIn_None _ _ _ _ E x Hx).
  - exact (IH _ H x Hx).
Qed.

End ActiveLineFacts.

(** X13. [getActiveLineId] always names a line that exists in the
    document; when some line is active at the playhead the line it names is
    active, and when none is active but some line starts later the line it
    names starts later.  It returns [null] only if no line is active, none
    starts later and the last block has no line. *)
Theorem getActiveLineId_names_a_line (json : Document) (currentTime : Q) :
  let now := Double.mul currentTime 1000 in
  let upcoming line := Qlt_bool now (inject_Z (start (line_tok line))) in
  let bs := blocks json in
  match Stage.getActiveLineId (Some json) currentTime with
  | Some found =>
    exists b l block line,
      found = Stage.lineId b l /\
      bs !! b = Some block /\ lines block !! l = Some line /\
      ((exists line', In line' (Editor.allLines bs) /\
                      Stage.activeAt now line' = true) ->
       Stage.activeAt now line = true) /\
      ((forall line', In line' (Editor.allLines bs) ->
                      Stage.activeAt now line' = false) ->
       (exists line', In line' (Editor.allLines bs) /\
                      upcoming line' = true) ->
       upcoming line = true)
  | None =>
    (forall line, In line (Editor.allLines bs) ->
       Stage.activeAt now line = false /\ upcoming line = false) /\
    (forall lastBlock, last bs = Some lastBlock -> lines lastBlock = [])
  end.
Proof.
  intros now upcoming bs. unfold Stage.getActiveLineId. fold now. fold bs.
  set (active := Stage.activeLines now bs).
  assert (Hfrom : forall found, In found active ->
            exists b l block line,
              found = Stage.lineId b l /\
              bs !! b = Some block /\ lines block !! l = Some line /\
              ((exists line', In line' (Editor.allLines bs) /\
                              Stage.activeAt now line' = true) ->
               Stage.activeAt now line = true) /\
              ((forall line', In line' (Editor.allLines bs) ->
                              Stage.activeAt now line' = false) ->
               (exists line', In line' (Editor.allLines bs) /\
                              upcoming line' = true) ->
               upcoming line = true)).
  { intros found Hin.
    apply In_activeLines in Hin as (b & l & block & line & Hb & Hl & Ha & ->).
    exists b, l, block, line. repeat split; auto.
    intros Hnone _. rewrite Hnone in Ha; [discriminate|].
    apply In_allLines. eauto. }
  assert (Hnone : active = [] ->
            forall line, In line (Editor.allLines bs) ->
              Stage.activeAt now line = false).
  { intros E line Hin. destruct (Stage.activeAt now line) eqn:Ha; [|reflexivity].
    apply In_allLines in Hin as (b & l & block & Hb & Hl).
    assert (Hx : In (Stage.lineId b l) active)
      by (apply In_activeLines; exists b, l, block, line; auto).
    rewrite E in Hx. destruct Hx. }
  destruct (Nat.ltb_spec 1 (length active)) as [Hmany|Hfew].
  { destruct (lookup_lt_is_Some_2 active (length active / 2)) as [found Hf].
    { apply Nat.div_lt; lia. }
    rewrite Hf. apply Hfrom. apply list_elem_of_In.
    eapply list_elem_of_lookup_2. exact Hf. }
  destruct (Nat.eqb_spec (length active) 1) as [Hone|Hnot].
  { destruct active as [|found [|]] eqn:E; try discriminate. simpl.
    apply Hfrom. left. reflexivity. }
  assert (E : active = []) by (destruct active; [reflexivity|simpl in *; lia]).
  specialize (Hnone E).
  destruct (Stage.nextLine now 0 bs) as [found|] eqn:En.
  { apply nextLine_Some in En as (b & l & block & line & Hb & Hl & -> & Hup).
    simpl. exists b, l, block, line. repeat split; auto.
    intros (line' & Hin & Ha). rewrite (Hnone line' Hin) in Ha. discriminate. }
  pose proof (nextLine_None _ _ _ En) as Hlate.
  destruct (last bs) as [lastBlock|] eqn:El.
  - destruct (Nat.ltb_spec 0 (length (lines lastBlock))) as [Hpos|Hzero].
    + rewrite last_lookup in El.
      destruct (lookup_lt_is_Some_2 (lines lastBlock)
                  (length (lines lastBlock) - 1)) as [line Hl]; [lia|].
      exists (length bs - 1)%nat, (length (lines lastBlock) - 1)%nat,
             lastBlock, line.
      split; [reflexivity|]. split.
      { replace (length bs - 1)%nat with (Init.Nat.pred (length bs)) by lia.
        exact El. }
      split; [exact Hl|]. split.
      * intros (line' & Hin & Ha). rewrite (Hnone line' Hin) in Ha.
        discriminate.
      * intros _ (line' & Hin & Hup). unfold upcoming in Hup.
        rewrite (Hlate line' Hin) in Hup. discriminate.
    + split; [intros line Hin; split; [apply Hnone|apply Hlate]; exact Hin|].
      intros lb [= <-].
      destruct (lines lastBlock); [reflexivity|simpl in Hzero; lia].
  - split; [intros line Hin; split; [apply Hnone|apply Hlate]; exact Hin|].
    intros lb Hlb. discriminate.
Qed.

(** ** Playback: the clock display *)

Section ClockFacts.
Import Stage Clock.

Lemma Qfloor_unique (z : Z) (x : Q) :
  (inject_Z z <= x)%Q -> (x < inject_Z (z + 1))%Q -> Qfloor x = z.
Proof.
  intros Hle Hlt.
  assert (H1 : z <= Qfloor x).
  { rewrite <- (Qfloor_Z z). apply Qfloor_resp_le. exact Hle. }
  assert (H2 : Qfloor x < z + 1).
  { rewrite Zlt_Qlt. eapply Qle_lt_trans; [apply Qfloor_le|exact Hlt]. }
  lia.
Qed.

Lemma Qfloor_minus (x : Q) (k : Z) :
  Qfloor (x - inject_Z k) = Qfloor x - k.
Proof.
  assert (E : forall z, (inject_Z z == inject_Z (z - k) + inject_Z k)%Q).
  { intros z. rewrite <- inject_Z_plus.
    replace (z - k + k) with z by lia. reflexivity. }
  apply Qfloor_unique.
  - pose proof (Qfloor_le x) as H. rewrite (E (Qfloor x)) in H. lra.
  - pose proof (Qlt_floor x) as H. rewrite (E (Qfloor x + 1)) in H.
    replace (Qfloor x - k + 1) with (Qfloor x + 1 - k) by lia. lra.
Qed.

Lemma padStart2_twoDigits (s : Z) :
  0 <= s < 60 -> padStart2 (pretty s) = twoDigits s.
Proof.
  intros Hs.
  assert (Hall : forallb (fun n =>
                    String.eqb (padStart2 (pretty (Z.of_nat n)))
                               (twoDigits (Z.of_nat n)))
                   (seq 0 60) = true) by (vm_compute; reflexivity).
  rewrite forallb_forall in Hall.
  specialize (Hall (Z.to_nat s)).
  rewrite Z2Nat.id in Hall by lia.
  apply String.eqb_eq, Hall, in_seq. lia.
Qed.

End ClockFacts.

(** X14. For a time between 0 and 2^53 seconds [formatTime] shows the whole
    seconds of the time as minutes, a colon and the seconds below 60
    written with exactly two digits. *)
Theorem formatTime_minutes_seconds (time : Q) :
  (0 <= time)%Q -> (time < inject_Z (2 ^ 53))%Q ->
  exists m s : Z,
    0 <= m /\ 0 <= s < 60 /\ 60 * m + s = Qfloor time /\
    Stage.formatTime time
      = (pretty m +:+ ":" +:+ Clock.twoDigits s)%string.
Proof.
  intros H0 _. unfold Stage.formatTime, Stage.remainder60.
  set (m := Qfloor (time / 60)).
  assert (Hq : (0 <= time / 60)%Q).
  { apply Qle_shift_div_l; [reflexivity|]. lra. }
  assert (Hm : 0 <= m).
  { unfold m. rewrite <- (Qfloor_Z 0). apply Qfloor_resp_le. exact Hq. }
  apply Qle_bool_iff in Hq as Hb. rewrite Hb. fold m.
  rewrite Qfloor_minus.
  assert (Hlo : (inject_Z m <= time / 60)%Q) by apply Qfloor_le.
  assert (Hhi : (time / 60 < inject_Z (m + 1))%Q) by apply Qlt_floor.
  assert (Hlo' : (inject_Z (60 * m) <= time)%Q).
  { rewrite inject_Z_mult.
    assert (E : (time == 60 * (time / 60))%Q) by (field).
    rewrite E. apply Qmult_le_l; [reflexivity|exact Hlo]. }
  assert (Hhi' : (time < inject_Z (60 * m + 60))%Q).
  { replace (60 * m + 60) with (60 * (m + 1)) by lia. rewrite inject_Z_mult.
    assert (E : (time == 60 * (time / 60))%Q) by (field).
    rewrite E at 1. apply Qmult_lt_l; [reflexivity|exact Hhi]. }
  assert (Hf1 : 60 * m <= Qfloor time).
  { rewrite <- (Qfloor_Z (60 * m)). apply Qfloor_resp_le. exact Hlo'. }
  assert (Hf2 : Qfloor time < 60 * m + 60).
  { rewrite Zlt_Qlt. eapply Qle_lt_trans; [apply Qfloor_le|exact Hhi']. }
  exists m, (Qfloor time - 60 * m).
  split; [exact Hm|]. split; [lia|]. split; [lia|].
  rewrite padStart2_twoDigits by lia. reflexivity.
Qed.

Lemma formatTime_minutes_seconds_witness :
  Stage.formatTime (251 # 2) = "2:05" /\
  exists m s : Z,
    0 <= m /\ 0 <= s < 60 /\ 60 * m + s = Qfloor (251 # 2) /\
    Stage.formatTime (251 # 2)
      = (pretty m +:+ ":" +:+ Clock.twoDigits s)%string.
Proof.
  split; [vm_compute; reflexivity|].
  apply formatTime_minutes_seconds; [discriminate|reflexivity].
Defined.

(** ** Playback: the tokens at the playhead *)

Section MarkFacts.
Import Editor Stage Marks.

Lemma imap_snoc {A B : Type} (f : nat -> A -> B) (xs : list A) (x : A) :
  imap f (xs ++ [x]) = imap f xs ++ [f (length xs) x].
Proof. rewrite imap_app. simpl. rewrite Nat.add_0_r. reflexivity. Qed.

Lemma concat_snoc {A : Type} (xss : list (list A)) (xs : list A) :
  concat (xss ++ [xs]) = concat xss ++ xs.
Proof. rewrite concat_app. simpl. rewrite app_nil_r. reflexivity. Qed.

Lemma forEach_nil {A R : Type} (body : R -> nat -> A -> Completion R) r :
  forEach body [] r = Normal r.
Proof. reflexivity. Qed.

Lemma forEach_snoc {A R : Type} (body : R -> nat -> A -> Completion R)
    (xs : list A) (x : A) (r : R) :
  forEach body (xs ++ [x]) r
    = match forEach body xs r with
      | Normal r' => body r' (length xs) x
      | Throw e => Throw e
      end.
Proof. unfold forEach. rewrite imap_snoc, foldl_snoc. reflexivity. Qed.

Lemma current_eta r :
  mkCurrent (cur_blocks r) (cur_lines r) (cur_words r) (cur_chars r) = r.
Proof. destruct r; reflexivity. Qed.

Lemma chars_loop now bi li wi cs r :
  forEach (fun r ci char =>
             Normal (pushChar r (mkMarked char bi (Some li) (Some wi)
                                          (Some ci) (flagsAt now char))))
          cs r
    = Normal (mkCurrent (cur_blocks r) (cur_lines r) (cur_words r)
                        (cur_chars r ++ imap (ofChar now bi li wi) cs)).
Proof.
  induction cs as [|c cs IH] using rev_ind.
  - rewrite forEach_nil. simpl. rewrite app_nil_r, current_eta. reflexivity.
  - rewrite forEach_snoc, IH, imap_snoc. unfold pushChar. simpl.
    rewrite app_assoc. reflexivity.
Qed.

Lemma markWord_flat now bi li wi word r :
  markWord now bi li wi word r
    = Normal (mkCurrent (cur_blocks r) (cur_lines r)
                        (cur_words r ++ [ofWord now bi li wi word])
                        (cur_chars r ++ charsOf now bi li wi word)).
Proof.
  unfold markWord, charsOf, charsOrEmpty.
  destruct (chars word) as [cs|]; simpl.
  - rewrite chars_loop. reflexivity.
  - rewrite app_nil_r. reflexivity.
Qed.

Lemma words_loop now bi li ws r :
  forEach (fun r wi word => markWord now bi li wi word r) ws r
    = Normal (mkCurrent (cur_blocks r) (cur_lines r)
                        (cur_words r ++ imap (ofWord now bi li) ws)
                        (cur_chars r ++ concat (imap (charsOf now bi li) ws))).
Proof.
  induction ws as [|w ws IH] using rev_ind.
  - rewrite forEach_nil. simpl. rewrite !app_nil_r, current_eta. reflexivity.
  - rewrite forEach_snoc, IH, markWord_flat, !imap_snoc, concat_snoc. simpl.
    rewrite !app_assoc. reflexivity.
Qed.

Lemma markLine_flat now bi li line r :
  markLine now bi li line r
    = if bool_decide (is_Some (words line)) then
        Normal (mkCurrent (cur_blocks r)
                          (cur_lines r ++ [ofLine now bi li line])
                          (cur_words r ++ lineWords now bi li line)
                          (cur_chars r ++ lineChars now bi li line))
      else Throw TypeError.
Proof.
  unfold markLine, lineWords, lineChars, wordsOrEmpty.
  destruct (words line) as [ws|]; simpl; [|reflexivity].
  rewrite words_loop. reflexivity.
Qed.

Lemma lines_loop now bi ls r :
  forEach (fun r li line => markLine now bi li line r) ls r
    = if forallb (fun line => bool_decide (is_Some (words line))) ls then
        Normal (mkCurrent (cur_blocks r)
                  (cur_lines r ++ imap (ofLine now bi) ls)
                  (cur_words r ++ concat (imap (lineWords now bi) ls))
                  (cur_chars r ++ concat (imap (lineChars now bi) ls)))
      else Throw TypeError.
Proof.
  induction ls as [|l ls IH] using rev_ind.
  - rewrite forEach_nil. simpl. rewrite !app_nil_r, current_eta. reflexivity.
  - rewrite forEach_snoc, IH, forallb_app. simpl.
    destruct (forallb (fun line => bool_decide (is_Some (words line))) ls);
      simpl; [|reflexivity].
    rewrite markLine_flat, andb_true_r.
    destruct (bool_decide (is_Some (words l))); [|reflexivity].
    rewrite !imap_snoc, !concat_snoc. simpl. rewrite !app_assoc. reflexivity.
Qed.

Lemma markBlock_flat now bi block r :
  markBlock now bi block r
    = if forallb (fun line => bool_decide (is_Some (words line)))
                 (lines block) then
        Normal (mkCurrent
                  (cur_blocks r ++ [ofBlock now bi block])
                  (cur_lines r ++ imap (ofLine now bi) (lines block))
                  (cur_words r
                     ++ concat (imap (lineWords now bi) (lines block)))
                  (cur_chars r
                     ++ concat (imap (lineChars now bi) (lines block))))
      else Throw TypeError.
Proof. unfold markBlock. rewrite lines_loop. reflexivity. Qed.

Lemma forallb_concat {A : Type} (p : A -> bool) (xss : list (list A)) :
  forallb p (concat xss) = forallb (forallb p) xss.
Proof.
  induction xss as [|xs xss IH]; simpl; [reflexivity|].
  rewrite forallb_app, IH. reflexivity.
Qed.

Lemma blocks_loop now bs r :
  forEach (fun r bi block => markBlock now bi block r) bs r
    = if forallb (fun line => bool_decide (is_Some (words line)))
                 (allLines bs) then
        Normal (mkCurrent
          (cur_blocks r ++ imap (ofBlock now) bs)
          (cur_lines r
             ++ concat (imap (fun bi block =>
                                imap (ofLine now bi) (lines block)) bs))
          (cur_words r
             ++ concat (imap (fun bi block =>
                                concat (imap (lineWords now bi) (lines block)))
                             bs))
          (cur_chars r
             ++ concat (imap (fun bi block =>
                                concat (imap (lineChars now bi) (lines block)))
                             bs)))
      else Throw TypeError.
Proof.
  unfold allLines. induction bs as [|b bs IH] using rev_ind.
  - rewrite forEach_nil. simpl. rewrite !app_nil_r, current_eta. reflexivity.
  - rewrite forEach_snoc, IH, map_app, concat_app, forallb_app. simpl.
    rewrite app_nil_r.
    destruct (forallb (fun line => bool_decide (is_Some (words line)))
                      (concat (map lines bs))); simpl; [|reflexivity].
    rewrite markBlock_flat.
    destruct (forallb (fun line => bool_decide (is_Some (words line)))
                      (lines b)); [|reflexivity].
    rewrite !imap_snoc, !concat_snoc. simpl. rewrite !app_assoc. reflexivity.
Qed.

End MarkFacts.

(** X15. [getCurrentTokens] throws a [TypeError] exactly when some line of
    the document has no [words] array; otherwise its four arrays hold every
    block, line, word and character of the document in document order, each
    with its indices and its three flags. *)
Theorem getCurrentTokens_document_order (json : Document) (currentTime : Q) :
  Stage.getCurrentTokens (Some json) currentTime
    = if Tree.wordsPresent json
      then Normal (Marks.marked (Double.mul currentTime 1000) json)
      else Throw TypeError.
Proof.
  unfold Stage.getCurrentTokens, Tree.wordsPresent. rewrite blocks_loop.
  reflexivity.
Qed.

Section FlagFacts.
Import Editor Playback Stage Marks.

Lemma In_imap {A B : Type} (f : nat -> A -> B) (xs : list A) (y : B) :
  In y (imap f xs) -> exists i x, y = f i x.
Proof.
  intros H. apply list_elem_of_In, elem_of_lookup_imap in H
    as (i & x & -> & _). eauto.
Qed.

Lemma In_concat_imap {A B : Type} (f : nat -> A -> list B) (xs : list A)
    (y : B) :
  In y (concat (imap f xs)) -> exists i x, In y (f i x).
Proof.
  intros H. apply in_concat in H as (ys & Hys & Hy).
  apply In_imap in Hys as (i & x & ->). eauto.
Qed.

Lemma marked_flagsAt now json m :
  In m (entries (marked now json)) ->
  marked_flags m = flagsAt now (marked_tok m).
Proof.
  unfold entries, marked. simpl. intros H.
  repeat (apply in_app_or in H as [H|H]).
  - apply In_imap in H as (bi & block & ->). reflexivity.
  - apply In_concat_imap in H as (bi & block & H).
    apply In_imap in H as (li & line & ->). reflexivity.
  - apply In_concat_imap in H as (bi & block & H).
    apply In_concat_imap in H as (li & line & H).
    apply In_imap in H as (wi & word & ->). reflexivity.
  - apply In_concat_imap in H as (bi & block & H).
    apply In_concat_imap in H as (li & line & H).
    apply In_concat_imap in H as (wi & word & H).
    apply In_imap in H as (ci & char & ->). reflexivity.
Qed.

Lemma flagsAt_meaning currentTime tok :
  let f := flagsAt (Double.mul currentTime 1000) tok in
  let p := progressOf (start tok) (end_ tok) currentTime in
  (start tok <= end_ tok -> exactlyOne f = true) /\
  (end_ tok < start tok -> isActive f = false) /\
  (isFuture f = true -> (p == 0)%Q) /\
  (start tok <= end_ tok -> isPast f = true -> (p == 100)%Q).
Proof.
  intros f p. subst f p. unfold flagsAt, exactlyOne. simpl.
  set (now := Double.mul currentTime 1000).
  set (s := start tok). set (e := end_ tok).
  destruct (Qle_bool (inject_Z s) now) eqn:E1;
    destruct (Qle_bool now (inject_Z e)) eqn:E2;
    destruct (Qlt_bool (inject_Z e) now) eqn:E3;
    destruct (Qlt_bool now (inject_Z s)) eqn:E4; simpl;
    try apply Qle_bool_iff in E1; try apply Qle_bool_false in E1;
    try apply Qle_bool_iff in E2; try apply Qle_bool_false in E2;
    try apply Qlt_bool_iff in E3; try apply Qlt_bool_false in E3;
    try apply Qlt_bool_iff in E4; try apply Qlt_bool_false in E4;
    repeat split; intros;
    try reflexivity; try discriminate;
    try (rewrite Zle_Qle in * ); try (rewrite Zlt_Qlt in * );
    try (exfalso; lra);
    try (rewrite progress_before by assumption; reflexivity);
    try (rewrite progress_after by (fold now; lra); reflexivity).
Qed.

End FlagFacts.

(** X16. Every entry of the arrays of [getCurrentTokens] whose token has
    [start <= end] carries exactly one of the flags [isActive], [isPast]
    and [isFuture]; a token with [end < start] is never active.  The flags
    agree with [getTokenProgress]: a future token has progress 0, and a
    past token with [start <= end] has progress 100. *)
Theorem getCurrentTokens_flags (processed : option Document)
    (currentTime : Q) (r : Stage.Current) :
  Stage.getCurrentTokens processed currentTime = Normal r ->
  Forall (fun m =>
    let tok := Stage.marked_tok m in
    let f := Stage.marked_flags m in
    let p := Playback.progressOf (start tok) (end_ tok) currentTime in
    (start tok <= end_ tok -> Marks.exactlyOne f = true) /\
    (end_ tok < start tok -> Stage.isActive f = false) /\
    (Stage.isFuture f = true -> (p == 0)%Q) /\
    (start tok <= end_ tok -> Stage.isPast f = true -> (p == 100)%Q))
    (Marks.entries r).
Proof.
  intros H. apply Forall_forall. intros m Hm. apply list_elem_of_In in Hm.
  destruct processed as [json|]; simpl in H.
  - rewrite blocks_loop in H.
    destruct (forallb (fun line => bool_decide (is_Some (words line)))
                      (Editor.allLines (blocks json))); [|discriminate].
    injection H as <-.
    change (In m (Marks.entries (Marks.marked (Double.mul currentTime 1000) json)))
      in Hm.
    rewrite (marked_flagsAt _ _ _ Hm). apply flagsAt_meaning.
  - injection H as <-. destruct Hm.
Qed.

Lemma getCurrentTokens_flags_witness :
  exists r,
    Stage.getCurrentTokens (Some Marks.sample) (3 # 2) = Normal r /\
    map (fun m => (text (Stage.marked_tok m), Stage.marked_flags m))
        (Stage.cur_chars r)
      = [("n", Stage.mkFlags false false true);
         ("a", Stage.mkFlags false false true)] /\
    Forall (fun m =>
      let tok := Stage.marked_tok m in
      let f := Stage.marked_flags m in
      let p := Playback.progressOf (start tok) (end_ tok) (3 # 2) in
      (start tok <= end_ tok -> Marks.exactlyOne f = true) /\
      (end_ tok < start tok -> Stage.isActive f = false) /\
      (Stage.isFuture f = true -> (p == 0)%Q) /\
      (start tok <= end_ tok -> Stage.isPast f = true -> (p == 100)%Q))
      (Marks.entries r).
Proof.
  eexists. split; [vm_compute; reflexivity|]. split; [reflexivity|].
  apply (getCurrentTokens_flags (Some Marks.sample) (3 # 2)).
  vm_compute. reflexivity.
Defined.

(** ** The lyrics page: from text to a document *)

Section TextFacts.
Import Editor Input.

Lemma allWhite_app (a b : string) :
  allWhite (a ++ b) = allWhite a && allWhite b.
Proof.
  induction a as [|c a IH]; simpl; [reflexivity|].
  rewrite IH, andb_assoc. reflexivity.
Qed.

Lemma hasText_app (a b : string) :
  hasText (a ++ b) = hasText a || hasText b.
Proof. unfold hasText. rewrite allWhite_app, negb_andb. reflexivity. Qed.

Lemma hasText_cons c s :
  hasText (String c s) = negb (isWhite c) || hasText s.
Proof. unfold hasText. simpl. apply negb_andb. Qed.

Lemma hasText_empty : hasText EmptyString = false.
Proof. reflexivity. Qed.

Lemma isWhite_LF : isWhite LF = true.
Proof. reflexivity. Qed.

Lemma eqb_LF c : Ascii.eqb c LF = true -> isWhite c = true.
Proof. intros H. apply Ascii.eqb_eq in H. subst c. reflexivity. Qed.

Lemma eqb_CR c : Ascii.eqb c CR = true -> isWhite c = true.
Proof. intros H. apply Ascii.eqb_eq in H. subst c. reflexivity. Qed.

(** Some piece of [s.split('\n')] has text when [s] has. *)
Lemma splitLF_hasText piece s :
  existsb hasText (splitLF piece s) = hasText piece || hasText s.
Proof.
  revert piece. induction s as [|c s IH]; intros piece; cbn [splitLF].
  - simpl. rewrite hasText_empty. reflexivity.
  - rewrite hasText_cons. destruct (Ascii.eqb c LF) eqn:E.
    + cbn [existsb]. rewrite IH, hasText_empty, (eqb_LF c E). reflexivity.
    + rewrite IH, hasText_app, hasText_cons, hasText_empty, orb_false_r.
      rewrite orb_assoc. reflexivity.
Qed.

Lemma splitLF_no_LF piece s p :
  ~ In LF (list_ascii_of_string piece) ->
  In p (splitLF piece s) -> ~ In LF (list_ascii_of_string p).
Proof.
  revert piece. induction s as [|c s IH]; intros piece Hp Hin; simpl in Hin.
  - destruct Hin as [<-|[]]. exact Hp.
  - destruct (Ascii.eqb c LF) eqn:E.
    + destruct Hin as [<-|Hin]; [exact Hp|].
      apply (IH EmptyString); [intros []|exact Hin].
    + apply (IH (piece ++ String c EmptyString)%string); [|exact Hin].
      intros H. 
      assert (Hl : forall a b, list_ascii_of_string (a ++ b)
                     = (list_ascii_of_string a ++ list_ascii_of_string b)%list).
      { intros a b. induction a as [|x a IHa]; simpl; [reflexivity|].
        rewrite IHa. reflexivity. }
      rewrite Hl in H. apply in_app_or in H as [H|H]; [exact (Hp H)|].
      destruct H as [H|[]]. subst c. rewrite Ascii.eqb_refl in E.
      discriminate.
Qed.

Lemma existsb_filter_nil {A : Type} (p : A -> bool) (xs : list A) :
  List.filter p xs = [] <-> existsb p xs = false.
Proof.
  induction xs as [|x xs IH]; simpl; [tauto|].
  destruct (p x); simpl; [split; discriminate|exact IH].
Qed.

Lemma allWhite_replaceCR s : allWhite (replaceCR s) = allWhite s.
Proof.
  induction s as [|c s IH]; simpl; [reflexivity|]. rewrite IH.
  destruct (Ascii.eqb c CR) eqn:E; [|reflexivity].
  rewrite (eqb_CR c E). reflexivity.
Qed.

Lemma allWhite_replaceCRLF s : allWhite (replaceCRLF s) = allWhite s.
Proof.
  assert (H : forall n s, (String.length s <= n)%nat ->
                          allWhite (replaceCRLF s) = allWhite s).
  { clear s. induction n as [|n IH]; intros s Hn.
    - destruct s; [reflexivity|simpl in Hn; lia].
    - destruct s as [|c s]; [reflexivity|]. simpl in Hn.
      cbn [replaceCRLF].
      destruct (Ascii.eqb c CR) eqn:E.
      + destruct s as [|d s]; [reflexivity|].
        destruct (Ascii.eqb d LF) eqn:E'.
        * cbn [allWhite]. rewrite IH by (simpl in Hn; lia).
          rewrite (eqb_CR c E), (eqb_LF d E'). reflexivity.
        * cbn [allWhite]. f_equal. apply IH. lia.
      + cbn [allWhite]. f_equal. apply IH. lia. }
  apply (H (String.length s)). lia.
Qed.

(** The characters of a separator are white space. *)
Lemma blankLength_white s n :
  blankLength s = Some n -> allWhite (substring 0 n s) = true.
Proof.
  revert n. induction s as [|c s IH]; intros n H; [discriminate|].
  simpl in H. destruct (isWhite c) eqn:Ew; [|discriminate].
  destruct (blankLength s) as [m|] eqn:Eb.
  - injection H as <-. simpl. rewrite Ew, (IH m eq_refl). reflexivity.
  - destruct (Ascii.eqb c LF); [|discriminate]. injection H as <-.
    simpl. rewrite Ew. destruct s; reflexivity.
Qed.

(** Some piece of [s.split(/\n\s*\n/)] has text when [s] has. *)
Lemma splitBlank_hasText skip piece s :
  allWhite (substring 0 skip s) = true ->
  existsb hasText (splitBlank skip piece s) = hasText piece || hasText s.
Proof.
  revert skip piece. induction s as [|c s IH]; intros skip piece Hskip.
  - simpl. rewrite hasText_empty. reflexivity.
  - rewrite hasText_cons. destruct skip as [|skip].
    + cbn [splitBlank].
      assert (Hkeep : existsb hasText
                        (splitBlank 0 (piece ++ String c EmptyString) s)
                      = hasText piece || (negb (isWhite c) || hasText s)).
      { rewrite IH by (destruct s; reflexivity).
        rewrite hasText_app, hasText_cons, hasText_empty, orb_false_r.
        rewrite orb_assoc. reflexivity. }
      destruct (Ascii.eqb c LF) eqn:E; [|exact Hkeep].
      destruct (blankLength s) as [n|] eqn:Eb; [|exact Hkeep].
      cbn [existsb]. rewrite (IH n EmptyString (blankLength_white s n Eb)).
      rewrite hasText_empty, (eqb_LF c E). reflexivity.
    + cbn [splitBlank]. simpl in Hskip.
      apply andb_prop in Hskip as [Hc Hs].
      rewrite (IH skip piece Hs), Hc. reflexivity.
Qed.

Lemma imap_nil_iff {A B : Type} (f : nat -> A -> B) (xs : list A) :
  imap f xs = [] <-> xs = [].
Proof. destruct xs; simpl; split; intros; congruence. Qed.

End TextFacts.

(** X17. [createKaraokeJSON] produces no block at all exactly when the
    lyrics are white space only; in particular the lyrics accepted by
    [handleNextStep], whose trimmed text is not empty, give at least one
    block. *)
Theorem createKaraokeJSON_blocks (audioFile : option string)
    (lyricsText : string) :
  blocks (Input.createKaraokeJSON audioFile lyricsText) = [] <->
  Editor.allWhite lyricsText = true.
Proof.
  unfold Input.createKaraokeJSON. simpl.
  rewrite imap_nil_iff, existsb_filter_nil.
  rewrite splitBlank_hasText by (simpl; destruct (Input.replaceCR _); reflexivity).
  unfold Input.hasText. simpl.
  rewrite allWhite_replaceCR, allWhite_replaceCRLF.
  destruct (Editor.allWhite lyricsText); simpl; split; congruence.
Qed.

(** X18. Every block made by [createKaraokeJSON] has at least one line; no
    line is blank or contains a line break, and every line carries an empty
    [words] array.  Block [b] is stamped from [5000 b] to [5000 (b + 1)]
    and its line [l] from [5000 b + 1000 l] to [5000 b + 1000 (l + 1)]. *)
Theorem createKaraokeJSON_well_formed (audioFile : option string)
    (lyricsText : string) (b : nat) (block : Block) :
  blocks (Input.createKaraokeJSON audioFile lyricsText) !! b = Some block ->
  stamps (block_tok block)
    = (Z.of_nat b * 5000, (Z.of_nat b + 1) * 5000) /\
  lines block <> [] /\
  forall l line, lines block !! l = Some line ->
    stamps (line_tok line)
      = (Z.of_nat b * 5000 + Z.of_nat l * 1000,
         Z.of_nat b * 5000 + (Z.of_nat l + 1) * 1000) /\
    words line = Some [] /\
    Input.hasText (text (line_tok line)) = true /\
    ~ In Input.LF (list_ascii_of_string (text (line_tok line))).
Proof.
  unfold Input.createKaraokeJSON. simpl. intros H.
  apply list_lookup_imap_Some in H as (blockText & Hbt & ->). simpl.
  split; [reflexivity|].
  assert (Htext : Input.hasText blockText = true).
  { apply list_elem_of_lookup_2, list_elem_of_In, filter_In in Hbt.
    apply Hbt. }
  split.
  - rewrite imap_nil_iff, existsb_filter_nil, splitLF_hasText, Htext.
    discriminate.
  - intros l line Hl.
    apply list_lookup_imap_Some in Hl as (lineText & Hlt & ->). simpl.
    apply list_elem_of_lookup_2, list_elem_of_In, filter_In in Hlt
      as [Hin Hline].
    split; [reflexivity|]. split; [reflexivity|]. split; [exact Hline|].
    apply (splitLF_no_LF EmptyString blockText); [intros []|exact Hin].
Qed.

Lemma createKaraokeJSON_well_formed_witness :
  map (fun line => text (line_tok line))
      (Editor.allLines (blocks (Input.createKaraokeJSON None Input.verses)))
    = ["one"; "two"; "three"; "four"] /\
  exists block,
    blocks (Input.createKaraokeJSON None Input.verses) !! 1%nat = Some block /\
    stamps (block_tok block) = (5000, 10000) /\
    lines block <> [] /\
    forall l line, lines block !! l = Some line ->
      stamps (line_tok line)
        = (Z.of_nat 1 * 5000 + Z.of_nat l * 1000,
           Z.of_nat 1 * 5000 + (Z.of_nat l + 1) * 1000) /\
      words line = Some [] /\
      Input.hasText (text (line_tok line)) = true /\
      ~ In Input.LF (list_ascii_of_string (text (line_tok line))).
Proof.
  split; [vm_compute; reflexivity|].
  eexists. split; [vm_compute; reflexivity|].
  refine (createKaraokeJSON_well_formed None Input.verses 1 _ _).
  vm_compute. reflexivity.
Defined.

(** X19. The dummy timestamps of a new document count as timing data for
    the playback screen: whatever the audio length, [processedLyricsJson]
    returns a document made by [createKaraokeJSON] as it is, and never
    replaces its stamps by linear timing. *)
Theorem createKaraokeJSON_counts_as_timed (duration : Q)
    (audioFile : option string) (lyricsText : string) :
  Playback.processedLyricsJson duration
    (Input.createKaraokeJSON audioFile lyricsText)
    = Normal (Input.createKaraokeJSON audioFile lyricsText).
Proof.
  unfold Playback.processedLyricsJson.
  destruct (blocks (Input.createKaraokeJSON audioFile lyricsText))
    as [|block rest] eqn:E.
  - unfold Playback.hasTimingData, Playback.generateLinearTiming,
      Playback.totalChars. rewrite E. simpl.
    destruct (Qeq_bool duration 0); reflexivity.
  - assert (H : Playback.hasTimingData
                  (Input.createKaraokeJSON audioFile lyricsText) = true).
    { unfold Playback.hasTimingData. rewrite E. cbn [existsb].
      unfold Input.createKaraokeJSON in E. simpl in E.
      destruct (List.filter Input.hasText _) as [|blockText texts];
        [discriminate|].
      simpl in E. injection E as <- _. reflexivity. }
    rewrite H. reflexivity.
Qed.

(** ** Export cleanup: documents that are fully recorded *)

Section RecordedFacts.
Import Cleanup Editor Exported.

Lemma timed_all {A : Type} (tok : A -> Token) (xs : list A) :
  forallb (fun x => isTimed (tok x)) xs = true -> timed tok xs = xs.
Proof.
  unfold timed. induction xs as [|x xs IH]; simpl; [reflexivity|].
  intros H. apply andb_prop in H as [Hx Hxs]. rewrite Hx, (IH Hxs).
  reflexivity.
Qed.

Lemma forallb_and {A : Type} (p q : A -> bool) (xs : list A) :
  forallb (fun x => p x && q x) xs = forallb p xs && forallb q xs.
Proof.
  induction xs as [|x xs IH]; simpl; [reflexivity|]. rewrite IH.
  destruct (p x), (q x), (forallb p xs), (forallb q xs); reflexivity.
Qed.

Lemma map_fixed {A : Type} (g : A -> A) (p : A -> bool) (xs : list A) :
  (forall x, p x = true -> g x = x) -> forallb p xs = true -> map g xs = xs.
Proof.
  intros H. induction xs as [|x xs IH]; simpl; [reflexivity|].
  intros Hp. apply andb_prop in Hp as [Hx Hxs].
  rewrite (H x Hx), (IH Hxs). reflexivity.
Qed.

Lemma cleanChars_recorded line word :
  charsRecorded word = true -> cleanChars line word = word.
Proof.
  unfold charsRecorded, cleanChars. destruct (chars word) as [cs|] eqn:E;
    [|reflexivity].
  intros H. apply andb_prop in H as [Hne Hall].
  rewrite (timed_all (fun c => c) cs Hall).
  apply negb_true_iff in Hne. rewrite Hne, Nat.ltb_irrefl. reflexivity.
Qed.

Lemma cleanWords_recorded line :
  wordsRecorded line = true -> cleanWords line = line.
Proof.
  unfold wordsRecorded, cleanWords. destruct (words line) as [ws|] eqn:E;
    [|reflexivity].
  intros H. apply andb_prop in H as [Hne Hall].
  rewrite forallb_and in Hall. apply andb_prop in Hall as [Ht Hc].
  rewrite (timed_all word_tok ws Ht).
  apply negb_true_iff in Hne. rewrite Hne, Nat.ltb_irrefl.
  rewrite (map_fixed _ charsRecorded ws
             (cleanChars_recorded (line_tok line)) Hc).
  rewrite <- E. apply line_eta.
Qed.

Lemma cleanBlock_recorded block :
  forallb (fun line => isTimed (line_tok line) && wordsRecorded line)
          (lines block) = true ->
  cleanBlock block = block.
Proof.
  intros H. rewrite forallb_and in H. apply andb_prop in H as [Ht Hw].
  unfold cleanBlock, cleanLines. rewrite (timed_all line_tok _ Ht).
  rewrite Nat.ltb_irrefl.
  assert (E : (if (length (lines block) =? 0)%nat then lines block
               else lines block) = lines block)
    by (destruct (length (lines block) =? 0)%nat; reflexivity).
  rewrite E, (map_fixed _ wordsRecorded _ cleanWords_recorded Hw).
  apply block_eta.
Qed.

End RecordedFacts.

(** X20. On a document in which every line, word and character has a
    timestamp (and no array is empty) the export cleanup changes no stamp
    and no voice and deletes nothing: all it does is clear the text of the
    tokens that have children. *)
Theorem cleanupTimingData_fully_recorded (d : Document) :
  Exported.fullyRecorded d = true ->
  Cleanup.cleanupTimingData d
    = set_blocks d (map Cleanup.clearBlock (blocks d)).
Proof.
  intros H. unfold Cleanup.cleanupTimingData. f_equal. f_equal.
  apply (map_fixed _ _ _ cleanBlock_recorded H).
Qed.

Lemma cleanupTimingData_fully_recorded_witness :
  Exported.fullyRecorded Marks.sample = true /\
  Cleanup.cleanupTimingData Marks.sample
    = set_blocks Marks.sample (map Cleanup.clearBlock (blocks Marks.sample)).
Proof.
  split; [reflexivity|].
  apply cleanupTimingData_fully_recorded. reflexivity.
Defined.

(** ** Export cleanup: what it leaves in place *)

Section TidyFacts.
Import Cleanup Editor Exported.

Lemma wordTidy_clearWord word : wordTidy (clearWord word) = true.
Proof.
  unfold wordTidy, clearWord. destruct (chars word) as [[|c cs]|] eqn:E;
    simpl; rewrite ?E; reflexivity.
Qed.

Lemma lineTidy_clearLine line : lineTidy (clearLine line) = true.
Proof.
  unfold lineTidy, clearLine. destruct (words line) as [[|w ws]|] eqn:E;
    simpl; rewrite ?E; simpl; try reflexivity.
  rewrite wordTidy_clearWord. simpl.
  apply forallb_forall. intros x Hx. apply in_map_iff in Hx as (y & <- & _).
  apply wordTidy_clearWord.
Qed.

Lemma blockTidy_clearBlock block : blockTidy (clearBlock block) = true.
Proof.
  unfold blockTidy, clearBlock. destruct (lines block) as [|l ls] eqn:E;
    simpl; rewrite ?E; simpl; try reflexivity.
  rewrite lineTidy_clearLine. simpl.
  apply forallb_forall. intros x Hx. apply in_map_iff in Hx as (y & <- & _).
  apply lineTidy_clearLine.
Qed.

Lemma length_cleanLines block :
  length (cleanLines block) = length (lines block).
Proof.
  unfold cleanLines.
  destruct (length (timed line_tok (lines block)) =? 0)%nat; [reflexivity|].
  destruct (length (timed line_tok (lines block)) <? length (lines block))%nat;
    [|reflexivity].
  apply length_interpolate.
Qed.

Lemma cleaned_block_tok block :
  let t := block_tok block in
  let t' := block_tok (clearBlock (cleanBlock block)) in
  start t' = start t /\ end_ t' = end_ t /\ voice t' = voice t /\
  position t' = position t.
Proof.
  unfold clearBlock, cleanBlock. simpl.
  destruct (map cleanWords (cleanLines block)); simpl; auto.
Qed.

End TidyFacts.

(** X21. The export cleanup never touches the frame of the document: it
    keeps the number of blocks and the number of lines of every block, and
    the start, end, voice and position of every block; what it returns has
    no token that repeats the text of its children (a block with lines, a
    line with words and a word with characters have an empty text). *)
Theorem cleanupTimingData_frame (d : Document) :
  Forall2 (fun block block' =>
             length (lines block') = length (lines block) /\
             start (block_tok block') = start (block_tok block) /\
             end_ (block_tok block') = end_ (block_tok block) /\
             voice (block_tok block') = voice (block_tok block) /\
             position (block_tok block') = position (block_tok block))
          (blocks d) (blocks (Cleanup.cleanupTimingData d)) /\
  forallb Exported.blockTidy (blocks (Cleanup.cleanupTimingData d)) = true.
Proof.
  unfold Cleanup.cleanupTimingData. simpl. rewrite map_map. split.
  - apply Forall2_map_self. intros block. split.
    + rewrite clearBlock_lines. unfold Cleanup.cleanBlock. simpl.
      rewrite !length_map. apply length_cleanLines.
    + apply cleaned_block_tok.
  - apply forallb_forall. intros x Hx. apply in_map_iff in Hx as (y & <- & _).
    apply blockTidy_clearBlock.
Qed.

(** ** Export and playback *)

Section ExportedFacts.
Import Cleanup Editor Exported.

Lemma cleanWords_unrecorded line :
  unrecordedWords line = true -> words (cleanWords line) = None.
Proof.
  unfold unrecordedWords, wordsOrEmpty. intros H. apply Nat.eqb_eq in H.
  destruct (words line) as [ws|] eqn:E.
  - apply (cleanWords_none line ws E H).
  - rewrite (cleanWords_absent line E). exact E.
Qed.

Lemma cleanup_drops_words d line :
  In line (allLines (blocks d)) -> unrecordedWords line = true ->
  exists line', In line' (allLines (blocks (cleanupTimingData d))) /\
                words line' = None.
Proof.
  intros Hin Hun. apply In_allLines in Hin as (b & l & block & Hb & Hl).
  destruct (cleanLines_lookup block l line Hl) as (line1 & Hl1 & Hw & _).
  exists (clearLine (cleanWords line1)). split.
  - apply In_allLines. exists b, l, (clearBlock (cleanBlock block)). split.
    + rewrite cleanup_lookup, Hb. reflexivity.
    + rewrite cleaned_line_lookup, Hl1. reflexivity.
  - rewrite clearLine_words, cleanWords_unrecorded; [reflexivity|].
    unfold unrecordedWords, wordsOrEmpty in *. rewrite Hw. exact Hun.
Qed.

End ExportedFacts.

(** X22. A document exported while some line has no timestamp on any of
    its words has lost the [words] array of that line, and
    [getCurrentTokens] throws a [TypeError] on it at every playhead
    position. *)
Theorem getCurrentTokens_after_export (d : Document) (line : Line)
    (currentTime : Q) :
  In line (Editor.allLines (blocks d)) ->
  Exported.unrecordedWords line = true ->
  Stage.getCurrentTokens (Some (Cleanup.cleanupTimingData d)) currentTime
    = Throw TypeError.
Proof.
  intros Hin Hun.
  destruct (cleanup_drops_words d line Hin Hun) as (line' & Hin' & Hw).
  unfold Stage.getCurrentTokens. rewrite blocks_loop.
  destruct (forallb (fun line => bool_decide (is_Some (words line)))
              (Editor.allLines (blocks (Cleanup.cleanupTimingData d))))
    eqn:E; [|reflexivity].
  rewrite forallb_forall in E. specialize (E line' Hin').
  rewrite Hw in E. apply bool_decide_eq_true in E. destruct E as [x E].
  discriminate.
Qed.

Lemma getCurrentTokens_after_export_witness :
  Stage.getCurrentTokens
    (Some (Cleanup.cleanupTimingData
             (Input.createKaraokeJSON None Input.verses))) 1
    = Throw TypeError.
Proof.
  apply (getCurrentTokens_after_export _
           (mkLine (mkToken "one" 0 1000 1 "") (Some []))).
  - vm_compute. left. reflexivity.
  - reflexivity.
Defined.

(** ** Switching between modes *)

Section IndexFacts.
Import Editor Switching.

Lemma sameIndex_eq a b : sameIndex a b = true <-> a = b.
Proof.
  destruct a as [x|], b as [y|]; simpl; split; try discriminate;
    try reflexivity.
  - intros H. apply Nat.eqb_eq in H. congruence.
  - intros [= ->]. apply Nat.eqb_refl.
Qed.

Lemma firstIndex_Some p i rest k :
  firstIndex p i rest = Some k ->
  (i <= k)%nat /\
  exists t, rest !! (k - i)%nat = Some t /\ p t = true.
Proof.
  revert i. induction rest as [|t rest IH]; intros i H; [discriminate|].
  simpl in H. destruct (p t) eqn:E.
  - injection H as <-. split; [lia|]. rewrite Nat.sub_diag. exists t. auto.
  - apply IH in H as (Hle & t' & Ht' & Hp). split; [lia|].
    exists t'. split; [|exact Hp].
    replace (k - i)%nat with (S (k - (i + 1)))%nat by lia. exact Ht'.
Qed.

Lemma firstIndex_None p i rest t :
  firstIndex p i rest = None -> In t rest -> p t = false.
Proof.
  revert i. induction rest as [|x rest IH]; intros i H Hin; [destruct Hin|].
  simpl in H. destruct (p x) eqn:E; [discriminate|].
  destruct Hin as [<-|Hin]; [exact E|]. exact (IH _ H Hin).
Qed.

(** The loop returns [k] when token [k] passes the test and no earlier
    token does. *)
Lemma firstIndex_at p i rest k t :
  rest !! k = Some t -> p t = true ->
  (forall j t', (j < k)%nat -> rest !! j = Some t' -> p t' = false) ->
  firstIndex p i rest = Some (i + k)%nat.
Proof.
  revert i k. induction rest as [|x rest IH]; intros i k Hk Hp Hbefore;
    [discriminate|].
  simpl. destruct k as [|k].
  - injection Hk as ->. rewrite Hp, Nat.add_0_r. reflexivity.
  - rewrite (Hbefore 0%nat x) by (reflexivity || lia).
    rewrite (IH (i + 1)%nat k Hk Hp).
    + f_equal. lia.
    + intros j t' Hj Ht'. apply (Hbefore (S j) t'); [lia|exact Ht'].
Qed.

End IndexFacts.

Section GridFacts.
Import Editor Switching Grid Stage.

Lemma In_concat_imap_lookup {A B : Type} (f : nat -> A -> list B)
    (xs : list A) (y : B) :
  In y (concat (imap f xs)) ->
  exists i x, xs !! i = Some x /\ In y (f i x).
Proof.
  intros H. apply in_concat in H as (ys & Hys & Hy).
  apply list_elem_of_In, elem_of_lookup_imap in Hys as (i & x & -> & Hx).
  eauto.
Qed.

Lemma NoDup_imap_index {A B : Type} (g : nat -> A -> B) (xs : list A) :
  (forall i j x y, g i x = g j y -> i = j) -> NoDup (imap g xs).
Proof.
  intros Hinj. apply NoDup_alt. intros i j y Hi Hj.
  apply list_lookup_imap_Some in Hi as (x & _ & ->).
  apply list_lookup_imap_Some in Hj as (x' & _ & E).
  exact (Hinj _ _ _ _ E).
Qed.

Lemma NoDup_concat_imap {A B : Type} (f : nat -> A -> list B)
    (key : B -> nat) (xs : list A) :
  (forall i x y, In y (f i x) -> key y = i) ->
  (forall i x, NoDup (f i x)) ->
  NoDup (concat (imap f xs)).
Proof.
  intros Hkey Hnd. induction xs as [|x xs IH] using rev_ind.
  - constructor.
  - rewrite imap_snoc, concat_snoc. apply NoDup_app.
    split; [exact IH|]. split; [|apply Hnd].
    intros y Hy Hy'. apply list_elem_of_In in Hy, Hy'.
    apply In_concat_imap_lookup in Hy as (i & x' & Hi & Hy).
    apply Hkey in Hy, Hy'. apply lookup_lt_Some in Hi. lia.
Qed.

Lemma NoDup_blockCoords bs : NoDup (blockCoords bs).
Proof. apply NoDup_imap_index. intros i j x y [= ->]. reflexivity. Qed.

Lemma NoDup_lineCoords bs : NoDup (lineCoords bs).
Proof.
  apply (NoDup_concat_imap _ (fun c => default 0%nat c.1.1.1)).
  - intros i block y Hy. apply In_imap in Hy as (li & line & ->). reflexivity.
  - intros i block. apply NoDup_imap_index. intros li lj x y [= ->].
    reflexivity.
Qed.

Lemma NoDup_wordCoords bs : NoDup (wordCoords bs).
Proof.
  apply (NoDup_concat_imap _ (fun c => default 0%nat c.1.1.1)).
  - intros i block y Hy.
    apply In_concat_imap in Hy as (li & line & Hy).
    apply In_imap in Hy as (wi & word & ->). reflexivity.
  - intros i block.
    apply (NoDup_concat_imap _ (fun c => default 0%nat c.1.1.2)).
    + intros li line y Hy. apply In_imap in Hy as (wi & word & ->).
      reflexivity.
    + intros li line. apply NoDup_imap_index. intros wi wj x y [= ->].
      reflexivity.
Qed.

Lemma concat_imap_singleton {A B : Type} (g : nat -> A -> B) (xs : list A) :
  concat (imap (fun i x => [g i x]) xs) = imap g xs.
Proof.
  induction xs as [|x xs IH] using rev_ind; [reflexivity|].
  rewrite !imap_snoc, concat_snoc, IH. reflexivity.
Qed.

(** A loop whose turns append tokens with the coordinates [f i x]
    appends the coordinates of all turns in order. *)
Lemma forEach_coords {A : Type}
    (body : list TokenView -> nat -> A -> Completion (list TokenView))
    (f : nat -> A -> list Coords) (xs : list A) :
  (forall acc i x acc',
     body acc i x = Normal acc' ->
     map coords acc' = map coords acc ++ f i x) ->
  forall acc acc',
    forEach body xs acc = Normal acc' ->
    map coords acc' = map coords acc ++ concat (imap f xs).
Proof.
  intros Hbody. induction xs as [|x xs IH] using rev_ind; intros acc acc' H.
  - rewrite forEach_nil in H. injection H as <-. simpl.
    rewrite app_nil_r. reflexivity.
  - rewrite forEach_snoc in H.
    destruct (forEach body xs acc) as [r|e] eqn:E; [|discriminate].
    rewrite (Hbody _ _ _ _ H), (IH _ _ E), imap_snoc, concat_snoc, app_assoc.
    reflexivity.
Qed.

Lemma push_coords acc mode t bi li wi ci :
  map coords (push acc (fun n => typed mode n t bi li wi ci))
    = map coords acc ++ [(bi, li, wi, ci)].
Proof. unfold push. rewrite map_app. reflexivity. Qed.

Lemma lineLoop_coords bi block acc acc' :
  lineLoop bi block acc = Normal acc' ->
  map coords acc'
    = map coords acc
      ++ imap (fun li _ => (Some bi, Some li, None, None)) (lines block).
Proof.
  unfold lineLoop. intros H.
  apply (forEach_coords _
           (fun li _ => [(Some bi, Some li, None, None)])) in H.
  - rewrite H, concat_imap_singleton. reflexivity.
  - intros a li line a' [= <-]. apply push_coords.
Qed.

Lemma wordLoop_coords bi li line acc acc' :
  wordLoop bi li line acc = Normal acc' ->
  map coords acc'
    = map coords acc
      ++ imap (fun wi _ => (Some bi, Some li, Some wi, None))
              (wordsOrEmpty line).
Proof.
  unfold wordLoop, wordsOrEmpty.
  destruct (words line) as [ws|]; [|discriminate]. simpl. intros H.
  apply (forEach_coords _
           (fun wi _ => [(Some bi, Some li, Some wi, None)])) in H.
  - rewrite H, concat_imap_singleton. reflexivity.
  - intros a wi word a' [= <-]. apply push_coords.
Qed.

(** The coordinates of the token list of a mode. *)
Lemma getTokensByModeType_coords s d mode tokens :
  karaokeData s = Some d ->
  getTokensByModeType s mode = Normal tokens ->
  match mode with
  | Blocks => map coords tokens = blockCoords (blocks d)
  | Lines => map coords tokens = lineCoords (blocks d)
  | Words => map coords tokens = wordCoords (blocks d)
  | Chars => True
  end.
Proof.
  intros Hd H. unfold getTokensByModeType in H. rewrite Hd in H.
  destruct mode; [| | |exact I].
  - injection H as <-. unfold blockCoords.
    induction (blocks d) as [|b bs IH] using rev_ind; [reflexivity|].
    rewrite !imap_snoc, map_app, IH. reflexivity.
  - apply (forEach_coords _
             (fun bi block =>
                imap (fun li _ => (Some bi, Some li, None, None))
                     (lines block))) in H; [exact H|].
    intros acc bi block acc'. apply lineLoop_coords.
  - unfold perLine in H.
    apply (forEach_coords _
             (fun bi block =>
                concat (imap (fun li line =>
                          imap (fun wi _ => (Some bi, Some li, Some wi, None))
                               (wordsOrEmpty line))
                        (lines block)))) in H; [exact H|].
    intros acc bi block acc'.
    apply (forEach_coords _
             (fun li line =>
                imap (fun wi _ => (Some bi, Some li, Some wi, None))
                     (wordsOrEmpty line))).
    intros a li line a'. apply wordLoop_coords.
Qed.

End GridFacts.

Section RoundTripFacts.
Import Editor Switching Grid.

Lemma within_sym level a b : within level a b = true -> within level b a = true.
Proof.
  unfold within. intros H. destruct level;
    repeat match goal with
           | H : _ && _ = true |- _ => apply andb_prop in H as [? ?]
           end;
    repeat match goal with
           | H : sameIndex _ _ = true |- _ => apply sameIndex_eq in H
           end;
    try discriminate;
    repeat (apply andb_true_intro; split); try reflexivity;
    apply sameIndex_eq; congruence.
Qed.

Lemma within_trans level a b c :
  within level a b = true -> within level b c = true ->
  within level a c = true.
Proof.
  unfold within. intros H H'. destruct level;
    repeat match goal with
           | H : _ && _ = true |- _ => apply andb_prop in H as [? ?]
           end;
    repeat match goal with
           | H : sameIndex _ _ = true |- _ => apply sameIndex_eq in H
           end;
    try discriminate;
    repeat (apply andb_true_intro; split); try reflexivity;
    apply sameIndex_eq; congruence.
Qed.

Lemma blockCoords_shape bs c :
  In c (blockCoords bs) -> c.1.1.2 = None /\ c.1.2 = None /\ c.2 = None.
Proof. intros H. apply In_imap in H as (bi & b & ->). auto. Qed.

Lemma lineCoords_shape bs c :
  In c (lineCoords bs) -> c.1.2 = None /\ c.2 = None.
Proof.
  intros H. apply In_concat_imap in H as (bi & b & H).
  apply In_imap in H as (li & l & ->). auto.
Qed.

Lemma wordCoords_shape bs c : In c (wordCoords bs) -> c.2 = None.
Proof.
  intros H. apply In_concat_imap in H as (bi & b & H).
  apply In_concat_imap in H as (li & l & H).
  apply In_imap in H as (wi & w & ->). auto.
Qed.

(** Two tokens of the mode [level] that pass the test of [findRelatedToken]
    against each other are at the same place of the list. *)
Lemma within_same_place s d level tokens k k' t t' :
  karaokeData s = Some d ->
  (indexOf level < 3)%nat ->
  getTokensByModeType s level = Normal tokens ->
  tokens !! k = Some t -> tokens !! k' = Some t' ->
  within level t t' = true -> k = k'.
Proof.
  intros Hd Hlevel Htokens Hk Hk' Hw.
  pose proof (getTokensByModeType_coords s d level tokens Hd Htokens) as Hc.
  assert (Hin : In (coords t) (map coords tokens)).
  { apply in_map, list_elem_of_In. eapply list_elem_of_lookup_2. exact Hk. }
  assert (Hin' : In (coords t') (map coords tokens)).
  { apply in_map, list_elem_of_In. eapply list_elem_of_lookup_2. exact Hk'. }
  assert (Hnd : NoDup (map coords tokens)).
  { destruct level; rewrite ?Hc;
      [apply NoDup_blockCoords|apply NoDup_lineCoords|apply NoDup_wordCoords|].
    simpl in Hlevel. lia. }
  assert (E : coords t = coords t').
  { unfold within in Hw.
    destruct level; [| | |simpl in Hlevel; lia];
      rewrite Hc in Hin, Hin'; unfold coords in *.
    - apply blockCoords_shape in Hin as (H1 & H2 & H3).
      apply blockCoords_shape in Hin' as (H1' & H2' & H3'). simpl in *.
      apply andb_prop in Hw as [Hb _]. apply sameIndex_eq in Hb. congruence.
    - apply lineCoords_shape in Hin as (H2 & H3).
      apply lineCoords_shape in Hin' as (H2' & H3'). simpl in *.
      apply andb_prop in Hw as [Hb Hl].
      apply sameIndex_eq in Hb, Hl. congruence.
    - apply wordCoords_shape in Hin as H3.
      apply wordCoords_shape in Hin' as H3'. simpl in *.
      apply andb_prop in Hw as [Hb Hl]. apply andb_prop in Hl as [Hl Hwi].
      apply sameIndex_eq in Hb, Hl, Hwi. congruence. }
  apply (NoDup_lookup _ _ _ (coords t) Hnd).
  - rewrite list_lookup_fmap, Hk. reflexivity.
  - rewrite list_lookup_fmap, Hk', E. reflexivity.
Qed.

End RoundTripFacts.

(** X23. Changing to a finer mode and back returns to the same token: when
    token [i] of a mode has a token of a finer mode inside it and
    [findRelatedToken] takes the cursor from [i] to [j] in the finer mode,
    then [findRelatedToken] takes it from [j] back to [i]. *)
Theorem findRelatedToken_round_trip (s : Editor.Session)
    (fromMode toMode : Editor.Mode) (i j : nat) :
  (Editor.indexOf fromMode < Editor.indexOf toMode)%nat ->
  Switching.hasInside s fromMode toMode i ->
  Switching.findRelatedToken s fromMode toMode i = Normal j ->
  Switching.findRelatedToken s toMode fromMode j = Normal i.
Proof.
  intros Hlevel (fromTokens & toTokens & cur & inner & Hfrom & Hto & Hi
                 & Hinner & Hw) Hdown.
  destruct (Editor.karaokeData s) as [d|] eqn:Hd.
  2:{ unfold Switching.getTokensByModeType in Hfrom. rewrite Hd in Hfrom.
      injection Hfrom as <-. discriminate. }
  assert (Hi' : (i < length fromTokens)%nat)
    by (apply lookup_lt_is_Some; eauto).
  assert (Hto' : (0 < length toTokens)%nat)
    by (destruct toTokens; [destruct Hinner|simpl; lia]).
  unfold Switching.findRelatedToken in Hdown.
  rewrite Hd, Hfrom, Hto, Hi in Hdown.
  replace (length fromTokens =? 0)%nat with false in Hdown
    by (symmetry; apply Nat.eqb_neq; lia).
  replace (length toTokens =? 0)%nat with false in Hdown
    by (symmetry; apply Nat.eqb_neq; lia).
  replace (length fromTokens <=? i)%nat with false in Hdown
    by (symmetry; apply Nat.leb_gt; lia).
  simpl in Hdown.
  replace (Editor.indexOf toMode <? Editor.indexOf fromMode)%nat with false
    in Hdown by (symmetry; apply Nat.ltb_ge; lia).
  replace (Editor.indexOf fromMode <? Editor.indexOf toMode)%nat with true
    in Hdown by (symmetry; apply Nat.ltb_lt; lia).
  destruct (Switching.firstIndex
              (fun toToken => Switching.within fromMode toToken cur)
              0 toTokens) as [j'|] eqn:Ef.
  2:{ rewrite (firstIndex_None _ _ _ inner Ef Hinner) in Hw. discriminate. }
  injection Hdown as ->.
  apply firstIndex_Some in Ef as (_ & child & Hj & Hchild).
  rewrite Nat.sub_0_r in Hj.
  assert (Hj' : (j < length toTokens)%nat)
    by (apply lookup_lt_is_Some; eauto).
  unfold Switching.findRelatedToken.
  rewrite Hd, Hto, Hfrom, Hj.
  replace (length fromTokens =? 0)%nat with false
    by (symmetry; apply Nat.eqb_neq; lia).
  replace (length toTokens =? 0)%nat with false
    by (symmetry; apply Nat.eqb_neq; lia).
  replace (length toTokens <=? j)%nat with false
    by (symmetry; apply Nat.leb_gt; lia).
  simpl.
  replace (Editor.indexOf fromMode <? Editor.indexOf toMode)%nat with true
    by (symmetry; apply Nat.ltb_lt; lia).
  rewrite (firstIndex_at _ 0 fromTokens i cur Hi).
  - reflexivity.
  - apply within_sym. exact Hchild.
  - intros k t' Hk Ht'.
    destruct (Switching.within fromMode t' child) eqn:E; [|reflexivity].
    exfalso.
    assert (Hsame : Switching.within fromMode t' cur = true)
      by (eapply within_trans; [exact E|exact Hchild]).
    assert (Hthree : (Editor.indexOf fromMode < 3)%nat).
    { destruct fromMode, toMode; simpl in *; lia. }
    pose proof (within_same_place s d fromMode fromTokens k i t' cur
                  Hd Hthree Hfrom Ht' Hi Hsame).
    lia.
Qed.

Lemma findRelatedToken_round_trip_witness :
  Switching.findRelatedToken (Grid.sample Editor.Lines 1)
    Editor.Lines Editor.Words 1 = Normal 2%nat /\
  Switching.findRelatedToken (Grid.sample Editor.Lines 1)
    Editor.Words Editor.Lines 2 = Normal 1%nat.
Proof.
  assert (H : Switching.findRelatedToken (Grid.sample Editor.Lines 1)
                Editor.Lines Editor.Words 1 = Normal 2%nat)
    by (vm_compute; reflexivity).
  split; [exact H|].
  apply (findRelatedToken_round_trip (Grid.sample Editor.Lines 1)
           Editor.Lines Editor.Words 1 2); [simpl; lia| |exact H].
  unfold Switching.hasInside. do 4 eexists.
  split; [vm_compute; reflexivity|]. split; [vm_compute; reflexivity|].
  split; [reflexivity|]. split; [right; right; left; reflexivity|].
  reflexivity.
Defined.

(** ** The tokens shown around the cursor *)

Section DisplayFacts.
Import Editor Switching Display.

Lemma NoDup_withPlace tokens : NoDup (withPlace tokens).
Proof.
  unfold withPlace. apply NoDup_imap_index. intros i j x y [= -> _].
  reflexivity.
Qed.

Lemma In_withPlace tokens it :
  In it (withPlace tokens) <-> tokens !! it.1 = Some it.2.
Proof. destruct it as [i t]. apply In_imap_pair. Qed.

(** In a list of placed tokens without repetition the place [a] occurs once
    if its token is in the list, and not at all otherwise. *)
Lemma place_once tokens (L : list (nat * TokenView)) a t :
  NoDup L -> (forall it, In it L -> In it (withPlace tokens)) ->
  tokens !! a = Some t ->
  (In (a, t) L -> length (List.filter (fun it => (it.1 =? a)%nat) L) = 1%nat) /\
  (~ In (a, t) L -> List.filter (fun it => (it.1 =? a)%nat) L = []).
Proof.
  intros Hnd Hsub Ha.
  assert (Hat : forall it, In it L -> (it.1 =? a)%nat = true -> it = (a, t)).
  { intros [i x] Hin E. simpl in E. apply Nat.eqb_eq in E. subst i.
    apply Hsub, In_withPlace in Hin. simpl in Hin. congruence. }
  split.
  - intros Hin. apply in_split in Hin as (l1 & l2 & ->).
    apply NoDup_app in Hnd as (_ & Hdis & Hnd2).
    apply NoDup_cons in Hnd2 as [Hnot2 _].
    rewrite List.filter_app. simpl. rewrite Nat.eqb_refl.
    assert (E1 : List.filter (fun it => (it.1 =? a)%nat) l1 = []).
    { apply existsb_filter_nil.
      destruct (existsb (fun it => (it.1 =? a)%nat) l1) eqn:E; [|reflexivity].
      apply existsb_exists in E as (it & Hit & Ea). exfalso.
      assert (it = (a, t)) by (apply Hat; [apply in_or_app; auto|exact Ea]).
      subst it. apply (Hdis (a, t)); [apply list_elem_of_In; exact Hit|].
      left. }
    assert (E2 : List.filter (fun it => (it.1 =? a)%nat) l2 = []).
    { apply existsb_filter_nil.
      destruct (existsb (fun it => (it.1 =? a)%nat) l2) eqn:E; [|reflexivity].
      apply existsb_exists in E as (it & Hit & Ea). exfalso.
      assert (it = (a, t))
        by (apply Hat; [apply in_or_app; right; right; exact Hit|exact Ea]).
      subst it. apply Hnot2. apply list_elem_of_In. exact Hit. }
    rewrite E1, E2. reflexivity.
  - intros Hnot. apply existsb_filter_nil.
    destruct (existsb (fun it => (it.1 =? a)%nat) L) eqn:E; [|reflexivity].
    apply existsb_exists in E as (it & Hit & Ea). exfalso.
    apply Hnot. rewrite <- (Hat it Hit Ea). exact Hit.
Qed.

Lemma In_slice tokens from to it :
  In it (slice from to (withPlace tokens)) <->
  tokens !! it.1 = Some it.2 /\ (from <= it.1 < to)%nat.
Proof.
  unfold slice. rewrite <- list_elem_of_In, elem_of_take. split.
  - intros (i & Hi & Hlt). rewrite lookup_drop in Hi.
    unfold withPlace in Hi. apply list_lookup_imap_Some in Hi as (x & Hx & ->).
    simpl. split; [exact Hx|lia].
  - intros [Hit Hr]. exists (it.1 - from)%nat. split; [|lia].
    rewrite lookup_drop. replace (from + (it.1 - from))%nat with it.1 by lia.
    unfold withPlace. apply list_lookup_imap_Some. exists it.2.
    split; [exact Hit|]. destruct it; reflexivity.
Qed.

Lemma NoDup_slice tokens from to : NoDup (slice from to (withPlace tokens)).
Proof.
  unfold slice. eapply sublist_NoDup; [apply NoDup_withPlace|].
  etransitivity; [apply sublist_take|apply sublist_drop].
Qed.

Lemma active_length (a : nat) (L : list (nat * TokenView)) :
  length (List.filter isActive (map (mark a) L))
    = length (List.filter (fun it => (it.1 =? a)%nat) L).
Proof. rewrite filter_map_swap, length_map. reflexivity. Qed.

(** The entries made from placed tokens that are visible. *)
Lemma marked_entries tokens a (L : list (nat * TokenView)) :
  (forall it, In it L -> In it (withPlace tokens) /\ visible it = true) ->
  Forall (fun sh =>
            isSpaceToken (Some (shown sh)) = false /\
            tokens !! displayIndex sh = Some (shown sh) /\
            isActive sh = (displayIndex sh =? a)%nat)
         (map (mark a) L).
Proof.
  intros H. apply Forall_forall. intros sh Hsh.
  apply list_elem_of_In, in_map_iff in Hsh as (it & <- & Hit).
  destruct (H it Hit) as [Hin Hv]. simpl.
  split; [apply negb_true_iff; exact Hv|].
  split; [apply In_withPlace; exact Hin|reflexivity].
Qed.

(** What a filter of the placed tokens contributes to the count of active
    entries. *)
Lemma filter_once tokens q a t :
  tokens !! a = Some t ->
  length (List.filter (fun it => (it.1 =? a)%nat)
                      (List.filter q (withPlace tokens)))
    = if q (a, t) then 1%nat else 0%nat.
Proof.
  intros Ha.
  assert (Hin : In (a, t) (withPlace tokens)) by (apply In_withPlace; exact Ha).
  destruct (place_once tokens (List.filter q (withPlace tokens)) a t)
    as (Hone & Hnone).
  - apply NoDup_filter_list, NoDup_withPlace.
  - intros it Hit. apply filter_In in Hit. apply Hit.
  - exact Ha.
  - destruct (q (a, t)) eqn:E.
    + apply Hone. apply filter_In. auto.
    + rewrite Hnone; [reflexivity|]. intros H. apply filter_In in H as [_ H].
      congruence.
Qed.

Lemma slice_once tokens from to a t :
  tokens !! a = Some t -> (from <= a < to)%nat ->
  length (List.filter (fun it => (it.1 =? a)%nat)
            (List.filter visible (slice from to (withPlace tokens))))
    = if visible (a, t) then 1%nat else 0%nat.
Proof.
  intros Ha Hr.
  destruct (place_once tokens
              (List.filter visible (slice from to (withPlace tokens))) a t)
    as (Hone & Hnone).
  - apply NoDup_filter_list, NoDup_slice.
  - intros it Hit. apply filter_In in Hit as [Hit _].
    apply In_slice in Hit as [Hit _]. apply In_withPlace. exact Hit.
  - exact Ha.
  - destruct (visible (a, t)) eqn:E.
    + apply Hone. apply filter_In. split; [|exact E].
      apply In_slice. simpl. auto.
    + rewrite Hnone; [reflexivity|]. intros H. apply filter_In in H as [_ H].
      congruence.
Qed.

Lemma lineIs_self delta t : delta <> 0 -> lineIs delta t t = false.
Proof.
  intros H. unfold lineIs. destruct (lineIndex t); [|reflexivity].
  apply Z.eqb_neq. lia.
Qed.

Lemma sameIndex_refl a : sameIndex a a = true.
Proof. apply sameIndex_eq. reflexivity. Qed.

End DisplayFacts.

(** X24. [getDisplayTokens] shows no space token; every entry carries the
    place of its token in the list of [getTokensByMode] as [displayIndex]
    and is marked active exactly if that place is the cursor (the last
    place, for a cursor past the end).  The token at the cursor is shown
    and marked active exactly once, unless it is a space token, in which
    case no entry is active. *)
Theorem getDisplayTokens_active (s : Editor.Session) :
  let tokens := Editor.getTokensByMode s in
  let entries := Display.getDisplayTokens s in
  Forall (fun sh =>
            Editor.isSpaceToken (Some (Display.shown sh)) = false /\
            tokens !! Display.displayIndex sh = Some (Display.shown sh) /\
            Display.isActive sh
              = (Display.displayIndex sh =? Display.activePlace s)%nat)
         entries /\
  forall t, tokens !! Display.activePlace s = Some t ->
    length (List.filter Display.isActive entries)
      = if Editor.isSpaceToken (Some t) then 0%nat else 1%nat.
Proof.
  intros tokens entries. subst entries.
  unfold Display.getDisplayTokens, Display.activePlace. fold tokens.
  set (a := Nat.min (Editor.activeTokenIndex s) (length tokens - 1)).
  destruct (Nat.eqb_spec (length tokens) 0) as [Hzero|Hsome].
  { split; [constructor|]. intros t Ht. apply lookup_lt_Some in Ht. lia. }
  assert (Ha : (a < length tokens)%nat) by lia.
  assert (Hvis : forall t, (if Display.visible (a, t) then 1%nat else 0%nat)
                   = if Editor.isSpaceToken (Some t) then 0%nat else 1%nat).
  { intros t. unfold Display.visible. cbn [snd].
    destruct (Editor.isSpaceToken (Some t)); reflexivity. }
  assert (Hslice : forall from to,
            (from <= a < to)%nat ->
            Forall (fun sh =>
                      Editor.isSpaceToken (Some (Display.shown sh)) = false /\
                      tokens !! Display.displayIndex sh
                        = Some (Display.shown sh) /\
                      Display.isActive sh = (Display.displayIndex sh =? a)%nat)
              (map (Display.mark a)
                   (List.filter Display.visible
                      (Display.slice from to (Display.withPlace tokens)))) /\
            forall t, tokens !! a = Some t ->
              length (List.filter Display.isActive
                        (map (Display.mark a)
                           (List.filter Display.visible
                              (Display.slice from to
                                 (Display.withPlace tokens)))))
                = if Editor.isSpaceToken (Some t) then 0%nat else 1%nat).
  { intros from to Hr. split.
    - apply marked_entries. intros it Hit. apply filter_In in Hit as [Hit Hv].
      apply In_slice in Hit as [Hit _]. split; [|exact Hv].
      apply In_withPlace. exact Hit.
    - intros t Ht. rewrite active_length, (slice_once tokens from to a t Ht Hr).
      apply Hvis. }
  destruct (Editor.recordingMode s).
  - apply Hslice. lia.
  - apply Hslice. lia.
  - destruct (lookup_lt_is_Some_2 tokens a Ha) as [activeToken Hat].
    rewrite Hat. split.
    + apply marked_entries. intros it Hit.
      repeat (apply in_app_or in Hit as [Hit|Hit]);
        apply filter_In in Hit as [Hit Hq];
        apply andb_prop in Hq as [_ Hv]; auto.
    + intros t Ht. assert (t = activeToken) by congruence. subst t.
      rewrite active_length, !List.filter_app, !length_app.
      rewrite !(filter_once tokens _ a activeToken Hat). simpl.
      rewrite !sameIndex_refl, !lineIs_self by lia. simpl.
      rewrite ?Nat.add_0_r. apply Hvis.
  - destruct (lookup_lt_is_Some_2 tokens a Ha) as [activeToken Hat].
    rewrite Hat. split.
    + apply marked_entries. intros it Hit.
      apply filter_In in Hit as [Hit Hq].
      apply andb_prop in Hq as [_ Hv]. auto.
    + intros t Ht. assert (t = activeToken) by congruence. subst t.
      rewrite active_length, (filter_once tokens _ a activeToken Hat). simpl.
      rewrite !sameIndex_refl. simpl. apply Hvis.
Qed.

(** The clock of [generateLinearTiming] is a binary64 number.  With two
    words of seven characters and an audio of 1.875 s the first word ends
    at 937, where the rational number 937.5 would be rounded to 938; with
    words of five and one characters and an audio of 6.3125 s the last word
    ends at 6312, where 6312.5 would be rounded to 6313. *)
Lemma generateLinearTiming_rounds :
  (exists json',
     Playback.generateLinearTiming (15 # 8) Linear.sevens = Normal json' /\
     map (fun word => stamps (word_tok word)) (Editor.allWords (blocks json'))
       = [(0, 937); (937, 1875)] /\
     Math_round (7 * ((15 # 8) * 1000 / 14)) = 938) /\
  (exists json',
     Playback.generateLinearTiming (101 # 16) Linear.fiveOne = Normal json' /\
     map (fun word => stamps (word_tok word)) (Editor.allWords (blocks json'))
       = [(0, 5260); (5260, 6312)] /\
     Math_round ((101 # 16) * 1000) = 6313).
Proof.
  split; eexists; (split; [vm_compute; reflexivity|]); split; reflexivity.
Qed.

(** ** Linear fall-back timing: the audio is tiled *)



(** ** Linear fall-back timing: the text, and running it again *)

Section LetterFacts.
Import Editor Playback Linear Letters.

Lemma threadTime_Forall2 {A : Type} (f : Q -> A -> A * Q)
    (ok : A -> Prop) (R : A -> A -> Prop) (xs : list A) :
  (forall cur x, ok x -> R x (f cur x).1) ->
  Forall ok xs -> forall cur, Forall2 R xs (threadTime f cur xs).1.
Proof.
  intros HR Hok. induction Hok as [|x xs Hx _ IH]; intros cur; simpl;
    [constructor|].
  pose proof (HR cur x Hx) as H. destruct (f cur x) as [x' t1].
  specialize (IH t1). destruct (threadTime f t1 xs) as [xs' t2].
  simpl in *. constructor; assumption.
Qed.

Lemma threadTime_again {A : Type} (f : Q -> A -> A * Q) (xs : list A) :
  (forall cur x, f cur (f cur x).1 = f cur x) ->
  forall cur, threadTime f cur (threadTime f cur xs).1 = threadTime f cur xs.
Proof.
  intros Hf. induction xs as [|x xs IH]; intros cur; simpl; [reflexivity|].
  pose proof (Hf cur x) as Hx. destruct (f cur x) as [x' t1] eqn:Ex.
  specialize (IH t1). destruct (threadTime f t1 xs) as [xs' t2] eqn:Exs.
  simpl in *. rewrite Hx, IH. reflexivity.
Qed.

Lemma text_imap_chars (w : Token) (g : nat -> string -> Z * Z) (cs : list string) :
  map text (imap (fun index char =>
                    mkToken char (g index char).1 (g index char).2
                            (jsor (voice w) 0) (position w)) cs)
    = cs.
Proof.
  induction cs as [|c cs IH] using rev_ind; [reflexivity|].
  rewrite imap_snoc, map_app, IH. reflexivity.
Qed.

Lemma timeWord_kept ms cur word : wordKept word (timeWord ms cur word).1.
Proof.
  unfold wordKept, timeWord. simpl. split; [reflexivity|]. f_equal.
  apply (text_imap_chars (word_tok word)
           (fun index _ =>
              let perChar :=
                Double.div (Double.mul (inject_Z (textLength word)) ms)
                           (inject_Z (textLength word)) in
              (Math_round
                 (Double.add cur
                    (Double.mul (inject_Z (Z.of_nat index)) perChar)),
               Math_round
                 (Double.add cur
                    (Double.mul (inject_Z (Z.of_nat index + 1)) perChar))))).
Qed.

Lemma timeLine_kept ms cur line :
  hasWords line -> lineKept line (timeLine ms cur line).1.
Proof.
  intros [ws Hws]. unfold lineKept, timeLine, wordsOrEmpty. rewrite Hws.
  pose proof (threadTime_Forall2 (timeWord ms) (fun _ => True) wordKept ws
                (fun c w _ => timeWord_kept ms c w)
                (proj2 (Forall_forall _ _) (fun _ _ => I)) cur) as H.
  destruct (threadTime (timeWord ms) cur ws) as [ws' t]. simpl in *.
  split; [reflexivity|]. split; [exact H|]. eexists. reflexivity.
Qed.

Lemma timeBlock_kept ms cur block :
  Forall hasWords (lines block) -> blockKept block (timeBlock ms cur block).1.
Proof.
  intros Hok. unfold blockKept, timeBlock.
  pose proof (threadTime_Forall2 (timeLine ms) hasWords lineKept (lines block)
                (fun c l H => timeLine_kept ms c l H) Hok cur) as H.
  destruct (threadTime (timeLine ms) cur (lines block)) as [ls t].
  simpl in *. split; [reflexivity|exact H].
Qed.

Lemma timeWord_again ms cur word :
  timeWord ms cur (timeWord ms cur word).1 = timeWord ms cur word.
Proof. reflexivity. Qed.

Lemma timeLine_again ms cur line :
  timeLine ms cur (timeLine ms cur line).1 = timeLine ms cur line.
Proof.
  unfold timeLine. destruct (words line) as [ws|] eqn:E; [|simpl; rewrite E; reflexivity].
  pose proof (threadTime_again (timeWord ms) ws (timeWord_again ms) cur) as H.
  destruct (threadTime (timeWord ms) cur ws) as [ws' t] eqn:Et.
  simpl in *. rewrite H. reflexivity.
Qed.

Lemma timeBlock_again ms cur block :
  timeBlock ms cur (timeBlock ms cur block).1 = timeBlock ms cur block.
Proof.
  unfold timeBlock.
  pose proof (threadTime_again (timeLine ms) (lines block)
                (timeLine_again ms) cur) as H.
  destruct (threadTime (timeLine ms) cur (lines block)) as [ls t] eqn:Et.
  simpl in *. rewrite H. reflexivity.
Qed.

Lemma Forall2_concat_map {A B : Type} (R : B -> B -> Prop)
    (h : A -> list B) (xs ys : list A) :
  Forall2 (fun x y => Forall2 R (h x) (h y)) xs ys ->
  Forall2 R (concat (map h xs)) (concat (map h ys)).
Proof.
  induction 1 as [|x y xs ys Hxy _ IH]; simpl; [constructor|].
  apply Forall2_app; assumption.
Qed.

Lemma kept_words bs bs' :
  Forall2 blockKept bs bs' ->
  Forall2 wordKept (allWords bs) (allWords bs').
Proof.
  intros H. unfold allWords. apply Forall2_concat_map.
  eapply Forall2_weaken; [|exact H]. intros b b' [_ Hl].
  apply Forall2_concat_map.
  eapply Forall2_weaken; [|exact Hl]. intros l l' (_ & Hw & _). exact Hw.
Qed.

Lemma kept_size bs bs' :
  Forall2 blockKept bs bs' ->
  map wordSize (allWords bs') = map wordSize (allWords bs).
Proof.
  intros H. apply kept_words in H.
  induction H as [|w w' ws ws' [Hw _] _ IH]; simpl; [reflexivity|].
  unfold wordSize at 1 3. rewrite Hw, IH. reflexivity.
Qed.

Lemma Forall2_right {A : Type} (R : A -> A -> Prop) (xs ys : list A) (y : A) :
  Forall2 R xs ys -> List.In y ys -> exists x, List.In x xs /\ R x y.
Proof.
  induction 1 as [|x y' xs ys Hxy _ IH]; simpl; [tauto|].
  intros [<-|Hin]; [exists x; auto|].
  destruct (IH Hin) as (x0 & H0 & HR). exists x0; auto.
Qed.

Lemma kept_present bs bs' :
  Forall2 blockKept bs bs' ->
  forallb (fun line => bool_decide (is_Some (words line))) (allLines bs')
    = true.
Proof.
  intros H. apply forallb_forall. intros l' Hl'.
  apply bool_decide_eq_true.
  unfold allLines in Hl'. apply in_concat in Hl' as (ls & Hls & Hl').
  apply in_map_iff in Hls as (b' & <- & Hb').
  destruct (Forall2_right _ _ _ _ H Hb') as (b & _ & _ & Hlines).
  destruct (Forall2_right _ _ _ _ Hlines Hl') as (l & _ & _ & _ & Hsome).
  exact Hsome.
Qed.

Lemma generated_kept ms json :
  Tree.wordsPresent json = true ->
  Forall2 blockKept (blocks json)
          (threadTime (timeBlock ms) 0%Q (blocks json)).1.
Proof.
  intros Hw.
  apply (threadTime_Forall2 (timeBlock ms)
           (fun block => Forall hasWords (lines block))).
  - intros c b H. apply timeBlock_kept. exact H.
  - apply wordsPresent_Forall. exact Hw.
Qed.

End LetterFacts.

(** X26. [generateLinearTiming] changes no text: every block, line and word
    keeps its text, and every word gets as its [chars] the characters of
    its text, one token for each, in order. *)
Theorem generateLinearTiming_keeps_text (duration : Q) (json : Document) :
  (0 < duration)%Q ->
  Tree.wordsPresent json = true ->
  Linear.totalLength json <> 0%nat ->
  exists json',
    Playback.generateLinearTiming duration json = Normal json' /\
    Forall2 Letters.blockKept (blocks json) (blocks json').
Proof.
  intros Hd Hw Hn. eexists. split;
    [apply (generateLinearTiming_runs duration json Hd Hw Hn)|].
  simpl. apply generated_kept. exact Hw.
Qed.

Lemma generateLinearTiming_keeps_text_witness :
  exists json',
    Playback.generateLinearTiming 8 Linear.scenarioC = Normal json' /\
    Forall2 Letters.blockKept (blocks Linear.scenarioC) (blocks json') /\
    map text (Editor.allChars (blocks json'))
      = ["a"; "b"; "c"; "d"; "e"; "f"; "g"; "h"].
Proof.
  destruct (generateLinearTiming_keeps_text 8 Linear.scenarioC)
    as (json' & E & H); [reflexivity|reflexivity|discriminate|].
  exists json'. split; [exact E|]. split; [exact H|].
  vm_compute in E. injection E as <-. reflexivity.
Defined.

(** X27. Linear timing is stable: running [generateLinearTiming] on its own
    result, for the same audio length, returns that result unchanged, and
    so does [processedLyricsJson]. *)
Theorem generateLinearTiming_again (duration : Q) (json : Document) :
  (0 < duration)%Q ->
  Tree.wordsPresent json = true ->
  exists json',
    Playback.generateLinearTiming duration json = Normal json' /\
    Playback.generateLinearTiming duration json' = Normal json' /\
    Playback.processedLyricsJson duration json' = Normal json'.
Proof.
  intros Hd Hw.
  assert (Hstep : forall d, Playback.generateLinearTiming duration d = Normal d ->
            Playback.processedLyricsJson duration d = Normal d).
  { intros d H. unfold Playback.processedLyricsJson.
    destruct (Playback.hasTimingData d); [reflexivity|exact H]. }
  destruct (Nat.eq_dec (Linear.totalLength json) 0%nat) as [Hz|Hn].
  - assert (E : Playback.generateLinearTiming duration json = Normal json).
    { unfold Playback.generateLinearTiming.
      rewrite (positive_duration_nonzero duration Hd).
      rewrite (totalChars_ok json (wordsPresent_Forall json Hw)).
      rewrite <- totalLength_blocks, Hz. reflexivity. }
    exists json. auto.
  - set (ms := Double.div (Double.mul duration 1000)
                  (inject_Z (Z.of_nat (Linear.totalLength json)))).
    set (bs' := (Playback.threadTime (Playback.timeBlock ms) 0%Q
                   (blocks json)).1).
    exists (set_blocks json bs').
    pose proof (generated_kept ms json Hw) as Hkept. fold bs' in Hkept.
    assert (Hw' : Tree.wordsPresent (set_blocks json bs') = true)
      by (apply (kept_present _ _ Hkept)).
    assert (Hn' : Linear.totalLength (set_blocks json bs')
                  = Linear.totalLength json).
    { unfold Linear.totalLength. simpl. rewrite (kept_size _ _ Hkept).
      reflexivity. }
    assert (E2 : Playback.generateLinearTiming duration (set_blocks json bs')
                 = Normal (set_blocks json bs')).
    { rewrite (generateLinearTiming_runs duration _ Hd Hw')
        by (rewrite Hn'; exact Hn).
      rewrite Hn'. fold ms. simpl. subst bs'.
      rewrite (threadTime_again _ _ (timeBlock_again ms)). reflexivity. }
    split; [apply (generateLinearTiming_runs duration json Hd Hw Hn)|].
    split; [exact E2|]. apply Hstep. exact E2.
Qed.

Lemma generateLinearTiming_again_witness :
  exists json',
    Playback.generateLinearTiming 8 Linear.scenarioC = Normal json' /\
    Playback.generateLinearTiming 8 json' = Normal json' /\
    Playback.processedLyricsJson 8 json' = Normal json'.
Proof.
  apply (generateLinearTiming_again 8 Linear.scenarioC); reflexivity.
Defined.
